(** * The ROCclr monitor (rocclr/thread/monitor.{hpp,cpp})

    A shallow embedding of [amd::legacy_monitor::Monitor], the hybrid
    spin / queue / park lock with its wait / notify queue, and the proofs of
    the properties its specification states.

    The monitor is shared between threads.  An operation is embedded as a
    function of the thread that runs it, in a small state monad: the state
    holds the shared memory (the monitor object and the linked nodes that
    live on the stacks of blocked threads), an _oracle_ for what the other
    threads and the hardware do, and the log of the calls the running thread
    makes to the operating system and to semaphores.  Before every access to
    a [std::atomic] the next entry of the oracle is consumed: its function
    is applied to the shared memory (whatever the other threads did since
    the previous access of this thread) and its flag tells whether a
    [compare_exchange_weak] fails spuriously.  An exhausted oracle is a
    quiet environment.  The interleaving is sequentially consistent, so the
    memory orders and the fences of the source have no counterpart here.

    Loops that the source writes [for (;;)] or [while] take fuel; running out
    of it is the outcome [OutOfFuel], and the state reached so far is still
    returned. *)

From Stdlib Require Import ZArith Lia Bool List.
From stdpp Require Import base tactics option list gmap.

Local Open Scope Z_scope.

(** ** Data *)

(** [static constexpr] members of [Monitor] (monitor.hpp). *)
Definition kLockBit : Z := 1.
Definition kMaxSpinIter : Z := 55.
Definition kMaxReadSpinIter : Z := 50.

(** [details::SimplyLinkedNode<Semaphore*, StackObject>]: [next_] is the
    address of the next node, [item_] the address of a semaphore. *)
Record LinkedNode := mkNode { next_ : Z; item_ : Z }.

#[global] Instance LinkedNode_inhabited : Inhabited LinkedNode :=
  populate (mkNode 0 0).

(** The fields of [legacy_monitor::Monitor].  [contendersList_] and [onDeck_]
    are [intptr_t]; the bit operations of the source ([|], [&], [~]) are
    those of [Z] on the two's complement reading and never leave the range.
    [lockCount_] is a [uint32_t], [owner_] a [Thread*] (0 for [NULL]). *)
Record Monitor := mkMonitor {
  contendersList_ : Z;
  onDeck_ : Z;
  waitersList_ : Z;
  owner_ : Z;
  lockCount_ : Z;
  recursive_ : bool
}.

(** The shared memory: the monitor and the nodes, by address.  An address
    that was never written reads as a zeroed node. *)
Record World := mkWorld { mon : Monitor; nodes : gmap Z LinkedNode }.

(** What the monitor needs from [Thread]: its address ([Thread::current()])
    and the addresses of its two semaphores. *)
Record Thread := mkThread { self : Z; lockSemaphore : Z; suspendSemaphore : Z }.

(** Calls to the collaborators, in the order the running thread makes them. *)
Inductive event :=
| EvReset (sem : Z)
| EvWait (sem : Z)
| EvTimedWait (sem : Z) (ms : Z)
| EvPost (sem : Z)
| EvSpinPause
| EvYield.

(** One entry of the oracle. *)
Record Interference := mkInterference {
  interfere : World -> World;
  spurious : bool
}.

Record State := mkState {
  world : World;
  oracle : list Interference;
  trace : list event
}.

Inductive outcome (A : Type) :=
| Done (a : A)
| AssertFailed
| OutOfFuel.
Arguments Done {A} a.
Arguments AssertFailed {A}.
Arguments OutOfFuel {A}.

Definition M (A : Type) : Type := State -> outcome A * State.

Definition ret {A} (a : A) : M A := fun s => (Done a, s).

Definition bind {A B} (m : M A) (k : A -> M B) : M B :=
  fun s =>
    match m s with
    | (Done a, s') => k a s'
    | (AssertFailed, s') => (AssertFailed, s')
    | (OutOfFuel, s') => (OutOfFuel, s')
    end.

Declare Scope monitor_scope.
Delimit Scope monitor_scope with mon.
Notation "x <- m ;; k" := (bind m (fun x => k))
  (at level 100, m at next level, right associativity) : monitor_scope.
Notation "m ;;; k" := (bind m (fun _ => k))
  (at level 100, right associativity) : monitor_scope.
Local Open Scope monitor_scope.

Definition abort {A} : M A := fun s => (AssertFailed, s).
Definition out_of_fuel {A} : M A := fun s => (OutOfFuel, s).

(** [for (;;)]: the body either continues with a new loop state or leaves
    the loop with a result. *)
Fixpoint loop {A B} (fuel : nat) (body : A -> M (A + B)) (a : A) : M B :=
  match fuel with
  | O => out_of_fuel
  | S fuel' =>
      r <- body a ;;
      match r with
      | inl a' => loop fuel' body a'
      | inr b => ret b
      end
  end.

Definition continue {A B} (a : A) : M (A + B) := ret (inl a).
Definition break {A B} (b : B) : M (A + B) := ret (inr b).

(** *** Shared memory *)

Definition getMonitor : M Monitor := fun s => (Done (mon (world s)), s).
Definition getNodes : M (gmap Z LinkedNode) := fun s => (Done (nodes (world s)), s).

Definition modifyWorld (f : World -> World) : M unit :=
  fun s => (Done tt, mkState (f (world s)) (oracle s) (trace s)).

Definition emit (e : event) : M unit :=
  fun s => (Done tt, mkState (world s) (oracle s) (trace s ++ [e])).

(** The other threads run; the result is the spurious-failure flag. *)
Definition envStep : M bool :=
  fun s =>
    match oracle s with
    | [] => (Done false, s)
    | i :: o => (Done (spurious i), mkState (interfere i (world s)) o (trace s))
    end.

Definition set_contendersList (v : Z) (w : World) : World :=
  let m := mon w in
  mkWorld (mkMonitor v (onDeck_ m) (waitersList_ m) (owner_ m) (lockCount_ m) (recursive_ m))
          (nodes w).
Definition set_onDeck (v : Z) (w : World) : World :=
  let m := mon w in
  mkWorld (mkMonitor (contendersList_ m) v (waitersList_ m) (owner_ m) (lockCount_ m) (recursive_ m))
          (nodes w).
Definition set_waitersList (v : Z) (w : World) : World :=
  let m := mon w in
  mkWorld (mkMonitor (contendersList_ m) (onDeck_ m) v (owner_ m) (lockCount_ m) (recursive_ m))
          (nodes w).
Definition set_owner (v : Z) (w : World) : World :=
  let m := mon w in
  mkWorld (mkMonitor (contendersList_ m) (onDeck_ m) (waitersList_ m) v (lockCount_ m) (recursive_ m))
          (nodes w).
Definition set_lockCount (v : Z) (w : World) : World :=
  let m := mon w in
  mkWorld (mkMonitor (contendersList_ m) (onDeck_ m) (waitersList_ m) (owner_ m) v (recursive_ m))
          (nodes w).
Definition set_node (p : Z) (n : LinkedNode) (w : World) : World :=
  mkWorld (mon w) (<[p := n]> (nodes w)).

Definition node_at (w : World) (p : Z) : LinkedNode := nodes w !!! p.

(** [std::atomic_intptr_t contendersList_] *)
Definition load_contendersList : M Z :=
  _ <- envStep ;; m <- getMonitor ;; ret (contendersList_ m).

(** [contendersList_.compare_exchange_weak(expected, desired)]: the result
    is the success flag and the value left in [expected]. *)
Definition cas_weak_contendersList (expected desired : Z) : M (bool * Z) :=
  fails <- envStep ;;
  m <- getMonitor ;;
  if (contendersList_ m =? expected) && negb fails
  then modifyWorld (set_contendersList desired) ;;; ret (true, expected)
  else ret (false, contendersList_ m).

(** [std::atomic_intptr_t onDeck_] *)
Definition load_onDeck : M Z :=
  _ <- envStep ;; m <- getMonitor ;; ret (onDeck_ m).

Definition store_onDeck (v : Z) : M unit :=
  _ <- envStep ;; modifyWorld (set_onDeck v).

(** [onDeck_.compare_exchange_strong(expected, desired)] *)
Definition cas_strong_onDeck (expected desired : Z) : M (bool * Z) :=
  _ <- envStep ;;
  m <- getMonitor ;;
  if onDeck_ m =? expected
  then modifyWorld (set_onDeck desired) ;;; ret (true, expected)
  else ret (false, onDeck_ m).

(** The plain fields: [waitersList_], [owner_], [lockCount_]. *)
Definition setOwner (thread : Z) : M unit := modifyWorld (set_owner thread).
Definition write_lockCount (v : Z) : M unit := modifyWorld (set_lockCount v).
Definition write_waitersList (v : Z) : M unit := modifyWorld (set_waitersList v).

(** [SimplyLinkedNode]: [next_] is a [std::atomic<Node*>], [item_] is not. *)
Definition next (p : Z) : M Z :=
  _ <- envStep ;; h <- getNodes ;; ret (next_ (h !!! p)).
Definition item (p : Z) : M Z :=
  h <- getNodes ;; ret (item_ (h !!! p)).
Definition setNext (p v : Z) : M unit :=
  _ <- envStep ;; h <- getNodes ;;
  modifyWorld (set_node p (mkNode v (item_ (h !!! p)))).
Definition setItem (p v : Z) : M unit :=
  h <- getNodes ;;
  modifyWorld (set_node p (mkNode (next_ (h !!! p)) v)).

(** [uint32_t] arithmetic. *)
Definition wrap32 (x : Z) : Z := x mod 2 ^ 32.

(** [int32_t] arithmetic: the counter [spinCount] of the sleep loops.  On
    the two's complement machines the code is built for, [spinCount++] at
    [INT32_MAX] gives [INT32_MIN]. *)
Definition wrapInt32 (x : Z) : Z := (x + 2 ^ 31) mod 2 ^ 32 - 2 ^ 31.

(** *** Collaborators: semaphores and the operating system

    [Semaphore] and [Os] are not part of the two files.  A call is embedded
    as the event it logs, and returns at once.  For [Semaphore::wait] this
    is less than the semaphore does, which keeps the thread until it is
    posted: of a run that has called [Semaphore_wait], only what happens up
    to that call is a statement about the program.  The theorems that say
    that an operation returns are about runs that never call it, or say
    what holds if the operation returns. *)
Definition Semaphore_reset (sem : Z) : M unit := emit (EvReset sem).
Definition Semaphore_wait (sem : Z) : M unit := emit (EvWait sem).
Definition Semaphore_timedWait (sem ms : Z) : M unit := emit (EvTimedWait sem ms).
Definition Semaphore_post (sem : Z) : M unit := emit (EvPost sem).
Definition Os_spinPause : M unit := emit EvSpinPause.
Definition Thread_yield : M unit := emit EvYield.

(** ** The operations *)

Section Operations.

(** Whether assertions are compiled in: the [assert] statements and the
    [#ifdef ASSERT] block of [finishUnlock].  The macros are defined outside
    the two files at hand, so the build flavour is a parameter. *)
Variable ASSERT : bool.

Definition assert (cond : M bool) : M unit :=
  if ASSERT then (b <- cond ;; if b then ret tt else abort) else ret tt.

(** [Monitor::Monitor(bool recursive)].  The constructor leaves [lockCount_]
    uninitialised: [garbage] is what the memory held. *)
Definition Monitor_new (recursive : bool) (garbage : Z) : Monitor :=
  mkMonitor 0 0 0 0 garbage recursive.

(** [bool isLocked() const] *)
Definition isLocked : M bool :=
  c <- load_contendersList ;; ret (negb (Z.land c kLockBit =? 0)).

(** [bool Monitor::tryLock()] *)
Definition tryLock (thread : Thread) : M bool :=
  assert (ret (negb (self thread =? 0))) ;;;
  ptr <- load_contendersList ;;
  if negb (Z.land ptr kLockBit =? 0) then
    m <- getMonitor ;;
    if recursive_ m && (self thread =? owner_ m) then
      (* Recursive lock: increment the lock count and return. *)
      write_lockCount (wrap32 (lockCount_ m + 1)) ;;;
      ret true
    else ret false (* Already locked! *)
  else
    r <- cas_weak_contendersList ptr (Z.lor ptr kLockBit) ;;
    if negb (fst r) then ret false (* We failed the CAS from unlocked to locked. *)
    else
      setOwner (self thread) ;;;
      write_lockCount 1 ;;;
      ret true.

(** The body of the [for] loop of [trySpinLock], with [n] iterations to go:
    the loop variable [s] is [Z.of_nat n]. *)
Fixpoint trySpinLock_for (thread : Thread) (n : nat) : M bool :=
  match n with
  | O => ret false (* We could not acquire the lock in the spin loop. *)
  | S n' =>
      (if Z.of_nat n >=? kMaxSpinIter - kMaxReadSpinIter
       then Os_spinPause (* First, be SMT friendly *)
       else Thread_yield (* and then SMP friendly *)) ;;;
      locked <- isLocked ;;
      if negb locked then tryLock thread
      else trySpinLock_for thread n'
  end.

(** [bool Monitor::trySpinLock()] *)
Definition trySpinLock (thread : Thread) : M bool :=
  b <- tryLock thread ;;
  if b then ret true
  else trySpinLock_for thread (Z.to_nat kMaxSpinIter).

(** The back-off that [finishLock] and [wait] repeat in their loops: pause,
    then yield, then sleep. *)
Definition backOff (spinCount : Z) (sleep : M unit) : M unit :=
  if spinCount <? kMaxReadSpinIter then Os_spinPause
  else if spinCount <? kMaxSpinIter then Thread_yield
  else sleep.

(** [void Monitor::finishLock()]; [newHead] is the address of the local
    node. *)
Definition finishLock (fuel : nat) (thread : Thread) (newHead : Z) : M unit :=
  assert (ret (negb (self thread =? 0))) ;;;
  b <- trySpinLock thread ;;
  if b then ret tt (* We succeeded, we are done. *)
  else
    let semaphore := lockSemaphore thread in
    Semaphore_reset semaphore ;;;
    setItem newHead semaphore ;;;
    head <- load_contendersList ;;
    acquired <-
      loop fuel (fun head =>
        if Z.land head kLockBit =? 0 then
          b <- tryLock thread ;;
          if b then break true else continue head
        else
          setNext newHead (Z.land head (Z.lnot kLockBit)) ;;;
          r <- cas_weak_contendersList head (Z.lor newHead kLockBit) ;;
          if fst r then break false
          else Thread_yield ;;; continue (snd r)) head ;;
    if (acquired : bool) then ret tt
    else
      (* Go to sleep until we become the on-deck thread. *)
      loop fuel (fun spinCount =>
        d <- load_onDeck ;;
        if negb (Z.land d (Z.lnot kLockBit) =? semaphore) then
          backOff spinCount (Semaphore_wait semaphore) ;;;
          continue (wrapInt32 (spinCount + 1))
        else break tt) 0 ;;;
      (* From now on, we are the on-deck thread. *)
      loop fuel (fun spinCount =>
        assert (d <- load_onDeck ;; ret (Z.land d (Z.lnot kLockBit) =? semaphore)) ;;;
        b <- tryLock thread ;;
        if b then break tt
        else
          backOff spinCount (Semaphore_wait semaphore) ;;;
          continue (wrapInt32 (spinCount + 1))) 0 ;;;
      assert (n <- next newHead ;; ret (n =? 0)) ;;;
      store_onDeck 0.

(** [void Monitor::lock()] *)
Definition lock (fuel : nat) (thread : Thread) (newHead : Z) : M unit :=
  b <- tryLock thread ;;
  if negb b then finishLock fuel thread newHead (* The lock is contented. *)
  else ret tt.

(** [void Monitor::finishUnlock()] *)
Definition finishUnlock (fuel : nat) : M unit :=
  loop fuel (fun _ : unit =>
    (* Grab the onDeck_ microlock. *)
    r <- cas_strong_onDeck 0 (Z.lor 0 kLockBit) ;;
    if negb (fst r) then break tt (* Somebody else has the microlock. *)
    else
      head <- load_contendersList ;;
      head <-
        loop fuel (fun head =>
          if head =? 0 then break head (* There's nothing else to do. *)
          else if negb (Z.land head kLockBit =? 0) then break 0
          else
            n <- next head ;;
            r <- cas_weak_contendersList head n ;;
            if fst r then
              (if ASSERT then setNext head 0 else ret tt) ;;;
              break head
            else continue (snd r)) head ;;
      semaphore <- (if negb (head =? 0) then item head else ret 0) ;;
      store_onDeck semaphore ;;;
      (* Release the onDeck_ microlock (end of critical region). *)
      if negb (semaphore =? 0) then
        Semaphore_post semaphore ;;;
        break tt
      else
        head <- load_contendersList ;;
        if (head =? 0) || negb (Z.land head kLockBit =? 0) then break tt
        else continue tt) tt.

(** [void Monitor::unlock()] *)
Definition unlock (fuel : nat) (thread : Thread) : M unit :=
  assert (l <- isLocked ;; m <- getMonitor ;; ret (l && (owner_ m =? self thread))) ;;;
  m <- getMonitor ;;
  stillHeld <-
    (if recursive_ m then
       write_lockCount (wrap32 (lockCount_ m - 1)) ;;;
       ret (wrap32 (lockCount_ m - 1) >? 0)
     else ret false) ;;
  if (stillHeld : bool) then ret tt (* was a recursive lock case, simply return. *)
  else
    setOwner 0 ;;;
    (* Clear the lock bit. *)
    ptr <- load_contendersList ;;
    loop fuel (fun ptr =>
      r <- cas_weak_contendersList ptr (Z.land ptr (Z.lnot kLockBit)) ;;
      if fst r then break tt else continue (snd r)) ptr ;;;
    (* Check if we have an on-deck thread that needs signaling. *)
    onDeck <- load_onDeck ;;
    if negb (onDeck =? 0) then
      if Z.land onDeck kLockBit =? 0
      then Semaphore_post onDeck (* Only signal if it is unmarked. *)
      else ret tt
    else
      head <- load_contendersList ;;
      if (head =? 0) || negb (Z.land head kLockBit =? 0) then ret tt
      else finishUnlock fuel. (* find a thread to wake up. *)

(** [void Monitor::wait()], up to the call of [unlock]: the node is linked
    in front of [waitersList_], and the lock count is saved (the result). *)
Definition wait_enqueue (thread : Thread) (newHead : Z) : M Z :=
  let suspend := suspendSemaphore thread in
  Semaphore_reset suspend ;;;
  setItem newHead suspend ;;;
  m <- getMonitor ;;
  setNext newHead (waitersList_ m) ;;;
  write_waitersList newHead ;;;
  (* Preserve the lock count (for recursive mutexes) *)
  m <- getMonitor ;;
  write_lockCount 1 ;;;
  ret (lockCount_ m).

(** [void Monitor::wait()], after the call of [unlock]. *)
Definition wait_resume (fuel : nat) (thread : Thread) (lockCount : Z) : M unit :=
  let suspend := suspendSemaphore thread in
  (* Go to sleep until we become the on-deck thread. *)
  loop fuel (fun spinCount =>
    d <- load_onDeck ;;
    if negb (Z.land d (Z.lnot kLockBit) =? suspend) then
      backOff spinCount (Semaphore_timedWait suspend 10) ;;;
      continue (wrapInt32 (spinCount + 1))
    else break tt) 0 ;;;
  loop fuel (fun spinCount =>
    assert (d <- load_onDeck ;; ret (Z.land d (Z.lnot kLockBit) =? suspend)) ;;;
    b <- trySpinLock thread ;;
    if b then break tt
    else
      backOff spinCount (Semaphore_wait suspend) ;;;
      continue (wrapInt32 (spinCount + 1))) 0 ;;;
  (* Restore the lock count (for recursive mutexes) *)
  write_lockCount lockCount ;;;
  store_onDeck 0.

(** [void Monitor::wait()] *)
Definition wait (fuel : nat) (thread : Thread) (newHead : Z) : M unit :=
  assert (l <- isLocked ;; m <- getMonitor ;; ret (l && (owner_ m =? self thread))) ;;;
  lockCount <- wait_enqueue thread newHead ;;
  (* Release the lock and go to sleep. *)
  unlock fuel thread ;;;
  wait_resume fuel thread lockCount.

(** [void Monitor::notify()] *)
Definition notify (fuel : nat) (thread : Thread) : M unit :=
  assert (l <- isLocked ;; m <- getMonitor ;; ret (l && (owner_ m =? self thread))) ;;;
  m <- getMonitor ;;
  let waiter := waitersList_ m in
  if waiter =? 0 then ret tt
  else
    (* Dequeue a waiter from the wait list and add it to the contention list. *)
    n <- next waiter ;;
    write_waitersList n ;;;
    node <- load_contendersList ;;
    loop fuel (fun node =>
      setNext waiter (Z.land node (Z.lnot kLockBit)) ;;;
      r <- cas_weak_contendersList node (Z.lor waiter kLockBit) ;;
      if fst r then break tt else continue (snd r)) node.

(** [void Monitor::notifyAll()] *)
Definition notifyAll (fuel : nat) (thread : Thread) : M unit :=
  loop fuel (fun _ : unit =>
    m <- getMonitor ;;
    if negb (waitersList_ m =? 0) then notify fuel thread ;;; continue tt
    else break tt) tt.

End Operations.

(** ** Notions used by the statements *)

(** The state after the next interference of the environment, and the flag
    that comes with it. *)
Definition afterEnv (s : State) : State :=
  match oracle s with
  | [] => s
  | i :: o => mkState (interfere i (world s)) o (trace s)
  end.

Definition spuriousNow (s : State) : bool :=
  match oracle s with
  | [] => false
  | i :: _ => spurious i
  end.

Definition withWorld (f : World -> World) (s : State) : State :=
  mkState (f (world s)) (oracle s) (trace s).

(** The LOCK bit of a lock word. *)
Definition lockBit (word : Z) : bool := negb (Z.land word kLockBit =? 0).

(** Nodes are at least 2-byte aligned: the low bit of an address is free. *)
Definition aligned (p : Z) : Prop := Z.land p kLockBit = 0.

(** The thread holds the monitor: the LOCK bit is set and it is the owner. *)
Definition owns (thread : Thread) (w : World) : Prop :=
  lockBit (contendersList_ (mon w)) = true /\ owner_ (mon w) = self thread.

(** The other threads leave the shared memory alone (the hardware may
    still make a weak compare-and-swap fail). *)
Definition noInterference (o : list Interference) : Prop :=
  Forall (fun i => forall w, interfere i w = w) o.

(** The nodes [l] are linked, in this order, from address [p] up to (and
    not including) address [q]. *)
Fixpoint chain (h : gmap Z LinkedNode) (p : Z) (l : list Z) (q : Z) : Prop :=
  match l with
  | [] => p = q
  | a :: l' => p = a /\ a <> 0 /\ chain h (next_ (h !!! a)) l' q
  end.

(** What the other threads do, one action after the other. *)
Definition others (used : list Interference) (w : World) : World :=
  fold_left (fun w i => interfere i w) used w.

(** The waiters belong to the owner of the monitor: an interference that
    neither reads nor writes [waitersList_] and the node at [p].  A
    contender that pushes its own node, a [tryLock] that is refused and a
    late [finishUnlock] are of this kind. *)
Record leavesWaiter (p : Z) (i : Interference) : Prop := {
  lw_node : forall w, node_at (interfere i w) p = node_at w p;
  lw_waiters : forall w, waitersList_ (mon (interfere i w)) = waitersList_ (mon w);
  lw_set_node : forall w n,
    interfere i (set_node p n w) = set_node p n (interfere i w);
  lw_set_waiters : forall w v,
    interfere i (set_waitersList v w) = set_waitersList v (interfere i w)
}.

(** [notify] in the words of the specification, as one atomic step: the
    waiter [a] leaves [waitersList_] and is pushed on the contenders; the
    new lock word is [a | LOCK] and the next pointer of [a] is the previous
    head with the LOCK bit masked off. *)
Definition pushWaiter (a : Z) (w : World) : World :=
  set_contendersList (Z.lor a kLockBit)
    (set_node a
       (mkNode (Z.land (contendersList_ (mon w)) (Z.lnot kLockBit))
               (item_ (node_at w a)))
       (set_waitersList (next_ (node_at w a)) w)).

Definition notify_atomic (w : World) : World :=
  if waitersList_ (mon w) =? 0 then w else pushWaiter (waitersList_ (mon w)) w.

(** [notifyAll] in the words of the specification: the waiters [l] are
    pushed one after the other; [chunks] is what the other threads do
    before each push. *)
Fixpoint pushWaiters (l : list Z) (chunks : list (list Interference)) (w : World)
    : World :=
  match l, chunks with
  | a :: l', used :: chunks' => pushWaiters l' chunks' (pushWaiter a (others used w))
  | _, _ => w
  end.

(** The step of a contender that links its node [node] (with semaphore
    [sem]) in front of the contenders: the compare-and-swap at the end of
    the push loop of [finishLock], together with the [setNext] before it. *)
Definition contenderPush (node sem : Z) : Interference :=
  mkInterference
    (fun w =>
       if lockBit (contendersList_ (mon w)) then
         set_contendersList (Z.lor node kLockBit)
           (set_node node
              (mkNode (Z.land (contendersList_ (mon w)) (Z.lnot kLockBit)) sem) w)
       else w)
    false.

(** One hint to the processor or to the scheduler is logged between [s] and
    [s']; nothing else changes. *)
Definition hinted (s s' : State) : Prop :=
  world s' = world s /\ oracle s' = oracle s /\
  (trace s' = trace s ++ [EvSpinPause] \/ trace s' = trace s ++ [EvYield]).

(** [k] rounds of spinning lead from [s] to [s']: in each round one hint is
    issued, the lock word is read, and it shows the LOCK bit set. *)
Inductive spun : nat -> State -> State -> Prop :=
| spun_O (s : State) : spun O s s
| spun_S (k : nat) (s sh s' : State) :
    hinted s sh ->
    lockBit (contendersList_ (mon (world (afterEnv sh)))) = true ->
    spun k (afterEnv sh) s' ->
    spun (S k) s s'.

(** The log of a call: [posts] counts the semaphores posted, [blocking]
    tells the calls that may suspend the thread. *)
Definition isPost (e : event) : bool :=
  match e with EvPost _ => true | _ => false end.
Definition posts (tr : list event) : nat := length (List.filter isPost tr).
Definition blocking (e : event) : bool :=
  match e with EvWait _ | EvTimedWait _ _ => true | _ => false end.

(** A computation that logs nothing, and one that logs at most one post
    and nothing else, whatever its outcome. *)
Definition silent {A} (m : M A) : Prop :=
  forall s r s', m s = (r, s') -> trace s' = trace s.
Definition postsAtMostOnce {A} (m : M A) : Prop :=
  forall s r s', m s = (r, s') ->
    trace s' = trace s \/ exists sem, trace s' = trace s ++ [EvPost sem].

(** A loop body that posts at most once, and then leaves the loop. *)
Definition postsOnlyOnBreak {A B} (m : M (A + B)) : Prop :=
  forall s r s', m s = (r, s') ->
    trace s' = trace s \/
    (exists sem, trace s' = trace s ++ [EvPost sem]) /\ (exists b, r = Done (inr b)).

(** [n] calls in a row. *)
Fixpoint repeatM (n : nat) (m : M unit) : M unit :=
  match n with
  | O => ret tt
  | S n' => m ;;; repeatM n' m
  end.

(** A recursive monitor with no contender, no on-deck thread and no waiter,
    in a quiet environment: held by [thread] at depth [count], and not held
    (as the constructor leaves it, [count] being what the memory holds). *)
Definition heldAt (thread : Thread) (count : Z) (h : gmap Z LinkedNode)
    (tr : list event) : State :=
  mkState (mkWorld (mkMonitor 1 0 0 (self thread) count true) h) [] tr.

Definition idle (count : Z) (h : gmap Z LinkedNode) (tr : list event) : State :=
  mkState (mkWorld (Monitor_new true count) h) [] tr.

(** What holds of the result and the final state when a computation
    returns. *)
Definition post {A} (x : outcome A * State) (Q : A -> State -> Prop) : Prop :=
  match x with
  | (Done a, s') => Q a s'
  | _ => True
  end.

(** A computation under which a property of the oracle persists. *)
Definition keepsOracle {A} (m : M A) : Prop :=
  forall (P : Interference -> Prop) s r s',
    Forall P (oracle s) -> m s = (r, s') -> Forall P (oracle s').

(** An interference that respects the ownership of [thread]: while the
    thread holds the monitor nobody else releases it, takes it or touches
    the lock count. *)
Definition respectsOwner (thread : Thread) (i : Interference) : Prop :=
  forall w, owns thread w ->
    owns thread (interfere i w) /\
    lockCount_ (mon (interfere i w)) = lockCount_ (mon w).

(** The invariant of the specification: the owner is set exactly when the
    LOCK bit is. *)
Definition ownerIffLocked (w : World) : Prop :=
  owner_ (mon w) <> 0 <-> lockBit (contendersList_ (mon w)) = true.

(** Every link is the address of an aligned node (or null). *)
Definition heapOk (w : World) : Prop :=
  aligned (waitersList_ (mon w)) /\ forall p, aligned (next_ (node_at w p)).

Definition good (w : World) : Prop := heapOk w /\ ownerIffLocked w.

(** The state of the monitor between the two steps of a release: the owner
    is cleared, the LOCK bit not yet. *)
Definition releasing (w : World) : Prop :=
  heapOk w /\ lockBit (contendersList_ (mon w)) = true /\ owner_ (mon w) = 0.

(** What the running thread relies on from the others.  Their complete
    operations keep the invariant; they respect the ownership of the running
    thread; and while it is releasing the monitor they neither take the lock
    nor set the owner. *)
Record wellBehaved (thread : Thread) (i : Interference) : Prop := {
  wb_good : forall w, good w -> good (interfere i w);
  wb_owner : respectsOwner thread i;
  wb_releasing : forall w, releasing w -> releasing (interfere i w)
}.

(** The state of a run: the oracle is well behaved, and the world is good,
    good and owned by the thread, or being released. *)
Definition relies (thread : Thread) (s : State) : Prop :=
  Forall (wellBehaved thread) (oracle s).
Definition isGood (thread : Thread) (s : State) : Prop :=
  good (world s) /\ relies thread s.
Definition isOwner (thread : Thread) (s : State) : Prop :=
  good (world s) /\ owns thread (world s) /\ relies thread s.
Definition isReleasing (thread : Thread) (s : State) : Prop :=
  releasing (world s) /\ relies thread s.

(** Partial correctness: from a state in [P], if the computation returns,
    the result and the final state are in [Q]. *)
Definition hoare {A} (P : State -> Prop) (m : M A) (Q : A -> State -> Prop) : Prop :=
  forall s, P s -> post (m s) Q.

(** A predicate of the state that survives the steps of the environment,
    and one that does not look at the log. *)
Definition envClosed (P : State -> Prop) : Prop := forall s, P s -> P (afterEnv s).
Definition logFree (P : State -> Prop) : Prop :=
  forall s t, P s -> P (mkState (world s) (oracle s) t).

(** In a quiet environment: the monitor is free; it is held by the thread;
    it is being released. *)
Definition isFree (s : State) : Prop :=
  good (world s) /\ lockBit (contendersList_ (mon (world s))) = false /\
  noInterference (oracle s).
Definition isQuietOwner (thread : Thread) (s : State) : Prop :=
  good (world s) /\ owns thread (world s) /\ noInterference (oracle s).
Definition isQuietReleasing (s : State) : Prop :=
  releasing (world s) /\ noInterference (oracle s).

(** The calls a thread can make on a monitor. *)
Inductive call :=
| CallTryLock
| CallLock (newHead : Z)
| CallUnlock
| CallWait (newHead : Z)
| CallNotify
| CallNotifyAll.

Definition perform (ASSERT : bool) (fuel : nat) (thread : Thread) (c : call) : M unit :=
  match c with
  | CallTryLock => _ <- tryLock ASSERT thread ;; ret tt
  | CallLock newHead => lock ASSERT fuel thread newHead
  | CallUnlock => unlock ASSERT fuel thread
  | CallWait newHead => wait ASSERT fuel thread newHead
  | CallNotify => notify ASSERT fuel thread
  | CallNotifyAll => notifyAll ASSERT fuel thread
  end.

(** What the header and the assertions ask of the caller: a thread that is
    not null; to own the monitor for [unlock], [wait], [notify] and
    [notifyAll]; and for [wait] a node on the stack that is aligned. *)
Definition contract (thread : Thread) (c : call) (w : World) : Prop :=
  self thread <> 0 /\
  match c with
  | CallTryLock | CallLock _ => True
  | CallUnlock | CallNotify | CallNotifyAll => owns thread w
  | CallWait newHead => owns thread w /\ aligned newHead
  end.

(** The quiescent states: a monitor fresh from its constructor, and the state
    in which a call returns that was made in a quiescent state, by any thread
    that keeps the contract, with any fuel, while the other threads are well
    behaved. *)
Inductive reachable (ASSERT : bool) : World -> Prop :=
| reachable_new (recursive : bool) (garbage : Z) (h : gmap Z LinkedNode) :
    (forall p, aligned (next_ (h !!! p))) ->
    reachable ASSERT (mkWorld (Monitor_new recursive garbage) h)
| reachable_call (w : World) (thread : Thread) (c : call) (fuel : nat)
    (o : list Interference) (tr : list event) (s' : State) :
    reachable ASSERT w ->
    contract thread c w ->
    Forall (wellBehaved thread) o ->
    perform ASSERT fuel thread c (mkState w o tr) = (Done tt, s') ->
    reachable ASSERT (world s').

(** The contract, decided. *)
Definition ownsb (thread : Thread) (w : World) : bool :=
  lockBit (contendersList_ (mon w)) && (owner_ (mon w) =? self thread).
Definition alignedb (p : Z) : bool := Z.land p kLockBit =? 0.
Definition contractb (thread : Thread) (c : call) (w : World) : bool :=
  negb (self thread =? 0) &&
  match c with
  | CallTryLock | CallLock _ => true
  | CallUnlock | CallNotify | CallNotifyAll => ownsb thread w
  | CallWait newHead => ownsb thread w && alignedb newHead
  end.

(** The interference of one complete call: thread [t] makes the call [c]
    within its contract, and the call runs to its end with nobody in
    between, the weak compare-and-swaps failing as [flags] tell.  A call
    that does not return (it would have to wait for somebody) has not
    happened. *)
Definition callBy (ASSERT : bool) (t : Thread) (c : call) (fuel : nat)
    (flags : list bool) : Interference :=
  mkInterference
    (fun w =>
       if contractb t c w then
         match perform ASSERT fuel t c
                 (mkState w (map (mkInterference (fun w' => w')) flags) []) with
         | (Done _, s') => world s'
         | _ => w
         end
       else w)
    false.

(** The monitor is held by [thread] at depth [count], in a quiet
    environment. *)
Definition isHeldBy (thread : Thread) (count : Z) (s : State) : Prop :=
  owns thread (world s) /\ lockCount_ (mon (world s)) = count /\
  noInterference (oracle s).

(** Threads and states for the examples. *)
Module Example.
Definition T1 : Thread := mkThread 100 200 300.
Definition T2 : Thread := mkThread 102 202 302.

(** A monitor fresh from its constructor, in a quiet environment. *)
Definition fresh (recursive : bool) : State :=
  mkState (mkWorld (Monitor_new recursive 7) ∅) [] [].

(** A monitor held by [owner] at depth [count]. *)
Definition held (recursive : bool) (owner : Thread) (count : Z)
    (o : list Interference) : State :=
  mkState (mkWorld (mkMonitor 1 0 0 (self owner) count recursive) ∅) o [].

(** An unlocked monitor whose lock word still links the node at 600. *)
Definition stale (o : list Interference) : State :=
  mkState (mkWorld (mkMonitor 600 0 0 0 0 false) {[ 600 := mkNode 0 202 ]}) o [].

(** The monitor held by [T1], with the node at 600 (of [T2]) queued as a
    contender and the nodes at 700 and 702 as waiters. *)
Definition waiting (o : list Interference) : State :=
  mkState
    (mkWorld (mkMonitor 601 0 700 100 1 false)
       (<[ 600 := mkNode 0 202 ]> (<[ 700 := mkNode 702 300 ]> {[ 702 := mkNode 0 304 ]})))
    o [].

(** The environment: nothing but a spurious failure; nothing at all; the
    owner releases the lock; a thread takes the lock. *)
Definition hiccup : Interference := mkInterference (fun w => w) true.
Definition quiet : Interference := mkInterference (fun w => w) false.
Definition release : Interference :=
  mkInterference
    (fun w => set_contendersList
                (Z.land (contendersList_ (mon (set_owner 0 w))) (Z.lnot kLockBit))
                (set_owner 0 w))
    false.
Definition steal (t : Thread) : Interference :=
  mkInterference
    (fun w => set_lockCount 1 (set_owner (self t)
                (set_contendersList (Z.lor (contendersList_ (mon w)) kLockBit) w)))
    false.

(** The environment: [t], if it is the owner, releases the monitor. *)
Definition leave (t : Thread) : Interference :=
  mkInterference
    (fun w =>
       if owner_ (mon w) =? self t
       then set_contendersList
              (Z.land (contendersList_ (mon w)) (Z.lnot kLockBit)) (set_owner 0 w)
       else w)
    false.

(** The environment: [T2] calls [lock], [notify] and [unlock], again and
    again; each call happens if [T2] may make it and it returns. *)
Definition visit : list Interference :=
  [callBy true T2 (CallLock 800) 10 [];
   callBy true T2 CallNotify 10 [];
   callBy true T2 CallUnlock 10 []].
Definition visits (n : nat) : list Interference := concat (repeat visit n).
End Example.

(** ** More of the header *)

(** [Thread* owner() const] *)
Definition owner : M Z := m <- getMonitor ;; ret (owner_ m).

(** [bool SimplyLinkedNode::compareAndSetNext(Node* compare, Node* next)]:
    a [compare_exchange_strong] on [next_]. *)
Definition compareAndSetNext (p compare v : Z) : M bool :=
  _ <- envStep ;; h <- getNodes ;;
  if next_ (h !!! p) =? compare
  then modifyWorld (set_node p (mkNode v (item_ (h !!! p)))) ;;; ret true
  else ret false.

(** A [Monitor*]: the monitor of the shared memory, or [NULL]. *)
Inductive MonitorPtr := NullMonitor | ThisMonitor.

(** [class ScopedLock] *)
Record ScopedLock := mkScopedLock { lock_ : MonitorPtr }.

Section Guards.

Variable ASSERT : bool.

(** [ScopedLock(Monitor& lock)] *)
Definition ScopedLock_ref (fuel : nat) (thread : Thread) (newHead : Z) : M ScopedLock :=
  lock ASSERT fuel thread newHead ;;; ret (mkScopedLock ThisMonitor).

(** [ScopedLock(Monitor* lock)] *)
Definition ScopedLock_ptr (fuel : nat) (thread : Thread) (newHead : Z)
    (monitor : MonitorPtr) : M ScopedLock :=
  match monitor with
  | ThisMonitor => lock ASSERT fuel thread newHead
  | NullMonitor => ret tt
  end ;;; ret (mkScopedLock monitor).

(** [~ScopedLock()] *)
Definition ScopedLock_delete (fuel : nat) (thread : Thread) (guard : ScopedLock) : M unit :=
  match lock_ guard with
  | ThisMonitor => unlock ASSERT fuel thread
  | NullMonitor => ret tt
  end.

End Guards.

(** ** Notions used by the further statements *)

(** The monitor is held, and not by [thread] on a recursive monitor: a
    [tryLock] of [thread] fails. *)
Definition heldAgainst (thread : Thread) (w : World) : Prop :=
  lockBit (contendersList_ (mon w)) = true /\
  ~ (recursive_ (mon w) = true /\ owner_ (mon w) = self thread).

(** The event of the back-off of round [spinCount]. *)
Definition backOffEvent (sleep : event) (spinCount : Z) : event :=
  if spinCount <? kMaxReadSpinIter then EvSpinPause
  else if spinCount <? kMaxSpinIter then EvYield
  else sleep.

(** The back-offs of the first [n] rounds of a sleep loop, whose counter is
    an [int32_t] that starts at 0. *)
Definition parkLog (sleep : event) (n : nat) : list event :=
  map (fun k => backOffEvent sleep (wrapInt32 (Z.of_nat k))) (seq 0 n).

(** The hints of [n] rounds of the [for] loop of [trySpinLock]. *)
Fixpoint spinLog (n : nat) : list event :=
  match n with
  | O => []
  | S n' =>
      (if Z.of_nat n >=? kMaxSpinIter - kMaxReadSpinIter then EvSpinPause else EvYield)
      :: spinLog n'
  end.

(** An interference under which the monitor stays held against [thread]. *)
Definition keepsHeldAgainst (thread : Thread) (i : Interference) : Prop :=
  forall w, heldAgainst thread w -> heldAgainst thread (interfere i w).

Definition isHeldAgainst (thread : Thread) (s : State) : Prop :=
  heldAgainst thread (world s) /\ Forall (keepsHeldAgainst thread) (oracle s).

(** The state of a thread that relies on the others to respect its
    ownership, and that of one that holds the monitor. *)
Definition isRespected (thread : Thread) (s : State) : Prop :=
  Forall (respectsOwner thread) (oracle s).
Definition isRespectedOwner (thread : Thread) (s : State) : Prop :=
  isRespected thread s /\ owns thread (world s).

(** A computation that logs events of one kind only, whatever its
    outcome. *)
Definition logsOnly {A} (allowed : event -> bool) (m : M A) : Prop :=
  forall s r s', m s = (r, s') ->
    exists tail, trace s' = trace s ++ tail /\ forallb allowed tail = true.

(** What [lock] may log: hints, and the reset of and the waits on the lock
    semaphore of the caller.  What [wait] may log after its [unlock]:
    hints, and the timed waits of 10 ms on and the waits on the suspend
    semaphore of the caller. *)
Definition lockEvent (thread : Thread) (e : event) : bool :=
  match e with
  | EvSpinPause | EvYield => true
  | EvReset sem | EvWait sem => sem =? lockSemaphore thread
  | EvTimedWait _ _ | EvPost _ => false
  end.
(** What [lock] logs as long as it does not sleep. *)
Definition hintEvent (thread : Thread) (e : event) : bool :=
  match e with
  | EvSpinPause | EvYield => true
  | EvReset sem => sem =? lockSemaphore thread
  | EvWait _ | EvTimedWait _ _ | EvPost _ => false
  end.
Definition sleepEvent (thread : Thread) (e : event) : bool :=
  match e with
  | EvSpinPause | EvYield => true
  | EvWait sem => sem =? suspendSemaphore thread
  | EvTimedWait sem ms => (sem =? suspendSemaphore thread) && (ms =? 10)
  | EvReset _ | EvPost _ => false
  end.

(** The environment of a thread that waits for the monitor: nothing happens
    at its first [k] atomic accesses; then the owner [u] calls [unlock],
    which runs to its end. *)
Definition unlocksAfter (ASSERT : bool) (u : Thread) (fuel k : nat) : list Interference :=
  repeat (mkInterference (fun w => w) false) k ++ [callBy ASSERT u CallUnlock fuel []].

(** The monitor has been handed over to [t]: [t] holds it at depth 1, with
    no contender and no on-deck thread left, the environment has run out,
    and the nodes other than [node] are those of [h]. *)
Definition handedOver (t : Thread) (wl : Z) (rec : bool) (node : Z)
    (h : gmap Z LinkedNode) (s : State) : Prop :=
  oracle s = [] /\
  mon (world s) = mkMonitor kLockBit 0 wl (self t) 1 rec /\
  forall p, p <> node -> nodes (world s) !!! p = h !!! p.

(** The environment of a thread that sleeps in [wait]: nothing happens at
    its first [k] atomic accesses; then [u] calls [lock], [notify] and
    [unlock], one complete call before each of the next three accesses. *)
Definition notifiesAfter (ASSERT : bool) (u : Thread) (node : Z) (fuel k : nat)
    : list Interference :=
  repeat (mkInterference (fun w => w) false) k ++
  [callBy ASSERT u (CallLock node) fuel [];
   callBy ASSERT u CallNotify fuel [];
   callBy ASSERT u CallUnlock fuel []].

(** ** Properties *)

Section Properties.

Variable ASSERT : bool.

Lemma envStep_eq (s : State) : envStep s = (Done (spuriousNow s), afterEnv s).
Proof. unfold envStep, spuriousNow, afterEnv. destruct (oracle s); reflexivity. Qed.

Lemma state_eta (s : State) : mkState (world s) (oracle s) (trace s) = s.
Proof. destruct s; reflexivity. Qed.

Lemma afterEnv_trace (s : State) : trace (afterEnv s) = trace s.
Proof. unfold afterEnv. destruct (oracle s); reflexivity. Qed.

Lemma afterEnv_noInterference (s : State) :
  noInterference (oracle s) ->
  world (afterEnv s) = world s /\ noInterference (oracle (afterEnv s)).
Proof.
  unfold afterEnv, noInterference. destruct (oracle s) as [|i o] eqn:E; simpl.
  - rewrite E. auto.
  - intros H. inversion H; subst. auto.
Qed.

Lemma land_kLockBit_cases (x : Z) : Z.land x kLockBit = 0 \/ Z.land x kLockBit = 1.
Proof.
  unfold kLockBit. pose proof (Z.land_ones x 1 ltac:(lia)) as H.
  change (Z.ones 1) with 1 in H. change (2 ^ 1) with 2 in H.
  pose proof (Z.mod_pos_bound x 2). lia.
Qed.

Lemma lor_kLockBit_locked (x : Z) : Z.land (Z.lor x kLockBit) kLockBit = 1.
Proof.
  rewrite Z.land_lor_distr_l. unfold kLockBit. change (Z.land 1 1) with 1.
  destruct (land_kLockBit_cases x) as [H|H]; unfold kLockBit in H; rewrite H; reflexivity.
Qed.

Lemma land_lnot_kLockBit_unlocked (x : Z) :
  Z.land (Z.land x (Z.lnot kLockBit)) kLockBit = 0.
Proof.
  rewrite <- Z.land_assoc. unfold kLockBit. change (Z.land (Z.lnot 1) 1) with 0.
  apply Z.land_0_r.
Qed.

Lemma lor_kLockBit_upper (x : Z) :
  Z.land x kLockBit = 0 -> Z.land (Z.lor x kLockBit) (Z.lnot kLockBit) = x.
Proof.
  intros H. apply Z.bits_inj'. intros n Hn.
  rewrite Z.land_spec, Z.lor_spec.
  destruct (Z.eq_dec n 0) as [->|Hne].
  - unfold kLockBit. change (Z.testbit (Z.lnot 1) 0) with false.
    rewrite andb_false_r.
    assert (Hb : Z.testbit (Z.land x kLockBit) 0 = false) by (rewrite H; reflexivity).
    rewrite Z.land_spec in Hb. unfold kLockBit in Hb.
    change (Z.testbit 1 0) with true in Hb. rewrite andb_true_r in Hb. now rewrite Hb.
  - assert (Hk : Z.testbit kLockBit n = false).
    { unfold kLockBit. change 1 with (Z.ones 1). apply Z.ones_spec_high. lia. }
    rewrite Hk, orb_false_r.
    rewrite Z.lnot_spec by lia. rewrite Hk. simpl. apply andb_true_r.
Qed.

Lemma lor_kLockBit_testbit (x n : Z) :
  0 < n -> Z.testbit (Z.lor x kLockBit) n = Z.testbit x n.
Proof.
  intros Hn. rewrite Z.lor_spec.
  assert (Hk : Z.testbit kLockBit n = false).
  { unfold kLockBit. change 1 with (Z.ones 1). apply Z.ones_spec_high. lia. }
  rewrite Hk. apply orb_false_r.
Qed.

(** *** Running the primitives *)

Lemma run_ret {A B} (a : A) (k : A -> M B) (s : State) : bind (ret a) k s = k a s.
Proof. reflexivity. Qed.

Lemma run_bind_bind {A B C} (m : M A) (f : A -> M B) (k : B -> M C) (s : State) :
  bind (bind m f) k s = bind m (fun x => bind (f x) k) s.
Proof. unfold bind. destruct (m s) as [[a| |] s']; reflexivity. Qed.

Lemma run_getMonitor {B} (k : Monitor -> M B) (s : State) :
  bind getMonitor k s = k (mon (world s)) s.
Proof. reflexivity. Qed.

Lemma run_getNodes {B} (k : gmap Z LinkedNode -> M B) (s : State) :
  bind getNodes k s = k (nodes (world s)) s.
Proof. reflexivity. Qed.

Lemma run_modifyWorld {B} (f : World -> World) (k : unit -> M B) (s : State) :
  bind (modifyWorld f) k s = k tt (withWorld f s).
Proof. reflexivity. Qed.

Lemma run_emit {B} (e : event) (k : unit -> M B) (s : State) :
  bind (emit e) k s = k tt (mkState (world s) (oracle s) (trace s ++ [e])).
Proof. reflexivity. Qed.

Lemma run_envStep {B} (k : bool -> M B) (s : State) :
  bind envStep k s = k (spuriousNow s) (afterEnv s).
Proof. unfold bind. rewrite envStep_eq. reflexivity. Qed.

Lemma run_load_contendersList {B} (k : Z -> M B) (s : State) :
  bind load_contendersList k s =
  k (contendersList_ (mon (world (afterEnv s)))) (afterEnv s).
Proof.
  unfold load_contendersList. rewrite run_bind_bind, run_envStep.
  rewrite run_bind_bind, run_getMonitor. reflexivity.
Qed.

Lemma run_isLocked {B} (k : bool -> M B) (s : State) :
  bind isLocked k s =
  k (lockBit (contendersList_ (mon (world (afterEnv s))))) (afterEnv s).
Proof.
  unfold isLocked. rewrite run_bind_bind, run_load_contendersList. reflexivity.
Qed.

Lemma run_cas_weak_contendersList {B} (expected desired : Z)
    (k : bool * Z -> M B) (s : State) :
  bind (cas_weak_contendersList expected desired) k s =
  if (contendersList_ (mon (world (afterEnv s))) =? expected) && negb (spuriousNow s)
  then k (true, expected) (withWorld (set_contendersList desired) (afterEnv s))
  else k (false, contendersList_ (mon (world (afterEnv s)))) (afterEnv s).
Proof.
  unfold cas_weak_contendersList. rewrite run_bind_bind, run_envStep.
  rewrite run_bind_bind, run_getMonitor.
  destruct ((contendersList_ (mon (world (afterEnv s))) =? expected) &&
            negb (spuriousNow s)); reflexivity.
Qed.

Lemma run_load_onDeck {B} (k : Z -> M B) (s : State) :
  bind load_onDeck k s = k (onDeck_ (mon (world (afterEnv s)))) (afterEnv s).
Proof.
  unfold load_onDeck. rewrite run_bind_bind, run_envStep.
  rewrite run_bind_bind, run_getMonitor. reflexivity.
Qed.

Lemma run_store_onDeck {B} (v : Z) (k : unit -> M B) (s : State) :
  bind (store_onDeck v) k s = k tt (withWorld (set_onDeck v) (afterEnv s)).
Proof.
  unfold store_onDeck. rewrite run_bind_bind, run_envStep, run_modifyWorld.
  reflexivity.
Qed.

Lemma run_cas_strong_onDeck {B} (expected desired : Z)
    (k : bool * Z -> M B) (s : State) :
  bind (cas_strong_onDeck expected desired) k s =
  if onDeck_ (mon (world (afterEnv s))) =? expected
  then k (true, expected) (withWorld (set_onDeck desired) (afterEnv s))
  else k (false, onDeck_ (mon (world (afterEnv s)))) (afterEnv s).
Proof.
  unfold cas_strong_onDeck. rewrite run_bind_bind, run_envStep.
  rewrite run_bind_bind, run_getMonitor.
  destruct (onDeck_ (mon (world (afterEnv s))) =? expected); reflexivity.
Qed.

Lemma run_setOwner {B} (v : Z) (k : unit -> M B) (s : State) :
  bind (setOwner v) k s = k tt (withWorld (set_owner v) s).
Proof. reflexivity. Qed.

Lemma run_write_lockCount {B} (v : Z) (k : unit -> M B) (s : State) :
  bind (write_lockCount v) k s = k tt (withWorld (set_lockCount v) s).
Proof. reflexivity. Qed.

Lemma run_write_waitersList {B} (v : Z) (k : unit -> M B) (s : State) :
  bind (write_waitersList v) k s = k tt (withWorld (set_waitersList v) s).
Proof. reflexivity. Qed.

Lemma run_next {B} (p : Z) (k : Z -> M B) (s : State) :
  bind (next p) k s = k (next_ (node_at (world (afterEnv s)) p)) (afterEnv s).
Proof.
  unfold next. rewrite run_bind_bind, run_envStep.
  rewrite run_bind_bind, run_getNodes. reflexivity.
Qed.

Lemma run_item {B} (p : Z) (k : Z -> M B) (s : State) :
  bind (item p) k s = k (item_ (node_at (world s) p)) s.
Proof. reflexivity. Qed.

Lemma run_setNext {B} (p v : Z) (k : unit -> M B) (s : State) :
  bind (setNext p v) k s =
  k tt (withWorld (set_node p (mkNode v (item_ (node_at (world (afterEnv s)) p))))
                  (afterEnv s)).
Proof.
  unfold setNext. rewrite run_bind_bind, run_envStep.
  rewrite run_bind_bind, run_getNodes, run_modifyWorld. reflexivity.
Qed.

Lemma run_setItem {B} (p v : Z) (k : unit -> M B) (s : State) :
  bind (setItem p v) k s =
  k tt (withWorld (set_node p (mkNode (next_ (node_at (world s) p)) v)) s).
Proof. reflexivity. Qed.

Lemma run_assert {B} (cond : M bool) (k : unit -> M B) (s s' : State) :
  cond s = (Done true, s') ->
  bind (assert ASSERT cond) k s = k tt (if ASSERT then s' else s).
Proof.
  intros H. unfold assert, bind. destruct ASSERT; [|reflexivity].
  rewrite H. reflexivity.
Qed.

Lemma run_loop_S {A B} (fuel : nat) (body : A -> M (A + B)) (a : A) (s : State) :
  loop (S fuel) body a s =
  bind (body a) (fun r => match r with
                          | inl a' => loop fuel body a'
                          | inr b => ret b
                          end) s.
Proof. reflexivity. Qed.

Lemma run_continue {A B C} (a : A) (k : A + B -> M C) (s : State) :
  bind (continue a) k s = k (inl a) s.
Proof. reflexivity. Qed.

Lemma run_break {A B C} (b : B) (k : A + B -> M C) (s : State) :
  bind (break b) k s = k (inr b) s.
Proof. reflexivity. Qed.

(** A computation at the end of a block, with no continuation. *)
Lemma run_last {A} (m : M A) (s : State) : m s = bind m ret s.
Proof. unfold bind, ret. destruct (m s) as [[a| |] s']; reflexivity. Qed.

(** *** Sequencing and loops *)

Lemma bind_Done {A B} (m : M A) (k : A -> M B) (s : State) (a : A) (s1 : State) :
  m s = (Done a, s1) -> bind m k s = k a s1.
Proof. intros H. unfold bind. rewrite H. reflexivity. Qed.

Lemma bind_inv {A B} (m : M A) (k : A -> M B) (s : State) (r : outcome B) (s' : State) :
  bind m k s = (r, s') ->
  (exists a s1, m s = (Done a, s1) /\ k a s1 = (r, s')) \/
  (m s = (AssertFailed, s') /\ r = AssertFailed) \/
  (m s = (OutOfFuel, s') /\ r = OutOfFuel).
Proof.
  unfold bind. destruct (m s) as [[a| |] s1]; intros H.
  - left. eauto.
  - right. left. inversion H. auto.
  - right. right. inversion H. auto.
Qed.

(** An invariant [I] of the loop state establishes [Q] for every way the
    loop may end, running out of fuel included. *)
Lemma loop_inv {A B} (I : A -> State -> Prop) (Q : outcome B -> State -> Prop)
    (body : A -> M (A + B)) :
  (forall a s r s', I a s -> body a s = (r, s') ->
     match r with
     | Done (inl a') => I a' s'
     | Done (inr b) => Q (Done b) s'
     | AssertFailed => Q AssertFailed s'
     | OutOfFuel => Q OutOfFuel s'
     end) ->
  (forall a s, I a s -> Q OutOfFuel s) ->
  forall fuel a s r s', I a s -> loop fuel body a s = (r, s') -> Q r s'.
Proof.
  intros Hbody Hout. induction fuel as [|fuel IH]; intros a s r s' HI Hrun.
  - cbn in Hrun. inversion Hrun; subst. eauto.
  - rewrite run_loop_S in Hrun.
    destruct (bind_inv _ _ _ _ _ Hrun) as [(x & s1 & Hb & Hk) | [[Hb ->] | [Hb ->]]].
    + specialize (Hbody _ _ _ _ HI Hb). destruct x as [a'|b].
      * eauto.
      * inversion Hk; subst. exact Hbody.
    + exact (Hbody _ _ _ _ HI Hb).
    + exact (Hbody _ _ _ _ HI Hb).
Qed.

(** *** Computations that log nothing *)

Lemma silent_ret {A} (a : A) : silent (ret a).
Proof. intros s r s' H. inversion H. reflexivity. Qed.

Lemma silent_abort {A} : silent (@abort A).
Proof. intros s r s' H. inversion H. reflexivity. Qed.

Lemma silent_bind {A B} (m : M A) (k : A -> M B) :
  silent m -> (forall a, silent (k a)) -> silent (bind m k).
Proof.
  intros Hm Hk s r s' H.
  destruct (bind_inv _ _ _ _ _ H) as [(a & s1 & Hb & Hr) | [[Hb _] | [Hb _]]].
  - rewrite (Hk _ _ _ _ Hr). eauto.
  - eauto.
  - eauto.
Qed.

Lemma silent_loop {A B} (fuel : nat) (body : A -> M (A + B)) (a : A) :
  (forall a, silent (body a)) -> silent (loop fuel body a).
Proof.
  intros Hb s r s' H.
  refine (loop_inv (fun _ s1 => trace s1 = trace s) (fun _ s1 => trace s1 = trace s)
            body _ _ fuel a s r s' eq_refl H).
  - intros a0 s0 r0 s0' HI Hrun. specialize (Hb _ _ _ _ Hrun).
    destruct r0 as [[?|?]| |]; congruence.
  - auto.
Qed.

Lemma silent_getMonitor : silent getMonitor.
Proof. intros s r s' H. inversion H. reflexivity. Qed.

Lemma silent_getNodes : silent getNodes.
Proof. intros s r s' H. inversion H. reflexivity. Qed.

Lemma silent_modifyWorld (f : World -> World) : silent (modifyWorld f).
Proof. intros s r s' H. inversion H. reflexivity. Qed.

Lemma silent_envStep : silent envStep.
Proof. intros s r s' H. rewrite envStep_eq in H. inversion H. apply afterEnv_trace. Qed.

Lemma silent_if {A} (b : bool) (m1 m2 : M A) :
  silent m1 -> silent m2 -> silent (if b then m1 else m2).
Proof. destruct b; auto. Qed.

Lemma silent_continue {A B} (a : A) : silent (@continue A B a).
Proof. apply silent_ret. Qed.

Lemma silent_break {A B} (b : B) : silent (@break A B b).
Proof. apply silent_ret. Qed.

Create HintDb silent.
#[local] Hint Resolve silent_ret silent_abort silent_getMonitor silent_getNodes
  silent_modifyWorld silent_envStep silent_continue silent_break : silent.

Ltac silent_tac :=
  repeat first
    [ match goal with |- forall _, _ => intro end
    | apply silent_bind | apply silent_if | apply silent_loop
    | solve [auto with silent]
    | match goal with |- silent (match ?x with _ => _ end) => destruct x end ].

Lemma silent_load_contendersList : silent load_contendersList.
Proof. unfold load_contendersList. silent_tac. Qed.

Lemma silent_isLocked : silent isLocked.
Proof. unfold isLocked. pose proof silent_load_contendersList. silent_tac. Qed.

Lemma silent_cas_weak_contendersList (e d : Z) : silent (cas_weak_contendersList e d).
Proof. unfold cas_weak_contendersList. silent_tac. Qed.

Lemma silent_load_onDeck : silent load_onDeck.
Proof. unfold load_onDeck. silent_tac. Qed.

Lemma silent_store_onDeck (v : Z) : silent (store_onDeck v).
Proof. unfold store_onDeck. silent_tac. Qed.

Lemma silent_cas_strong_onDeck (e d : Z) : silent (cas_strong_onDeck e d).
Proof. unfold cas_strong_onDeck. silent_tac. Qed.

Lemma silent_next (p : Z) : silent (next p).
Proof. unfold next. silent_tac. Qed.

Lemma silent_item (p : Z) : silent (item p).
Proof. unfold item. silent_tac. Qed.

Lemma silent_setNext (p v : Z) : silent (setNext p v).
Proof. unfold setNext. silent_tac. Qed.

Lemma silent_setItem (p v : Z) : silent (setItem p v).
Proof. unfold setItem. silent_tac. Qed.

#[local] Hint Resolve silent_load_contendersList silent_isLocked
  silent_cas_weak_contendersList silent_load_onDeck silent_store_onDeck
  silent_cas_strong_onDeck silent_next silent_item silent_setNext
  silent_setItem : silent.

Lemma silent_assert (cond : M bool) : silent cond -> silent (assert ASSERT cond).
Proof. intros H. unfold assert. silent_tac. Qed.

(** *** Computations that post at most once *)

Lemma postsAtMostOnce_silent {A} (m : M A) : silent m -> postsAtMostOnce m.
Proof. intros H s r s' Hr. left. eauto. Qed.

Lemma postsAtMostOnce_post (sem : Z) : postsAtMostOnce (Semaphore_post sem).
Proof. intros s r s' H. inversion H. right. exists sem. reflexivity. Qed.

Lemma postsAtMostOnce_bind {A B} (m : M A) (k : A -> M B) :
  silent m -> (forall a, postsAtMostOnce (k a)) -> postsAtMostOnce (bind m k).
Proof.
  intros Hm Hk s r s' H.
  destruct (bind_inv _ _ _ _ _ H) as [(a & s1 & Hb & Hr) | [[Hb _] | [Hb _]]].
  - rewrite <- (Hm _ _ _ Hb). exact (Hk _ _ _ _ Hr).
  - left. exact (Hm _ _ _ Hb).
  - left. exact (Hm _ _ _ Hb).
Qed.

Lemma postsAtMostOnce_if {A} (b : bool) (m1 m2 : M A) :
  postsAtMostOnce m1 -> postsAtMostOnce m2 -> postsAtMostOnce (if b then m1 else m2).
Proof. destruct b; auto. Qed.

Lemma postsOnlyOnBreak_silent {A B} (m : M (A + B)) : silent m -> postsOnlyOnBreak m.
Proof. intros H s r s' Hr. left. eauto. Qed.

Lemma postsOnlyOnBreak_bind {A B C} (m : M C) (k : C -> M (A + B)) :
  silent m -> (forall c, postsOnlyOnBreak (k c)) -> postsOnlyOnBreak (bind m k).
Proof.
  intros Hm Hk s r s' H.
  destruct (bind_inv _ _ _ _ _ H) as [(a & s1 & Hb & Hr) | [[Hb _] | [Hb _]]].
  - rewrite <- (Hm _ _ _ Hb). exact (Hk _ _ _ _ Hr).
  - left. exact (Hm _ _ _ Hb).
  - left. exact (Hm _ _ _ Hb).
Qed.

Lemma postsOnlyOnBreak_if {A B} (b : bool) (m1 m2 : M (A + B)) :
  postsOnlyOnBreak m1 -> postsOnlyOnBreak m2 -> postsOnlyOnBreak (if b then m1 else m2).
Proof. destruct b; auto. Qed.

Lemma postsOnlyOnBreak_post_break {A B} (sem : Z) (b : B) :
  postsOnlyOnBreak (A := A) (Semaphore_post sem ;;; break b).
Proof.
  intros s r s' H. unfold Semaphore_post in H. rewrite run_emit in H.
  inversion H; subst. cbn. right. split; eauto.
Qed.

Lemma postsAtMostOnce_loop {A B} (fuel : nat) (body : A -> M (A + B)) (a : A) :
  (forall a, postsOnlyOnBreak (body a)) -> postsAtMostOnce (loop fuel body a).
Proof.
  intros Hb s r s' H.
  refine (loop_inv (fun _ s1 => trace s1 = trace s)
            (fun _ s1 => trace s1 = trace s \/ exists sem, trace s1 = trace s ++ [EvPost sem])
            body _ _ fuel a s r s' eq_refl H).
  - intros a0 s0 r0 s0' HI Hrun.
    destruct (Hb _ _ _ _ Hrun) as [Ht | [[sem Ht] [b ->]]].
    + destruct r0 as [[?|?]| |]; [congruence|left; congruence..].
    + right. exists sem. congruence.
  - auto.
Qed.

Lemma finishUnlock_postsAtMostOnce (fuel : nat) : postsAtMostOnce (finishUnlock ASSERT fuel).
Proof.
  unfold finishUnlock. apply postsAtMostOnce_loop. intros _.
  apply postsOnlyOnBreak_bind; [silent_tac|]. intros r.
  apply postsOnlyOnBreak_if; [apply postsOnlyOnBreak_silent; silent_tac|].
  apply postsOnlyOnBreak_bind; [silent_tac|]. intros head.
  apply postsOnlyOnBreak_bind; [silent_tac|]. intros head'.
  apply postsOnlyOnBreak_bind; [silent_tac|]. intros semaphore.
  apply postsOnlyOnBreak_bind; [silent_tac|]. intros _.
  apply postsOnlyOnBreak_if; [apply postsOnlyOnBreak_post_break|].
  apply postsOnlyOnBreak_silent. silent_tac.
Qed.

Lemma unlock_postsAtMostOnce (fuel : nat) (thread : Thread) :
  postsAtMostOnce (unlock ASSERT fuel thread).
Proof.
  unfold unlock, setOwner, write_lockCount.
  apply postsAtMostOnce_bind; [apply silent_assert; silent_tac|]. intros _.
  apply postsAtMostOnce_bind; [silent_tac|]. intros m.
  apply postsAtMostOnce_bind; [silent_tac|]. intros stillHeld.
  apply postsAtMostOnce_if; [apply postsAtMostOnce_silent; silent_tac|].
  apply postsAtMostOnce_bind; [silent_tac|]. intros _.
  apply postsAtMostOnce_bind; [silent_tac|]. intros ptr.
  apply postsAtMostOnce_bind; [silent_tac|]. intros _.
  apply postsAtMostOnce_bind; [silent_tac|]. intros onDeck.
  apply postsAtMostOnce_if.
  - apply postsAtMostOnce_if;
      [apply postsAtMostOnce_post|apply postsAtMostOnce_silent; silent_tac].
  - apply postsAtMostOnce_bind; [silent_tac|]. intros head.
    apply postsAtMostOnce_if; [apply postsAtMostOnce_silent; silent_tac|].
    apply finishUnlock_postsAtMostOnce.
Qed.

(** *** A quiet environment *)

Lemma afterEnv_quiet (s : State) :
  noInterference (oracle s) ->
  afterEnv s = mkState (world s) (tail (oracle s)) (trace s).
Proof.
  unfold afterEnv, noInterference. destruct s as [w o t]; cbn.
  destruct o as [|i o]; [reflexivity|]. intros H. inversion H; subst.
  cbn. congruence.
Qed.

Lemma noInterference_tail (o : list Interference) :
  noInterference o -> noInterference (tail o).
Proof. destruct o; [auto|]. intros H. inversion H; auto. Qed.

Lemma length_tail_le {A} (l : list A) : (length (tail l) <= length l)%nat.
Proof. destruct l; cbn; lia. Qed.

Lemma run_assert_owns {B} (thread : Thread) (k : unit -> M B) (s : State) :
  owns thread (world (afterEnv s)) ->
  bind (assert ASSERT
          (l <- isLocked ;; m <- getMonitor ;; ret (l && (owner_ m =? self thread))))
       k s =
  k tt (if ASSERT then afterEnv s else s).
Proof.
  intros [Hl Ho]. apply run_assert.
  rewrite run_isLocked, run_getMonitor. rewrite Hl, Ho, Z.eqb_refl. reflexivity.
Qed.

(** *** Nodes *)

Lemma node_at_set_node_eq (p : Z) (n : LinkedNode) (w : World) :
  node_at (set_node p n w) p = n.
Proof. unfold node_at, set_node. cbn. apply lookup_total_insert_eq. Qed.

Lemma node_at_set_node_ne (p q : Z) (n : LinkedNode) (w : World) :
  p <> q -> node_at (set_node p n w) q = node_at w q.
Proof. intros H. unfold node_at, set_node. cbn. now apply lookup_total_insert_ne. Qed.

Lemma set_node_set_node (p : Z) (n n' : LinkedNode) (w : World) :
  set_node p n (set_node p n' w) = set_node p n w.
Proof. unfold set_node. cbn. f_equal. apply insert_insert_eq. Qed.

(** The push loop of [notify] when nobody interferes: a weak CAS that fails
    spuriously is retried, with the same effect in the end. *)
Lemma notify_push_quiet (waiter : Z) (fuel : nat) (s : State) :
  noInterference (oracle s) ->
  (length (oracle s) < fuel)%nat ->
  exists o',
    loop fuel
      (fun node : Z =>
         setNext waiter (Z.land node (Z.lnot kLockBit)) ;;;
         r <- cas_weak_contendersList node (Z.lor waiter kLockBit) ;;
         if fst r then break tt else continue (snd r))
      (contendersList_ (mon (world s))) s =
    (Done tt,
     mkState (set_contendersList (Z.lor waiter kLockBit)
                (set_node waiter
                   (mkNode (Z.land (contendersList_ (mon (world s))) (Z.lnot kLockBit))
                           (item_ (node_at (world s) waiter)))
                   (world s)))
             o' (trace s)) /\
    noInterference o' /\ (length o' <= length (oracle s))%nat.
Proof.
  revert s. induction fuel as [|fuel IH]; intros s Hq Hlen; [lia|].
  rewrite run_loop_S.
  rewrite run_bind_bind, run_setNext, (afterEnv_quiet s Hq).
  unfold withWorld; cbn [world oracle trace].
  rewrite run_bind_bind, run_cas_weak_contendersList.
  set (w1 := set_node waiter _ (world s)).
  set (s1 := mkState w1 (tail (oracle s)) (trace s)).
  assert (Hq1 : noInterference (oracle s1)) by (apply noInterference_tail, Hq).
  rewrite (afterEnv_quiet s1 Hq1). unfold withWorld, s1; cbn [world oracle trace]; fold s1.
  replace (contendersList_ (mon w1)) with (contendersList_ (mon (world s))) by reflexivity.
  rewrite Z.eqb_refl. cbn [andb].
  destruct (spuriousNow s1) eqn:Hsp; cbn [negb fst snd].
  - rewrite run_continue.
    set (s2 := mkState w1 (tail (tail (oracle s))) (trace s)).
    assert (Hlen2 : (length (oracle s2) < fuel)%nat).
    { unfold s2; cbn. unfold spuriousNow, s1 in Hsp. cbn in Hsp.
      destruct (oracle s) as [|i [|j o]]; cbn in *; try discriminate; lia. }
    destruct (IH s2 (noInterference_tail _ Hq1) Hlen2) as (o' & Hrun & Hq' & Hl').
    exists o'. change (contendersList_ (mon (world s2))) with (contendersList_ (mon (world s))) in Hrun.
    rewrite Hrun. cbn [world s2 trace]. unfold w1.
    rewrite node_at_set_node_eq, set_node_set_node. cbn [item_].
    split; [reflexivity|]. split; [exact Hq'|].
    cbn in Hl'. pose proof (length_tail_le (oracle s)). pose proof (length_tail_le (tail (oracle s))). lia.
  - rewrite run_break. exists (tail (tail (oracle s))).
    split; [reflexivity|]. split; [apply noInterference_tail, Hq1|].
    pose proof (length_tail_le (oracle s)). pose proof (length_tail_le (tail (oracle s))). lia.
Qed.

Lemma quiet_entry (s : State) :
  noInterference (oracle s) ->
  exists o, (if ASSERT then afterEnv s else s) = mkState (world s) o (trace s) /\
            noInterference o /\ (length o <= length (oracle s))%nat.
Proof.
  intros Hq. destruct ASSERT.
  - rewrite (afterEnv_quiet s Hq). eexists. split; [reflexivity|].
    split; [now apply noInterference_tail|apply length_tail_le].
  - exists (oracle s). rewrite state_eta. auto.
Qed.

(** *** Chains of nodes *)

Lemma chain_app (h : gmap Z LinkedNode) (l1 l2 : list Z) (p mid q : Z) :
  chain h p l1 mid -> chain h mid l2 q -> chain h p (l1 ++ l2) q.
Proof.
  revert p. induction l1 as [|a l1 IH]; intros p; cbn.
  - intros ->. auto.
  - intros (-> & Ha & Hc) H2. repeat split; auto.
Qed.

Lemma chain_app_inv (h : gmap Z LinkedNode) (l1 l2 : list Z) (p q : Z) :
  chain h p (l1 ++ l2) q -> exists mid, chain h p l1 mid /\ chain h mid l2 q.
Proof.
  revert p. induction l1 as [|a l1 IH]; intros p; cbn.
  - intros H. exists p. auto.
  - intros (-> & Ha & Hc). destruct (IH _ Hc) as (mid & H1 & H2).
    exists mid. repeat split; auto.
Qed.

Lemma chain_null_functional (h : gmap Z LinkedNode) (l1 l2 : list Z) (p : Z) :
  chain h p l1 0 -> chain h p l2 0 -> l1 = l2.
Proof.
  revert p l2. induction l1 as [|a l1 IH]; intros p [|b l2]; cbn.
  - reflexivity.
  - intros H1 (H2 & Hb & _). congruence.
  - intros (H1 & Ha & _) H2. congruence.
  - intros (H1 & Ha & Hc1) (H2 & _ & Hc2).
    assert (a = b) as <- by congruence. f_equal. eauto.
Qed.

Lemma chain_null_head_fresh (h : gmap Z LinkedNode) (a : Z) (l : list Z) :
  chain h a (a :: l) 0 -> ~ In a l.
Proof.
  intros Hc Hin. apply in_split in Hin. destruct Hin as (l1 & l2 & ->).
  change (a :: l1 ++ a :: l2) with ((a :: l1) ++ a :: l2) in Hc.
  destruct (chain_app_inv _ _ _ _ _ Hc) as (mid & _ & H2).
  assert (mid = a) as -> by (cbn in H2; tauto).
  pose proof (chain_null_functional _ _ _ _ Hc H2) as Heq.
  apply (f_equal (@length Z)) in Heq. cbn in Heq. rewrite length_app in Heq.
  cbn in Heq. lia.
Qed.

Lemma chain_frame (h h' : gmap Z LinkedNode) (l : list Z) (p q : Z) :
  (forall a, In a l -> next_ (h' !!! a) = next_ (h !!! a)) ->
  chain h p l q -> chain h' p l q.
Proof.
  revert p. induction l as [|a l IH]; intros p Hf; cbn; [auto|].
  intros (-> & Ha & Hc). split; [reflexivity|]. split; [exact Ha|].
  rewrite (Hf a) by (left; reflexivity). apply IH; [|exact Hc].
  intros b Hb. apply Hf. right. exact Hb.
Qed.

(** *** [notify] and [notifyAll] when nobody interferes *)

Lemma notify_quiet (fuel : nat) (thread : Thread) (s : State) :
  owns thread (world s) ->
  noInterference (oracle s) ->
  (length (oracle s) < fuel)%nat ->
  let w := world s in
  let waiter := waitersList_ (mon w) in
  exists o',
    notify ASSERT fuel thread s =
      (Done tt,
       mkState
         (if waiter =? 0 then w
          else set_contendersList (Z.lor waiter kLockBit)
                 (set_node waiter
                    (mkNode (Z.land (contendersList_ (mon w)) (Z.lnot kLockBit))
                            (item_ (node_at w waiter)))
                    (set_waitersList (next_ (node_at w waiter)) w)))
         o' (trace s)) /\
    noInterference o' /\ (length o' <= length (oracle s))%nat.
Proof.
  intros Hown Hq Hlen. cbn zeta. unfold notify.
  rewrite run_assert_owns
    by (rewrite (afterEnv_quiet s Hq); exact Hown).
  destruct (quiet_entry s Hq) as (o & -> & Hqo & Hlo).
  rewrite run_getMonitor. cbn [world mon].
  destruct (waitersList_ (mon (world s)) =? 0) eqn:Hw.
  - exists o. auto.
  - rewrite run_next.
    set (s0 := mkState (world s) o (trace s)).
    rewrite (afterEnv_quiet s0 Hqo). cbn [world oracle trace s0].
    rewrite run_write_waitersList. unfold withWorld. cbn [world oracle trace].
    rewrite run_load_contendersList.
    set (s1 := mkState (set_waitersList _ (world s)) (tail o) (trace s)).
    assert (Hq1 : noInterference (oracle s1)) by (apply noInterference_tail, Hqo).
    rewrite (afterEnv_quiet s1 Hq1). cbn [world oracle trace s1].
    set (s2 := mkState (set_waitersList _ (world s)) (tail (tail o)) (trace s)).
    destruct (notify_push_quiet (waitersList_ (mon (world s))) fuel s2)
      as (o' & Hrun & Hq' & Hl').
    { apply noInterference_tail, Hq1. }
    { cbn. pose proof (length_tail_le o). pose proof (length_tail_le (tail o)). lia. }
    cbn [world s2 trace oracle] in Hrun, Hl'.
    change (contendersList_ (mon (set_waitersList _ (world s))))
      with (contendersList_ (mon (world s))) in *.
    rewrite Hrun. exists o'. split; [reflexivity|]. split; [exact Hq'|].
    pose proof (length_tail_le o). pose proof (length_tail_le (tail o)). lia.
Qed.

Lemma land_lor_aligned (p : Z) :
  aligned p -> Z.land (Z.lor p kLockBit) (Z.lnot kLockBit) = p.
Proof. apply lor_kLockBit_upper. Qed.

Lemma notifyAll_loop (thread : Thread) (fuel : nat) (l : list Z) :
  forall (f : nat) (s : State),
  owns thread (world s) ->
  noInterference (oracle s) ->
  chain (nodes (world s)) (waitersList_ (mon (world s))) l 0 ->
  Forall aligned l ->
  (length l < f)%nat ->
  (length (oracle s) < fuel)%nat ->
  exists s',
    loop f (fun _ : unit =>
      m <- getMonitor ;;
      if negb (waitersList_ m =? 0) then notify ASSERT fuel thread ;;; continue tt
      else break tt) tt s = (Done tt, s') /\
    (l = [] -> s' = s) /\
    trace s' = trace s /\
    noInterference (oracle s') /\
    (length (oracle s') <= length (oracle s))%nat /\
    owns thread (world s') /\
    waitersList_ (mon (world s')) = 0 /\
    chain (nodes (world s'))
      (Z.land (contendersList_ (mon (world s'))) (Z.lnot kLockBit)) (rev l)
      (Z.land (contendersList_ (mon (world s))) (Z.lnot kLockBit)) /\
    onDeck_ (mon (world s')) = onDeck_ (mon (world s)) /\
    owner_ (mon (world s')) = owner_ (mon (world s)) /\
    lockCount_ (mon (world s')) = lockCount_ (mon (world s)) /\
    (forall p, ~ In p l -> node_at (world s') p = node_at (world s) p) /\
    (forall p, item_ (node_at (world s') p) = item_ (node_at (world s) p)).
Proof.
  induction l as [|a l IH]; intros f s Hown Hq Hc Hal Hf Hfuel.
  - cbn in Hc. destruct f as [|f]; [cbn in Hf; lia|].
    rewrite run_loop_S, run_bind_bind, run_getMonitor, Hc. cbn [Z.eqb negb].
    rewrite run_break. exists s. cbn [rev chain].
    split; [reflexivity|]. split; [reflexivity|]. split; [reflexivity|].
    split; [exact Hq|]. split; [lia|]. split; [exact Hown|]. split; [exact Hc|].
    repeat (split; [reflexivity|]). split; reflexivity.
  - destruct Hc as (Hw & Ha & Hc).
    pose proof (chain_null_head_fresh (nodes (world s)) a l) as Hfresh.
    specialize (Hfresh ltac:(cbn; auto)).
    pose proof (Forall_inv Hal) as Haa. pose proof (Forall_inv_tail Hal) as Hal'.
    destruct f as [|f]; [cbn in Hf; lia|].
    rewrite run_loop_S, run_bind_bind, run_getMonitor, Hw.
    assert (Hne : (a =? 0) = false) by (now apply Z.eqb_neq). rewrite Hne. cbn [negb].
    rewrite run_bind_bind.
    destruct (notify_quiet fuel thread s Hown Hq Hfuel) as (o1 & Hrun & Hq1 & Hl1).
    cbn zeta in Hrun. rewrite Hw, Hne in Hrun.
    unfold bind at 1. rewrite Hrun. rewrite run_continue.
    set (w1 := set_contendersList _ _) in *.
    set (s1 := mkState w1 o1 (trace s)).
    destruct (IH f s1) as (s' & Hloop & _ & Ht & Hq' & Hl' & Hown' & Hw' & Hch & Hd & Ho & Hlc & Hfr & Hit).
    + destruct Hown as [_ Ho]. split; [|exact Ho].
      cbn. unfold lockBit. now rewrite lor_kLockBit_locked.
    + exact Hq1.
    + cbn [world s1]. unfold w1, set_contendersList, set_node, set_waitersList.
      cbn [nodes mon waitersList_]. unfold node_at.
      apply (chain_frame (nodes (world s))); [|exact Hc].
      intros b Hb. rewrite lookup_total_insert_ne; [reflexivity|].
      intros ->. contradiction.
    + exact Hal'.
    + cbn in Hf. lia.
    + cbn [oracle s1]. lia.
    + exists s'. split; [exact Hloop|]. split; [discriminate|].
      split; [exact Ht|]. split; [exact Hq'|]. split; [cbn in Hl'; lia|].
      split; [exact Hown'|]. split; [exact Hw'|].
      assert (Hnode : node_at (world s') a =
                mkNode (Z.land (contendersList_ (mon (world s))) (Z.lnot kLockBit))
                       (item_ (node_at (world s) a))).
      { rewrite (Hfr a Hfresh). unfold s1, w1, node_at, set_contendersList, set_node.
        cbn [world nodes]. apply lookup_total_insert_eq. }
      split.
      { cbn [rev]. eapply chain_app; [exact Hch|].
        cbn [world s1]. unfold w1 at 1. cbn [set_contendersList mon contendersList_].
        rewrite (land_lor_aligned a Haa). cbn [chain].
        split; [reflexivity|]. split; [exact Ha|].
        fold (node_at (world s') a). rewrite Hnode. reflexivity. }
      split; [rewrite Hd; reflexivity|]. split; [rewrite Ho; reflexivity|].
      split; [rewrite Hlc; reflexivity|]. split.
      { intros p Hp. rewrite Hfr by (intros Hin; apply Hp; right; exact Hin).
        unfold s1, w1, node_at, set_contendersList, set_node. cbn [world nodes].
        apply lookup_total_insert_ne. intros ->. apply Hp. left. reflexivity. }
      { intros p. rewrite Hit. unfold s1, w1, node_at, set_contendersList, set_node.
        cbn [world nodes]. destruct (Z.eq_dec a p) as [->|Hne'].
        - rewrite lookup_total_insert_eq. reflexivity.
        - rewrite lookup_total_insert_ne by exact Hne'. reflexivity. }
Qed.

(** *** What holds when a computation returns *)

Lemma post_bind {A B} (m : M A) (k : A -> M B) (s : State) (Q : B -> State -> Prop) :
  post (m s) (fun a s' => post (k a s') Q) -> post (bind m k s) Q.
Proof. unfold post, bind. destruct (m s) as [[a| |] s']; auto. Qed.

Lemma post_conseq {A} (x : outcome A * State) (Q Q' : A -> State -> Prop) :
  post x Q' -> (forall a s', Q' a s' -> Q a s') -> post x Q.
Proof. unfold post. destruct x as [[a| |] s']; auto. Qed.

Lemma post_Done {A} (x : outcome A * State) (Q : A -> State -> Prop) (a : A) (s' : State) :
  post x Q -> x = (Done a, s') -> Q a s'.
Proof. intros H ->. exact H. Qed.

Lemma post_loop {A B} (I : A -> State -> Prop) (Q : B -> State -> Prop)
    (body : A -> M (A + B)) :
  (forall a s, I a s ->
     post (body a s) (fun r s' => match r with inl a' => I a' s' | inr b => Q b s' end)) ->
  forall fuel a s, I a s -> post (loop fuel body a s) Q.
Proof.
  intros Hbody fuel a s HI.
  destruct (loop fuel body a s) as [r s'] eqn:Hrun.
  refine (loop_inv I (fun r s' => post (r, s') Q) body _ _ fuel a s r s' HI Hrun).
  - intros a0 s0 r0 s0' HI0 Hb. specialize (Hbody _ _ HI0). rewrite Hb in Hbody.
    destruct r0 as [[?|?]| |]; cbn in *; auto.
  - cbn. auto.
Qed.

(** *** The oracle only shrinks *)

Lemma keepsOracle_ret {A} (a : A) : keepsOracle (ret a).
Proof. intros P s r s' H E. inversion E; subst. exact H. Qed.

Lemma keepsOracle_abort {A} : keepsOracle (@abort A).
Proof. intros P s r s' H E. inversion E; subst. exact H. Qed.

Lemma keepsOracle_bind {A B} (m : M A) (k : A -> M B) :
  keepsOracle m -> (forall a, keepsOracle (k a)) -> keepsOracle (bind m k).
Proof.
  intros Hm Hk P s r s' H E.
  destruct (bind_inv _ _ _ _ _ E) as [(a & s1 & Hb & Hr) | [[Hb _] | [Hb _]]].
  - exact (Hk a P _ _ _ (Hm P _ _ _ H Hb) Hr).
  - exact (Hm P _ _ _ H Hb).
  - exact (Hm P _ _ _ H Hb).
Qed.

Lemma keepsOracle_loop {A B} (fuel : nat) (body : A -> M (A + B)) (a : A) :
  (forall a, keepsOracle (body a)) -> keepsOracle (loop fuel body a).
Proof.
  intros Hb P s r s' H E.
  refine (loop_inv (fun _ s1 => Forall P (oracle s1)) (fun _ s1 => Forall P (oracle s1))
            body _ _ fuel a s r s' H E).
  - intros a0 s0 r0 s0' HI Hrun. specialize (Hb a0 P _ _ _ HI Hrun).
    destruct r0 as [[?|?]| |]; exact Hb.
  - auto.
Qed.

Lemma keepsOracle_if {A} (b : bool) (m1 m2 : M A) :
  keepsOracle m1 -> keepsOracle m2 -> keepsOracle (if b then m1 else m2).
Proof. destruct b; auto. Qed.

Lemma keepsOracle_getMonitor : keepsOracle getMonitor.
Proof. intros P s r s' H E. inversion E; subst. exact H. Qed.

Lemma keepsOracle_getNodes : keepsOracle getNodes.
Proof. intros P s r s' H E. inversion E; subst. exact H. Qed.

Lemma keepsOracle_modifyWorld (f : World -> World) : keepsOracle (modifyWorld f).
Proof. intros P s r s' H E. inversion E; subst. exact H. Qed.

Lemma keepsOracle_emit (e : event) : keepsOracle (emit e).
Proof. intros P s r s' H E. inversion E; subst. exact H. Qed.

Lemma afterEnv_Forall (P : Interference -> Prop) (s : State) :
  Forall P (oracle s) -> Forall P (oracle (afterEnv s)).
Proof.
  unfold afterEnv. destruct (oracle s) as [|i o] eqn:E; cbn.
  - rewrite E. auto.
  - intros H. exact (Forall_inv_tail H).
Qed.

Lemma keepsOracle_envStep : keepsOracle envStep.
Proof.
  intros P s r s' H E. rewrite envStep_eq in E. inversion E; subst.
  now apply afterEnv_Forall.
Qed.

Lemma keepsOracle_continue {A B} (a : A) : keepsOracle (@continue A B a).
Proof. apply keepsOracle_ret. Qed.

Lemma keepsOracle_break {A B} (b : B) : keepsOracle (@break A B b).
Proof. apply keepsOracle_ret. Qed.

Create HintDb oracle.
#[local] Hint Resolve keepsOracle_ret keepsOracle_abort keepsOracle_getMonitor
  keepsOracle_getNodes keepsOracle_modifyWorld keepsOracle_emit keepsOracle_envStep
  keepsOracle_continue keepsOracle_break : oracle.

Ltac oracle_tac :=
  repeat first
    [ match goal with |- forall _, _ => intro end
    | apply keepsOracle_bind | apply keepsOracle_if | apply keepsOracle_loop
    | solve [auto with oracle]
    | match goal with |- keepsOracle (match ?x with _ => _ end) => destruct x end ].

Lemma keepsOracle_prims :
  keepsOracle load_contendersList /\ keepsOracle isLocked /\
  keepsOracle load_onDeck /\
  (forall e d, keepsOracle (cas_weak_contendersList e d)) /\
  (forall e d, keepsOracle (cas_strong_onDeck e d)) /\
  (forall v, keepsOracle (store_onDeck v)) /\
  (forall v, keepsOracle (setOwner v)) /\
  (forall v, keepsOracle (write_lockCount v)) /\
  (forall v, keepsOracle (write_waitersList v)) /\
  (forall p, keepsOracle (next p)) /\ (forall p, keepsOracle (item p)) /\
  (forall p v, keepsOracle (setNext p v)) /\ (forall p v, keepsOracle (setItem p v)) /\
  (forall sem, keepsOracle (Semaphore_reset sem)) /\
  (forall sem, keepsOracle (Semaphore_wait sem)) /\
  (forall sem ms, keepsOracle (Semaphore_timedWait sem ms)) /\
  (forall sem, keepsOracle (Semaphore_post sem)) /\
  keepsOracle Os_spinPause /\ keepsOracle Thread_yield.
Proof.
  unfold isLocked, load_contendersList, load_onDeck, cas_weak_contendersList,
    cas_strong_onDeck, store_onDeck, setOwner, write_lockCount, write_waitersList,
    next, item, setNext, setItem, Semaphore_reset, Semaphore_wait,
    Semaphore_timedWait, Semaphore_post, Os_spinPause, Thread_yield.
  repeat split; oracle_tac.
Qed.

Ltac oracle_prims :=
  destruct keepsOracle_prims as
    (? & ? & ? & ? & ? & ? & ? & ? & ? & ? & ? & ? & ? & ? & ? & ? & ? & ? & ?).

Lemma keepsOracle_assert (cond : M bool) : keepsOracle cond -> keepsOracle (assert ASSERT cond).
Proof. intros H. unfold assert. oracle_tac. Qed.

Lemma keepsOracle_finishUnlock (fuel : nat) : keepsOracle (finishUnlock ASSERT fuel).
Proof. oracle_prims. unfold finishUnlock. oracle_tac. Qed.

Lemma keepsOracle_unlock (fuel : nat) (thread : Thread) :
  keepsOracle (unlock ASSERT fuel thread).
Proof.
  oracle_prims. pose proof (keepsOracle_finishUnlock fuel).
  unfold unlock. apply keepsOracle_bind; [apply keepsOracle_assert|]; oracle_tac.
Qed.

(** The closed form of [tryLock]. *)
Lemma tryLock_unfold (thread : Thread) (s : State) :
  tryLock ASSERT thread s =
    if ASSERT && (self thread =? 0) then (AssertFailed, s)
    else
      let s1 := afterEnv s in
      let m1 := mon (world s1) in
      let ptr := contendersList_ m1 in
      if lockBit ptr then
        if recursive_ m1 && (self thread =? owner_ m1)
        then (Done true, withWorld (set_lockCount (wrap32 (lockCount_ m1 + 1))) s1)
        else (Done false, s1)
      else
        let s2 := afterEnv s1 in
        if (contendersList_ (mon (world s2)) =? ptr) && negb (spuriousNow s1)
        then (Done true,
              withWorld (fun w => set_lockCount 1 (set_owner (self thread)
                           (set_contendersList (Z.lor ptr kLockBit) w))) s2)
        else (Done false, s2).
Proof.
  unfold tryLock.
  assert (Hpre : forall k : unit -> M bool,
    bind (assert ASSERT (ret (negb (self thread =? 0)))) k s =
    if ASSERT && (self thread =? 0) then (AssertFailed, s) else k tt s).
  { intros k. unfold assert, bind, ret, abort.
    destruct ASSERT, (self thread =? 0); reflexivity. }
  rewrite Hpre. destruct (ASSERT && (self thread =? 0)); [reflexivity|].
  rewrite run_load_contendersList. cbn zeta.
  fold (lockBit (contendersList_ (mon (world (afterEnv s))))).
  destruct (lockBit (contendersList_ (mon (world (afterEnv s))))).
  - rewrite run_getMonitor.
    destruct (recursive_ (mon (world (afterEnv s))) &&
              (self thread =? owner_ (mon (world (afterEnv s))))); reflexivity.
  - rewrite run_cas_weak_contendersList.
    destruct ((contendersList_ (mon (world (afterEnv (afterEnv s)))) =?
               contendersList_ (mon (world (afterEnv s)))) &&
              negb (spuriousNow (afterEnv s))); reflexivity.
Qed.

(** C1.  [tryLock], case by case.  The word is loaded after one step of the
    environment ([s1]).  With the LOCK bit set, the owner of a recursive
    monitor has its lock count incremented (as a [uint32_t]) and gets
    [true]; anybody else gets [false] and nothing is written.  With the LOCK
    bit clear there is exactly one compare-and-swap of the loaded word to
    [word | LOCK], after one more step of the environment ([s2]): if it
    succeeds the caller becomes the owner with lock count 1 and gets [true],
    if it fails (the word changed, or the weak CAS failed spuriously) the
    result is [false] at once, without a second attempt. *)
Theorem tryLock_behaviour (thread : Thread) (s : State) :
  self thread <> 0 ->
  let s1 := afterEnv s in
  let m1 := mon (world s1) in
  let word := contendersList_ m1 in
  (lockBit word = true -> recursive_ m1 = true -> self thread = owner_ m1 ->
     tryLock ASSERT thread s =
       (Done true, withWorld (set_lockCount (wrap32 (lockCount_ m1 + 1))) s1))
  /\ (lockBit word = true -> ~ (recursive_ m1 = true /\ self thread = owner_ m1) ->
     tryLock ASSERT thread s = (Done false, s1))
  /\ (lockBit word = false ->
      let s2 := afterEnv s1 in
      let casSucceeds :=
        contendersList_ (mon (world s2)) = word /\ spuriousNow s1 = false in
      (casSucceeds ->
         tryLock ASSERT thread s =
           (Done true,
            withWorld (fun w => set_lockCount 1 (set_owner (self thread)
                         (set_contendersList (Z.lor word kLockBit) w))) s2))
      /\ (~ casSucceeds -> tryLock ASSERT thread s = (Done false, s2))).
Proof.
  intros Hth. cbn zeta. rewrite tryLock_unfold.
  apply Z.eqb_neq in Hth. rewrite Hth, andb_false_r. cbn zeta.
  split; [|split].
  - intros -> -> ->. rewrite Z.eqb_refl. reflexivity.
  - intros -> Hno.
    destruct (recursive_ (mon (world (afterEnv s)))) eqn:Hr; [|reflexivity].
    destruct (self thread =? owner_ (mon (world (afterEnv s)))) eqn:Ho; [|reflexivity].
    apply Z.eqb_eq in Ho. exfalso. apply Hno. split; [reflexivity|exact Ho].
  - intros ->. split.
    + intros [-> ->]. rewrite Z.eqb_refl. reflexivity.
    + intros Hno.
      destruct (contendersList_ (mon (world (afterEnv (afterEnv s)))) =?
                contendersList_ (mon (world (afterEnv s)))) eqn:Hc; [|reflexivity].
      destruct (spuriousNow (afterEnv s)) eqn:Hs; [reflexivity|].
      apply Z.eqb_eq in Hc. exfalso. apply Hno. split; [exact Hc|reflexivity].
Qed.

(** C9.  When [tryLock] returns [false] it has written nothing: the state
    is the one the environment left at the last atomic access, and where
    the environment does not interfere every field of the monitor, every
    node and the log are as before the call. *)
Theorem tryLock_false_no_change (thread : Thread) (s s' : State) :
  tryLock ASSERT thread s = (Done false, s') ->
  (s' = afterEnv s \/ s' = afterEnv (afterEnv s)) /\
  (noInterference (oracle s) ->
     contendersList_ (mon (world s')) = contendersList_ (mon (world s)) /\
     onDeck_ (mon (world s')) = onDeck_ (mon (world s)) /\
     waitersList_ (mon (world s')) = waitersList_ (mon (world s)) /\
     owner_ (mon (world s')) = owner_ (mon (world s)) /\
     lockCount_ (mon (world s')) = lockCount_ (mon (world s)) /\
     world s' = world s /\ trace s' = trace s).
Proof.
  rewrite tryLock_unfold. cbn zeta. intros H.
  assert (Hs : s' = afterEnv s \/ s' = afterEnv (afterEnv s)).
  { destruct (ASSERT && (self thread =? 0)); [discriminate|].
    destruct (lockBit _).
    - destruct (_ && _); inversion H. left; reflexivity.
    - destruct (_ && _); inversion H. right; reflexivity. }
  split; [exact Hs|]. intros Hq.
  destruct (afterEnv_noInterference s Hq) as [Hw1 Hq1].
  destruct (afterEnv_noInterference _ Hq1) as [Hw2 Hq2].
  assert (Hw : world s' = world s /\ trace s' = trace s).
  { destruct Hs as [-> | ->]; rewrite ?afterEnv_trace; split; congruence. }
  destruct Hw as [Hw Ht]. rewrite Hw. repeat split; assumption.
Qed.

(** C10.  A successful [tryLock] on a word with the LOCK bit clear sets
    that bit and nothing else: the upper bits of the word are those of the
    word it loaded, no node is written, and whatever chain of nodes was
    linked from the word is still linked from it afterwards. *)
Theorem tryLock_acquire_keeps_chain (thread : Thread) (s s' : State) :
  tryLock ASSERT thread s = (Done true, s') ->
  let s1 := afterEnv s in
  let word := contendersList_ (mon (world s1)) in
  lockBit word = false ->
  let s2 := afterEnv s1 in
  let word' := contendersList_ (mon (world s')) in
  contendersList_ (mon (world s2)) = word /\
  word' = Z.lor word kLockBit /\
  lockBit word' = true /\
  (forall n, 0 < n -> Z.testbit word' n = Z.testbit word n) /\
  Z.land word' (Z.lnot kLockBit) = word /\
  nodes (world s') = nodes (world s2) /\
  (forall l q, chain (nodes (world s2)) word l q ->
               chain (nodes (world s')) (Z.land word' (Z.lnot kLockBit)) l q).
Proof.
  rewrite tryLock_unfold. cbn zeta. intros H Hbit.
  destruct (ASSERT && (self thread =? 0)); [discriminate|].
  rewrite Hbit in H.
  destruct (contendersList_ (mon (world (afterEnv (afterEnv s)))) =?
            contendersList_ (mon (world (afterEnv s)))) eqn:Hc;
    [|discriminate].
  destruct (spuriousNow (afterEnv s)); [discriminate|].
  apply Z.eqb_eq in Hc. inversion H; subst s'; clear H. cbn.
  assert (Hz : Z.land (contendersList_ (mon (world (afterEnv s)))) kLockBit = 0).
  { unfold lockBit in Hbit. apply negb_false_iff in Hbit. now apply Z.eqb_eq. }
  split; [exact Hc|]. split; [reflexivity|]. split.
  { unfold lockBit. now rewrite lor_kLockBit_locked. }
  split; [intros n Hn; now apply lor_kLockBit_testbit|].
  split; [now apply lor_kLockBit_upper|].
  split; [reflexivity|].
  intros l q Hl. rewrite lor_kLockBit_upper by exact Hz. exact Hl.
Qed.

Lemma tryLock_returns (thread : Thread) (s : State) :
  self thread <> 0 ->
  exists r s', tryLock ASSERT thread s = (Done r, s') /\ trace s' = trace s.
Proof.
  intros Hth. rewrite tryLock_unfold. apply Z.eqb_neq in Hth.
  rewrite Hth, andb_false_r. cbn zeta.
  destruct (lockBit _); destruct (_ && _); eexists _, _; (split; [reflexivity|]);
    cbn; rewrite ?afterEnv_trace; reflexivity.
Qed.

(** The [for] loop of [trySpinLock] with [n] rounds to go. *)
Lemma trySpinLock_for_spec (thread : Thread) (n : nat) (s : State) :
  self thread <> 0 ->
  exists r s',
    trySpinLock_for ASSERT thread n s = (Done r, s') /\
    ((r = false /\ spun n s s') \/
     (exists k sk sh,
        (k < n)%nat /\ spun k s sk /\ hinted sk sh /\
        lockBit (contendersList_ (mon (world (afterEnv sh)))) = false /\
        tryLock ASSERT thread (afterEnv sh) = (Done r, s'))).
Proof.
  intros Hth. revert s. induction n as [|n IH]; intros s.
  - exists false, s. split; [reflexivity|]. left. split; [reflexivity|constructor].
  - set (sh := mkState (world s) (oracle s)
                 (trace s ++ [if Z.of_nat (S n) >=? kMaxSpinIter - kMaxReadSpinIter
                              then EvSpinPause else EvYield])).
    assert (Hh : hinted s sh).
    { unfold hinted, sh. cbn. repeat split.
      destruct (Z.of_nat (S n) >=? _); auto. }
    assert (Hrun : forall k : unit -> M bool,
      bind (if Z.of_nat (S n) >=? kMaxSpinIter - kMaxReadSpinIter
            then Os_spinPause else Thread_yield) k s = k tt sh).
    { intros k. unfold sh, Os_spinPause, Thread_yield.
      destruct (Z.of_nat (S n) >=? _); apply run_emit. }
    cbn [trySpinLock_for]. rewrite Hrun, run_isLocked.
    destruct (lockBit (contendersList_ (mon (world (afterEnv sh))))) eqn:Hl; cbn [negb].
    + destruct (IH (afterEnv sh)) as (r & s' & Hr & Hcase).
      exists r, s'. split; [exact Hr|].
      destruct Hcase as [[-> Hsp] | (k & sk & sh' & Hk & Hsp & Hh' & Hl' & Ht)].
      * left. split; [reflexivity|]. econstructor; eassumption.
      * right. exists (S k), sk, sh'.
        split; [lia|]. split; [econstructor; eassumption|].
        split; [assumption|]. split; assumption.
    + destruct (tryLock_returns thread (afterEnv sh) Hth) as (r & s' & Hr & _).
      exists r, s'. split; [exact Hr|]. right.
      exists O, s, sh.
      split; [lia|]. split; [constructor|].
      split; [assumption|]. split; assumption.
Qed.

(** The hints of the spin loop: pauses come first, yields last, one per
    round. *)
Lemma trySpinLock_for_trace (thread : Thread) (n : nat) (s : State) (r : outcome bool)
    (s' : State) :
  self thread <> 0 ->
  trySpinLock_for ASSERT thread n s = (r, s') ->
  exists p y : nat,
    trace s' = trace s ++ repeat EvSpinPause p ++ repeat EvYield y /\
    (p + y <= n)%nat /\
    (Z.of_nat n < kMaxSpinIter - kMaxReadSpinIter -> p = O).
Proof.
  intros Hth. revert s. induction n as [|n IH]; intros s.
  - cbn. intros H. inversion H; subst. exists O, O. cbn.
    rewrite app_nil_r. split; [reflexivity|]. split; [lia|]. intros _. reflexivity.
  - cbn [trySpinLock_for].
    set (e := if Z.of_nat (S n) >=? kMaxSpinIter - kMaxReadSpinIter
              then EvSpinPause else EvYield).
    set (sh := mkState (world s) (oracle s) (trace s ++ [e])).
    assert (Hrun : forall k : unit -> M bool,
      bind (if Z.of_nat (S n) >=? kMaxSpinIter - kMaxReadSpinIter
            then Os_spinPause else Thread_yield) k s = k tt sh).
    { intros k. unfold sh, e, Os_spinPause, Thread_yield.
      destruct (Z.of_nat (S n) >=? _); apply run_emit. }
    rewrite Hrun, run_isLocked.
    destruct (lockBit (contendersList_ (mon (world (afterEnv sh))))); cbn [negb].
    + intros H. destruct (IH _ H) as (p & y & Ht & Hle & Hp).
      rewrite afterEnv_trace in Ht. cbn [trace sh] in Ht.
      unfold e in Ht.
      destruct (Z.of_nat (S n) >=? kMaxSpinIter - kMaxReadSpinIter) eqn:Hge.
      * exists (S p), y. rewrite Ht, <- app_assoc. cbn.
        split; [reflexivity|]. split; [lia|]. intros Hlt.
        apply Z.geb_le in Hge. lia.
      * assert (p = O) as ->.
        { apply Hp. rewrite Z.geb_leb in Hge. apply Z.leb_gt in Hge. lia. }
        exists O, (S y). rewrite Ht, <- app_assoc. cbn.
        split; [reflexivity|]. split; [lia|]. intros _. reflexivity.
    + intros H.
      destruct (tryLock_returns thread (afterEnv sh) Hth) as (r0 & s0 & Hr & Ht).
      rewrite Hr in H. inversion H; subst r s'. clear H.
      rewrite Ht, afterEnv_trace. cbn [trace sh]. unfold e.
      destruct (Z.of_nat (S n) >=? kMaxSpinIter - kMaxReadSpinIter) eqn:Hge.
      * exists 1%nat, O. cbn. split; [reflexivity|]. split; [lia|].
        apply Z.geb_le in Hge. lia.
      * exists O, 1%nat. cbn. split; [reflexivity|]. split; [lia|].
        intros _. reflexivity.
Qed.

(** C8, as the code has it.  [trySpinLock] always returns.  It first tries
    [tryLock] and returns [true] if that succeeds.  Otherwise it spins for at
    most [kMaxSpinIter] = 55 rounds; a round issues one hint (a spin pause or
    a yield, all pauses before all yields) and reads the lock word.  The
    first time the word shows unlocked, [tryLock] is attempted once and its
    result, [true] or [false], is the result; if the word shows locked in
    all 55 rounds the result is [false]. *)
Theorem trySpinLock_behaviour (thread : Thread) (s : State) :
  self thread <> 0 ->
  exists r s',
    trySpinLock ASSERT thread s = (Done r, s') /\
    (exists p y : nat,
       trace s' = trace s ++ repeat EvSpinPause p ++ repeat EvYield y /\
       (p + y <= Z.to_nat kMaxSpinIter)%nat) /\
    ((r = true /\ tryLock ASSERT thread s = (Done true, s')) \/
     (exists s0,
        tryLock ASSERT thread s = (Done false, s0) /\
        ((r = false /\ spun (Z.to_nat kMaxSpinIter) s0 s') \/
         (exists k sk sh,
            (k < Z.to_nat kMaxSpinIter)%nat /\ spun k s0 sk /\ hinted sk sh /\
            lockBit (contendersList_ (mon (world (afterEnv sh)))) = false /\
            tryLock ASSERT thread (afterEnv sh) = (Done r, s'))))).
Proof.
  intros Hth. unfold trySpinLock.
  destruct (tryLock_returns thread s Hth) as (r0 & s0 & Hr0 & Ht0).
  unfold bind at 1. rewrite Hr0. destruct r0.
  - exists true, s0. split; [reflexivity|]. split.
    + exists O, O. cbn. rewrite app_nil_r. split; [exact Ht0|lia].
    + left. split; reflexivity.
  - destruct (trySpinLock_for_spec thread (Z.to_nat kMaxSpinIter) s0 Hth)
      as (r & s' & Hr & Hcase).
    exists r, s'. split; [exact Hr|]. split.
    + destruct (trySpinLock_for_trace thread _ _ _ _ Hth Hr) as (p & y & Ht & Hle & _).
      exists p, y. rewrite Ht, Ht0. split; [reflexivity|exact Hle].
    + right. exists s0. split; [reflexivity|exact Hcase].
Qed.

(** *** [unlock] returns *)

Lemma afterEnv_nil (s : State) : oracle s = [] -> afterEnv s = s.
Proof. intros H. unfold afterEnv. rewrite H. reflexivity. Qed.

Lemma spuriousNow_quiet (s : State) : oracle s = [] -> spuriousNow s = false.
Proof. intros H. unfold spuriousNow. rewrite H. reflexivity. Qed.

Lemma run_bind_loop_S {A B C} (fuel : nat) (body : A -> M (A + B)) (a : A)
    (k : B -> M C) (s : State) :
  bind (loop (S fuel) body a) k s =
  bind (body a) (fun r => bind (match r with
                                | inl a' => loop fuel body a'
                                | inr b => ret b
                                end) k) s.
Proof. cbn [loop]. apply run_bind_bind. Qed.

(** With nobody around, [finishUnlock] pops the head of the contenders,
    puts its semaphore on deck and posts it. *)
Lemma finishUnlock_returns (fuel : nat) (s : State) :
  (1 <= fuel)%nat -> oracle s = [] ->
  onDeck_ (mon (world s)) = 0 ->
  contendersList_ (mon (world s)) <> 0 ->
  lockBit (contendersList_ (mon (world s))) = false ->
  item_ (node_at (world s) (contendersList_ (mon (world s)))) <> 0 ->
  exists s', finishUnlock ASSERT fuel s = (Done tt, s') /\
    trace s' = trace s ++
      [EvPost (item_ (node_at (world s) (contendersList_ (mon (world s)))))].
Proof.
  intros Hf Ho Hd Hc Hl Hi. destruct fuel as [|fuel]; [lia|].
  unfold finishUnlock. rewrite run_loop_S, run_bind_bind, run_cas_strong_onDeck.
  rewrite (afterEnv_nil s Ho), Hd. cbn [Z.eqb fst negb].
  rewrite run_bind_bind, run_load_contendersList.
  set (s1 := withWorld _ s). rewrite (afterEnv_nil s1 Ho).
  change (contendersList_ (mon (world s1))) with (contendersList_ (mon (world s))).
  set (head := contendersList_ (mon (world s))) in *.
  rewrite run_bind_bind, run_bind_loop_S.
  apply Z.eqb_neq in Hc. rewrite Hc.
  unfold lockBit in Hl. rewrite Hl.
  rewrite !run_bind_bind, run_next, (afterEnv_nil s1 Ho).
  rewrite run_bind_bind, run_cas_weak_contendersList, (afterEnv_nil s1 Ho).
  change (contendersList_ (mon (world s1))) with head.
  rewrite Z.eqb_refl, (spuriousNow_quiet s1 Ho). cbn [andb negb fst].
  set (s2 := withWorld _ s1).
  assert (Hk : exists s3, oracle s3 = [] /\ trace s3 = trace s /\
            item_ (node_at (world s3) head) = item_ (node_at (world s) head) /\
            forall (C : Type) (k : unit -> M C),
              bind (if ASSERT then setNext head 0 else ret tt) k s2 = k tt s3).
  { destruct ASSERT.
    - exists (withWorld (set_node head (mkNode 0 (item_ (node_at (world s2) head)))) s2).
      split; [exact Ho|]. split; [reflexivity|]. split.
      + unfold withWorld. cbn [world]. rewrite node_at_set_node_eq. reflexivity.
      + intros C k. rewrite run_setNext, (afterEnv_nil s2 Ho). reflexivity.
    - exists s2. repeat split; try reflexivity. exact Ho. }
  destruct Hk as (s3 & Ho3 & Ht3 & Hi3 & Hk).
  rewrite run_bind_bind, Hk, run_break, run_ret.
  rewrite Hc. cbn [negb]. rewrite !run_bind_bind, run_item.
  rewrite !run_bind_bind, run_store_onDeck, (afterEnv_nil s3 Ho3), Hi3.
  apply Z.eqb_neq in Hi. rewrite Hi. cbn [negb].
  unfold Semaphore_post. rewrite !run_bind_bind, run_emit, run_break.
  unfold ret. eexists. split; [reflexivity|]. cbn [trace withWorld]. rewrite Ht3.
  reflexivity.
Qed.

(** With nobody around, [unlock] by the owner returns, provided the node at
    the head of the contenders, if there is one, carries a semaphore. *)
Lemma unlock_returns (fuel : nat) (thread : Thread) (s : State) :
  (1 <= fuel)%nat -> oracle s = [] -> owns thread (world s) ->
  (let head := Z.land (contendersList_ (mon (world s))) (Z.lnot kLockBit) in
   head = 0 \/ item_ (node_at (world s) head) <> 0) ->
  exists s', unlock ASSERT fuel thread s = (Done tt, s').
Proof.
  intros Hf Ho Hown Hhead. cbn zeta in Hhead. unfold unlock.
  rewrite run_assert_owns by (rewrite (afterEnv_nil s Ho); exact Hown).
  replace (if ASSERT then afterEnv s else s) with s
    by (destruct ASSERT; [rewrite (afterEnv_nil s Ho)|]; reflexivity).
  rewrite run_getMonitor.
  assert (Hrel : forall s1 : State,
    oracle s1 = [] ->
    contendersList_ (mon (world s1)) = contendersList_ (mon (world s)) ->
    nodes (world s1) = nodes (world s) ->
    exists s',
      (setOwner 0 ;;;
       ptr <- load_contendersList ;;
       loop fuel (fun ptr =>
         r <- cas_weak_contendersList ptr (Z.land ptr (Z.lnot kLockBit)) ;;
         if fst r then break tt else continue (snd r)) ptr ;;;
       onDeck <- load_onDeck ;;
       if negb (onDeck =? 0) then
         if Z.land onDeck kLockBit =? 0 then Semaphore_post onDeck else ret tt
       else
         head <- load_contendersList ;;
         if (head =? 0) || negb (Z.land head kLockBit =? 0) then ret tt
         else finishUnlock ASSERT fuel) s1 = (Done tt, s')).
  { intros s1 Ho1 Hc1 Hn1. destruct fuel as [|fuel']; [lia|].
    rewrite run_setOwner, run_load_contendersList.
    set (s2 := withWorld (set_owner 0) s1).
    rewrite (afterEnv_nil s2 Ho1).
    change (contendersList_ (mon (world s2))) with (contendersList_ (mon (world s1))).
    rewrite run_bind_loop_S, run_bind_bind, run_cas_weak_contendersList.
    rewrite (afterEnv_nil s2 Ho1), (spuriousNow_quiet s2 Ho1).
    change (contendersList_ (mon (world s2))) with (contendersList_ (mon (world s1))).
    rewrite Z.eqb_refl. cbn [andb negb fst].
    rewrite run_break, run_ret, run_load_onDeck.
    set (s3 := withWorld _ s2). rewrite (afterEnv_nil s3 Ho1).
    destruct (negb (onDeck_ (mon (world s3)) =? 0)) eqn:Hd.
    - destruct (Z.land (onDeck_ (mon (world s3))) kLockBit =? 0); eexists; reflexivity.
    - rewrite run_load_contendersList, (afterEnv_nil s3 Ho1).
      change (contendersList_ (mon (world s3)))
        with (Z.land (contendersList_ (mon (world s1))) (Z.lnot kLockBit)).
      rewrite Hc1.
      destruct (Z.land (contendersList_ (mon (world s))) (Z.lnot kLockBit) =? 0) eqn:Hz;
        [eexists; reflexivity|].
      cbn [orb]. fold (lockBit (Z.land (contendersList_ (mon (world s))) (Z.lnot kLockBit))).
      assert (Hlb : lockBit (Z.land (contendersList_ (mon (world s))) (Z.lnot kLockBit))
                    = false).
      { unfold lockBit. now rewrite land_lnot_kLockBit_unlocked. }
      rewrite Hlb. apply Z.eqb_neq in Hz.
      destruct Hhead as [Hhead|Hhead]; [contradiction|].
      apply negb_false_iff, Z.eqb_eq in Hd.
      assert (Hcs3 : contendersList_ (mon (world s3)) =
                     Z.land (contendersList_ (mon (world s))) (Z.lnot kLockBit)).
      { unfold s3, s2, withWorld. cbn. now rewrite Hc1. }
      destruct (finishUnlock_returns (S fuel') s3) as (s' & Hrun & _).
      + lia.
      + exact Ho1.
      + exact Hd.
      + rewrite Hcs3. exact Hz.
      + rewrite Hcs3. exact Hlb.
      + rewrite Hcs3. unfold node_at in *.
        change (nodes (world s3)) with (nodes (world s1)). rewrite Hn1. exact Hhead.
      + exists s'. exact Hrun. }
  destruct (recursive_ (mon (world s))).
  - rewrite run_bind_bind, run_write_lockCount, run_ret.
    destruct (wrap32 (lockCount_ (mon (world s)) - 1) >? 0); [eexists; reflexivity|].
    apply Hrel; [exact Ho|reflexivity|reflexivity].
  - rewrite run_ret. apply Hrel; [exact Ho|reflexivity|reflexivity].
Qed.
(** C2.  Whatever the other threads do and however it ends, one call of
    [unlock] logs nothing or exactly one post of a semaphore, be it the post
    of the on-deck semaphore in [unlock] itself or the one of the successor
    chosen by [finishUnlock]: at most one post, and no call that blocks.
    And left alone, [unlock] by the owner returns (the node at the head of
    the contenders, if any, carrying a semaphore). *)
Theorem unlock_posts_at_most_once (fuel : nat) (thread : Thread) (s : State) :
  (exists tail : list event,
     trace (snd (unlock ASSERT fuel thread s)) = trace s ++ tail /\
     (tail = [] \/ exists sem, tail = [EvPost sem]) /\
     (posts tail <= 1)%nat /\
     Forall (fun e => blocking e = false) tail) /\
  ((1 <= fuel)%nat -> oracle s = [] -> owns thread (world s) ->
   (let head := Z.land (contendersList_ (mon (world s))) (Z.lnot kLockBit) in
    head = 0 \/ item_ (node_at (world s) head) <> 0) ->
   exists s', unlock ASSERT fuel thread s = (Done tt, s')).
Proof.
  split; [|apply unlock_returns].
  destruct (unlock ASSERT fuel thread s) as [r s'] eqn:H. cbn [snd].
  destruct (unlock_postsAtMostOnce fuel thread _ _ _ H) as [Ht | [sem Ht]].
  - exists []. rewrite app_nil_r.
    split; [exact Ht|]. split; [left; reflexivity|]. split; [cbn; lia|constructor].
  - exists [EvPost sem].
    split; [exact Ht|]. split; [right; exists sem; reflexivity|].
    split; [cbn; lia|repeat constructor].
Qed.

(** *** [notify] and [notifyAll] while other threads contend *)

Lemma afterEnv_take (s : State) :
  afterEnv s =
  mkState (others (take 1 (oracle s)) (world s)) (drop 1 (oracle s)) (trace s).
Proof.
  unfold afterEnv. destruct s as [w [|i o] t]; reflexivity.
Qed.

Lemma others_app (u1 u2 : list Interference) (w : World) :
  others (u1 ++ u2) w = others u2 (others u1 w).
Proof. apply fold_left_app. Qed.

Lemma others_noInterference (used : list Interference) (w : World) :
  noInterference used -> others used w = w.
Proof.
  revert w. induction used as [|i used IH]; intros w H; [reflexivity|].
  inversion H as [|? ? Hi Hu]; subst. cbn. rewrite Hi. now apply IH.
Qed.

Lemma noInterference_leavesWaiter (p : Z) (o : list Interference) :
  noInterference o -> Forall (leavesWaiter p) o.
Proof.
  intros H. eapply Forall_impl; [exact H|].
  intros i Hi. split; intros; rewrite !Hi; reflexivity.
Qed.

Lemma noInterference_respectsOwner (thread : Thread) (o : list Interference) :
  noInterference o -> Forall (respectsOwner thread) o.
Proof.
  intros H. eapply Forall_impl; [exact H|].
  intros i Hi w Hown. rewrite Hi. auto.
Qed.

Lemma others_node (p : Z) (used : list Interference) (w : World) :
  Forall (leavesWaiter p) used -> node_at (others used w) p = node_at w p.
Proof.
  revert w. induction used as [|i used IH]; intros w H; [reflexivity|].
  inversion H as [|? ? Hi Hu]; subst. cbn. rewrite (IH _ Hu). apply (lw_node p i Hi).
Qed.

Lemma others_waiters (p : Z) (used : list Interference) (w : World) :
  Forall (leavesWaiter p) used ->
  waitersList_ (mon (others used w)) = waitersList_ (mon w).
Proof.
  revert w. induction used as [|i used IH]; intros w H; [reflexivity|].
  inversion H as [|? ? Hi Hu]; subst. cbn. rewrite (IH _ Hu). apply (lw_waiters p i Hi).
Qed.

Lemma others_set_node (p : Z) (used : list Interference) (w : World) (n : LinkedNode) :
  Forall (leavesWaiter p) used ->
  others used (set_node p n w) = set_node p n (others used w).
Proof.
  revert w. induction used as [|i used IH]; intros w H; [reflexivity|].
  inversion H as [|? ? Hi Hu]; subst. cbn. rewrite (lw_set_node p i Hi). now apply IH.
Qed.

Lemma others_set_waiters (p : Z) (used : list Interference) (w : World) (v : Z) :
  Forall (leavesWaiter p) used ->
  others used (set_waitersList v w) = set_waitersList v (others used w).
Proof.
  revert w. induction used as [|i used IH]; intros w H; [reflexivity|].
  inversion H as [|? ? Hi Hu]; subst. cbn. rewrite (lw_set_waiters p i Hi). now apply IH.
Qed.

Lemma others_owns (thread : Thread) (used : list Interference) (w : World) :
  Forall (respectsOwner thread) used -> owns thread w -> owns thread (others used w).
Proof.
  revert w. induction used as [|i used IH]; intros w H Hown; [exact Hown|].
  inversion H as [|? ? Hi Hu]; subst. cbn. apply IH; [exact Hu|]. now apply Hi.
Qed.

Lemma others_lockCount (thread : Thread) (used : list Interference) (w : World) :
  Forall (respectsOwner thread) used -> owns thread w ->
  lockCount_ (mon (others used w)) = lockCount_ (mon w).
Proof.
  revert w. induction used as [|i used IH]; intros w H Hown; [reflexivity|].
  inversion H as [|? ? Hi Hu]; subst. cbn.
  destruct (Hi w Hown) as [Hown' Hc].
  change (lockCount_ (mon (others used (interfere i w))) = lockCount_ (mon w)).
  rewrite (IH _ Hu Hown'). exact Hc.
Qed.

(** The push loop of [notify] while other threads act: a compare-and-swap
    that fails, spuriously or because the lock word has changed, is retried
    with the lock word it found.  In the end the waiter is linked to the
    lock word its successful compare-and-swap replaced. *)
Lemma notify_push_used (waiter : Z) (fuel : nat) :
  forall s : State,
  Forall (leavesWaiter waiter) (oracle s) ->
  (length (oracle s) < fuel)%nat ->
  exists used o',
    oracle s = used ++ o' /\
    loop fuel
      (fun node : Z =>
         setNext waiter (Z.land node (Z.lnot kLockBit)) ;;;
         r <- cas_weak_contendersList node (Z.lor waiter kLockBit) ;;
         if fst r then break tt else continue (snd r))
      (contendersList_ (mon (world s))) s =
    (Done tt,
     mkState
       (set_contendersList (Z.lor waiter kLockBit)
          (set_node waiter
             (mkNode (Z.land (contendersList_ (mon (others used (world s))))
                             (Z.lnot kLockBit))
                     (item_ (node_at (world s) waiter)))
             (others used (world s))))
       o' (trace s)).
Proof.
  induction fuel as [|fuel IH]; intros s Hlw Hlen; [lia|].
  rewrite run_loop_S, run_bind_bind, run_setNext.
  rewrite (afterEnv_take s). cbn [world].
  set (u1 := take 1 (oracle s)). set (o1 := drop 1 (oracle s)).
  set (w1 := others u1 (world s)).
  assert (Ho : oracle s = u1 ++ o1) by (symmetry; apply take_drop).
  assert (Hu1 : Forall (leavesWaiter waiter) u1) by (apply Forall_take, Hlw).
  assert (Ho1 : Forall (leavesWaiter waiter) o1) by (apply Forall_drop, Hlw).
  assert (Hn1 : node_at w1 waiter = node_at (world s) waiter)
    by (apply others_node, Hu1).
  rewrite Hn1. unfold withWorld. cbn [world oracle trace].
  set (nA := mkNode (Z.land (contendersList_ (mon (world s))) (Z.lnot kLockBit))
                    (item_ (node_at (world s) waiter))).
  rewrite run_bind_bind, run_cas_weak_contendersList.
  set (sA := mkState (set_node waiter nA w1) o1 (trace s)).
  rewrite (afterEnv_take sA). cbn [world oracle trace sA].
  set (u2 := take 1 o1). set (o2 := drop 1 o1).
  assert (Ho12 : o1 = u2 ++ o2) by (symmetry; apply take_drop).
  assert (Hu2 : Forall (leavesWaiter waiter) u2) by (apply Forall_take, Ho1).
  assert (Ho2 : Forall (leavesWaiter waiter) o2) by (apply Forall_drop, Ho1).
  rewrite (others_set_node waiter u2 w1 nA Hu2).
  set (w2 := others u2 w1).
  assert (Hw2 : w2 = others (u1 ++ u2) (world s)) by (unfold w2, w1; now rewrite others_app).
  change (contendersList_ (mon (set_node waiter nA w2))) with (contendersList_ (mon w2)).
  unfold withWorld. cbn [world oracle trace].
  destruct ((contendersList_ (mon w2) =? contendersList_ (mon (world s)))
            && negb (spuriousNow sA)) eqn:Hcas; cbn [fst snd].
  - rewrite run_break. exists (u1 ++ u2), o2.
    split; [rewrite Ho, Ho12, app_assoc; reflexivity|].
    apply andb_true_iff in Hcas. destruct Hcas as [Hc _]. apply Z.eqb_eq in Hc.
    rewrite <- Hw2. unfold nA. rewrite Hc. reflexivity.
  - rewrite run_continue.
    set (s2 := mkState (set_node waiter nA w2) o2 (trace s)).
    assert (Hne : oracle s <> []).
    { intros Hnil. unfold s2, sA, w2, w1, u2, o2, o1, u1 in Hcas.
      unfold spuriousNow in Hcas. cbn [oracle] in Hcas.
      rewrite Hnil in Hcas. cbn in Hcas. rewrite Z.eqb_refl in Hcas. discriminate. }
    assert (Hlen2 : (length (oracle s2) < fuel)%nat).
    { cbn [oracle s2]. unfold o2, o1. rewrite !length_drop.
      destruct (oracle s); [congruence|]. cbn in *. lia. }
    destruct (IH s2 Ho2 Hlen2) as (used' & o' & Hsplit & Hrun).
    cbn [world oracle trace s2] in Hsplit, Hrun.
    change (contendersList_ (mon (set_node waiter nA w2)))
      with (contendersList_ (mon w2)) in Hrun.
    rewrite Hrun.
    assert (Hu' : Forall (leavesWaiter waiter) used').
    { rewrite Hsplit in Ho2. now apply Forall_app in Ho2. }
    exists (u1 ++ u2 ++ used'), o'.
    split; [rewrite Ho, Ho12, Hsplit, <- !app_assoc; reflexivity|].
    rewrite (others_set_node waiter used' w2 nA Hu').
    rewrite node_at_set_node_eq, set_node_set_node.
    rewrite app_assoc, others_app, <- Hw2.
    reflexivity.
Qed.

(** A contender that pushes its own node is such an interference. *)
Lemma contenderPush_leavesWaiter (node sem p : Z) :
  node <> p -> leavesWaiter p (contenderPush node sem).
Proof.
  intros Hne. split; cbn [interfere contenderPush].
  - intros w. destruct (lockBit _); [|reflexivity].
    unfold node_at, set_contendersList, set_node. cbn [nodes].
    now apply lookup_total_insert_ne.
  - intros w. destruct (lockBit _); reflexivity.
  - intros w n.
    change (contendersList_ (mon (set_node p n w))) with (contendersList_ (mon w)).
    destruct (lockBit _); [|reflexivity].
    unfold set_contendersList, set_node. cbn [nodes mon]. f_equal.
    now apply insert_insert_ne.
  - intros w v.
    change (contendersList_ (mon (set_waitersList v w))) with (contendersList_ (mon w)).
    destruct (lockBit _); reflexivity.
Qed.

Lemma contenderPush_respectsOwner (thread : Thread) (node sem : Z) :
  respectsOwner thread (contenderPush node sem).
Proof.
  intros w [Hl Ho]. cbn [interfere contenderPush]. rewrite Hl.
  split; [|reflexivity]. split; [|exact Ho].
  cbn. unfold lockBit. now rewrite lor_kLockBit_locked.
Qed.

Lemma entry_used (s : State) :
  exists ua oa,
    oracle s = ua ++ oa /\
    (if ASSERT then afterEnv s else s) = mkState (others ua (world s)) oa (trace s).
Proof.
  destruct ASSERT.
  - exists (take 1 (oracle s)), (drop 1 (oracle s)).
    split; [symmetry; apply take_drop|apply afterEnv_take].
  - exists [], (oracle s). split; [reflexivity|]. symmetry. apply state_eta.
Qed.

(** [notify] while other threads act: it is the atomic step of the
    specification, taken after what the others did in the meantime. *)
Lemma notify_used (fuel : nat) (thread : Thread) (s : State) :
  owns thread (world s) ->
  Forall (respectsOwner thread) (oracle s) ->
  Forall (leavesWaiter (waitersList_ (mon (world s)))) (oracle s) ->
  (length (oracle s) < fuel)%nat ->
  exists used o',
    oracle s = used ++ o' /\
    notify ASSERT fuel thread s =
      (Done tt, mkState (notify_atomic (others used (world s))) o' (trace s)).
Proof.
  intros Hown Hro Hlw Hlen. unfold notify.
  set (waiter := waitersList_ (mon (world s))) in *.
  rewrite run_assert_owns.
  2:{ rewrite afterEnv_take. cbn [world].
      apply others_owns; [apply Forall_take, Hro|exact Hown]. }
  destruct (entry_used s) as (ua & oa & Ho & ->).
  assert (Hua : Forall (leavesWaiter waiter) ua)
    by (rewrite Ho in Hlw; now apply Forall_app in Hlw).
  assert (Hoa : Forall (leavesWaiter waiter) oa)
    by (rewrite Ho in Hlw; now apply Forall_app in Hlw).
  rewrite run_getMonitor. cbn [world].
  rewrite (others_waiters waiter ua (world s) Hua). fold waiter.
  destruct (waiter =? 0) eqn:Hw.
  - exists ua, oa. split; [exact Ho|]. unfold ret, notify_atomic.
    rewrite (others_waiters waiter ua (world s) Hua). fold waiter. rewrite Hw.
    reflexivity.
  - rewrite run_next, afterEnv_take. cbn [world oracle trace].
    set (u1 := take 1 oa). set (o1 := drop 1 oa).
    assert (Ho1 : oa = u1 ++ o1) by (symmetry; apply take_drop).
    assert (Hu1 : Forall (leavesWaiter waiter) u1) by (apply Forall_take, Hoa).
    assert (Hlo1 : Forall (leavesWaiter waiter) o1) by (apply Forall_drop, Hoa).
    rewrite <- others_app.
    assert (Hua1 : Forall (leavesWaiter waiter) (ua ++ u1))
      by (apply Forall_app; auto).
    rewrite (others_node waiter (ua ++ u1) (world s) Hua1).
    rewrite run_write_waitersList. unfold withWorld. cbn [world oracle trace].
    rewrite run_load_contendersList, afterEnv_take. cbn [world oracle trace].
    set (u2 := take 1 o1). set (o2 := drop 1 o1).
    assert (Ho2 : o1 = u2 ++ o2) by (symmetry; apply take_drop).
    assert (Hu2 : Forall (leavesWaiter waiter) u2) by (apply Forall_take, Hlo1).
    assert (Hlo2 : Forall (leavesWaiter waiter) o2) by (apply Forall_drop, Hlo1).
    rewrite (others_set_waiters waiter u2 _ _ Hu2), <- others_app.
    set (n := next_ (node_at (world s) waiter)).
    set (W3 := others ((ua ++ u1) ++ u2) (world s)).
    set (s3 := mkState (set_waitersList n W3) o2 (trace s)).
    assert (Hlen3 : (length (oracle s3) < fuel)%nat).
    { cbn [oracle s3]. unfold o2, o1. rewrite !length_drop.
      rewrite Ho, length_app in Hlen. lia. }
    destruct (notify_push_used waiter fuel s3 Hlo2 Hlen3)
      as (used' & o' & Hsplit & Hrun).
    cbn [world oracle trace s3] in Hsplit, Hrun.
    assert (Hu' : Forall (leavesWaiter waiter) used')
      by (rewrite Hsplit in Hlo2; now apply Forall_app in Hlo2).
    assert (Hua2 : Forall (leavesWaiter waiter) ((ua ++ u1) ++ u2))
      by (apply Forall_app; auto).
    assert (Hall : Forall (leavesWaiter waiter) (((ua ++ u1) ++ u2) ++ used'))
      by (apply Forall_app; auto).
    exists (((ua ++ u1) ++ u2) ++ used'), o'.
    split; [rewrite Ho, Ho1, Ho2, Hsplit, <- !app_assoc; reflexivity|].
    rewrite Hrun.
    rewrite (others_set_waiters waiter used' W3 n Hu').
    unfold W3. rewrite <- others_app.
    set (W := others (((ua ++ u1) ++ u2) ++ used') (world s)).
    assert (HwW : waitersList_ (mon W) = waiter)
      by (apply (others_waiters waiter _ (world s) Hall)).
    assert (HnW : node_at W waiter = node_at (world s) waiter)
      by (apply others_node, Hall).
    unfold notify_atomic. rewrite HwW, Hw. unfold pushWaiter. rewrite HnW.
    assert (Hn3 : node_at (set_waitersList n (others ((ua ++ u1) ++ u2) (world s))) waiter
                  = node_at (world s) waiter).
    { change (node_at (others ((ua ++ u1) ++ u2) (world s)) waiter
              = node_at (world s) waiter).
      apply others_node, Hua2. }
    rewrite Hn3. reflexivity.
Qed.

(** C5.  The caller owns the monitor, and the other threads respect that:
    they leave the ownership, [waitersList_] and the head waiter alone, but
    they may act at every atomic access of [notify], for instance push
    themselves on the contenders.  Then [notify] returns, and its effect is
    the atomic step of the specification ([notify_atomic]) applied to the
    memory as the others left it ([used] is what they did during the call).
    With an empty [waitersList_], [notify] itself changes nothing.  Otherwise
    it unlinks the head node [waiter] of [waitersList_] (which becomes the
    node's successor) and pushes that very node onto [contendersList_]: the
    new lock word is [waiter | LOCK], the node's [next_] is the lock word
    that the push replaced, with the LOCK bit masked off, its item and all
    other nodes are untouched.  When nobody interferes (a weak CAS may still
    fail spuriously, any number of times) the others have left the memory
    as it was at the call. *)
Theorem notify_behaviour (fuel : nat) (thread : Thread) (s : State) :
  owns thread (world s) ->
  Forall (respectsOwner thread) (oracle s) ->
  Forall (leavesWaiter (waitersList_ (mon (world s)))) (oracle s) ->
  (length (oracle s) < fuel)%nat ->
  let w := world s in
  let waiter := waitersList_ (mon w) in
  exists s' used,
    notify ASSERT fuel thread s = (Done tt, s') /\
    trace s' = trace s /\
    oracle s = used ++ oracle s' /\
    let we := others used w in
    let head := contendersList_ (mon we) in
    world s' = notify_atomic we /\
    (waiter = 0 -> world s' = we) /\
    (waiter <> 0 ->
       world s' =
         set_contendersList (Z.lor waiter kLockBit)
           (set_node waiter
              (mkNode (Z.land head (Z.lnot kLockBit)) (item_ (node_at w waiter)))
              (set_waitersList (next_ (node_at w waiter)) we)) /\
       waitersList_ (mon (world s')) = next_ (node_at w waiter) /\
       contendersList_ (mon (world s')) = Z.lor waiter kLockBit /\
       next_ (node_at (world s') waiter) = Z.land head (Z.lnot kLockBit) /\
       item_ (node_at (world s') waiter) = item_ (node_at w waiter) /\
       (forall p, p <> waiter -> node_at (world s') p = node_at we p)) /\
    (noInterference (oracle s) -> we = w).
Proof.
  intros Hown Hro Hlw Hlen. cbn zeta.
  destruct (notify_used fuel thread s Hown Hro Hlw Hlen) as (used & o' & Ho & Hrun).
  assert (Hu : Forall (leavesWaiter (waitersList_ (mon (world s)))) used)
    by (rewrite Ho in Hlw; now apply Forall_app in Hlw).
  eexists. exists used. split; [exact Hrun|]. cbn [world trace oracle].
  split; [reflexivity|]. split; [exact Ho|]. split; [reflexivity|].
  unfold notify_atomic. rewrite (others_waiters _ used (world s) Hu).
  split; [|split].
  - intros ->. reflexivity.
  - intros Hne. apply Z.eqb_neq in Hne. rewrite Hne. unfold pushWaiter.
    rewrite (others_node _ used (world s) Hu).
    split; [reflexivity|]. split; [reflexivity|]. split; [reflexivity|].
    unfold node_at, set_contendersList, set_node, set_waitersList. cbn [nodes mon].
    rewrite lookup_total_insert_eq. cbn [next_ item_].
    split; [reflexivity|]. split; [reflexivity|].
    intros p Hp. apply lookup_total_insert_ne. congruence.
  - intros Hq. apply others_noInterference.
    rewrite Ho in Hq. now apply Forall_app in Hq.
Qed.

(** [notifyAll] while other threads act: one atomic push per waiter, each
    after what the others did in the meantime. *)
Lemma notifyAll_used (thread : Thread) (fuel : nat) (l : list Z) :
  forall (f : nat) (s : State),
  owns thread (world s) ->
  Forall (respectsOwner thread) (oracle s) ->
  Forall (fun i => forall a, In a l -> leavesWaiter a i) (oracle s) ->
  chain (nodes (world s)) (waitersList_ (mon (world s))) l 0 ->
  (length l < f)%nat ->
  (length (oracle s) < fuel)%nat ->
  exists chunks o',
    length chunks = length l /\
    oracle s = concat chunks ++ o' /\
    loop f (fun _ : unit =>
      m <- getMonitor ;;
      if negb (waitersList_ m =? 0) then notify ASSERT fuel thread ;;; continue tt
      else break tt) tt s =
      (Done tt, mkState (pushWaiters l chunks (world s)) o' (trace s)) /\
    waitersList_ (mon (pushWaiters l chunks (world s))) = 0 /\
    owns thread (pushWaiters l chunks (world s)).
Proof.
  induction l as [|a l IH]; intros f s Hown Hro Hlw Hc Hf Hfuel.
  - cbn in Hc. destruct f as [|f]; [cbn in Hf; lia|].
    rewrite run_loop_S, run_bind_bind, run_getMonitor, Hc. cbn [Z.eqb negb].
    rewrite run_break. exists [], (oracle s). cbn [pushWaiters concat app length].
    split; [reflexivity|]. split; [reflexivity|].
    split; [unfold ret; now rewrite state_eta|]. split; [exact Hc|exact Hown].
  - destruct Hc as (Hw & Ha & Hc).
    pose proof (chain_null_head_fresh (nodes (world s)) a l) as Hfresh.
    specialize (Hfresh ltac:(cbn; auto)).
    destruct f as [|f]; [cbn in Hf; lia|].
    rewrite run_loop_S, run_bind_bind, run_getMonitor, Hw.
    assert (Hne : (a =? 0) = false) by (now apply Z.eqb_neq). rewrite Hne. cbn [negb].
    rewrite run_bind_bind.
    assert (Hlwa : Forall (leavesWaiter (waitersList_ (mon (world s)))) (oracle s)).
    { rewrite Hw. eapply Forall_impl; [exact Hlw|].
      intros i Hi. apply Hi. left. reflexivity. }
    destruct (notify_used fuel thread s Hown Hro Hlwa Hfuel) as (used & o1 & Ho & Hrun).
    unfold bind at 1. rewrite Hrun. rewrite run_continue.
    assert (Hru : Forall (respectsOwner thread) used)
      by (rewrite Ho in Hro; now apply Forall_app in Hro).
    assert (Hro1 : Forall (respectsOwner thread) o1)
      by (rewrite Ho in Hro; now apply Forall_app in Hro).
    assert (Hlu : Forall (fun i => forall b, In b (a :: l) -> leavesWaiter b i) used)
      by (rewrite Ho in Hlw; now apply Forall_app in Hlw).
    assert (Hlo1 : Forall (fun i => forall b, In b l -> leavesWaiter b i) o1).
    { rewrite Ho in Hlw. apply Forall_app in Hlw. destruct Hlw as [_ Hlw].
      eapply Forall_impl; [exact Hlw|]. intros i Hi b Hb. apply Hi. now right. }
    assert (Hat : forall b, In b (a :: l) ->
              node_at (others used (world s)) b = node_at (world s) b).
    { intros b Hb. apply others_node. eapply Forall_impl; [exact Hlu|].
      intros i Hi. now apply Hi. }
    assert (Hwa : waitersList_ (mon (others used (world s))) = a).
    { rewrite <- Hw. apply (others_waiters a). eapply Forall_impl; [exact Hlu|].
      intros i Hi. apply Hi. left. reflexivity. }
    assert (Hna : notify_atomic (others used (world s)) =
                  pushWaiter a (others used (world s))).
    { unfold notify_atomic. rewrite Hwa, Hne. reflexivity. }
    rewrite Hna.
    set (w1 := pushWaiter a (others used (world s))).
    set (s1 := mkState w1 o1 (trace s)).
    assert (Hlen1 : (length (oracle s1) < fuel)%nat).
    { cbn [oracle s1]. rewrite Ho, length_app in Hfuel. lia. }
    destruct (IH f s1) as (chunks & o' & Hlc & Ho1 & Hloop & Hw0 & Hown').
    + split.
      * cbn. unfold lockBit. now rewrite lor_kLockBit_locked.
      * cbn. exact (proj2 (others_owns thread used (world s) Hru Hown)).
    + exact Hro1.
    + exact Hlo1.
    + cbn [world s1]. unfold w1, pushWaiter, set_contendersList, set_node,
        set_waitersList. cbn [nodes mon waitersList_].
      rewrite (Hat a) by (left; reflexivity).
      apply (chain_frame (nodes (world s))); [|exact Hc].
      intros b Hb. rewrite lookup_total_insert_ne by (intros ->; contradiction).
      exact (f_equal next_ (Hat b (or_intror Hb))).
    + cbn in Hf. lia.
    + exact Hlen1.
    + exists (used :: chunks), o'. cbn [pushWaiters concat length].
      split; [now rewrite Hlc|].
      cbn [oracle s1] in Ho1.
      split; [rewrite Ho, Ho1, app_assoc; reflexivity|].
      split; [exact Hloop|]. split; [exact Hw0|exact Hown'].
Qed.

(** C7.  The caller owns the monitor, the waiters are the finite list [l]
    of nodes linked from [waitersList_], and the other threads respect the
    ownership and leave [waitersList_] and the nodes of [l] alone, but may
    act at every atomic access, for instance push themselves on the
    contenders.  [notifyAll] returns (given fuel for the [length l] calls of
    [notify] and for the compare-and-swaps that fail), with [waitersList_]
    empty and every waiter moved to the contenders: the final memory is
    that of [length l] atomic pushes, one per waiter and in the order of
    the list, each after what the others did in the meantime ([chunks]).
    On an empty list nothing changes at all.  When nobody interferes, the
    nodes of [l] are linked in reverse from the new head down to the head
    of before. *)
Theorem notifyAll_behaviour (fuel : nat) (thread : Thread) (s : State) (l : list Z) :
  owns thread (world s) ->
  Forall (respectsOwner thread) (oracle s) ->
  Forall (fun i => forall a, In a l -> leavesWaiter a i) (oracle s) ->
  chain (nodes (world s)) (waitersList_ (mon (world s))) l 0 ->
  (length l < fuel)%nat ->
  (length (oracle s) < fuel)%nat ->
  exists s' chunks,
    notifyAll ASSERT fuel thread s = (Done tt, s') /\
    (l = [] -> s' = s) /\
    trace s' = trace s /\
    length chunks = length l /\
    oracle s = concat chunks ++ oracle s' /\
    world s' = pushWaiters l chunks (world s) /\
    waitersList_ (mon (world s')) = 0 /\
    owns thread (world s') /\
    (noInterference (oracle s) -> Forall aligned l ->
     chain (nodes (world s'))
       (Z.land (contendersList_ (mon (world s'))) (Z.lnot kLockBit)) (rev l)
       (Z.land (contendersList_ (mon (world s))) (Z.lnot kLockBit)) /\
     onDeck_ (mon (world s')) = onDeck_ (mon (world s)) /\
     lockCount_ (mon (world s')) = lockCount_ (mon (world s)) /\
     (forall p, ~ In p l -> node_at (world s') p = node_at (world s) p) /\
     (forall p, item_ (node_at (world s') p) = item_ (node_at (world s) p))).
Proof.
  intros Hown Hro Hlw Hc Hl Hfuel. unfold notifyAll.
  destruct (notifyAll_used thread fuel l fuel s Hown Hro Hlw Hc Hl Hfuel)
    as (chunks & o' & Hlc & Ho & Hrun & Hw & Hown').
  eexists. exists chunks. split; [exact Hrun|]. cbn [world oracle trace].
  split.
  { intros ->. destruct chunks; [|discriminate Hlc].
    cbn in Ho. cbn [pushWaiters]. rewrite <- Ho. apply state_eta. }
  split; [reflexivity|]. split; [exact Hlc|]. split; [exact Ho|].
  split; [reflexivity|]. split; [exact Hw|]. split; [exact Hown'|].
  intros Hq Hal.
  destruct (notifyAll_loop thread fuel l fuel s Hown Hq Hc Hal Hl Hfuel)
    as (s'' & Hrun' & _ & _ & _ & _ & _ & _ & Hch & Hd & _ & Hlk & Hfr & Hit).
  rewrite Hrun in Hrun'. injection Hrun' as <-. cbn [world] in *.
  repeat (split; [assumption|]). exact Hit.
Qed.

(** *** Nested locking by one thread *)

Section Recursion.

Variable thread : Thread.
Hypothesis thread_not_null : self thread <> 0.
Variables (h : gmap Z LinkedNode) (tr : list event).

Lemma wrap32_succ (x : Z) : wrap32 (wrap32 x + 1) = wrap32 (x + 1).
Proof. unfold wrap32. rewrite Zplus_mod_idemp_l. reflexivity. Qed.

Lemma wrap32_small (x : Z) : 0 <= x < 2 ^ 32 -> wrap32 x = x.
Proof. intros H. unfold wrap32. apply Z.mod_small. exact H. Qed.

Lemma lock_fresh (fuel : nat) (newHead garbage : Z) :
  lock ASSERT fuel thread newHead (idle garbage h tr) = (Done tt, heldAt thread 1 h tr).
Proof.
  unfold lock, bind. rewrite tryLock_unfold.
  apply Z.eqb_neq in thread_not_null. rewrite thread_not_null, andb_false_r.
  reflexivity.
Qed.

Lemma lock_nested (fuel : nat) (newHead count : Z) :
  lock ASSERT fuel thread newHead (heldAt thread count h tr) =
  (Done tt, heldAt thread (wrap32 (count + 1)) h tr).
Proof.
  unfold lock, bind. rewrite tryLock_unfold.
  pose proof thread_not_null as Hn.
  apply Z.eqb_neq in Hn. rewrite Hn, andb_false_r.
  cbn. rewrite Z.eqb_refl. reflexivity.
Qed.

Lemma repeatM_S (n : nat) (m : M unit) (s : State) :
  repeatM (S n) m s = bind m (fun _ => repeatM n m) s.
Proof. reflexivity. Qed.

Lemma bind_ext {A B} (m : M A) (k1 k2 : A -> M B) (s : State) :
  (forall a s1, k1 a s1 = k2 a s1) -> bind m k1 s = bind m k2 s.
Proof. intros H. unfold bind. destruct (m s) as [[a| |] s1]; auto. Qed.

Lemma repeatM_add (a b : nat) (m : M unit) (s : State) :
  repeatM (a + b) m s = bind (repeatM a m) (fun _ => repeatM b m) s.
Proof.
  revert s. induction a as [|a IHa]; intros s; [reflexivity|].
  cbn [Nat.add]. rewrite repeatM_S.
  change (repeatM (S a) m) with (bind m (fun _ => repeatM a m)).
  rewrite run_bind_bind. apply bind_ext. intros _ s1. apply IHa.
Qed.

Lemma locks_nested (fuel : nat) (newHead : Z) (n : nat) (count : Z) :
  repeatM n (lock ASSERT fuel thread newHead) (heldAt thread (wrap32 count) h tr) =
  (Done tt, heldAt thread (wrap32 (count + Z.of_nat n)) h tr).
Proof.
  revert count. induction n as [|n IH]; intros count.
  - cbn [repeatM]. unfold ret. change (Z.of_nat 0) with 0. now rewrite Z.add_0_r.
  - rewrite repeatM_S. unfold bind. rewrite lock_nested, wrap32_succ, IH.
    replace (count + 1 + Z.of_nat n) with (count + Z.of_nat (S n)) by lia.
    reflexivity.
Qed.

Lemma locks_fresh (fuel : nat) (newHead garbage : Z) (n : nat) :
  (1 <= n)%nat ->
  repeatM n (lock ASSERT fuel thread newHead) (idle garbage h tr) =
  (Done tt, heldAt thread (wrap32 (Z.of_nat n)) h tr).
Proof.
  destruct n as [|n]; [lia|]. intros _.
  rewrite repeatM_S. unfold bind. rewrite lock_fresh.
  change 1 with (wrap32 1) at 1. rewrite locks_nested.
  replace (1 + Z.of_nat n) with (Z.of_nat (S n)) by lia. reflexivity.
Qed.

Lemma unlock_nested (fuel : nat) (count : Z) :
  2 <= count <= 2 ^ 32 ->
  unlock ASSERT fuel thread (heldAt thread (wrap32 count) h tr) =
  (Done tt, heldAt thread (count - 1) h tr).
Proof.
  intros Hc. unfold unlock.
  rewrite run_assert_owns by (split; reflexivity).
  replace (if ASSERT then afterEnv (heldAt thread (wrap32 count) h tr)
           else heldAt thread (wrap32 count) h tr)
    with (heldAt thread (wrap32 count) h tr) by (destruct ASSERT; reflexivity).
  rewrite run_getMonitor. cbn [mon world heldAt recursive_ lockCount_].
  rewrite run_bind_bind, run_write_lockCount, run_ret.
  assert (Hw : wrap32 (wrap32 count - 1) = count - 1).
  { unfold wrap32. rewrite Zminus_mod_idemp_l. apply Z.mod_small. lia. }
  rewrite Hw. assert (Hpos : (count - 1 >? 0) = true) by (apply Z.gtb_lt; lia).
  rewrite Hpos. reflexivity.
Qed.

Lemma unlock_last (fuel : nat) :
  (1 <= fuel)%nat ->
  unlock ASSERT fuel thread (heldAt thread 1 h tr) = (Done tt, idle 0 h tr).
Proof.
  intros Hf. destruct fuel as [|fuel]; [lia|]. unfold unlock.
  rewrite run_assert_owns by (split; reflexivity).
  replace (if ASSERT then afterEnv (heldAt thread 1 h tr) else heldAt thread 1 h tr)
    with (heldAt thread 1 h tr) by (destruct ASSERT; reflexivity).
  reflexivity.
Qed.

Lemma unlocks_nested (fuel : nat) (k : nat) (count : Z) :
  Z.of_nat k < count <= 2 ^ 32 ->
  (1 <= k)%nat ->
  repeatM k (unlock ASSERT fuel thread) (heldAt thread (wrap32 count) h tr) =
  (Done tt, heldAt thread (count - Z.of_nat k) h tr).
Proof.
  revert count. induction k as [|k IH]; intros count Hc Hk; [lia|].
  rewrite repeatM_S. unfold bind. rewrite unlock_nested by lia.
  destruct k as [|k].
  - reflexivity.
  - rewrite <- (wrap32_small (count - 1)) by lia. rewrite IH by lia.
    replace (count - 1 - Z.of_nat (S k)) with (count - Z.of_nat (S (S k))) by lia.
    reflexivity.
Qed.

(** C4, within the range of the counter.  On a recursive monitor fresh from
    its constructor, [N] nested calls of [lock] by one thread, for
    1 <= [N] <= 2^32, followed by [k] calls of [unlock]: for 1 <= [k] < [N]
    the lock word still has the LOCK bit, the owner is the thread and the
    lock count is [N - k]; for [k = N] the monitor is unlocked with owner
    NIL. *)
Theorem nested_lock_unlock (fuel : nat) (newHead garbage : Z) (N : nat) :
  (1 <= fuel)%nat ->
  (1 <= N)%nat ->
  Z.of_nat N <= 2 ^ 32 ->
  let locks := repeatM N (lock ASSERT fuel thread newHead) in
  let unlocks k := repeatM k (unlock ASSERT fuel thread) in
  (forall k : nat, (1 <= k < N)%nat ->
     (locks ;;; unlocks k) (idle garbage h tr) =
     (Done tt, heldAt thread (Z.of_nat N - Z.of_nat k) h tr)) /\
  (locks ;;; unlocks N) (idle garbage h tr) = (Done tt, idle 0 h tr).
Proof.
  intros Hf HN Hmax. cbn zeta. split.
  - intros k Hk. unfold bind at 1. rewrite locks_fresh by exact HN.
    apply unlocks_nested; lia.
  - unfold bind at 1. rewrite locks_fresh by exact HN.
    destruct N as [|N]; [lia|].
    assert (Hlast : forall c, c = 1 ->
      repeatM 1 (unlock ASSERT fuel thread) (heldAt thread c h tr) = (Done tt, idle 0 h tr)).
    { intros c ->. rewrite repeatM_S. unfold bind. rewrite unlock_last by exact Hf.
      reflexivity. }
    destruct N as [|N].
    + apply Hlast. reflexivity.
    + replace (S (S N)) with (S N + 1)%nat at 1 by lia.
      rewrite repeatM_add. unfold bind at 1. rewrite unlocks_nested by lia.
      apply Hlast. lia.
Qed.
End Recursion.

(** *** [wait] *)

Lemma keepsOracle_post {A} (m : M A) (P : Interference -> Prop) (s : State) :
  keepsOracle m -> Forall P (oracle s) ->
  post (m s) (fun _ s' => Forall P (oracle s')).
Proof.
  intros Hm H. destruct (m s) as [r s'] eqn:E. specialize (Hm P _ _ _ H E).
  destruct r; cbn; auto.
Qed.

Lemma keepsOracle_backOff (spinCount : Z) (sleep : M unit) :
  keepsOracle sleep -> keepsOracle (backOff spinCount sleep).
Proof. intros H. oracle_prims. unfold backOff. oracle_tac. Qed.

Lemma afterEnv_owns (thread : Thread) (s : State) :
  Forall (respectsOwner thread) (oracle s) ->
  owns thread (world s) ->
  owns thread (world (afterEnv s)) /\
  lockCount_ (mon (world (afterEnv s))) = lockCount_ (mon (world s)).
Proof.
  unfold afterEnv. destruct (oracle s) as [|i o]; [auto|]. cbn.
  intros H Hown. exact (Forall_inv H _ Hown).
Qed.

(** [tryLock] returns [true] only to the owner. *)
Lemma tryLock_owns (thread : Thread) (s : State) :
  Forall (respectsOwner thread) (oracle s) ->
  post (tryLock ASSERT thread s)
    (fun b s' => Forall (respectsOwner thread) (oracle s') /\
                 (b = true -> owns thread (world s'))).
Proof.
  intros Hr. rewrite tryLock_unfold. cbn zeta.
  pose proof (afterEnv_Forall _ _ Hr) as Hr1.
  pose proof (afterEnv_Forall _ _ Hr1) as Hr2.
  destruct (ASSERT && (self thread =? 0)); [exact I|].
  destruct (lockBit (contendersList_ (mon (world (afterEnv s))))) eqn:Hl.
  - destruct (recursive_ (mon (world (afterEnv s)))); cbn [andb].
    + destruct (self thread =? owner_ (mon (world (afterEnv s)))) eqn:Ho; cbn.
      * apply Z.eqb_eq in Ho. split; [exact Hr1|]. intros _. split; [exact Hl|]. auto.
      * split; [exact Hr1|discriminate].
    + cbn. split; [exact Hr1|discriminate].
  - destruct (_ && _); unfold post.
    + split; [exact Hr2|]. intros _. split; [|reflexivity].
      unfold withWorld, set_lockCount, set_owner, set_contendersList.
      cbn [world mon contendersList_]. unfold lockBit.
      now rewrite lor_kLockBit_locked.
    + split; [exact Hr2|discriminate].
Qed.

Lemma trySpinLock_for_owns (thread : Thread) (n : nat) (s : State) :
  Forall (respectsOwner thread) (oracle s) ->
  post (trySpinLock_for ASSERT thread n s)
    (fun b s' => Forall (respectsOwner thread) (oracle s') /\
                 (b = true -> owns thread (world s'))).
Proof.
  revert s. induction n as [|n IH]; intros s Hr.
  - cbn. split; [exact Hr|discriminate].
  - cbn [trySpinLock_for].
    assert (Hh : forall k : unit -> M bool,
      exists sh, oracle sh = oracle s /\
        bind (if Z.of_nat (S n) >=? kMaxSpinIter - kMaxReadSpinIter
              then Os_spinPause else Thread_yield) k s = k tt sh).
    { intros k. unfold Os_spinPause, Thread_yield.
      destruct (Z.of_nat (S n) >=? _); rewrite run_emit;
        (eexists; split; [|reflexivity]; reflexivity). }
    destruct (Hh (fun _ => locked <- isLocked ;;
                    if negb locked then tryLock ASSERT thread
                    else trySpinLock_for ASSERT thread n)) as (sh & Ho & ->).
    rewrite run_isLocked.
    assert (Hr1 : Forall (respectsOwner thread) (oracle (afterEnv sh))).
    { apply afterEnv_Forall. rewrite Ho. exact Hr. }
    destruct (negb _); [now apply tryLock_owns|now apply IH].
Qed.

Lemma trySpinLock_owns (thread : Thread) (s : State) :
  Forall (respectsOwner thread) (oracle s) ->
  post (trySpinLock ASSERT thread s)
    (fun b s' => Forall (respectsOwner thread) (oracle s') /\
                 (b = true -> owns thread (world s'))).
Proof.
  intros Hr. unfold trySpinLock. apply post_bind.
  eapply post_conseq; [apply tryLock_owns, Hr|].
  intros b s' [Hr' Hb]. destruct b.
  - cbn. auto.
  - now apply trySpinLock_for_owns.
Qed.

(** The second half of [wait]: whatever the state it starts from, when it
    returns the thread owns the monitor at the saved depth. *)
Lemma wait_resume_owns (fuel : nat) (thread : Thread) (saved : Z) (s : State) :
  Forall (respectsOwner thread) (oracle s) ->
  post (wait_resume ASSERT fuel thread saved s)
    (fun _ s' => owns thread (world s') /\ lockCount_ (mon (world s')) = saved).
Proof.
  intros Hr. oracle_prims. unfold wait_resume.
  apply post_bind.
  eapply post_conseq.
  { apply (keepsOracle_post _ (respectsOwner thread)); [|exact Hr].
    apply keepsOracle_loop. intros spinCount. pose proof keepsOracle_backOff.
    oracle_tac. }
  cbn beta. intros _ s1 Hr1.
  apply post_bind.
  eapply post_conseq.
  { apply (post_loop
             (fun _ s => Forall (respectsOwner thread) (oracle s))
             (fun _ s => Forall (respectsOwner thread) (oracle s) /\ owns thread (world s)));
      [|exact Hr1].
    intros spinCount s2 Hr2. apply post_bind.
    eapply post_conseq.
    { apply (keepsOracle_post _ (respectsOwner thread)); [|exact Hr2].
      apply keepsOracle_assert. oracle_tac. }
    cbn beta. intros _ s3 Hr3. apply post_bind.
    eapply post_conseq; [apply trySpinLock_owns, Hr3|].
    cbn beta. intros b s4 [Hr4 Hb]. destruct b.
    - cbn. auto.
    - apply post_bind. eapply post_conseq.
      { apply (keepsOracle_post _ (respectsOwner thread)); [|exact Hr4].
        apply keepsOracle_backOff. auto. }
      cbn. auto. }
  cbn beta. intros _ s2 [Hr2 Hown].
  rewrite run_write_lockCount, (run_last (store_onDeck 0)), run_store_onDeck.
  cbn. set (s3 := withWorld (set_lockCount saved) s2).
  destruct (afterEnv_owns thread s3 Hr2) as [Hown3 Hlc]; [exact Hown|].
  split; [exact Hown3|]. rewrite Hlc. reflexivity.
Qed.

(** The first half of [wait], run by the owner. *)
Lemma wait_enqueue_owner (thread : Thread) (newHead : Z) (s : State) :
  Forall (respectsOwner thread) (oracle s) ->
  owns thread (world s) ->
  exists s1,
    wait_enqueue thread newHead s = (Done (lockCount_ (mon (world s))), s1) /\
    Forall (respectsOwner thread) (oracle s1) /\
    owns thread (world s1) /\
    lockCount_ (mon (world s1)) = 1 /\
    waitersList_ (mon (world s1)) = newHead /\
    next_ (node_at (world s1) newHead) = waitersList_ (mon (world s)) /\
    trace s1 = trace s ++ [EvReset (suspendSemaphore thread)].
Proof.
  intros Hr Hown. unfold wait_enqueue, Semaphore_reset.
  rewrite run_emit, run_setItem, run_getMonitor, run_setNext.
  rewrite run_write_waitersList, run_getMonitor, run_write_lockCount.
  match goal with |- context [afterEnv ?x] => set (s0 := x) end.
  assert (Hown0 : owns thread (world s0)) by exact Hown.
  assert (Hr0 : Forall (respectsOwner thread) (oracle s0)) by exact Hr.
  destruct (afterEnv_owns thread s0 Hr0 Hown0) as [Hown1 Hlc].
  change (lockCount_ (mon (world s0))) with (lockCount_ (mon (world s))) in Hlc.
  unfold ret. eexists. split.
  - cbn [withWorld world mon set_node set_waitersList lockCount_]. rewrite Hlc.
    reflexivity.
  - cbn [withWorld world oracle trace].
    split; [apply (afterEnv_Forall _ s0 Hr0)|].
    split; [exact Hown1|]. split; [reflexivity|]. split; [reflexivity|].
    split.
    + unfold node_at. cbn. rewrite lookup_total_insert_eq. reflexivity.
    + rewrite afterEnv_trace. reflexivity.
Qed.

(** *** The invariant *)

Section Invariant.

Variable thread : Thread.
Hypothesis thread_not_null : self thread <> 0.


Lemma aligned_0 : aligned 0.
Proof. reflexivity. Qed.

Lemma aligned_land_lnot (x : Z) : aligned (Z.land x (Z.lnot kLockBit)).
Proof. apply land_lnot_kLockBit_unlocked. Qed.

Lemma lockBit_aligned (x : Z) : aligned x <-> lockBit x = false.
Proof.
  unfold aligned, lockBit. rewrite negb_false_iff, Z.eqb_eq. reflexivity.
Qed.

Lemma lockBit_lor (x : Z) : lockBit (Z.lor x kLockBit) = true.
Proof. unfold lockBit. now rewrite lor_kLockBit_locked. Qed.

Lemma lockBit_land_lnot (x : Z) : lockBit (Z.land x (Z.lnot kLockBit)) = false.
Proof. apply lockBit_aligned, aligned_land_lnot. Qed.

(** *** The environment keeps the predicates *)

Lemma afterEnv_relies (s : State) : relies thread s -> relies thread (afterEnv s).
Proof. apply afterEnv_Forall. Qed.

Lemma afterEnv_isGood (s : State) : isGood thread s -> isGood thread (afterEnv s).
Proof.
  intros [Hg Hr]. split; [|now apply afterEnv_relies].
  unfold afterEnv. unfold relies in Hr. destruct (oracle s) as [|i o]; [exact Hg|]. cbn.
  exact (wb_good _ _ (Forall_inv Hr) _ Hg).
Qed.

Lemma afterEnv_isOwner (s : State) : isOwner thread s -> isOwner thread (afterEnv s).
Proof.
  intros (Hg & Ho & Hr). destruct (afterEnv_isGood s (conj Hg Hr)) as [Hg' Hr'].
  split; [exact Hg'|]. split; [|exact Hr'].
  unfold afterEnv. unfold relies in Hr. destruct (oracle s) as [|i o]; [exact Ho|]. cbn.
  exact (proj1 (wb_owner _ _ (Forall_inv Hr) _ Ho)).
Qed.

Lemma afterEnv_isReleasing (s : State) : isReleasing thread s -> isReleasing thread (afterEnv s).
Proof.
  intros [Hl Hr]. split; [|now apply afterEnv_relies].
  unfold afterEnv. unfold relies in Hr. destruct (oracle s) as [|i o]; [exact Hl|]. cbn.
  exact (wb_releasing _ _ (Forall_inv Hr) _ Hl).
Qed.

(** *** Writes that keep the invariant *)

Lemma good_set_lockCount (v : Z) (w : World) : good w -> good (set_lockCount v w).
Proof. intros H. exact H. Qed.

Lemma heapOk_set_node (p v it : Z) (w : World) :
  heapOk w -> aligned v -> heapOk (set_node p (mkNode v it) w).
Proof.
  intros [Hw Hn] Hv. split; [exact Hw|]. intros q.
  destruct (Z.eq_dec p q) as [->|Hne].
  - rewrite node_at_set_node_eq. exact Hv.
  - rewrite node_at_set_node_ne by exact Hne. apply Hn.
Qed.

Lemma good_set_node (p v it : Z) (w : World) :
  good w -> aligned v -> good (set_node p (mkNode v it) w).
Proof. intros [Hh Hi] Hv. split; [now apply heapOk_set_node|exact Hi]. Qed.

Lemma good_set_waitersList (v : Z) (w : World) :
  good w -> aligned v -> good (set_waitersList v w).
Proof. intros [[_ Hn] Hi] Hv. split; [split; [exact Hv|exact Hn]|exact Hi]. Qed.

Lemma good_acquire (w : World) (count : Z) :
  good w -> lockBit (contendersList_ (mon w)) = false ->
  good (set_lockCount count (set_owner (self thread)
          (set_contendersList (Z.lor (contendersList_ (mon w)) kLockBit) w))).
Proof.
  intros [Hh Hi] Hl. split; [exact Hh|]. unfold ownerIffLocked. cbn.
  rewrite lockBit_lor. split; auto.
Qed.

Lemma good_push (p : Z) (w : World) :
  good w -> lockBit (contendersList_ (mon w)) = true ->
  good (set_contendersList (Z.lor p kLockBit) w).
Proof.
  intros [Hh Hi] Hl. split; [exact Hh|]. unfold ownerIffLocked in *. cbn.
  rewrite lockBit_lor. rewrite Hl in Hi. exact Hi.
Qed.

Lemma good_pop (n : Z) (w : World) :
  good w -> lockBit (contendersList_ (mon w)) = false -> aligned n ->
  good (set_contendersList n w).
Proof.
  intros [Hh Hi] Hl Hn. split; [exact Hh|]. unfold ownerIffLocked in *. cbn.
  apply lockBit_aligned in Hn. rewrite Hn. rewrite Hl in Hi. exact Hi.
Qed.

Lemma good_release (w : World) :
  releasing w ->
  good (set_contendersList (Z.land (contendersList_ (mon w)) (Z.lnot kLockBit)) w).
Proof.
  intros (Hh & Hl & Ho). split; [exact Hh|]. unfold ownerIffLocked. cbn.
  rewrite lockBit_land_lnot, Ho. split; [congruence|discriminate].
Qed.

Lemma releasing_set_owner (w : World) :
  good w -> owns thread w -> releasing (set_owner 0 w).
Proof. intros [Hh _] [Hl _]. split; [exact Hh|]. split; [exact Hl|reflexivity]. Qed.

Lemma isOwner_isGood (s : State) : isOwner thread s -> isGood thread s.
Proof. intros (Hg & _ & Hr). split; assumption. Qed.

Lemma isGood_withWorld (f : World -> World) (s : State) :
  isGood thread s -> (good (world s) -> good (f (world s))) -> isGood thread (withWorld f s).
Proof. intros [Hg Hr] Hf. split; [apply Hf, Hg|exact Hr]. Qed.

(** *** Hoare rules *)

Lemma hoare_ret {A} (P : State -> Prop) (a : A) (Q : A -> State -> Prop) :
  (forall s, P s -> Q a s) -> hoare P (ret a) Q.
Proof. intros H s HP. exact (H s HP). Qed.

Lemma hoare_bind {A B} (P : State -> Prop) (m : M A) (Q : A -> State -> Prop)
    (k : A -> M B) (Q' : B -> State -> Prop) :
  hoare P m Q -> (forall a, hoare (Q a) (k a) Q') -> hoare P (bind m k) Q'.
Proof.
  intros Hm Hk s HP. apply post_bind. eapply post_conseq; [exact (Hm s HP)|].
  intros a s' HQ. exact (Hk a s' HQ).
Qed.

Lemma hoare_conseq {A} (P P' : State -> Prop) (m : M A) (Q Q' : A -> State -> Prop) :
  hoare P' m Q' -> (forall s, P s -> P' s) -> (forall a s, Q' a s -> Q a s) ->
  hoare P m Q.
Proof.
  intros Hm HP HQ s Hs. eapply post_conseq; [exact (Hm s (HP s Hs))|exact HQ].
Qed.

Lemma hoare_pure {A} (phi : Prop) (P : State -> Prop) (m : M A) (Q : A -> State -> Prop) :
  (phi -> hoare P m Q) -> hoare (fun s => P s /\ phi) m Q.
Proof. intros H s [HP Hphi]. exact (H Hphi s HP). Qed.

Lemma hoare_if {A} (b : bool) (P : State -> Prop) (m1 m2 : M A) (Q : A -> State -> Prop) :
  (b = true -> hoare P m1 Q) -> (b = false -> hoare P m2 Q) ->
  hoare P (if b then m1 else m2) Q.
Proof. destruct b; auto. Qed.

Lemma hoare_loop {A B} (I : A -> State -> Prop) (Q : B -> State -> Prop)
    (body : A -> M (A + B)) (fuel : nat) (a : A) :
  (forall a, hoare (I a) (body a)
               (fun r s' => match r with inl a' => I a' s' | inr b => Q b s' end)) ->
  hoare (I a) (loop fuel body a) Q.
Proof. intros Hb s HI. exact (post_loop I Q body Hb fuel a s HI). Qed.

Lemma hoare_continue {A B} (P : State -> Prop) (a : A) (Q : A + B -> State -> Prop) :
  (forall s, P s -> Q (inl a) s) -> hoare P (continue a) Q.
Proof. apply hoare_ret. Qed.

Lemma hoare_break {A B} (P : State -> Prop) (b : B) (Q : A + B -> State -> Prop) :
  (forall s, P s -> Q (inr b) s) -> hoare P (break b) Q.
Proof. apply hoare_ret. Qed.

Lemma hoare_getMonitor (P : State -> Prop) :
  hoare P getMonitor (fun m s => P s /\ m = mon (world s)).
Proof. intros s HP. cbn. auto. Qed.

Lemma hoare_modifyWorld (P : State -> Prop) (f : World -> World) (Q : unit -> State -> Prop) :
  (forall s, P s -> Q tt (withWorld f s)) -> hoare P (modifyWorld f) Q.
Proof. intros H s HP. exact (H s HP). Qed.

Lemma hoare_emit (P : State -> Prop) (e : event) :
  logFree P -> hoare P (emit e) (fun _ s => P s).
Proof. intros H s HP. exact (H s _ HP). Qed.

Lemma hoare_load_contendersList (P : State -> Prop) :
  envClosed P ->
  hoare P load_contendersList (fun v s => P s /\ v = contendersList_ (mon (world s))).
Proof.
  intros H s HP. rewrite (run_last load_contendersList), run_load_contendersList.
  cbn. auto.
Qed.

Lemma hoare_isLocked (P : State -> Prop) :
  envClosed P ->
  hoare P isLocked (fun b s => P s /\ b = lockBit (contendersList_ (mon (world s)))).
Proof.
  intros H s HP. rewrite (run_last isLocked), run_isLocked. cbn. auto.
Qed.

Lemma hoare_load_onDeck (P : State -> Prop) :
  envClosed P -> hoare P load_onDeck (fun _ s => P s).
Proof.
  intros H s HP. rewrite (run_last load_onDeck), run_load_onDeck. cbn. auto.
Qed.

Lemma hoare_cas_weak_contendersList (P : State -> Prop) (e d : Z)
    (Q : bool * Z -> State -> Prop) :
  envClosed P ->
  (forall s, P s -> contendersList_ (mon (world s)) = e ->
     Q (true, e) (withWorld (set_contendersList d) s)) ->
  (forall s v, P s -> Q (false, v) s) ->
  hoare P (cas_weak_contendersList e d) Q.
Proof.
  intros H Hok Hfail s HP.
  rewrite (run_last (cas_weak_contendersList e d)), run_cas_weak_contendersList.
  destruct (contendersList_ (mon (world (afterEnv s))) =? e) eqn:Hc; cbn [andb].
  - apply Z.eqb_eq in Hc. destruct (negb _); cbn; auto.
  - cbn. auto.
Qed.

Lemma hoare_store_onDeck (P : State -> Prop) (v : Z) (Q : unit -> State -> Prop) :
  envClosed P ->
  (forall s, P s -> Q tt (withWorld (set_onDeck v) s)) ->
  hoare P (store_onDeck v) Q.
Proof.
  intros H HQ s HP. rewrite (run_last (store_onDeck v)), run_store_onDeck.
  cbn. auto.
Qed.

Lemma hoare_cas_strong_onDeck (P : State -> Prop) (e d : Z) (Q : bool * Z -> State -> Prop) :
  envClosed P ->
  (forall s, P s -> Q (true, e) (withWorld (set_onDeck d) s)) ->
  (forall s v, P s -> Q (false, v) s) ->
  hoare P (cas_strong_onDeck e d) Q.
Proof.
  intros H Hok Hfail s HP.
  rewrite (run_last (cas_strong_onDeck e d)), run_cas_strong_onDeck.
  destruct (_ =? e); cbn; auto.
Qed.

Lemma hoare_next (P : State -> Prop) (p : Z) :
  envClosed P ->
  hoare P (next p) (fun v s => P s /\ v = next_ (node_at (world s) p)).
Proof.
  intros H s HP. rewrite (run_last (next p)), run_next. cbn. auto.
Qed.

Lemma hoare_item (P : State -> Prop) (p : Z) :
  hoare P (item p) (fun _ s => P s).
Proof. intros s HP. exact HP. Qed.

Lemma hoare_setNext (P : State -> Prop) (p v : Z) (Q : unit -> State -> Prop) :
  envClosed P ->
  (forall s, P s ->
     Q tt (withWorld (set_node p (mkNode v (item_ (node_at (world s) p)))) s)) ->
  hoare P (setNext p v) Q.
Proof.
  intros H HQ s HP. rewrite (run_last (setNext p v)), run_setNext. cbn. auto.
Qed.

Lemma hoare_setItem (P : State -> Prop) (p v : Z) (Q : unit -> State -> Prop) :
  (forall s, P s ->
     Q tt (withWorld (set_node p (mkNode (next_ (node_at (world s) p)) v)) s)) ->
  hoare P (setItem p v) Q.
Proof. intros HQ s HP. exact (HQ s HP). Qed.

(** An assertion either checks its condition or is compiled away. *)
Lemma hoare_assert (P P' : State -> Prop) (cond : M bool) :
  hoare P cond (fun b s => b = true -> P' s) -> (forall s, P s -> P' s) ->
  hoare P (assert ASSERT cond) (fun _ s => P' s).
Proof.
  intros Hc Hskip s HP. unfold assert. destruct ASSERT.
  - apply post_bind. eapply post_conseq; [exact (Hc s HP)|].
    intros [|] s' H; cbn; auto.
  - cbn. auto.
Qed.

Lemma hoare_assert_pure (P : State -> Prop) (b : bool) :
  hoare P (assert ASSERT (ret b)) (fun _ s => P s).
Proof. apply hoare_assert; [|auto]. apply hoare_ret. auto. Qed.

Lemma hoare_backOff (P : State -> Prop) (spinCount : Z) (sleep : M unit) :
  logFree P -> hoare P sleep (fun _ s => P s) ->
  hoare P (backOff spinCount sleep) (fun _ s => P s).
Proof.
  intros Hl Hs. unfold backOff, Os_spinPause, Thread_yield.
  repeat (apply hoare_if; intros _); auto using hoare_emit.
Qed.

Lemma envClosed_isGood : envClosed (isGood thread).
Proof. exact afterEnv_isGood. Qed.

Lemma envClosed_isOwner : envClosed (isOwner thread).
Proof. exact afterEnv_isOwner. Qed.

Lemma envClosed_isReleasing : envClosed (isReleasing thread).
Proof. exact afterEnv_isReleasing. Qed.

Lemma logFree_isGood : logFree (isGood thread).
Proof. intros s t H. exact H. Qed.

Lemma logFree_isOwner : logFree (isOwner thread).
Proof. intros s t H. exact H. Qed.

(** *** The operations keep the invariant *)

Lemma tryLock_good (s : State) :
  isGood thread s -> post (tryLock ASSERT thread s) (fun _ s' => isGood thread s').
Proof.
  intros HG. rewrite tryLock_unfold. cbn zeta.
  pose proof (afterEnv_isGood _ HG) as HG1. pose proof (afterEnv_isGood _ HG1) as HG2.
  destruct (ASSERT && (self thread =? 0)); [exact I|].
  destruct (lockBit (contendersList_ (mon (world (afterEnv s))))) eqn:Hl.
  - destruct (_ && _); [|exact HG1].
    apply isGood_withWorld; [exact HG1|]. apply good_set_lockCount.
  - destruct (contendersList_ (mon (world (afterEnv (afterEnv s)))) =?
              contendersList_ (mon (world (afterEnv s)))) eqn:Hc; cbn [andb];
      [|exact HG2].
    destruct (negb _); [|exact HG2].
    apply Z.eqb_eq in Hc. unfold post. apply isGood_withWorld; [exact HG2|].
    intros Hg. rewrite <- Hc. apply good_acquire; [exact Hg|]. rewrite Hc. exact Hl.
Qed.

Lemma hoare_drop {A} (P : State -> Prop) (phi : State -> Prop) (m : M A)
    (Q : A -> State -> Prop) :
  hoare P m Q -> hoare (fun s => P s /\ phi s) m Q.
Proof. intros H s [HP _]. exact (H s HP). Qed.

Lemma isGood_set_node (p v it : Z) (s : State) :
  isGood thread s -> aligned v ->
  isGood thread (withWorld (set_node p (mkNode v it)) s).
Proof. intros [Hg Hr] Hv. split; [now apply good_set_node|exact Hr]. Qed.

Lemma isGood_heap_next (p : Z) (s : State) :
  isGood thread s -> aligned (next_ (node_at (world s) p)).
Proof. intros [[[_ Hn] _] _]. apply Hn. Qed.

Lemma tryLock_keeps_good :
  hoare (isGood thread) (tryLock ASSERT thread) (fun _ s => isGood thread s).
Proof. intros s. apply tryLock_good. Qed.

(** The path of [lock] keeps any predicate [P] that the steps of the
    environment, the writes to nodes and to [onDeck_], the push of a
    contender and [tryLock] keep. *)
Section LockPath.

Variable P : State -> Prop.
Hypothesis P_env : envClosed P.
Hypothesis P_log : logFree P.
Hypothesis P_setItem : forall p v s,
  P s -> P (withWorld (set_node p (mkNode (next_ (node_at (world s) p)) v)) s).
Hypothesis P_setNext : forall p v s,
  P s -> aligned v ->
  P (withWorld (set_node p (mkNode v (item_ (node_at (world s) p)))) s).
Hypothesis P_push : forall p s,
  P s -> lockBit (contendersList_ (mon (world s))) = true ->
  P (withWorld (set_contendersList (Z.lor p kLockBit)) s).
Hypothesis P_onDeck : forall v s, P s -> P (withWorld (set_onDeck v) s).
Hypothesis P_tryLock : hoare P (tryLock ASSERT thread) (fun _ s => P s).

Lemma trySpinLock_for_keeps (n : nat) :
  hoare P (trySpinLock_for ASSERT thread n) (fun _ s => P s).
Proof.
  induction n as [|n IH]; [apply hoare_ret; auto|]. cbn [trySpinLock_for].
  eapply hoare_bind with (Q := fun _ s => P s).
  { apply hoare_if; intro; apply hoare_emit, P_log. }
  intro. eapply hoare_bind; [apply hoare_isLocked, P_env|].
  intros b. apply hoare_drop. destruct (negb b); [apply P_tryLock|exact IH].
Qed.

Lemma trySpinLock_keeps :
  hoare P (trySpinLock ASSERT thread) (fun _ s => P s).
Proof.
  unfold trySpinLock. eapply hoare_bind; [apply P_tryLock|].
  intros [|]; [apply hoare_ret; auto|apply trySpinLock_for_keeps].
Qed.

Lemma finishLock_keeps (fuel : nat) (newHead : Z) :
  hoare P (finishLock ASSERT fuel thread newHead) (fun _ s => P s).
Proof.
  unfold finishLock, Semaphore_reset.
  eapply hoare_bind; [apply hoare_assert_pure|]. intro.
  eapply hoare_bind; [apply trySpinLock_keeps|]. intros b.
  destruct b; [apply hoare_ret; auto|].
  eapply hoare_bind; [apply hoare_emit, P_log|]. intro.
  eapply hoare_bind with (Q := fun _ s => P s).
  { apply hoare_setItem. intros s HP. now apply P_setItem. }
  intro.
  eapply hoare_bind; [apply hoare_load_contendersList, P_env|].
  intros head. apply hoare_drop.
  eapply hoare_bind with (Q := fun _ s => P s).
  { apply (hoare_loop (fun _ s => P s) (fun _ s => P s)).
    intros head'. destruct (Z.land head' kLockBit =? 0) eqn:Hb.
    - eapply hoare_bind; [apply P_tryLock|].
      intros [|]; [apply hoare_break|apply hoare_continue]; auto.
    - eapply hoare_bind with (Q := fun _ s => P s).
      { apply hoare_setNext; [apply P_env|]. intros s HP.
        apply P_setNext; [exact HP|apply aligned_land_lnot]. }
      intro.
      eapply hoare_bind with (Q := fun _ s => P s).
      { apply hoare_cas_weak_contendersList; [apply P_env| |auto].
        intros s HP Hc. apply P_push; [exact HP|].
        rewrite Hc. unfold lockBit. rewrite Hb. reflexivity. }
      intros r. destruct (fst r); [apply hoare_break; auto|].
      eapply hoare_bind; [apply hoare_emit, P_log|].
      intro. apply hoare_continue. auto. }
  intros acquired. destruct acquired; [apply hoare_ret; auto|].
  eapply hoare_bind with (Q := fun _ s => P s).
  { apply (hoare_loop (fun _ s => P s) (fun _ s => P s)).
    intros spinCount.
    eapply hoare_bind; [apply hoare_load_onDeck, P_env|]. intros d.
    destruct (negb _); [|apply hoare_break; auto].
    eapply hoare_bind.
    { apply hoare_backOff; [apply P_log|apply hoare_emit, P_log]. }
    intro. apply hoare_continue. auto. }
  intro.
  eapply hoare_bind with (Q := fun _ s => P s).
  { apply (hoare_loop (fun _ s => P s) (fun _ s => P s)).
    intros spinCount.
    eapply hoare_bind with (Q := fun _ s => P s).
    { apply hoare_assert; [|auto].
      eapply hoare_bind; [apply hoare_load_onDeck, P_env|].
      intros d. apply hoare_ret. auto. }
    intro. eapply hoare_bind; [apply P_tryLock|].
    intros [|]; [apply hoare_break; auto|].
    eapply hoare_bind.
    { apply hoare_backOff; [apply P_log|apply hoare_emit, P_log]. }
    intro. apply hoare_continue. auto. }
  intro.
  eapply hoare_bind with (Q := fun _ s => P s).
  { apply hoare_assert; [|auto].
    eapply hoare_bind; [apply hoare_next, P_env|].
    intros n. apply hoare_ret. intros s [H _] _. exact H. }
  intro. apply hoare_store_onDeck; [apply P_env|]. intros s HP. now apply P_onDeck.
Qed.

Lemma lock_keeps (fuel : nat) (newHead : Z) :
  hoare P (lock ASSERT fuel thread newHead) (fun _ s => P s).
Proof.
  unfold lock. eapply hoare_bind; [apply P_tryLock|].
  intros [|]; cbn [negb]; [apply hoare_ret; auto|apply finishLock_keeps].
Qed.

End LockPath.

Lemma trySpinLock_keeps_good :
  hoare (isGood thread) (trySpinLock ASSERT thread) (fun _ s => isGood thread s).
Proof.
  apply trySpinLock_keeps;
    [apply envClosed_isGood|apply logFree_isGood|apply tryLock_keeps_good].
Qed.

Lemma lock_keeps_good (fuel : nat) (newHead : Z) :
  hoare (isGood thread) (lock ASSERT fuel thread newHead) (fun _ s => isGood thread s).
Proof.
  apply lock_keeps.
  - apply envClosed_isGood.
  - apply logFree_isGood.
  - intros p v s HG. apply isGood_set_node; [exact HG|now apply isGood_heap_next].
  - intros p v s HG Hv. now apply isGood_set_node.
  - intros p s [Hg Hr] Hl. split; [now apply good_push|exact Hr].
  - intros v s HG. exact HG.
  - apply tryLock_keeps_good.
Qed.

Lemma finishUnlock_keeps_good (fuel : nat) :
  hoare (isGood thread) (finishUnlock ASSERT fuel) (fun _ s => isGood thread s).
Proof.
  unfold finishUnlock, Semaphore_post.
  apply (hoare_loop (fun _ s => isGood thread s) (fun _ s => isGood thread s)).
  intro.
  eapply hoare_bind with (Q := fun _ s => isGood thread s).
  { apply hoare_cas_strong_onDeck; [apply envClosed_isGood|auto|auto]. }
  intros r. destruct (negb (fst r)); [apply hoare_break; auto|].
  eapply hoare_bind; [apply hoare_load_contendersList, envClosed_isGood|].
  intros head. apply hoare_drop.
  eapply hoare_bind with (Q := fun _ s => isGood thread s).
  { apply (hoare_loop (fun _ s => isGood thread s) (fun _ s => isGood thread s)).
    intros head'. destruct (head' =? 0); [apply hoare_break; auto|].
    destruct (Z.land head' kLockBit =? 0) eqn:Hb; cbn [negb];
      [|apply hoare_break; auto].
    eapply hoare_bind with (Q := fun n s => isGood thread s /\ aligned n).
    { eapply hoare_conseq; [apply hoare_next, envClosed_isGood|auto|].
      intros n s [HG ->]. split; [exact HG|now apply isGood_heap_next]. }
    intros n. apply hoare_pure. intros Hn.
    eapply hoare_bind with
      (Q := fun r s => isGood thread s).
    { apply hoare_cas_weak_contendersList; [apply envClosed_isGood| |auto].
      intros s [Hg Hr] Hc. split; [|exact Hr]. apply good_pop; [exact Hg| |exact Hn].
      rewrite Hc. unfold lockBit. rewrite Hb. reflexivity. }
    intros r'. destruct (fst r'); [|apply hoare_continue; auto].
    eapply hoare_bind with (Q := fun _ s => isGood thread s).
    { destruct ASSERT; [|apply hoare_ret; auto].
      apply hoare_setNext; [apply envClosed_isGood|]. intros s HG.
      apply isGood_set_node; [exact HG|apply aligned_0]. }
    intro. apply hoare_break. auto. }
  intros head'.
  eapply hoare_bind with (Q := fun _ s => isGood thread s).
  { destruct (negb _); [apply hoare_item|apply hoare_ret; auto]. }
  intros semaphore.
  eapply hoare_bind with (Q := fun _ s => isGood thread s).
  { apply hoare_store_onDeck; [apply envClosed_isGood|auto]. }
  intro. destruct (negb (semaphore =? 0)).
  - eapply hoare_bind; [apply hoare_emit, logFree_isGood|]. intro.
    apply hoare_break. auto.
  - eapply hoare_bind; [apply hoare_load_contendersList, envClosed_isGood|].
    intros head''. apply hoare_drop.
    destruct (_ || _); [apply hoare_break|apply hoare_continue]; auto.
Qed.

(** The owner's assertion [isLocked() && owner_ == thread]. *)
Lemma assert_owner_keeps_owner :
  hoare (isOwner thread)
    (assert ASSERT
       (l <- isLocked ;; m <- getMonitor ;; ret (l && (owner_ m =? self thread))))
    (fun _ s => isOwner thread s).
Proof.
  apply hoare_assert; [|auto].
  eapply hoare_bind; [apply hoare_isLocked, envClosed_isOwner|].
  intros l. apply hoare_drop.
  eapply hoare_bind; [apply hoare_getMonitor|].
  intros m. apply hoare_ret. intros s [H _] _. exact H.
Qed.

Lemma unlock_keeps_good (fuel : nat) :
  hoare (isOwner thread) (unlock ASSERT fuel thread) (fun _ s => isGood thread s).
Proof.
  unfold unlock, Semaphore_post, setOwner, write_lockCount.
  eapply hoare_bind; [apply assert_owner_keeps_owner|]. intro.
  eapply hoare_bind; [apply hoare_getMonitor|]. intros m. apply hoare_drop.
  eapply hoare_bind with (Q := fun _ s => isOwner thread s).
  { destruct (recursive_ m); [|apply hoare_ret; auto].
    eapply hoare_bind with (Q := fun _ s => isOwner thread s).
    { apply hoare_modifyWorld. intros s H. exact H. }
    intro. apply hoare_ret. auto. }
  intros stillHeld. destruct stillHeld.
  { apply hoare_ret. intros s H. now apply isOwner_isGood. }
  eapply hoare_bind with (Q := fun _ s => isReleasing thread s).
  { apply hoare_modifyWorld. intros s (Hg & Ho & Hr). split; [|exact Hr].
    now apply releasing_set_owner. }
  intro.
  eapply hoare_bind; [apply hoare_load_contendersList, envClosed_isReleasing|].
  intros ptr. apply hoare_drop.
  eapply hoare_bind with (Q := fun _ s => isGood thread s).
  { apply (hoare_loop (fun _ s => isReleasing thread s) (fun _ s => isGood thread s)).
    intros ptr'.
    eapply hoare_bind with
      (Q := fun (r : bool * Z) s =>
              if fst r then isGood thread s else isReleasing thread s).
    { apply hoare_cas_weak_contendersList; [apply envClosed_isReleasing| |auto].
      intros s [Hl Hr] Hc. cbn [fst]. split; [|exact Hr]. rewrite <- Hc.
      now apply good_release. }
    intros r. destruct (fst r); [apply hoare_break|apply hoare_continue]; auto. }
  intro.
  eapply hoare_bind; [apply hoare_load_onDeck, envClosed_isGood|]. intros onDeck.
  destruct (negb (onDeck =? 0)).
  - destruct (_ =? 0); [apply hoare_emit, logFree_isGood|apply hoare_ret; auto].
  - eapply hoare_bind; [apply hoare_load_contendersList, envClosed_isGood|].
    intros head. apply hoare_drop.
    destruct (_ || _); [apply hoare_ret; auto|apply finishUnlock_keeps_good].
Qed.

Lemma notify_keeps_owner (fuel : nat) :
  hoare (isOwner thread) (notify ASSERT fuel thread) (fun _ s => isOwner thread s).
Proof.
  unfold notify, write_waitersList.
  eapply hoare_bind; [apply assert_owner_keeps_owner|]. intro.
  eapply hoare_bind; [apply hoare_getMonitor|]. intros m. apply hoare_drop.
  destruct (waitersList_ m =? 0); [apply hoare_ret; auto|].
  eapply hoare_bind with (Q := fun n s => isOwner thread s /\ aligned n).
  { eapply hoare_conseq; [apply hoare_next, envClosed_isOwner|auto|].
    intros n s [HO ->]. split; [exact HO|].
    apply isGood_heap_next. now apply isOwner_isGood. }
  intros n. apply hoare_pure. intros Hn.
  eapply hoare_bind with (Q := fun _ s => isOwner thread s).
  { apply hoare_modifyWorld. intros s (Hg & Ho & Hr).
    split; [now apply good_set_waitersList|]. split; [exact Ho|exact Hr]. }
  intro.
  eapply hoare_bind; [apply hoare_load_contendersList, envClosed_isOwner|].
  intros node. apply hoare_drop.
  apply (hoare_loop (fun _ s => isOwner thread s) (fun _ s => isOwner thread s)).
  intros node'.
  eapply hoare_bind with (Q := fun _ s => isOwner thread s).
  { apply hoare_setNext; [apply envClosed_isOwner|]. intros s (Hg & Ho & Hr).
    split; [apply good_set_node; [exact Hg|apply aligned_land_lnot]|].
    split; [exact Ho|exact Hr]. }
  intro.
  eapply hoare_bind with (Q := fun _ s => isOwner thread s).
  { apply hoare_cas_weak_contendersList; [apply envClosed_isOwner| |auto].
    intros s (Hg & [Hl Ho] & Hr) Hc.
    split; [now apply good_push|]. split; [|exact Hr].
    split; [apply lockBit_lor|exact Ho]. }
  intros r. destruct (fst r); [apply hoare_break|apply hoare_continue]; auto.
Qed.

Lemma notifyAll_keeps_owner (fuel : nat) :
  hoare (isOwner thread) (notifyAll ASSERT fuel thread) (fun _ s => isOwner thread s).
Proof.
  unfold notifyAll.
  apply (hoare_loop (fun _ s => isOwner thread s) (fun _ s => isOwner thread s)).
  intro. eapply hoare_bind; [apply hoare_getMonitor|]. intros m. apply hoare_drop.
  destruct (negb _); [|apply hoare_break; auto].
  eapply hoare_bind; [apply notify_keeps_owner|]. intro. apply hoare_continue. auto.
Qed.

Lemma wait_enqueue_keeps_owner (newHead : Z) :
  aligned newHead ->
  hoare (isOwner thread) (wait_enqueue thread newHead) (fun _ s => isOwner thread s).
Proof.
  intros Hal. unfold wait_enqueue, Semaphore_reset, write_waitersList, write_lockCount.
  eapply hoare_bind; [apply hoare_emit, logFree_isOwner|]. intro.
  eapply hoare_bind with (Q := fun _ s => isOwner thread s).
  { apply hoare_setItem. intros s (Hg & Ho & Hr).
    split; [|split; [exact Ho|exact Hr]].
    apply good_set_node; [exact Hg|]. destruct Hg as [[_ Hn] _]. apply Hn. }
  intro.
  eapply hoare_bind with (Q := fun m s => isOwner thread s /\ aligned (waitersList_ m)).
  { eapply hoare_conseq; [apply (hoare_getMonitor (isOwner thread))|auto|].
    intros m s [HO ->]. split; [exact HO|]. destruct HO as ([[Hw _] _] & _). exact Hw. }
  intros m. apply hoare_pure. intros Hw.
  eapply hoare_bind with (Q := fun _ s => isOwner thread s).
  { apply hoare_setNext; [apply envClosed_isOwner|]. intros s (Hg & Ho & Hr).
    split; [now apply good_set_node|]. split; [exact Ho|exact Hr]. }
  intro.
  eapply hoare_bind with (Q := fun _ s => isOwner thread s).
  { apply hoare_modifyWorld. intros s (Hg & Ho & Hr).
    split; [now apply good_set_waitersList|]. split; [exact Ho|exact Hr]. }
  intro.
  eapply hoare_bind; [apply hoare_getMonitor|]. intros m'. apply hoare_drop.
  eapply hoare_bind with (Q := fun _ s => isOwner thread s).
  { apply hoare_modifyWorld. intros s H. exact H. }
  intro. apply hoare_ret. auto.
Qed.

Lemma wait_resume_keeps_good (fuel : nat) (saved : Z) :
  hoare (isGood thread) (wait_resume ASSERT fuel thread saved)
        (fun _ s => isGood thread s).
Proof.
  unfold wait_resume, write_lockCount.
  eapply hoare_bind with (Q := fun _ s => isGood thread s).
  { apply (hoare_loop (fun _ s => isGood thread s) (fun _ s => isGood thread s)).
    intros spinCount.
    eapply hoare_bind; [apply hoare_load_onDeck, envClosed_isGood|]. intros d.
    destruct (negb _); [|apply hoare_break; auto].
    eapply hoare_bind.
    { apply hoare_backOff; [apply logFree_isGood|apply hoare_emit, logFree_isGood]. }
    intro. apply hoare_continue. auto. }
  intro.
  eapply hoare_bind with (Q := fun _ s => isGood thread s).
  { apply (hoare_loop (fun _ s => isGood thread s) (fun _ s => isGood thread s)).
    intros spinCount.
    eapply hoare_bind with (Q := fun _ s => isGood thread s).
    { apply hoare_assert; [|auto].
      eapply hoare_bind; [apply hoare_load_onDeck, envClosed_isGood|].
      intros d. apply hoare_ret. auto. }
    intro. eapply hoare_bind; [apply trySpinLock_keeps_good|].
    intros [|]; [apply hoare_break; auto|].
    eapply hoare_bind.
    { apply hoare_backOff; [apply logFree_isGood|apply hoare_emit, logFree_isGood]. }
    intro. apply hoare_continue. auto. }
  intro.
  eapply hoare_bind with (Q := fun _ s => isGood thread s).
  { apply hoare_modifyWorld. intros s H. exact H. }
  intro. apply hoare_store_onDeck; [apply envClosed_isGood|auto].
Qed.

Lemma wait_keeps_good (fuel : nat) (newHead : Z) :
  aligned newHead ->
  hoare (isOwner thread) (wait ASSERT fuel thread newHead) (fun _ s => isGood thread s).
Proof.
  intros Hal. unfold wait.
  eapply hoare_bind; [apply assert_owner_keeps_owner|]. intro.
  eapply hoare_bind; [now apply wait_enqueue_keeps_owner|]. intros lockCount.
  eapply hoare_bind; [apply unlock_keeps_good|]. intro.
  apply wait_resume_keeps_good.
Qed.

(** *** In a quiet environment [unlock] at depth 1 frees the monitor *)

Lemma envClosed_isFree : envClosed isFree.
Proof.
  intros s (Hg & Hl & Hq). destruct (afterEnv_noInterference s Hq) as [Hw Hq'].
  unfold isFree. rewrite Hw. auto.
Qed.

Lemma envClosed_isQuietOwner : envClosed (isQuietOwner thread).
Proof.
  intros s (Hg & Ho & Hq). destruct (afterEnv_noInterference s Hq) as [Hw Hq'].
  unfold isQuietOwner. rewrite Hw. auto.
Qed.

Lemma envClosed_isQuietReleasing : envClosed isQuietReleasing.
Proof.
  intros s (Hl & Hq). destruct (afterEnv_noInterference s Hq) as [Hw Hq'].
  unfold isQuietReleasing. rewrite Hw. auto.
Qed.

Lemma envClosed_and_lockCount (P : State -> Prop) (c : Z) :
  (forall s, P s -> noInterference (oracle s)) -> envClosed P ->
  envClosed (fun s => P s /\ lockCount_ (mon (world s)) = c).
Proof.
  intros Hq HP s [Hs Hc]. split; [now apply HP|].
  destruct (afterEnv_noInterference s (Hq s Hs)) as [Hw _]. rewrite Hw. exact Hc.
Qed.

Lemma logFree_isFree : logFree isFree.
Proof. intros s t H. exact H. Qed.

Lemma finishUnlock_keeps_free (fuel : nat) :
  hoare isFree (finishUnlock ASSERT fuel) (fun _ s => isFree s).
Proof.
  unfold finishUnlock, Semaphore_post.
  apply (hoare_loop (fun _ s => isFree s) (fun _ s => isFree s)).
  intro.
  eapply hoare_bind with (Q := fun _ s => isFree s).
  { apply hoare_cas_strong_onDeck; [apply envClosed_isFree|auto|auto]. }
  intros r. destruct (negb (fst r)); [apply hoare_break; auto|].
  eapply hoare_bind; [apply hoare_load_contendersList, envClosed_isFree|].
  intros head. apply hoare_drop.
  eapply hoare_bind with (Q := fun _ s => isFree s).
  { apply (hoare_loop (fun _ s => isFree s) (fun _ s => isFree s)).
    intros head'. destruct (head' =? 0); [apply hoare_break; auto|].
    destruct (Z.land head' kLockBit =? 0) eqn:Hb; cbn [negb];
      [|apply hoare_break; auto].
    eapply hoare_bind with (Q := fun n s => isFree s /\ aligned n).
    { eapply hoare_conseq; [apply hoare_next, envClosed_isFree|auto|].
      intros n s [HF ->]. split; [exact HF|]. destruct HF as ([[_ Hn] _] & _). apply Hn. }
    intros n. apply hoare_pure. intros Hn.
    eapply hoare_bind with (Q := fun r s => isFree s).
    { apply hoare_cas_weak_contendersList; [apply envClosed_isFree| |auto].
      intros s (Hg & Hl & Hq) Hc. split; [now apply good_pop|]. split; [|exact Hq].
      now apply lockBit_aligned. }
    intros r'. destruct (fst r'); [|apply hoare_continue; auto].
    eapply hoare_bind with (Q := fun _ s => isFree s).
    { destruct ASSERT; [|apply hoare_ret; auto].
      apply hoare_setNext; [apply envClosed_isFree|]. intros s (Hg & Hl & Hq).
      split; [apply good_set_node; [exact Hg|apply aligned_0]|]. split; assumption. }
    intro. apply hoare_break. auto. }
  intros head'.
  eapply hoare_bind with (Q := fun _ s => isFree s).
  { destruct (negb _); [apply hoare_item|apply hoare_ret; auto]. }
  intros semaphore.
  eapply hoare_bind with (Q := fun _ s => isFree s).
  { apply hoare_store_onDeck; [apply envClosed_isFree|auto]. }
  intro. destruct (negb (semaphore =? 0)).
  - eapply hoare_bind; [apply hoare_emit, logFree_isFree|]. intro.
    apply hoare_break. auto.
  - eapply hoare_bind; [apply hoare_load_contendersList, envClosed_isFree|].
    intros head''. apply hoare_drop.
    destruct (_ || _); [apply hoare_break|apply hoare_continue]; auto.
Qed.

Lemma unlock_frees (fuel : nat) :
  hoare (fun s => isQuietOwner thread s /\ lockCount_ (mon (world s)) = 1)
        (unlock ASSERT fuel thread) (fun _ s => isFree s).
Proof.
  unfold unlock, Semaphore_post, setOwner, write_lockCount.
  assert (Hec : envClosed (fun s => isQuietOwner thread s /\ lockCount_ (mon (world s)) = 1)).
  { apply envClosed_and_lockCount; [|apply envClosed_isQuietOwner].
    intros s (_ & _ & Hq). exact Hq. }
  eapply hoare_bind with
    (Q := fun _ s => isQuietOwner thread s /\ lockCount_ (mon (world s)) = 1).
  { apply hoare_assert; [|auto].
    eapply hoare_bind; [apply hoare_isLocked, Hec|].
    intros l. apply hoare_drop.
    eapply hoare_bind; [apply hoare_getMonitor|].
    intros m. apply hoare_ret. intros s [H _] _. exact H. }
  intro.
  eapply hoare_bind with
    (Q := fun m s => isQuietOwner thread s /\ lockCount_ m = 1).
  { eapply hoare_conseq;
      [apply (hoare_getMonitor
                (fun s => isQuietOwner thread s /\ lockCount_ (mon (world s)) = 1))
      |auto|].
    intros m s [[H Hc] ->]. auto. }
  intros m. apply hoare_pure. intros Hc.
  eapply hoare_bind with (Q := fun b s => isQuietOwner thread s /\ b = false).
  { destruct (recursive_ m); [|apply hoare_ret; auto].
    eapply hoare_bind with (Q := fun _ s => isQuietOwner thread s).
    { apply hoare_modifyWorld. intros s H. exact H. }
    intro. apply hoare_ret. intros s H. split; [exact H|]. rewrite Hc. reflexivity. }
  intros stillHeld. apply hoare_pure. intros ->.
  eapply hoare_bind with (Q := fun _ s => isQuietReleasing s).
  { apply hoare_modifyWorld. intros s (Hg & Ho & Hq). split; [|exact Hq].
    now apply releasing_set_owner. }
  intro.
  eapply hoare_bind; [apply hoare_load_contendersList, envClosed_isQuietReleasing|].
  intros ptr. apply hoare_drop.
  eapply hoare_bind with (Q := fun _ s => isFree s).
  { apply (hoare_loop (fun _ s => isQuietReleasing s) (fun _ s => isFree s)).
    intros ptr'.
    eapply hoare_bind with
      (Q := fun (r : bool * Z) s => if fst r then isFree s else isQuietReleasing s).
    { apply hoare_cas_weak_contendersList; [apply envClosed_isQuietReleasing| |auto].
      intros s [Hl Hq] Hc'. cbn [fst]. rewrite <- Hc'.
      split; [now apply good_release|]. split; [apply lockBit_land_lnot|exact Hq]. }
    intros r. destruct (fst r); [apply hoare_break|apply hoare_continue]; auto. }
  intro.
  eapply hoare_bind; [apply hoare_load_onDeck, envClosed_isFree|]. intros onDeck.
  destruct (negb (onDeck =? 0)).
  - destruct (_ =? 0); [apply hoare_emit, logFree_isFree|apply hoare_ret; auto].
  - eapply hoare_bind; [apply hoare_load_contendersList, envClosed_isFree|].
    intros head. apply hoare_drop.
    destruct (_ || _); [apply hoare_ret; auto|apply finishUnlock_keeps_free].
Qed.

(** With nobody around, [lock] on a free monitor takes it at once. *)
Lemma lock_takes_free (fuel : nat) (newHead : Z) (s : State) :
  good (world s) -> oracle s = [] ->
  lockBit (contendersList_ (mon (world s))) = false ->
  post (lock ASSERT fuel thread newHead s) (fun _ s' => isOwner thread s').
Proof.
  intros Hg Ho Hl. unfold lock, bind. rewrite tryLock_unfold.
  assert (He : afterEnv s = s) by (unfold afterEnv; rewrite Ho; reflexivity).
  assert (Hs : spuriousNow s = false) by (unfold spuriousNow; rewrite Ho; reflexivity).
  pose proof thread_not_null as Hn. apply Z.eqb_neq in Hn.
  rewrite Hn, andb_false_r. cbn zeta. rewrite !He, Hl, Hs, Z.eqb_refl.
  cbn [andb negb]. unfold ret, post.
  split; [now apply good_acquire|]. split.
  - split; [apply lockBit_lor|reflexivity].
  - unfold relies. cbn [withWorld oracle]. rewrite Ho. constructor.
Qed.

Lemma wait_enqueue_quiet (newHead : Z) :
  aligned newHead ->
  hoare (isQuietOwner thread) (wait_enqueue thread newHead)
        (fun _ s => isQuietOwner thread s /\ lockCount_ (mon (world s)) = 1).
Proof.
  intros Hal. unfold wait_enqueue, Semaphore_reset, write_waitersList, write_lockCount.
  eapply hoare_bind with (Q := fun _ s => isQuietOwner thread s).
  { apply hoare_emit. intros s t H. exact H. }
  intro.
  eapply hoare_bind with (Q := fun _ s => isQuietOwner thread s).
  { apply hoare_setItem. intros s (Hg & Ho & Hr).
    split; [|split; [exact Ho|exact Hr]].
    apply good_set_node; [exact Hg|]. destruct Hg as [[_ Hn] _]. apply Hn. }
  intro.
  eapply hoare_bind with
    (Q := fun m s => isQuietOwner thread s /\ aligned (waitersList_ m)).
  { eapply hoare_conseq; [apply (hoare_getMonitor (isQuietOwner thread))|auto|].
    intros m s [HO ->]. split; [exact HO|]. destruct HO as ([[Hw _] _] & _). exact Hw. }
  intros m. apply hoare_pure. intros Hw.
  eapply hoare_bind with (Q := fun _ s => isQuietOwner thread s).
  { apply hoare_setNext; [apply envClosed_isQuietOwner|]. intros s (Hg & Ho & Hr).
    split; [now apply good_set_node|]. split; [exact Ho|exact Hr]. }
  intro.
  eapply hoare_bind with (Q := fun _ s => isQuietOwner thread s).
  { apply hoare_modifyWorld. intros s (Hg & Ho & Hr).
    split; [now apply good_set_waitersList|]. split; [exact Ho|exact Hr]. }
  intro.
  eapply hoare_bind; [apply hoare_getMonitor|]. intros m'. apply hoare_drop.
  eapply hoare_bind with
    (Q := fun _ s => isQuietOwner thread s /\ lockCount_ (mon (world s)) = 1).
  { apply hoare_modifyWorld. intros s H. split; [exact H|reflexivity]. }
  intro. apply hoare_ret. auto.
Qed.

Lemma isFree_unlocked (s : State) :
  isFree s ->
  lockBit (contendersList_ (mon (world s))) = false /\ owner_ (mon (world s)) = 0.
Proof.
  intros ([_ Hi] & Hl & _). split; [exact Hl|].
  destruct (Z.eq_dec (owner_ (mon (world s))) 0) as [H|H]; [exact H|].
  apply Hi in H. congruence.
Qed.

(** Every call keeps the invariant. *)
Lemma perform_keeps_good (fuel : nat) (c : call) (s : State) :
  contract thread c (world s) -> isGood thread s ->
  post (perform ASSERT fuel thread c s) (fun _ s' => isGood thread s').
Proof.
  intros [_ Hc] [Hg Hr]. destruct c as [|newHead| |newHead| |]; cbn [perform].
  - apply (hoare_bind (isGood thread) _ (fun _ s => isGood thread s));
      [apply tryLock_keeps_good| |split; assumption].
    intro. apply hoare_ret. auto.
  - apply lock_keeps_good. split; assumption.
  - apply unlock_keeps_good. split; [exact Hg|]. split; assumption.
  - destruct Hc as [Ho Hal]. apply wait_keeps_good; [exact Hal|].
    split; [exact Hg|]. split; assumption.
  - eapply post_conseq;
      [apply notify_keeps_owner; split; [exact Hg|]; split; assumption|].
    intros u s'. apply isOwner_isGood.
  - eapply post_conseq;
      [apply notifyAll_keeps_owner; split; [exact Hg|]; split; assumption|].
    intros u s'. apply isOwner_isGood.
Qed.
End Invariant.

Lemma good_new (recursive : bool) (garbage : Z) (h : gmap Z LinkedNode) :
  (forall p, aligned (next_ (h !!! p))) ->
  good (mkWorld (Monitor_new recursive garbage) h).
Proof.
  intros Hh. split; [split; [reflexivity|exact Hh]|].
  unfold ownerIffLocked. cbn. split; [congruence|discriminate].
Qed.

Lemma reachable_good (w : World) : reachable ASSERT w -> good w.
Proof.
  induction 1 as [recursive garbage h Hh | w thread c fuel o tr s' _ IH Hc Ho Hrun].
  - now apply good_new.
  - pose proof (perform_keeps_good thread (proj1 Hc) fuel c (mkState w o tr) Hc
                  (conj IH Ho)) as Hpost.
    destruct (post_Done _ _ _ _ Hpost Hrun) as [Hg _]. exact Hg.
Qed.

Lemma ownsb_spec (thread : Thread) (w : World) :
  ownsb thread w = true <-> owns thread w.
Proof.
  unfold ownsb, owns. rewrite andb_true_iff, Z.eqb_eq. reflexivity.
Qed.

Lemma contractb_spec (thread : Thread) (c : call) (w : World) :
  contractb thread c w = true -> contract thread c w.
Proof.
  unfold contractb, contract. rewrite andb_true_iff, negb_true_iff, Z.eqb_neq.
  intros [Hn Hc]. split; [exact Hn|].
  destruct c; try exact I; try (now apply ownsb_spec).
  apply andb_true_iff in Hc. destruct Hc as [Ho Ha].
  split; [now apply ownsb_spec|]. now apply Z.eqb_eq in Ha.
Qed.

Lemma idle_wellBehaved (thread : Thread) (flag : bool) :
  wellBehaved thread (mkInterference (fun w => w) flag).
Proof.
  split; try (intros w H; exact H).
  intros w H. split; [exact H|reflexivity].
Qed.

Lemma flags_noInterference (flags : list bool) :
  noInterference (map (mkInterference (fun w => w)) flags).
Proof. induction flags; constructor; auto. Qed.

Lemma flags_wellBehaved (thread : Thread) (flags : list bool) :
  Forall (wellBehaved thread) (map (mkInterference (fun w => w)) flags).
Proof. induction flags; constructor; auto using idle_wellBehaved. Qed.

(** *** Calls of other threads as interference *)

Section Other.
Variables thread t : Thread.
Hypothesis other : self t <> self thread.
Hypothesis t_not_null : self t <> 0.

Lemma envClosed_isHeldBy (count : Z) : envClosed (isHeldBy thread count).
Proof.
  intros s (Ho & Hc & Hq). destruct (afterEnv_noInterference s Hq) as [Hw Hq'].
  unfold isHeldBy. rewrite Hw. auto.
Qed.

(** [tryLock] by [t] fails while [thread] holds the monitor, and while the
    monitor is being released. *)
Lemma tryLock_other_held (count : Z) :
  hoare (isHeldBy thread count) (tryLock ASSERT t) (fun _ s => isHeldBy thread count s).
Proof.
  intros s HP. rewrite tryLock_unfold. cbn zeta.
  destruct (ASSERT && (self t =? 0)); [exact I|].
  pose proof (envClosed_isHeldBy count s HP) as HP1.
  destruct HP1 as ([Hl Ho] & Hc & Hq). rewrite Hl, Ho.
  apply Z.eqb_neq in other. rewrite other, andb_false_r.
  exact (conj (conj Hl Ho) (conj Hc Hq)).
Qed.

Lemma tryLock_other_releasing :
  hoare isQuietReleasing (tryLock ASSERT t) (fun _ s => isQuietReleasing s).
Proof.
  intros s HP. rewrite tryLock_unfold. cbn zeta.
  destruct (ASSERT && (self t =? 0)); [exact I|].
  pose proof (envClosed_isQuietReleasing s HP) as HP1.
  destruct HP1 as ((Hh & Hl & Ho) & Hq). rewrite Hl, Ho.
  apply Z.eqb_neq in t_not_null. rewrite t_not_null, andb_false_r.
  exact (conj (conj Hh (conj Hl Ho)) Hq).
Qed.

Lemma lock_other_held (fuel : nat) (newHead count : Z) :
  hoare (isHeldBy thread count) (lock ASSERT fuel t newHead)
        (fun _ s => isHeldBy thread count s).
Proof.
  apply lock_keeps.
  - apply envClosed_isHeldBy.
  - intros s tr H. exact H.
  - intros p v s H. exact H.
  - intros p v s H _. exact H.
  - intros p s ([Hl Ho] & Hc & Hq) _.
    split; [|split; assumption]. split; [apply lockBit_lor|exact Ho].
  - intros v s H. exact H.
  - apply tryLock_other_held.
Qed.

Lemma lock_other_releasing (fuel : nat) (newHead : Z) :
  hoare isQuietReleasing (lock ASSERT fuel t newHead) (fun _ s => isQuietReleasing s).
Proof.
  apply lock_keeps.
  - apply envClosed_isQuietReleasing.
  - intros s tr H. exact H.
  - intros p v s ((Hh & Hl & Ho) & Hq). split; [|exact Hq].
    split; [|split; assumption]. apply heapOk_set_node; [exact Hh|].
    destruct Hh as [_ Hn]. apply Hn.
  - intros p v s ((Hh & Hl & Ho) & Hq) Hv. split; [|exact Hq].
    split; [|split; assumption]. now apply heapOk_set_node.
  - intros p s ((Hh & Hl & Ho) & Hq) _. split; [|exact Hq].
    split; [exact Hh|]. split; [apply lockBit_lor|exact Ho].
  - intros v s H. exact H.
  - apply tryLock_other_releasing.
Qed.

(** A complete call of another thread is well behaved. *)
Lemma callBy_wellBehaved (c : call) (fuel : nat) (flags : list bool) :
  wellBehaved thread (callBy ASSERT t c fuel flags).
Proof.
  pose proof (flags_noInterference flags) as Hq.
  split; unfold callBy.
  - intros w Hg. cbn [interfere].
    destruct (contractb t c w) eqn:Hc; [|exact Hg]. apply contractb_spec in Hc.
    pose proof (perform_keeps_good t (proj1 Hc) fuel c
                  (mkState w (map (mkInterference (fun w' => w')) flags) []) Hc
                  (conj Hg (flags_wellBehaved t flags))) as Hp.
    destruct (perform ASSERT fuel t c _) as [[u| |] s']; [exact (proj1 Hp)|exact Hg..].
  - intros w Hown. cbn [interfere].
    assert (Hno : ownsb t w = false).
    { destruct (ownsb t w) eqn:Hb; [|reflexivity].
      apply ownsb_spec in Hb. destruct Hown as [_ Ho], Hb as [_ Ho']. congruence. }
    destruct (contractb t c w) eqn:Hc; [|auto].
    unfold contractb in Hc. apply andb_true_iff in Hc. destruct Hc as [_ Hc].
    assert (Hp : post (perform ASSERT fuel t c
                         (mkState w (map (mkInterference (fun w' => w')) flags) []))
                   (fun _ s' => isHeldBy thread (lockCount_ (mon w)) s')).
    { destruct c; rewrite ?Hno in Hc; try discriminate; cbn [perform].
      - apply (hoare_bind (isHeldBy thread (lockCount_ (mon w))) _
                 (fun _ s => isHeldBy thread (lockCount_ (mon w)) s));
          [apply tryLock_other_held|intro; apply hoare_ret; auto|].
        exact (conj Hown (conj eq_refl Hq)).
      - apply lock_other_held. exact (conj Hown (conj eq_refl Hq)). }
    destruct (perform ASSERT fuel t c _) as [[u| |] s']; [|auto..].
    destruct Hp as (Ho' & Hc' & _). auto.
  - intros w Hrel. cbn [interfere].
    assert (Hno : ownsb t w = false).
    { destruct (ownsb t w) eqn:Hb; [|reflexivity].
      apply ownsb_spec in Hb. destruct Hrel as (_ & _ & Ho), Hb as [_ Ho']. congruence. }
    destruct (contractb t c w) eqn:Hc; [|auto].
    unfold contractb in Hc. apply andb_true_iff in Hc. destruct Hc as [_ Hc].
    assert (Hp : post (perform ASSERT fuel t c
                         (mkState w (map (mkInterference (fun w' => w')) flags) []))
                   (fun _ s' => isQuietReleasing s')).
    { destruct c; rewrite ?Hno in Hc; try discriminate; cbn [perform].
      - apply (hoare_bind isQuietReleasing _ (fun _ s => isQuietReleasing s));
          [apply tryLock_other_releasing|intro; apply hoare_ret; auto|].
        exact (conj Hrel Hq).
      - apply lock_other_releasing. exact (conj Hrel Hq). }
    destruct (perform ASSERT fuel t c _) as [[u| |] s']; [|auto..].
    exact (proj1 Hp).
Qed.
End Other.

(** C3.  The owner calls [wait] at lock count [N], while the other threads
    respect its ownership.  Up to the call of [unlock], [wait] has saved [N]
    and set [lockCount_] to 1, with the thread still the owner and its node
    in front of [waitersList_]; the rest of [wait] is [unlock] followed by
    the re-acquisition with the saved count.  That [unlock] releases the
    monitor whatever [N] is: where nobody interferes, it returns with the
    LOCK bit clear and no owner.  And whenever [wait] returns, the caller
    owns the monitor again and [lockCount_] is [N]. *)
Theorem wait_behaviour (fuel : nat) (thread : Thread) (newHead : Z) (s : State) (N : Z) :
  owns thread (world s) ->
  lockCount_ (mon (world s)) = N ->
  1 <= N ->
  Forall (respectsOwner thread) (oracle s) ->
  (exists s1,
     wait_enqueue thread newHead (if ASSERT then afterEnv s else s) = (Done N, s1) /\
     lockCount_ (mon (world s1)) = 1 /\
     owns thread (world s1) /\
     waitersList_ (mon (world s1)) = newHead /\
     wait ASSERT fuel thread newHead s =
       (unlock ASSERT fuel thread ;;; wait_resume ASSERT fuel thread N) s1 /\
     (good (world s) -> aligned newHead -> noInterference (oracle s) ->
      forall s2, unlock ASSERT fuel thread s1 = (Done tt, s2) ->
        lockBit (contendersList_ (mon (world s2))) = false /\
        owner_ (mon (world s2)) = 0)) /\
  (forall s', wait ASSERT fuel thread newHead s = (Done tt, s') ->
     owns thread (world s') /\ lockCount_ (mon (world s')) = N).
Proof.
  intros Hown HN Hpos Hr.
  destruct (afterEnv_owns thread s Hr Hown) as [Hown1 Hlc1].
  pose proof (afterEnv_Forall _ s Hr) as Hr1.
  set (s0 := if ASSERT then afterEnv s else s).
  assert (H0 : owns thread (world s0) /\ lockCount_ (mon (world s0)) = N /\
               Forall (respectsOwner thread) (oracle s0)).
  { unfold s0. destruct ASSERT; [|auto]. rewrite Hlc1. auto. }
  destruct H0 as (Hown0 & Hlc0 & Hr0).
  destruct (wait_enqueue_owner thread newHead s0 Hr0 Hown0)
    as (s1 & Hen & Hrs1 & Howns1 & Hone & Hw & _ & _).
  rewrite Hlc0 in Hen.
  assert (Hwait : wait ASSERT fuel thread newHead s =
            (unlock ASSERT fuel thread ;;; wait_resume ASSERT fuel thread N) s1).
  { unfold wait. rewrite run_assert_owns by exact Hown1. fold s0.
    unfold bind at 1. rewrite Hen. reflexivity. }
  split.
  - exists s1. repeat (split; [assumption|]).
    intros Hg Hal Hq s2 Hun.
    assert (Hq0 : isQuietOwner thread s0).
    { unfold s0. destruct ASSERT; [|exact (conj Hg (conj Hown Hq))].
      destruct (afterEnv_noInterference s Hq) as [Hw0 Hq0].
      unfold isQuietOwner. rewrite Hw0. exact (conj Hg (conj Hown Hq0)). }
    pose proof (wait_enqueue_quiet thread newHead Hal s0 Hq0) as Hpost.
    pose proof (post_Done _ _ _ _ Hpost Hen) as Hq1. cbn beta in Hq1.
    pose proof (unlock_frees thread fuel s1 Hq1) as Hpost2.
    exact (isFree_unlocked _ (post_Done _ _ _ _ Hpost2 Hun)).
  - intros s' Hdone. rewrite Hwait in Hdone.
    assert (Hpost : post ((unlock ASSERT fuel thread ;;; wait_resume ASSERT fuel thread N) s1)
              (fun _ s' => owns thread (world s') /\ lockCount_ (mon (world s')) = N)).
    { apply post_bind. eapply post_conseq.
      - apply (keepsOracle_post _ (respectsOwner thread)); [|exact Hrs1].
        apply keepsOracle_unlock.
      - cbn beta. intros _ s2 Hr2. now apply wait_resume_owns. }
    exact (post_Done _ _ _ _ Hpost Hdone).
Qed.

(** C6.  In every quiescent state, that is in every state reachable from
    the constructor by complete calls of the monitor, [owner_] is not null
    exactly when the LOCK bit of the lock word is set. *)
Theorem owner_iff_locked (w : World) :
  reachable ASSERT w ->
  (owner_ (mon w) <> 0 <-> lockBit (contendersList_ (mon w)) = true).
Proof. intros H. exact (proj2 (reachable_good w H)). Qed.

(** ** Further properties of the code *)

(** *** What the operations log *)

Lemma silent_tryLock (thread : Thread) : silent (tryLock ASSERT thread).
Proof.
  unfold tryLock, setOwner, write_lockCount.
  apply silent_bind; [apply silent_assert; silent_tac|]. silent_tac.
Qed.

Lemma silent_notify (fuel : nat) (thread : Thread) : silent (notify ASSERT fuel thread).
Proof.
  unfold notify, write_waitersList.
  apply silent_bind; [apply silent_assert; silent_tac|]. silent_tac.
Qed.

(** X1.  [tryLock], [notify] and [notifyAll] call neither the operating system
    nor a semaphore, whatever the state, the other threads and the outcome:
    [tryLock] does not even pause, and [notify] wakes nobody (the waiter it
    moves is woken by a later [unlock]). *)
Theorem notify_wakes_nobody (fuel : nat) (thread : Thread) :
  silent (tryLock ASSERT thread) /\
  silent (notify ASSERT fuel thread) /\
  silent (notifyAll ASSERT fuel thread).
Proof.
  split; [apply silent_tryLock|]. split; [apply silent_notify|].
  unfold notifyAll. apply silent_loop. intros _.
  apply silent_bind; [silent_tac|]. intros m.
  apply silent_if; [|silent_tac].
  apply silent_bind; [apply silent_notify|silent_tac].
Qed.

(** *** Nodes *)

(** X2.  The accessors of a node, with nobody else writing: [next] reads what
    [setNext] wrote and [item] what [setItem] wrote, neither write touches
    the other field or another node, and [compareAndSetNext] writes the
    link exactly when it holds the expected value. *)
Theorem node_accessors (p v : Z) (s : State) :
  noInterference (oracle s) ->
  (exists s',
     (setNext p v ;;; next p) s = (Done v, s') /\
     item_ (node_at (world s') p) = item_ (node_at (world s) p) /\
     (forall q, q <> p -> node_at (world s') q = node_at (world s) q)) /\
  (exists s',
     (setItem p v ;;; item p) s = (Done v, s') /\
     next_ (node_at (world s') p) = next_ (node_at (world s) p) /\
     (forall q, q <> p -> node_at (world s') q = node_at (world s) q)) /\
  (forall compare, exists s',
     compareAndSetNext p compare v s =
       (Done (next_ (node_at (world s) p) =? compare), s') /\
     node_at (world s') p =
       (if next_ (node_at (world s) p) =? compare
        then mkNode v (item_ (node_at (world s) p))
        else node_at (world s) p) /\
     (forall q, q <> p -> node_at (world s') q = node_at (world s) q)).
Proof.
  intros Hq. pose proof (afterEnv_quiet s Hq) as He.
  split; [|split].
  - rewrite run_setNext, He. cbn [world].
    set (s1 := withWorld _ _).
    assert (Hq1 : noInterference (oracle s1)) by (apply noInterference_tail, Hq).
    rewrite (run_last (next p)), run_next, (afterEnv_quiet s1 Hq1).
    cbn [world s1 withWorld]. rewrite node_at_set_node_eq. cbn [next_ item_].
    eexists. split; [reflexivity|]. cbn [world].
    rewrite node_at_set_node_eq. split; [reflexivity|].
    intros q Hne. apply node_at_set_node_ne. congruence.
  - rewrite run_setItem. rewrite (run_last (item p)), run_item.
    cbn [world withWorld]. rewrite node_at_set_node_eq. cbn [item_].
    eexists. split; [reflexivity|]. cbn [world withWorld].
    rewrite node_at_set_node_eq. split; [reflexivity|].
    intros q Hne. apply node_at_set_node_ne. congruence.
  - intros compare. unfold compareAndSetNext.
    rewrite run_envStep, run_getNodes, He. cbn [world].
    change (nodes (world s) !!! p) with (node_at (world s) p).
    destruct (next_ (node_at (world s) p) =? compare).
    + rewrite run_modifyWorld. eexists. split; [reflexivity|].
      cbn [world withWorld]. rewrite node_at_set_node_eq. split; [reflexivity|].
      intros q Hne. apply node_at_set_node_ne. congruence.
    + eexists. split; [reflexivity|]. cbn [world]. auto.
Qed.

(** *** Assertions *)

Lemma run_assert_fails {B} (cond : M bool) (k : unit -> M B) (s s' : State) :
  ASSERT = true -> cond s = (Done false, s') ->
  bind (assert ASSERT cond) k s = (AssertFailed, s').
Proof. intros -> H. unfold assert, bind. rewrite H. reflexivity. Qed.

Lemma run_assert_owner_fails {B} (thread : Thread) (k : unit -> M B) (s : State) :
  ASSERT = true -> ~ owns thread (world (afterEnv s)) ->
  bind (assert ASSERT
          (l <- isLocked ;; m <- getMonitor ;; ret (l && (owner_ m =? self thread))))
       k s = (AssertFailed, afterEnv s).
Proof.
  intros HA Hno. apply run_assert_fails; [exact HA|].
  rewrite run_isLocked, run_getMonitor.
  destruct (lockBit _ && _) eqn:Hb; [|reflexivity].
  exfalso. apply Hno. apply andb_true_iff in Hb. destruct Hb as [Hl Ho].
  apply Z.eqb_eq in Ho. split; assumption.
Qed.

(** X3.  In a build with assertions, [unlock], [wait] and [notify] by a thread
    that does not hold the monitor stop at their assertion, having written
    nothing.  [notifyAll] has no assertion of its own: with a waiter it stops
    at the assertion of [notify], with none it returns at once, whoever
    calls it. *)
Theorem owner_is_asserted (fuel : nat) (thread : Thread) (newHead : Z) (s : State) :
  ASSERT = true ->
  ~ owns thread (world (afterEnv s)) ->
  unlock ASSERT fuel thread s = (AssertFailed, afterEnv s) /\
  wait ASSERT fuel thread newHead s = (AssertFailed, afterEnv s) /\
  notify ASSERT fuel thread s = (AssertFailed, afterEnv s) /\
  ((1 <= fuel)%nat ->
   notifyAll ASSERT fuel thread s =
     if waitersList_ (mon (world s)) =? 0 then (Done tt, s)
     else (AssertFailed, afterEnv s)).
Proof.
  intros HA Hno.
  assert (Hn : notify ASSERT fuel thread s = (AssertFailed, afterEnv s)).
  { unfold notify. now apply run_assert_owner_fails. }
  split; [unfold unlock; now apply run_assert_owner_fails|].
  split; [unfold wait; now apply run_assert_owner_fails|].
  split; [exact Hn|].
  intros Hf. destruct fuel as [|fuel']; [lia|]. unfold notifyAll.
  rewrite run_loop_S, run_bind_bind, run_getMonitor.
  destruct (waitersList_ (mon (world s)) =? 0); cbn [negb].
  - reflexivity.
  - rewrite run_bind_bind. unfold bind at 1.
    fold (notify ASSERT (S fuel') thread). 
    unfold notify. rewrite run_assert_owner_fails by assumption. reflexivity.
Qed.

Lemma run_assert_owner {B} (thread : Thread) (k : unit -> M B) (s : State) :
  (ASSERT = true -> owns thread (world (afterEnv s))) ->
  bind (assert ASSERT
          (l <- isLocked ;; m <- getMonitor ;; ret (l && (owner_ m =? self thread))))
       k s =
  k tt (if ASSERT then afterEnv s else s).
Proof.
  intros H. unfold assert. destruct ASSERT; [|reflexivity].
  destruct (H eq_refl) as [Hl Ho].
  assert (Hc : (l <- isLocked ;; m <- getMonitor ;;
                ret (l && (owner_ m =? self thread))) s = (Done true, afterEnv s)).
  { rewrite run_isLocked, run_getMonitor, Hl, Ho, Z.eqb_refl. reflexivity. }
  rewrite run_bind_bind, (bind_Done _ _ _ _ _ Hc). reflexivity.
Qed.

(** X4.  [Thread::current()] is null.  A build with assertions stops [tryLock]
    and [lock] at once.  A build without them lets the call through: on a
    free monitor [tryLock] succeeds and leaves the LOCK bit set with no
    owner. *)
Theorem null_thread (fuel : nat) (thread : Thread) (newHead : Z) (s : State) :
  self thread = 0 ->
  (ASSERT = true ->
     tryLock ASSERT thread s = (AssertFailed, s) /\
     lock ASSERT fuel thread newHead s = (AssertFailed, s)) /\
  (ASSERT = false ->
     oracle s = [] ->
     lockBit (contendersList_ (mon (world s))) = false ->
     exists s',
       tryLock ASSERT thread s = (Done true, s') /\
       lockBit (contendersList_ (mon (world s'))) = true /\
       owner_ (mon (world s')) = 0 /\
       ~ ownerIffLocked (world s')).
Proof.
  intros Hnull. split.
  - intros HA.
    assert (Ht : tryLock ASSERT thread s = (AssertFailed, s)).
    { rewrite tryLock_unfold, HA, Hnull. reflexivity. }
    split; [exact Ht|]. unfold lock, bind. rewrite Ht. reflexivity.
  - intros HA Ho Hl. rewrite tryLock_unfold, HA. cbn [andb]. cbn zeta.
    rewrite !(afterEnv_nil s Ho), Hl, Z.eqb_refl, (spuriousNow_quiet s Ho).
    cbn [andb negb]. eexists. split; [reflexivity|].
    unfold withWorld. cbn [world mon contendersList_ owner_ set_lockCount set_owner
                             set_contendersList].
    assert (Hl' : lockBit (Z.lor (contendersList_ (mon (world s))) kLockBit) = true)
      by apply lockBit_lor.
    split; [exact Hl'|]. split; [exact Hnull|].
    unfold ownerIffLocked. cbn [world mon contendersList_ owner_].
    rewrite Hnull. intros [_ H]. now apply H.
Qed.

(** *** [unlock] and [finishUnlock], left alone *)

(** One round of [finishUnlock] that finds a contender: the head of the
    list is popped, its semaphore put on deck and posted. *)
Lemma finishUnlock_pop (fuel : nat) (s : State) :
  (1 <= fuel)%nat -> oracle s = [] ->
  onDeck_ (mon (world s)) = 0 ->
  contendersList_ (mon (world s)) <> 0 ->
  lockBit (contendersList_ (mon (world s))) = false ->
  item_ (node_at (world s) (contendersList_ (mon (world s)))) <> 0 ->
  let head := contendersList_ (mon (world s)) in
  let sem := item_ (node_at (world s) head) in
  finishUnlock ASSERT fuel s =
    (Done tt,
     mkState
       (set_onDeck sem
          ((if ASSERT then set_node head (mkNode 0 sem) else fun w => w)
             (set_contendersList (next_ (node_at (world s) head)) (world s))))
       [] (trace s ++ [EvPost sem])).
Proof.
  intros Hf Ho Hd Hc Hl Hi. destruct fuel as [|fuel]; [lia|]. cbn zeta.
  unfold finishUnlock. rewrite run_loop_S, run_bind_bind, run_cas_strong_onDeck.
  rewrite (afterEnv_nil s Ho), Hd. cbn [Z.eqb fst negb].
  rewrite run_bind_bind, run_load_contendersList.
  set (s1 := withWorld _ s). rewrite (afterEnv_nil s1 Ho).
  change (contendersList_ (mon (world s1))) with (contendersList_ (mon (world s))).
  set (head := contendersList_ (mon (world s))) in *.
  rewrite run_bind_bind, run_bind_loop_S.
  apply Z.eqb_neq in Hc. rewrite Hc.
  unfold lockBit in Hl. rewrite Hl.
  rewrite !run_bind_bind, run_next, (afterEnv_nil s1 Ho).
  rewrite run_bind_bind, run_cas_weak_contendersList, (afterEnv_nil s1 Ho).
  change (contendersList_ (mon (world s1))) with head.
  rewrite Z.eqb_refl, (spuriousNow_quiet s1 Ho). cbn [andb negb fst].
  set (s2 := withWorld _ s1).
  change (node_at (world s1) head) with (node_at (world s) head).
  set (s3 := withWorld (if ASSERT then set_node head (mkNode 0 (item_ (node_at (world s) head)))
                        else fun w => w) s2).
  assert (Hk : forall (C : Type) (k : unit -> M C),
              bind (if ASSERT then setNext head 0 else ret tt) k s2 = k tt s3).
  { intros C k. unfold s3. destruct ASSERT.
    - rewrite run_setNext, (afterEnv_nil s2 Ho). reflexivity.
    - unfold withWorld. rewrite state_eta. reflexivity. }
  assert (Hi3 : item_ (node_at (world s3) head) = item_ (node_at (world s) head)).
  { unfold s3, withWorld. cbn [world]. destruct ASSERT.
    - rewrite node_at_set_node_eq. reflexivity.
    - reflexivity. }
  assert (Ho3 : oracle s3 = []) by exact Ho.
  rewrite run_bind_bind, Hk, run_break, run_ret.
  rewrite Hc. cbn [negb]. rewrite !run_bind_bind, run_item.
  rewrite !run_bind_bind, run_store_onDeck, (afterEnv_nil s3 Ho3), Hi3.
  apply Z.eqb_neq in Hi. rewrite Hi. cbn [negb].
  unfold Semaphore_post. rewrite !run_bind_bind, run_emit, run_break.
  unfold ret. f_equal. unfold s3, s2, s1, withWorld. cbn [world oracle trace].
  rewrite Ho. f_equal. destruct ASSERT; reflexivity.
Qed.

(** [unlock] when nobody interferes, up to the call of [finishUnlock]. *)
Lemma unlock_quiet (fuel : nat) (thread : Thread) (s : State) :
  (1 <= fuel)%nat -> oracle s = [] ->
  (ASSERT = true -> owns thread (world s)) ->
  let m := mon (world s) in
  let count := wrap32 (lockCount_ m - 1) in
  let w1 := if recursive_ m then set_lockCount count (world s) else world s in
  let head := Z.land (contendersList_ m) (Z.lnot kLockBit) in
  let w3 := set_contendersList head (set_owner 0 w1) in
  unlock ASSERT fuel thread s =
    if recursive_ m && (count >? 0) then (Done tt, mkState w1 [] (trace s))
    else if negb (onDeck_ m =? 0) then
      (Done tt,
       mkState w3 []
         (if Z.land (onDeck_ m) kLockBit =? 0
          then trace s ++ [EvPost (onDeck_ m)] else trace s))
    else if head =? 0 then (Done tt, mkState w3 [] (trace s))
    else finishUnlock ASSERT fuel (mkState w3 [] (trace s)).
Proof.
  intros Hf Ho Hown. cbn zeta. unfold unlock.
  rewrite run_assert_owner by (rewrite (afterEnv_nil s Ho); exact Hown).
  replace (if ASSERT then afterEnv s else s) with s
    by (destruct ASSERT; [rewrite (afterEnv_nil s Ho)|]; reflexivity).
  rewrite run_getMonitor.
  set (count := wrap32 (lockCount_ (mon (world s)) - 1)).
  set (w1 := if recursive_ (mon (world s)) then set_lockCount count (world s) else world s).
  assert (Hrel : forall s1 : State,
    oracle s1 = [] -> trace s1 = trace s -> world s1 = w1 ->
    (setOwner 0 ;;;
     ptr <- load_contendersList ;;
     loop fuel (fun ptr =>
       r <- cas_weak_contendersList ptr (Z.land ptr (Z.lnot kLockBit)) ;;
       if fst r then break tt else continue (snd r)) ptr ;;;
     onDeck <- load_onDeck ;;
     if negb (onDeck =? 0) then
       if Z.land onDeck kLockBit =? 0 then Semaphore_post onDeck else ret tt
     else
       head <- load_contendersList ;;
       if (head =? 0) || negb (Z.land head kLockBit =? 0) then ret tt
       else finishUnlock ASSERT fuel) s1 =
    let head := Z.land (contendersList_ (mon (world s))) (Z.lnot kLockBit) in
    let w3 := set_contendersList head (set_owner 0 w1) in
    if negb (onDeck_ (mon (world s)) =? 0) then
      (Done tt,
       mkState w3 []
         (if Z.land (onDeck_ (mon (world s))) kLockBit =? 0
          then trace s ++ [EvPost (onDeck_ (mon (world s)))] else trace s))
    else if head =? 0 then (Done tt, mkState w3 [] (trace s))
    else finishUnlock ASSERT fuel (mkState w3 [] (trace s))).
  { intros s1 Ho1 Ht1 Hw1. destruct fuel as [|fuel']; [lia|]. cbn zeta.
    assert (Hc1 : contendersList_ (mon w1) = contendersList_ (mon (world s)))
      by (unfold w1; destruct (recursive_ (mon (world s))); reflexivity).
    assert (Hd1 : onDeck_ (mon w1) = onDeck_ (mon (world s)))
      by (unfold w1; destruct (recursive_ (mon (world s))); reflexivity).
    rewrite run_setOwner, run_load_contendersList.
    set (s2 := withWorld (set_owner 0) s1).
    rewrite (afterEnv_nil s2 Ho1).
    change (contendersList_ (mon (world s2))) with (contendersList_ (mon (world s1))).
    rewrite run_bind_loop_S, run_bind_bind, run_cas_weak_contendersList.
    rewrite (afterEnv_nil s2 Ho1), (spuriousNow_quiet s2 Ho1).
    change (contendersList_ (mon (world s2))) with (contendersList_ (mon (world s1))).
    rewrite Z.eqb_refl. cbn [andb negb fst].
    rewrite run_break, run_ret, run_load_onDeck.
    set (s3 := withWorld _ s2). rewrite (afterEnv_nil s3 Ho1).
    change (onDeck_ (mon (world s3))) with (onDeck_ (mon (world s1))).
    rewrite Hw1, Hd1.
    assert (Hs3 : s3 = mkState (set_contendersList
                                  (Z.land (contendersList_ (mon (world s))) (Z.lnot kLockBit))
                                  (set_owner 0 w1)) [] (trace s)).
    { unfold s3, s2, withWorld. cbn [world oracle trace].
      rewrite Ho1, Ht1, Hw1, Hc1. reflexivity. }
    destruct (negb (onDeck_ (mon (world s)) =? 0)) eqn:Hd.
    - destruct (Z.land (onDeck_ (mon (world s))) kLockBit =? 0).
      + unfold Semaphore_post, emit. rewrite Hs3. reflexivity.
      + unfold ret. rewrite Hs3. reflexivity.
    - rewrite run_load_contendersList, (afterEnv_nil s3 Ho1).
      rewrite Hs3. cbn [world mon contendersList_ set_contendersList].
      destruct (Z.land (contendersList_ (mon (world s))) (Z.lnot kLockBit) =? 0) eqn:Hz;
        [reflexivity|].
      cbn [orb]. rewrite land_lnot_kLockBit_unlocked. reflexivity. }
  destruct (recursive_ (mon (world s))) eqn:Hrec.
  - rewrite run_bind_bind, run_write_lockCount, run_ret. fold count.
    cbn [andb].
    destruct (count >? 0).
    + unfold ret, withWorld. rewrite Ho. reflexivity.
    + apply Hrel; [exact Ho|reflexivity|reflexivity].
  - rewrite run_ret. cbn [andb]. apply Hrel; [exact Ho|reflexivity|reflexivity].
Qed.

(** X5.  The last [unlock] of an owner, with nobody interfering, when there is
    an on-deck thread or no contender.  The owner is cleared, then the LOCK
    bit; the contenders, [onDeck_], the waiters and the nodes are left as
    they are.  A recursive monitor ends at lock count 0, and a monitor that
    is not recursive never has its lock count touched.  The on-deck
    semaphore is posted if there is one and it is not marked, and nothing
    else is logged.  Only the assertion looks at the caller. *)
Theorem unlock_fast_path (fuel : nat) (thread : Thread) (s : State) :
  (1 <= fuel)%nat -> oracle s = [] ->
  (ASSERT = true -> owns thread (world s)) ->
  let m := mon (world s) in
  (recursive_ m = true -> wrap32 (lockCount_ m - 1) = 0) ->
  onDeck_ m <> 0 \/ Z.land (contendersList_ m) (Z.lnot kLockBit) = 0 ->
  exists s',
    unlock ASSERT fuel thread s = (Done tt, s') /\
    contendersList_ (mon (world s')) = Z.land (contendersList_ m) (Z.lnot kLockBit) /\
    lockBit (contendersList_ (mon (world s'))) = false /\
    owner_ (mon (world s')) = 0 /\
    onDeck_ (mon (world s')) = onDeck_ m /\
    waitersList_ (mon (world s')) = waitersList_ m /\
    lockCount_ (mon (world s')) = (if recursive_ m then 0 else lockCount_ m) /\
    nodes (world s') = nodes (world s) /\
    trace s' = trace s ++
      (if negb (onDeck_ m =? 0) && (Z.land (onDeck_ m) kLockBit =? 0)
       then [EvPost (onDeck_ m)] else []).
Proof.
  intros Hf Ho Hown m Hlast Hcase. subst m.
  rewrite (unlock_quiet fuel thread s Hf Ho Hown). cbn zeta.
  assert (Hfields : forall t,
    let s' := mkState
      (set_contendersList (Z.land (contendersList_ (mon (world s))) (Z.lnot kLockBit))
         (set_owner 0
            (if recursive_ (mon (world s))
             then set_lockCount (wrap32 (lockCount_ (mon (world s)) - 1)) (world s)
             else world s))) [] t in
    contendersList_ (mon (world s')) =
      Z.land (contendersList_ (mon (world s))) (Z.lnot kLockBit) /\
    lockBit (contendersList_ (mon (world s'))) = false /\
    owner_ (mon (world s')) = 0 /\
    onDeck_ (mon (world s')) = onDeck_ (mon (world s)) /\
    waitersList_ (mon (world s')) = waitersList_ (mon (world s)) /\
    lockCount_ (mon (world s')) =
      (if recursive_ (mon (world s)) then 0 else lockCount_ (mon (world s))) /\
    nodes (world s') = nodes (world s)).
  { intros t. cbn zeta. cbn [world mon contendersList_ owner_ set_contendersList set_owner].
    split; [reflexivity|]. split; [apply lockBit_land_lnot|]. split; [reflexivity|].
    destruct (recursive_ (mon (world s))) eqn:Hrec; cbn.
    - rewrite (Hlast eq_refl). repeat split.
    - repeat split. }
  destruct (recursive_ (mon (world s)) && (wrap32 (lockCount_ (mon (world s)) - 1) >? 0))
    eqn:Hheld.
  { apply andb_true_iff in Hheld. destruct Hheld as [Hrec Hpos].
    rewrite (Hlast Hrec) in Hpos. discriminate. }
  destruct (negb (onDeck_ (mon (world s)) =? 0)) eqn:Hd; cbn [andb].
  - eexists. split; [reflexivity|].
    destruct (Z.land (onDeck_ (mon (world s))) kLockBit =? 0);
      rewrite ?app_nil_r;
      repeat (split; [apply Hfields|]); reflexivity.
  - apply negb_false_iff, Z.eqb_eq in Hd.
    destruct Hcase as [Hcase|Hcase]; [contradiction|].
    rewrite Hcase. cbn [Z.eqb]. eexists. split; [reflexivity|].
    rewrite app_nil_r.
    specialize (Hfields (trace s)). cbn zeta in Hfields. rewrite Hcase in Hfields.
    repeat (split; [apply Hfields|]); reflexivity.
Qed.

(** X6.  The last [unlock] of an owner, with nobody interfering, no on-deck
    thread and a contender queued: [finishUnlock] pops the head of the
    contenders (the lock word becomes the node's successor), puts its
    semaphore on deck and posts it, once.  A build with assertions also
    clears the link of the popped node. *)
Theorem unlock_hands_off (fuel : nat) (thread : Thread) (s : State) :
  (1 <= fuel)%nat -> oracle s = [] ->
  (ASSERT = true -> owns thread (world s)) ->
  let m := mon (world s) in
  let head := Z.land (contendersList_ m) (Z.lnot kLockBit) in
  let sem := item_ (node_at (world s) head) in
  (recursive_ m = true -> wrap32 (lockCount_ m - 1) = 0) ->
  onDeck_ m = 0 -> head <> 0 -> sem <> 0 ->
  exists s',
    unlock ASSERT fuel thread s = (Done tt, s') /\
    contendersList_ (mon (world s')) = next_ (node_at (world s) head) /\
    onDeck_ (mon (world s')) = sem /\
    owner_ (mon (world s')) = 0 /\
    waitersList_ (mon (world s')) = waitersList_ m /\
    node_at (world s') head =
      (if ASSERT then mkNode 0 sem else node_at (world s) head) /\
    (forall p, p <> head -> node_at (world s') p = node_at (world s) p) /\
    trace s' = trace s ++ [EvPost sem].
Proof.
  intros Hf Ho Hown m head sem Hlast Hd Hhead Hsem. subst m head sem.
  rewrite (unlock_quiet fuel thread s Hf Ho Hown). cbn zeta.
  destruct (recursive_ (mon (world s)) && (wrap32 (lockCount_ (mon (world s)) - 1) >? 0))
    eqn:Hheld.
  { apply andb_true_iff in Hheld. destruct Hheld as [Hrec Hpos].
    rewrite (Hlast Hrec) in Hpos. discriminate. }
  rewrite Hd. cbn [Z.eqb negb].
  apply Z.eqb_neq in Hhead. rewrite Hhead. apply Z.eqb_neq in Hhead.
  set (head := Z.land (contendersList_ (mon (world s))) (Z.lnot kLockBit)) in *.
  set (w1 := if recursive_ (mon (world s)) then _ else _).
  assert (Hn1 : nodes w1 = nodes (world s))
    by (unfold w1; destruct (recursive_ (mon (world s))); reflexivity).
  assert (Hw1 : waitersList_ (mon w1) = waitersList_ (mon (world s)))
    by (unfold w1; destruct (recursive_ (mon (world s))); reflexivity).
  assert (Hd1 : onDeck_ (mon w1) = 0)
    by (unfold w1; destruct (recursive_ (mon (world s))); exact Hd).
  set (s3 := mkState (set_contendersList head (set_owner 0 w1)) [] (trace s)).
  assert (Hat : forall p, node_at (world s3) p = node_at (world s) p).
  { intros p. unfold node_at, s3. cbn [world nodes set_contendersList set_owner].
    rewrite Hn1. reflexivity. }
  pose proof (finishUnlock_pop fuel s3 Hf eq_refl Hd1) as Hpop.
  cbn zeta in Hpop.
  change (contendersList_ (mon (world s3))) with head in Hpop.
  rewrite Hat in Hpop. rewrite Hpop.
  - eexists. split; [reflexivity|].
    cbn [world mon trace s3 contendersList_ onDeck_ owner_ waitersList_ set_onDeck].
    assert (Hall :
      forall f : World -> World,
        f = set_node head (mkNode 0 (item_ (node_at (world s) head))) \/ f = (fun w => w) ->
        owner_ (mon (f (set_contendersList (next_ (node_at (world s) head))
                          (set_contendersList head (set_owner 0 w1))))) = 0 /\
        waitersList_ (mon (f (set_contendersList (next_ (node_at (world s) head))
                          (set_contendersList head (set_owner 0 w1))))) =
          waitersList_ (mon (world s)) /\
        contendersList_ (mon (f (set_contendersList (next_ (node_at (world s) head))
                          (set_contendersList head (set_owner 0 w1))))) =
          next_ (node_at (world s) head)).
    { intros f [-> | ->]; cbn; rewrite Hw1; auto. }
    destruct ASSERT.
    + destruct (Hall _ (or_introl eq_refl)) as (H1 & H2 & H3).
      split; [exact H3|]. split; [reflexivity|]. split; [exact H1|].
      split; [exact H2|]. split.
      * unfold node_at. cbn. rewrite lookup_total_insert_eq. reflexivity.
      * split; [|reflexivity]. intros p Hp. unfold node_at. cbn.
        rewrite lookup_total_insert_ne by congruence. rewrite Hn1. reflexivity.
    + destruct (Hall _ (or_intror eq_refl)) as (H1 & H2 & H3).
      split; [exact H3|]. split; [reflexivity|]. split; [exact H1|].
      split; [exact H2|]. split.
      * unfold node_at. cbn. rewrite Hn1. reflexivity.
      * split; [|reflexivity]. intros p Hp. unfold node_at. cbn.
        rewrite Hn1. reflexivity.
  - exact Hhead.
  - apply lockBit_land_lnot.
  - exact Hsem.
Qed.

(** X7.  [finishUnlock] with nothing to do.  If [onDeck_] is taken (by an
    on-deck thread or by the microlock of another [finishUnlock]) it returns
    at once and writes nothing.  If it gets the microlock and finds no
    contender, or the monitor locked again, it releases the microlock and
    returns: nobody is popped and nothing is posted. *)
Theorem finishUnlock_nothing_to_do (fuel : nat) (s : State) :
  (1 <= fuel)%nat ->
  (onDeck_ (mon (world (afterEnv s))) <> 0 ->
     finishUnlock ASSERT fuel s = (Done tt, afterEnv s)) /\
  (oracle s = [] ->
   onDeck_ (mon (world s)) = 0 ->
   contendersList_ (mon (world s)) = 0 \/
     lockBit (contendersList_ (mon (world s))) = true ->
   finishUnlock ASSERT fuel s = (Done tt, withWorld (set_onDeck 0) s)).
Proof.
  intros Hf. destruct fuel as [|fuel]; [lia|]. unfold finishUnlock. split.
  - intros Hd. rewrite run_loop_S, run_bind_bind, run_cas_strong_onDeck.
    apply Z.eqb_neq in Hd. rewrite Hd. reflexivity.
  - intros Ho Hd Hc.
    rewrite run_loop_S, run_bind_bind, run_cas_strong_onDeck.
    rewrite (afterEnv_nil s Ho), Hd. cbn [Z.eqb fst negb].
    rewrite run_bind_bind, run_load_contendersList.
    set (s1 := withWorld _ s). rewrite (afterEnv_nil s1 Ho).
    change (contendersList_ (mon (world s1))) with (contendersList_ (mon (world s))).
    rewrite run_bind_bind, run_bind_loop_S.
    assert (Hinner : forall (C : Type) (k : Z + Z -> M C),
      bind (if contendersList_ (mon (world s)) =? 0
            then break (contendersList_ (mon (world s)))
            else if negb (Z.land (contendersList_ (mon (world s))) kLockBit =? 0)
                 then break 0
                 else
                   n <- next (contendersList_ (mon (world s))) ;;
                   r <- cas_weak_contendersList (contendersList_ (mon (world s))) n ;;
                   if fst r
                   then (if ASSERT then setNext (contendersList_ (mon (world s))) 0
                         else ret tt) ;;; break (contendersList_ (mon (world s)))
                   else continue (snd r)) k s1 = k (inr 0) s1).
    { intros C k. destruct Hc as [Hc|Hc].
      - rewrite Hc. reflexivity.
      - destruct (contendersList_ (mon (world s)) =? 0) eqn:Hz.
        + apply Z.eqb_eq in Hz. rewrite Hz. reflexivity.
        + unfold lockBit in Hc. rewrite Hc. reflexivity. }
    rewrite Hinner, run_ret. cbn [Z.eqb negb].
    rewrite run_bind_bind, run_ret, run_bind_bind, run_store_onDeck, (afterEnv_nil s1 Ho).
    cbn [Z.eqb negb].
    rewrite run_bind_bind, run_load_contendersList.
    set (s2 := withWorld _ s1). rewrite (afterEnv_nil s2 Ho).
    change (contendersList_ (mon (world s2))) with (contendersList_ (mon (world s))).
    assert (Hb : (contendersList_ (mon (world s)) =? 0) ||
                 negb (Z.land (contendersList_ (mon (world s))) kLockBit =? 0) = true).
    { destruct Hc as [Hc|Hc]; [rewrite Hc; reflexivity|].
      unfold lockBit in Hc. rewrite Hc. apply orb_true_r. }
    rewrite Hb, run_break. reflexivity.
Qed.

(** *** A monitor that is held *)

Lemma tryLock_held (thread : Thread) (s : State) :
  self thread <> 0 -> heldAgainst thread (world (afterEnv s)) ->
  tryLock ASSERT thread s = (Done false, afterEnv s).
Proof.
  intros Hth [Hl Hno]. rewrite tryLock_unfold. apply Z.eqb_neq in Hth.
  rewrite Hth, andb_false_r. cbn zeta. rewrite Hl.
  destruct (recursive_ (mon (world (afterEnv s)))) eqn:Hr; [|reflexivity].
  destruct (self thread =? owner_ (mon (world (afterEnv s)))) eqn:Ho; [|reflexivity].
  apply Z.eqb_eq in Ho. exfalso. apply Hno. auto.
Qed.

Lemma drop_tail {A} (n : nat) (l : list A) : drop n (tail l) = drop (S n) l.
Proof. destruct l; [destruct n; reflexivity|reflexivity]. Qed.

Lemma noInterference_drop (n : nat) (o : list Interference) :
  noInterference o -> noInterference (drop n o).
Proof. apply Forall_drop. Qed.

Lemma trySpinLock_for_held (thread : Thread) (n : nat) (s : State) :
  lockBit (contendersList_ (mon (world s))) = true ->
  noInterference (oracle s) ->
  trySpinLock_for ASSERT thread n s =
    (Done false, mkState (world s) (drop n (oracle s)) (trace s ++ spinLog n)).
Proof.
  revert s. induction n as [|n IH]; intros s Hl Hq.
  - cbn. rewrite app_nil_r, drop_0, state_eta. reflexivity.
  - cbn [trySpinLock_for spinLog].
    set (e := if Z.of_nat (S n) >=? kMaxSpinIter - kMaxReadSpinIter
              then EvSpinPause else EvYield).
    set (sh := mkState (world s) (oracle s) (trace s ++ [e])).
    assert (Hrun : forall k : unit -> M bool,
      bind (if Z.of_nat (S n) >=? kMaxSpinIter - kMaxReadSpinIter
            then Os_spinPause else Thread_yield) k s = k tt sh).
    { intros k. unfold sh, e, Os_spinPause, Thread_yield.
      destruct (Z.of_nat (S n) >=? _); apply run_emit. }
    rewrite Hrun, run_isLocked.
    assert (Hqh : noInterference (oracle sh)) by exact Hq.
    rewrite (afterEnv_quiet sh Hqh). cbn [world sh oracle trace].
    rewrite Hl. cbn [negb].
    rewrite IH; [|exact Hl|apply noInterference_tail, Hq].
    cbn [world oracle trace]. rewrite drop_tail, <- app_assoc. reflexivity.
Qed.

(** X8.  [trySpinLock] on a monitor that stays held by somebody else, the other
    threads doing nothing: it reads the lock word 56 times and returns
    [false], having issued 51 spin pauses followed by 4 yields and written
    nothing. *)
Theorem trySpinLock_held (thread : Thread) (s : State) :
  self thread <> 0 ->
  heldAgainst thread (world s) ->
  noInterference (oracle s) ->
  trySpinLock ASSERT thread s =
    (Done false,
     mkState (world s) (drop 56 (oracle s))
       (trace s ++ repeat EvSpinPause 51 ++ repeat EvYield 4)).
Proof.
  intros Hth Hheld Hq. unfold trySpinLock.
  pose proof (afterEnv_quiet s Hq) as He.
  rewrite (bind_Done _ _ _ _ _ (tryLock_held thread s Hth
             ltac:(rewrite He; exact Hheld))).
  rewrite He. rewrite trySpinLock_for_held.
  - cbn [world oracle trace]. rewrite drop_tail. reflexivity.
  - exact (proj1 Hheld).
  - apply noInterference_tail, Hq.
Qed.

Section Blocked.

Variable thread : Thread.
Hypothesis thread_not_null : self thread <> 0.

Lemma envClosed_isHeldAgainst : envClosed (isHeldAgainst thread).
Proof.
  intros s [Hh Hr]. unfold isHeldAgainst, afterEnv.
  destruct (oracle s) as [|i o] eqn:E.
  - split; [exact Hh|]. first [assumption | rewrite E; assumption].
  - cbn. split; [exact (Forall_inv Hr _ Hh)|exact (Forall_inv_tail Hr)].
Qed.

Lemma logFree_isHeldAgainst : logFree (isHeldAgainst thread).
Proof. intros s t H. exact H. Qed.

Lemma isHeldAgainst_nodes (f : World -> World) (s : State) :
  (forall w, mon (f w) = mon w) ->
  isHeldAgainst thread s -> isHeldAgainst thread (withWorld f s).
Proof.
  intros Hf [[Hl Hno] Hr]. split; [|exact Hr]. unfold heldAgainst, withWorld.
  cbn [world]. rewrite Hf. split; assumption.
Qed.

Lemma tryLock_refused :
  hoare (isHeldAgainst thread) (tryLock ASSERT thread)
        (fun b s => isHeldAgainst thread s /\ b = false).
Proof.
  intros s HP. pose proof (envClosed_isHeldAgainst s HP) as HP1.
  rewrite (tryLock_held thread s thread_not_null (proj1 HP1)).
  split; [exact HP1|reflexivity].
Qed.

Lemma trySpinLock_for_refused (n : nat) :
  hoare (isHeldAgainst thread) (trySpinLock_for ASSERT thread n)
        (fun b s => isHeldAgainst thread s /\ b = false).
Proof.
  induction n as [|n IH]; [apply hoare_ret; auto|]. cbn [trySpinLock_for].
  eapply hoare_bind with (Q := fun _ s => isHeldAgainst thread s).
  { apply hoare_if; intro; apply hoare_emit, logFree_isHeldAgainst. }
  intro. eapply hoare_bind; [apply hoare_isLocked, envClosed_isHeldAgainst|].
  intros b. apply hoare_drop. destruct (negb b); [apply tryLock_refused|exact IH].
Qed.

Lemma trySpinLock_refused :
  hoare (isHeldAgainst thread) (trySpinLock ASSERT thread)
        (fun b s => isHeldAgainst thread s /\ b = false).
Proof.
  unfold trySpinLock. eapply hoare_bind; [apply tryLock_refused|].
  intros b. apply hoare_pure. intros ->. apply trySpinLock_for_refused.
Qed.

Lemma hoare_false {A} (m : M A) (Q : A -> State -> Prop) : hoare (fun _ => False) m Q.
Proof. intros s []. Qed.

Lemma finishLock_blocked (fuel : nat) (newHead : Z) :
  hoare (isHeldAgainst thread) (finishLock ASSERT fuel thread newHead)
        (fun _ _ => False).
Proof.
  pose proof envClosed_isHeldAgainst as P_env.
  pose proof logFree_isHeldAgainst as P_log.
  unfold finishLock, Semaphore_reset.
  eapply hoare_bind; [apply hoare_assert_pure|]. intro.
  eapply hoare_bind; [apply trySpinLock_refused|]. intros b.
  apply hoare_pure. intros ->.
  eapply hoare_bind; [apply hoare_emit, P_log|]. intro.
  eapply hoare_bind with (Q := fun _ s => isHeldAgainst thread s).
  { apply hoare_setItem. intros s HP. now apply isHeldAgainst_nodes. }
  intro.
  eapply hoare_bind; [apply hoare_load_contendersList, P_env|].
  intros head. apply hoare_drop.
  eapply hoare_bind with (Q := fun b s => isHeldAgainst thread s /\ b = false).
  { apply (hoare_loop (fun _ s => isHeldAgainst thread s)
             (fun b s => isHeldAgainst thread s /\ b = false)).
    intros head'. destruct (Z.land head' kLockBit =? 0) eqn:Hb.
    - eapply hoare_bind; [apply tryLock_refused|].
      intros b. apply hoare_pure. intros ->. apply hoare_continue. auto.
    - eapply hoare_bind with (Q := fun _ s => isHeldAgainst thread s).
      { apply hoare_setNext; [apply P_env|]. intros s HP.
        now apply isHeldAgainst_nodes. }
      intro.
      eapply hoare_bind with
        (Q := fun _ s => isHeldAgainst thread s).
      { apply hoare_cas_weak_contendersList; [apply P_env| |auto].
        intros s [[Hl Hno] Hr] Hc. split; [|exact Hr]. split.
        - apply lockBit_lor.
        - exact Hno. }
      intros r. destruct (fst r); [apply hoare_break; auto|].
      eapply hoare_bind; [apply hoare_emit, P_log|].
      intro. apply hoare_continue. auto. }
  intros acquired. apply hoare_pure. intros ->.
  eapply hoare_bind with (Q := fun _ s => isHeldAgainst thread s).
  { apply (hoare_loop (fun _ s => isHeldAgainst thread s)
             (fun _ s => isHeldAgainst thread s)).
    intros spinCount.
    eapply hoare_bind; [apply hoare_load_onDeck, P_env|]. intros d.
    destruct (negb _); [|apply hoare_break; auto].
    eapply hoare_bind.
    { apply hoare_backOff; [apply P_log|apply hoare_emit, P_log]. }
    intro. apply hoare_continue. auto. }
  intro.
  eapply hoare_bind with (Q := fun _ _ => False); [|intro; apply hoare_false].
  apply (hoare_loop (fun _ s => isHeldAgainst thread s) (fun _ _ => False)).
  intros spinCount.
  eapply hoare_bind with (Q := fun _ s => isHeldAgainst thread s).
  { apply hoare_assert; [|auto].
    eapply hoare_bind; [apply hoare_load_onDeck, P_env|].
    intros d. apply hoare_ret. auto. }
  intro. eapply hoare_bind; [apply tryLock_refused|].
  intros b. apply hoare_pure. intros ->.
  eapply hoare_bind.
  { apply hoare_backOff; [apply P_log|apply hoare_emit, P_log]. }
  intro. apply hoare_continue. auto.
Qed.

(** X9.  Mutual exclusion.  While the monitor stays held against a thread (held
    by another thread, or held at all if the monitor is not recursive),
    whatever else the other threads do, a [lock] by that thread does not
    return, however long it runs. *)
Theorem lock_blocks_while_held (fuel : nat) (newHead : Z) (s : State) :
  heldAgainst thread (world s) ->
  Forall (keepsHeldAgainst thread) (oracle s) ->
  fst (lock ASSERT fuel thread newHead s) <> Done tt.
Proof.
  intros Hh Hr.
  assert (HP : isHeldAgainst thread s) by (split; assumption).
  - assert (Hlock : hoare (isHeldAgainst thread) (lock ASSERT fuel thread newHead)
                      (fun _ _ => False)).
    { unfold lock. eapply hoare_bind; [apply tryLock_refused|].
      intros b. apply hoare_pure. intros ->. apply finishLock_blocked. }
    specialize (Hlock s HP).
    destruct (lock ASSERT fuel thread newHead s) as [[[]| |] s']; cbn in *;
      [contradiction|discriminate..].
Qed.

End Blocked.

(** *** A thread that parks *)

Lemma run_backOff {B} (sleepM : M unit) (sleep : event) (spinCount : Z)
    (k : unit -> M B) (s : State) :
  (forall s0, sleepM s0 = (Done tt, mkState (world s0) (oracle s0) (trace s0 ++ [sleep]))) ->
  bind (backOff spinCount sleepM) k s =
  k tt (mkState (world s) (oracle s) (trace s ++ [backOffEvent sleep spinCount])).
Proof.
  intros Hs. unfold backOff, backOffEvent, Os_spinPause, Thread_yield.
  destruct (spinCount <? kMaxReadSpinIter); [apply run_emit|].
  destruct (spinCount <? kMaxSpinIter); [apply run_emit|].
  apply bind_Done, Hs.
Qed.

Lemma bind_OutOfFuel {A B} (m : M A) (k : A -> M B) (s s' : State) :
  m s = (OutOfFuel, s') -> bind m k s = (OutOfFuel, s').
Proof. intros H. unfold bind. rewrite H. reflexivity. Qed.

Lemma wrapInt32_succ (x : Z) : wrapInt32 (wrapInt32 x + 1) = wrapInt32 (x + 1).
Proof.
  unfold wrapInt32. f_equal.
  replace ((x + 2 ^ 31) mod 2 ^ 32 - 2 ^ 31 + 1 + 2 ^ 31)
    with ((x + 2 ^ 31) mod 2 ^ 32 + 1) by lia.
  rewrite Zplus_mod_idemp_l. f_equal. lia.
Qed.

Lemma wrapInt32_small (x : Z) : - 2 ^ 31 <= x < 2 ^ 31 -> wrapInt32 x = x.
Proof. intros H. unfold wrapInt32. rewrite Z.mod_small; lia. Qed.

(** The sleep loop of [finishLock] and of [wait], with nobody around and
    the thread not on deck: round after round it backs off. *)
Lemma park_loop (sem : Z) (sleepM : M unit) (sleep : event) (fuel : nat) :
  (forall s0, sleepM s0 = (Done tt, mkState (world s0) (oracle s0) (trace s0 ++ [sleep]))) ->
  forall (k0 : nat) (s : State),
  oracle s = [] ->
  Z.land (onDeck_ (mon (world s))) (Z.lnot kLockBit) <> sem ->
  loop fuel
    (fun spinCount =>
       d <- load_onDeck ;;
       if negb (Z.land d (Z.lnot kLockBit) =? sem) then
         backOff spinCount sleepM ;;; continue (wrapInt32 (spinCount + 1))
       else break tt) (wrapInt32 (Z.of_nat k0)) s =
  (@OutOfFuel unit,
   mkState (world s) []
     (trace s ++
      map (fun k => backOffEvent sleep (wrapInt32 (Z.of_nat k))) (seq k0 fuel))).
Proof.
  intros Hs. induction fuel as [|fuel IH]; intros k0 s Ho Hd.
  - cbn. unfold out_of_fuel. rewrite app_nil_r, <- Ho, state_eta. reflexivity.
  - rewrite run_loop_S, run_bind_bind, run_load_onDeck, (afterEnv_nil s Ho).
    apply Z.eqb_neq in Hd. rewrite Hd. cbn [negb].
    rewrite run_bind_bind, (run_backOff sleepM sleep) by exact Hs.
    rewrite run_continue. rewrite wrapInt32_succ.
    replace (Z.of_nat k0 + 1) with (Z.of_nat (S k0)) by lia.
    rewrite IH; [|exact Ho|apply Z.eqb_neq; exact Hd].
    cbn [world trace seq map]. rewrite <- app_assoc. reflexivity.
Qed.

(** The log of a sleep loop before its counter overflows. *)
Lemma parkLog_sleeps (sleep : event) (start n : nat) :
  (55 <= start)%nat -> Z.of_nat (start + n) <= 2 ^ 31 ->
  map (fun k => backOffEvent sleep (wrapInt32 (Z.of_nat k))) (seq start n) =
  repeat sleep n.
Proof.
  revert start. induction n as [|n IH]; intros start Hs Hb; [reflexivity|].
  cbn [seq map repeat]. rewrite wrapInt32_small by lia. f_equal.
  - unfold backOffEvent, kMaxReadSpinIter, kMaxSpinIter.
    destruct (Z.ltb_spec (Z.of_nat start) 50); [lia|].
    destruct (Z.ltb_spec (Z.of_nat start) 55); [lia|]. reflexivity.
  - apply IH; lia.
Qed.

Lemma parkLog_start (sleep : event) (n : nat) :
  (n <= 56)%nat ->
  parkLog sleep n = firstn n (repeat EvSpinPause 50 ++ repeat EvYield 5 ++ [sleep]).
Proof.
  intros Hn. unfold parkLog.
  do 57 (destruct n as [|n]; [reflexivity|]). lia.
Qed.

Lemma parkLog_small (sleep : event) (n : nat) :
  Z.of_nat n <= 2 ^ 31 ->
  parkLog sleep n =
  firstn n (repeat EvSpinPause 50 ++ repeat EvYield 5) ++ repeat sleep (n - 55).
Proof.
  intros Hb. destruct (le_lt_dec n 55) as [Hn|Hn].
  - rewrite parkLog_start by lia.
    replace (n - 55)%nat with O by lia. rewrite app_nil_r.
    rewrite app_assoc, firstn_app.
    replace (n - length (repeat EvSpinPause 50 ++ repeat EvYield 5))%nat with O
      by (rewrite length_app, !repeat_length; lia).
    rewrite app_nil_r. reflexivity.
  - unfold parkLog. replace n with (55 + (n - 55))%nat at 1 by lia.
    rewrite seq_app, map_app. f_equal.
    + rewrite firstn_all2 by (rewrite length_app, !repeat_length; lia). reflexivity.
    + apply parkLog_sleeps; [cbn; lia|cbn [Nat.add]; lia].
Qed.

(** X10.  A thread calls [lock] on a monitor held against it, with nobody else
    around (and without being on deck already).  It spins (51 pauses, 4
    yields), resets its lock semaphore and pushes its node on the
    contenders: the new lock word is [node | LOCK], the node links to the
    previous head and carries the lock semaphore.  Then it parks: in the
    sleep loop it backs off by 50 pauses and 5 yields, and in the 56th
    round it calls [wait] on its lock semaphore.  (What follows that call
    depends on the semaphore, which is not part of these files.) *)
Theorem lock_parks (fuel : nat) (thread : Thread) (newHead : Z) (s : State) :
  (1 <= fuel <= 56)%nat ->
  self thread <> 0 ->
  oracle s = [] ->
  heldAgainst thread (world s) ->
  Z.land (onDeck_ (mon (world s))) (Z.lnot kLockBit) <> lockSemaphore thread ->
  let sem := lockSemaphore thread in
  let head := Z.land (contendersList_ (mon (world s))) (Z.lnot kLockBit) in
  lock ASSERT fuel thread newHead s =
    (OutOfFuel,
     mkState
       (set_contendersList (Z.lor newHead kLockBit)
          (set_node newHead (mkNode head sem) (world s)))
       []
       (trace s ++ repeat EvSpinPause 51 ++ repeat EvYield 4 ++ [EvReset sem] ++
        firstn fuel (repeat EvSpinPause 50 ++ repeat EvYield 5 ++ [EvWait sem]))).
Proof.
  intros Hf Hth Ho Hheld Hd. cbn zeta.
  rewrite <- (parkLog_start (EvWait (lockSemaphore thread)) fuel) by lia.
  unfold parkLog.
  assert (Hq : noInterference (oracle s)) by (rewrite Ho; constructor).
  unfold lock.
  rewrite (bind_Done _ _ _ _ _ (tryLock_held thread s Hth
             ltac:(rewrite (afterEnv_nil s Ho); exact Hheld))).
  rewrite (afterEnv_nil s Ho). cbn [negb]. unfold finishLock.
  rewrite (run_assert _ _ s s)
    by (apply Z.eqb_neq in Hth; rewrite Hth; reflexivity).
  replace (if ASSERT then s else s) with s by (destruct ASSERT; reflexivity).
  rewrite (bind_Done _ _ _ _ _ (trySpinLock_held thread s Hth Hheld Hq)).
  rewrite Ho. cbn [drop].
  unfold Semaphore_reset. rewrite run_emit, run_setItem, run_load_contendersList.
  cbn [world oracle trace].
  match goal with |- context [afterEnv ?x] => set (s1 := x) end.
  assert (Ho1 : oracle s1 = []) by reflexivity.
  rewrite (afterEnv_nil s1 Ho1).
  change (contendersList_ (mon (world s1))) with (contendersList_ (mon (world s))).
  destruct fuel as [|fuel']; [lia|].
  rewrite run_bind_loop_S.
  destruct Hheld as [Hl Hno].
  assert (Hz : (Z.land (contendersList_ (mon (world s))) kLockBit =? 0) = false).
  { unfold lockBit in Hl. now apply negb_true_iff in Hl. }
  rewrite Hz. rewrite !run_bind_bind, run_setNext, (afterEnv_nil s1 Ho1).
  rewrite run_bind_bind, run_cas_weak_contendersList.
  match goal with |- context [afterEnv ?x] => set (s2 := x) end.
  assert (Ho2 : oracle s2 = []) by reflexivity.
  rewrite (afterEnv_nil s2 Ho2), (spuriousNow_quiet s2 Ho2).
  change (contendersList_ (mon (world s2))) with (contendersList_ (mon (world s))).
  rewrite Z.eqb_refl. cbn [andb negb fst].
  rewrite run_break, run_ret.
  match goal with |- bind _ _ ?x = _ => set (s3 := x) end.
  rewrite (bind_OutOfFuel _ _ s3 _
             (park_loop (lockSemaphore thread) (Semaphore_wait (lockSemaphore thread))
                (EvWait (lockSemaphore thread)) (S fuel') (fun _ => eq_refl) O s3
                eq_refl Hd)).
  f_equal. f_equal.
  - unfold s3, s2, s1, withWorld. cbn [world].
    rewrite node_at_set_node_eq, set_node_set_node. reflexivity.
  - unfold s3, s2, s1, withWorld. cbn [trace]. rewrite <- !app_assoc. reflexivity.
Qed.

(** X11.  The owner calls [wait], with nobody else around, no contender and no
    on-deck thread.  It resets its suspend semaphore, links its node in
    front of the waiters and releases the monitor entirely, whatever the
    depth it held it at: the LOCK bit and the owner are cleared.  As nobody
    notifies it, it does not return: however many rounds it is given, it is
    still in the first sleep loop.  The back-off of a round is chosen by the
    [int32_t] counter of the loop: 50 pauses, 5 yields, and then timed waits
    of 10 ms on its suspend semaphore up to round 2^31, where the counter
    overflows. *)
Theorem wait_parks (fuel : nat) (thread : Thread) (newHead : Z) (s : State) :
  (1 <= fuel)%nat ->
  oracle s = [] ->
  owns thread (world s) ->
  onDeck_ (mon (world s)) = 0 ->
  Z.land (contendersList_ (mon (world s))) (Z.lnot kLockBit) = 0 ->
  suspendSemaphore thread <> 0 ->
  let m := mon (world s) in
  let suspend := suspendSemaphore thread in
  wait ASSERT fuel thread newHead s =
    (OutOfFuel,
     mkState
       (set_contendersList 0
          (set_owner 0
             (set_lockCount (if recursive_ m then 0 else 1)
                (set_waitersList newHead
                   (set_node newHead (mkNode (waitersList_ m) suspend) (world s))))))
       []
       (trace s ++ [EvReset suspend] ++ parkLog (EvTimedWait suspend 10) fuel)) /\
  (Z.of_nat fuel <= 2 ^ 31 ->
   parkLog (EvTimedWait suspend 10) fuel =
   firstn fuel (repeat EvSpinPause 50 ++ repeat EvYield 5) ++
   repeat (EvTimedWait suspend 10) (fuel - 55)).
Proof.
  intros Hf Ho Hown Hd Hc Hsus. cbn zeta. split; [|apply parkLog_small].
  unfold parkLog, wait.
  rewrite run_assert_owner by (rewrite (afterEnv_nil s Ho); auto).
  replace (if ASSERT then afterEnv s else s) with s
    by (destruct ASSERT; [rewrite (afterEnv_nil s Ho)|]; reflexivity).
  unfold wait_enqueue, Semaphore_reset.
  rewrite !run_bind_bind, run_emit.
  rewrite !run_bind_bind, run_setItem.
  rewrite !run_bind_bind, run_getMonitor.
  rewrite !run_bind_bind, run_setNext.
  match goal with |- context [afterEnv ?x] => set (s1 := x) end.
  assert (Ho1 : oracle s1 = []) by exact Ho.
  rewrite (afterEnv_nil s1 Ho1).
  rewrite !run_bind_bind, run_write_waitersList.
  rewrite !run_bind_bind, run_getMonitor.
  rewrite !run_bind_bind, run_write_lockCount, run_ret.
  match goal with |- bind _ _ ?x = _ => set (s2 := x) end.
  assert (Ho2 : oracle s2 = []) by exact Ho.
  assert (Hown2 : owns thread (world s2)) by exact Hown.
  assert (Hun : unlock ASSERT fuel thread s2 =
    (Done tt,
     mkState
       (set_contendersList 0
          (set_owner 0
             (if recursive_ (mon (world s)) then set_lockCount 0 (world s2)
              else world s2))) [] (trace s2))).
  { rewrite (unlock_quiet fuel thread s2 Hf Ho2 (fun _ => Hown2)). cbn zeta.
    change (recursive_ (mon (world s2))) with (recursive_ (mon (world s))).
    change (lockCount_ (mon (world s2))) with 1.
    change (onDeck_ (mon (world s2))) with (onDeck_ (mon (world s))).
    change (contendersList_ (mon (world s2))) with (contendersList_ (mon (world s))).
    change (wrap32 (1 - 1)) with 0.
    rewrite Hd, Hc, andb_false_r. reflexivity. }
  rewrite (bind_Done _ _ _ _ _ Hun).
  unfold wait_resume.
  match goal with |- bind _ _ ?x = _ => set (s3 := x) end.
  assert (Hd3 : Z.land (onDeck_ (mon (world s3))) (Z.lnot kLockBit)
                <> suspendSemaphore thread).
  { replace (onDeck_ (mon (world s3))) with 0;
      [intros H; apply Hsus; rewrite <- H; reflexivity|].
    unfold s3. cbn [world]. destruct (recursive_ (mon (world s))); symmetry; exact Hd. }
  rewrite (bind_OutOfFuel _ _ s3 _
             (park_loop (suspendSemaphore thread)
                (Semaphore_timedWait (suspendSemaphore thread) 10)
                (EvTimedWait (suspendSemaphore thread) 10) fuel (fun _ => eq_refl) O s3
                eq_refl Hd3)).
  f_equal. f_equal.
  - unfold s3, s2, s1, withWorld. cbn [world].
    rewrite node_at_set_node_eq, set_node_set_node.
    destruct (recursive_ (mon (world s))); reflexivity.
  - unfold s3, s2, s1, withWorld. cbn [trace]. rewrite <- !app_assoc. reflexivity.
Qed.

(** *** When [lock] returns *)

Section Acquired.

Variable thread : Thread.

Lemma envClosed_isRespected : envClosed (isRespected thread).
Proof. intros s H. apply afterEnv_Forall, H. Qed.

Lemma envClosed_isRespectedOwner : envClosed (isRespectedOwner thread).
Proof.
  intros s [Hr Ho]. split; [apply afterEnv_Forall, Hr|].
  exact (proj1 (afterEnv_owns thread s Hr Ho)).
Qed.

Lemma logFree_isRespected : logFree (isRespected thread).
Proof. intros s t H. exact H. Qed.

Lemma tryLock_acquired :
  hoare (isRespected thread) (tryLock ASSERT thread)
        (fun b s => isRespected thread s /\ (b = true -> owns thread (world s))).
Proof. intros s H. apply tryLock_owns, H. Qed.

Lemma trySpinLock_acquired :
  hoare (isRespected thread) (trySpinLock ASSERT thread)
        (fun b s => isRespected thread s /\ (b = true -> owns thread (world s))).
Proof. intros s H. apply trySpinLock_owns, H. Qed.

Lemma finishLock_acquired (fuel : nat) (newHead : Z) :
  hoare (isRespected thread) (finishLock ASSERT fuel thread newHead)
        (fun _ s => isRespectedOwner thread s).
Proof.
  pose proof envClosed_isRespected as P_env.
  pose proof logFree_isRespected as P_log.
  unfold finishLock, Semaphore_reset.
  eapply hoare_bind; [apply hoare_assert_pure|]. intro.
  eapply hoare_bind; [apply trySpinLock_acquired|]. intros b.
  destruct b.
  { apply hoare_ret. intros s [Hr Ho]. split; auto. }
  apply hoare_drop.
  eapply hoare_bind; [apply hoare_emit, P_log|]. intro.
  eapply hoare_bind with (Q := fun _ s => isRespected thread s).
  { apply hoare_setItem. intros s HP. exact HP. }
  intro.
  eapply hoare_bind; [apply hoare_load_contendersList, P_env|].
  intros head. apply hoare_drop.
  eapply hoare_bind with
    (Q := fun b s => isRespected thread s /\ (b = true -> owns thread (world s))).
  { apply (hoare_loop (fun _ s => isRespected thread s)
             (fun b s => isRespected thread s /\ (b = true -> owns thread (world s)))).
    intros head'. destruct (Z.land head' kLockBit =? 0) eqn:Hb.
    - eapply hoare_bind; [apply tryLock_acquired|].
      intros [|]; [apply hoare_break; auto|apply hoare_continue].
      intros s [Hr _]. exact Hr.
    - eapply hoare_bind with (Q := fun _ s => isRespected thread s).
      { apply hoare_setNext; [apply P_env|]. intros s HP. exact HP. }
      intro.
      eapply hoare_bind with (Q := fun _ s => isRespected thread s).
      { apply hoare_cas_weak_contendersList; [apply P_env| |auto].
        intros s HP _. exact HP. }
      intros r. destruct (fst r).
      + apply hoare_break. intros s HP. split; [exact HP|discriminate].
      + eapply hoare_bind; [apply hoare_emit, P_log|].
        intro. apply hoare_continue. auto. }
  intros acquired. destruct acquired.
  { apply hoare_ret. intros s [Hr Ho]. split; auto. }
  apply hoare_drop.
  eapply hoare_bind with (Q := fun _ s => isRespected thread s).
  { apply (hoare_loop (fun _ s => isRespected thread s)
             (fun _ s => isRespected thread s)).
    intros spinCount.
    eapply hoare_bind; [apply hoare_load_onDeck, P_env|]. intros d.
    destruct (negb _); [|apply hoare_break; auto].
    eapply hoare_bind.
    { apply hoare_backOff; [apply P_log|apply hoare_emit, P_log]. }
    intro. apply hoare_continue. auto. }
  intro.
  eapply hoare_bind with (Q := fun _ s => isRespectedOwner thread s).
  { apply (hoare_loop (fun _ s => isRespected thread s)
             (fun _ s => isRespectedOwner thread s)).
    intros spinCount.
    eapply hoare_bind with (Q := fun _ s => isRespected thread s).
    { apply hoare_assert; [|auto].
      eapply hoare_bind; [apply hoare_load_onDeck, P_env|].
      intros d. apply hoare_ret. auto. }
    intro. eapply hoare_bind; [apply tryLock_acquired|].
    intros [|].
    - apply hoare_break. intros s [Hr Ho]. split; auto.
    - apply hoare_drop. eapply hoare_bind.
      { apply hoare_backOff; [apply P_log|apply hoare_emit, P_log]. }
      intro. apply hoare_continue. auto. }
  intro.
  eapply hoare_bind with (Q := fun _ s => isRespectedOwner thread s).
  { apply hoare_assert; [|auto].
    eapply hoare_bind; [apply hoare_next, envClosed_isRespectedOwner|].
    intros n. apply hoare_ret. intros s [H _] _. exact H. }
  intro. apply hoare_store_onDeck; [apply envClosed_isRespectedOwner|].
  intros s HP. exact HP.
Qed.

(** X12.  When [lock] returns, the caller holds the monitor: [isLocked] and
    [owner] say so, as long as the other threads respect its ownership
    (whatever they did while the call was running). *)
Theorem lock_returns_owner (fuel : nat) (newHead : Z) (s : State) :
  Forall (respectsOwner thread) (oracle s) ->
  post ((lock ASSERT fuel thread newHead ;;;
         l <- isLocked ;; o <- owner ;; ret (l, o)) s)
       (fun r s' => r = (true, self thread) /\ owns thread (world s')).
Proof.
  intros Hr.
  assert (Hlock : hoare (isRespected thread) (lock ASSERT fuel thread newHead)
                    (fun _ s => isRespectedOwner thread s)).
  { unfold lock. eapply hoare_bind; [apply tryLock_acquired|].
    intros [|]; cbn [negb].
    - apply hoare_ret. intros s0 [H Ho]. split; auto.
    - apply hoare_drop, finishLock_acquired. }
  apply post_bind. eapply post_conseq; [exact (Hlock s Hr)|].
  cbn beta. intros _ s1 HO.
  rewrite run_isLocked. unfold owner.
  rewrite run_bind_bind, run_getMonitor, run_ret. unfold ret, post.
  destruct (envClosed_isRespectedOwner s1 HO) as [_ [Hl Ho]].
  rewrite Hl, Ho. split; [reflexivity|]. split; assumption.
Qed.

End Acquired.

(** *** What [lock] and [wait] log *)

Lemma logsOnly_silent {A} (allowed : event -> bool) (m : M A) :
  silent m -> logsOnly allowed m.
Proof.
  intros H s r s' Hr. exists []. rewrite app_nil_r. split; [eauto|reflexivity].
Qed.

Lemma logsOnly_emit (allowed : event -> bool) (e : event) :
  allowed e = true -> logsOnly allowed (emit e).
Proof.
  intros He s r s' Hr. inversion Hr; subst. exists [e]. cbn. rewrite He. auto.
Qed.

Lemma logsOnly_bind {A B} (allowed : event -> bool) (m : M A) (k : A -> M B) :
  logsOnly allowed m -> (forall a, logsOnly allowed (k a)) -> logsOnly allowed (bind m k).
Proof.
  intros Hm Hk s r s' H.
  destruct (bind_inv _ _ _ _ _ H) as [(a & s1 & Hb & Hr) | [[Hb _] | [Hb _]]].
  - destruct (Hm _ _ _ Hb) as (t1 & Ht1 & Ha1).
    destruct (Hk _ _ _ _ Hr) as (t2 & Ht2 & Ha2).
    exists (t1 ++ t2). rewrite Ht2, Ht1, <- app_assoc. split; [reflexivity|].
    rewrite forallb_app, Ha1, Ha2. reflexivity.
  - eauto.
  - eauto.
Qed.

Lemma logsOnly_if {A} (allowed : event -> bool) (b : bool) (m1 m2 : M A) :
  logsOnly allowed m1 -> logsOnly allowed m2 -> logsOnly allowed (if b then m1 else m2).
Proof. destruct b; auto. Qed.

Lemma logsOnly_loop {A B} (allowed : event -> bool) (fuel : nat)
    (body : A -> M (A + B)) (a : A) :
  (forall a, logsOnly allowed (body a)) -> logsOnly allowed (loop fuel body a).
Proof.
  intros Hb s r s' H.
  refine (loop_inv
            (fun _ s1 => exists tail, trace s1 = trace s ++ tail /\
                                      forallb allowed tail = true)
            (fun _ s1 => exists tail, trace s1 = trace s ++ tail /\
                                      forallb allowed tail = true)
            body _ _ fuel a s r s' _ H).
  - intros a0 s0 r0 s0' (t0 & Ht0 & Ha0) Hrun.
    destruct (Hb _ _ _ _ Hrun) as (t1 & Ht1 & Ha1).
    assert (Hx : exists tail, trace s0' = trace s ++ tail /\ forallb allowed tail = true).
    { exists (t0 ++ t1). rewrite Ht1, Ht0, <- app_assoc. split; [reflexivity|].
      rewrite forallb_app, Ha0, Ha1. reflexivity. }
    destruct r0 as [[?|?]| |]; exact Hx.
  - auto.
  - exists []. rewrite app_nil_r. auto.
Qed.

Lemma logsOnly_backOff (allowed : event -> bool) (spinCount : Z) (sleep : M unit) :
  allowed EvSpinPause = true -> allowed EvYield = true ->
  logsOnly allowed sleep -> logsOnly allowed (backOff spinCount sleep).
Proof.
  intros Hp Hy Hs. unfold backOff, Os_spinPause, Thread_yield.
  destruct (spinCount <? kMaxReadSpinIter); [now apply logsOnly_emit|].
  destruct (spinCount <? kMaxSpinIter); [now apply logsOnly_emit|exact Hs].
Qed.

Lemma logsOnly_trySpinLock (allowed : event -> bool) (thread : Thread) :
  allowed EvSpinPause = true -> allowed EvYield = true ->
  logsOnly allowed (trySpinLock ASSERT thread).
Proof.
  intros Hp Hy.
  assert (Hfor : forall n, logsOnly allowed (trySpinLock_for ASSERT thread n)).
  { induction n as [|n IH]; [apply logsOnly_silent, silent_ret|].
    cbn [trySpinLock_for]. apply logsOnly_bind.
    - unfold Os_spinPause, Thread_yield. apply logsOnly_if; now apply logsOnly_emit.
    - intros _. apply logsOnly_bind; [apply logsOnly_silent, silent_isLocked|].
      intros b. apply logsOnly_if; [apply logsOnly_silent, silent_tryLock|exact IH]. }
  unfold trySpinLock. apply logsOnly_bind; [apply logsOnly_silent, silent_tryLock|].
  intros b. apply logsOnly_if; [apply logsOnly_silent, silent_ret|apply Hfor].
Qed.

(** X13.  Whatever the state, the other threads and the outcome, [lock] logs
    nothing but spin pauses, yields, the reset of the caller's lock
    semaphore and waits on it: it posts no semaphore and touches no
    semaphore of another thread. *)
Theorem lock_log (fuel : nat) (thread : Thread) (newHead : Z) :
  logsOnly (lockEvent thread) (lock ASSERT fuel thread newHead).
Proof.
  assert (Hsem : lockEvent thread (EvWait (lockSemaphore thread)) = true)
    by apply Z.eqb_refl.
  assert (Hback : forall c, logsOnly (lockEvent thread)
                    (backOff c (Semaphore_wait (lockSemaphore thread)))).
  { intros c. apply logsOnly_backOff; [reflexivity..|]. now apply logsOnly_emit. }
  unfold lock. apply logsOnly_bind; [apply logsOnly_silent, silent_tryLock|].
  intros b. apply logsOnly_if; [|apply logsOnly_silent, silent_ret].
  unfold finishLock.
  apply logsOnly_bind; [apply logsOnly_silent, silent_assert; silent_tac|]. intros _.
  apply logsOnly_bind; [now apply logsOnly_trySpinLock|]. intros b'.
  apply logsOnly_if; [apply logsOnly_silent, silent_ret|].
  apply logsOnly_bind; [apply logsOnly_emit, Z.eqb_refl|]. intros _.
  apply logsOnly_bind; [apply logsOnly_silent, silent_setItem|]. intros _.
  apply logsOnly_bind; [apply logsOnly_silent, silent_load_contendersList|]. intros head.
  apply logsOnly_bind.
  { apply logsOnly_loop. intros head'. apply logsOnly_if.
    - apply logsOnly_silent. apply silent_bind; [apply silent_tryLock|]. silent_tac.
    - apply logsOnly_bind; [apply logsOnly_silent, silent_setNext|]. intros _.
      apply logsOnly_bind; [apply logsOnly_silent, silent_cas_weak_contendersList|].
      intros r. apply logsOnly_if; [apply logsOnly_silent, silent_break|].
      apply logsOnly_bind; [now apply logsOnly_emit|].
      intros _. apply logsOnly_silent, silent_continue. }
  intros acquired. apply logsOnly_if; [apply logsOnly_silent, silent_ret|].
  apply logsOnly_bind.
  { apply logsOnly_loop. intros c.
    apply logsOnly_bind; [apply logsOnly_silent, silent_load_onDeck|]. intros d.
    apply logsOnly_if; [|apply logsOnly_silent, silent_break].
    apply logsOnly_bind; [apply Hback|]. intros _.
    apply logsOnly_silent, silent_continue. }
  intros _. apply logsOnly_bind.
  { apply logsOnly_loop. intros c.
    apply logsOnly_bind; [apply logsOnly_silent, silent_assert; silent_tac|]. intros _.
    apply logsOnly_bind; [apply logsOnly_silent, silent_tryLock|]. intros b''.
    apply logsOnly_if; [apply logsOnly_silent, silent_break|].
    apply logsOnly_bind; [apply Hback|]. intros _.
    apply logsOnly_silent, silent_continue. }
  intros _.
  apply logsOnly_bind; [apply logsOnly_silent, silent_assert; silent_tac|]. intros _.
  apply logsOnly_silent, silent_store_onDeck.
Qed.

Lemma wait_enqueue_log (thread : Thread) (newHead : Z) (s s1 : State) (r : outcome Z) :
  wait_enqueue thread newHead s = (r, s1) ->
  trace s1 = trace s ++ [EvReset (suspendSemaphore thread)].
Proof.
  unfold wait_enqueue, Semaphore_reset. rewrite run_emit. intros H.
  assert (Hs : silent
            (setItem newHead (suspendSemaphore thread) ;;;
             m <- getMonitor ;;
             setNext newHead (waitersList_ m) ;;;
             write_waitersList newHead ;;;
             m0 <- getMonitor ;; write_lockCount 1 ;;; ret (lockCount_ m0)))
    by (unfold write_waitersList, write_lockCount; silent_tac).
  exact (Hs _ _ _ H).
Qed.

Lemma logsOnly_wait_resume (fuel : nat) (thread : Thread) (saved : Z) :
  logsOnly (sleepEvent thread) (wait_resume ASSERT fuel thread saved).
Proof.
  unfold wait_resume.
  apply logsOnly_bind.
  { apply logsOnly_loop. intros c.
    apply logsOnly_bind; [apply logsOnly_silent, silent_load_onDeck|]. intros d.
    apply logsOnly_if; [|apply logsOnly_silent, silent_break].
    apply logsOnly_bind.
    - apply logsOnly_backOff; [reflexivity..|]. apply logsOnly_emit.
      cbn. rewrite Z.eqb_refl. reflexivity.
    - intros _. apply logsOnly_silent, silent_continue. }
  intros _. apply logsOnly_bind.
  { apply logsOnly_loop. intros c.
    apply logsOnly_bind; [apply logsOnly_silent, silent_assert; silent_tac|]. intros _.
    apply logsOnly_bind; [apply logsOnly_trySpinLock; reflexivity|]. intros b.
    apply logsOnly_if; [apply logsOnly_silent, silent_break|].
    apply logsOnly_bind.
    - apply logsOnly_backOff; [reflexivity..|]. apply logsOnly_emit, Z.eqb_refl.
    - intros _. apply logsOnly_silent, silent_continue. }
  intros _. apply logsOnly_silent. unfold write_lockCount. silent_tac.
Qed.

(** X14.  Whatever the state, the other threads and the outcome, the log of
    [wait] is in this order: nothing at all when the assertion of the entry
    fails; otherwise first the reset of the caller's suspend semaphore, then
    at most one post of a semaphore (by its [unlock]), and after that only
    hints, timed waits of 10 ms and waits on the caller's suspend
    semaphore: no reset and no post follow the [unlock]. *)
Theorem wait_log (fuel : nat) (thread : Thread) (newHead : Z) (s : State) :
  (fst (wait ASSERT fuel thread newHead s) = AssertFailed /\
   trace (snd (wait ASSERT fuel thread newHead s)) = trace s) \/
  exists mid rest : list event,
    trace (snd (wait ASSERT fuel thread newHead s)) =
      trace s ++ [EvReset (suspendSemaphore thread)] ++ mid ++ rest /\
    (mid = [] \/ exists sem, mid = [EvPost sem]) /\
    forallb (sleepEvent thread) rest = true.
Proof.
  destruct (wait ASSERT fuel thread newHead s) as [r s'] eqn:H. cbn [fst snd].
  assert (Hsa : silent (assert ASSERT
            (l <- isLocked ;; m <- getMonitor ;;
             ret (l && (owner_ m =? self thread)))))
    by (apply silent_assert; silent_tac).
  assert (Hfuel : forall s0, assert ASSERT
            (l <- isLocked ;; m <- getMonitor ;;
             ret (l && (owner_ m =? self thread))) s <> (OutOfFuel, s0)).
  { intros s0. unfold assert. destruct ASSERT; [|discriminate].
    rewrite run_bind_bind, run_isLocked, run_bind_bind, run_getMonitor, run_ret.
    destruct (_ && _); discriminate. }
  unfold wait in H.
  destruct (bind_inv _ _ _ _ _ H) as [(u & s0 & Ha & H0) | [[Ha Hr] | [Ha _]]];
    pose proof (Hsa _ _ _ Ha) as Ht0.
  2:{ left. auto. }
  2:{ destruct (Hfuel _ Ha). }
  clear H. right.
  destruct (bind_inv _ _ _ _ _ H0) as [(lc & s1 & He & H1) | [[He Hr] | [He Hr]]];
    pose proof (wait_enqueue_log _ _ _ _ _ He) as Hpre.
  2,3: exists [], []; rewrite Hpre, Ht0; auto.
  clear H0.
  assert (Hmid : forall s2 r2, unlock ASSERT fuel thread s1 = (r2, s2) ->
            exists mid, trace s2 = trace s1 ++ mid /\
                        (mid = [] \/ exists sem, mid = [EvPost sem])).
  { intros s2 r2 Hu.
    destruct (unlock_postsAtMostOnce fuel thread _ _ _ Hu) as [Ht | [sem Ht]].
    - exists []. rewrite app_nil_r. auto.
    - exists [EvPost sem]. split; [exact Ht|]. right. exists sem. reflexivity. }
  destruct (bind_inv _ _ _ _ _ H1) as [(u2 & s2 & Hu & H2) | [[Hu Hr] | [Hu Hr]]];
    destruct (Hmid _ _ Hu) as (mid & Hmid' & Hcase).
  2,3: exists mid, []; rewrite app_nil_r, Hmid', Hpre, Ht0, <- app_assoc; auto.
  destruct (logsOnly_wait_resume fuel thread lc _ _ _ H2) as (rest & Hrest & Horest).
  exists mid, rest. rewrite Hrest, Hmid', Hpre, Ht0, <- !app_assoc.
  split; [reflexivity|]. split; [exact Hcase|exact Horest].
Qed.

(** *** Scoped locks *)

Lemma lock_free_quiet (fuel : nat) (thread : Thread) (newHead : Z) (s : State) :
  self thread <> 0 -> oracle s = [] ->
  lockBit (contendersList_ (mon (world s))) = false ->
  lock ASSERT fuel thread newHead s =
    (Done tt,
     withWorld (fun w => set_lockCount 1 (set_owner (self thread)
                  (set_contendersList (Z.lor (contendersList_ (mon (world s))) kLockBit) w)))
       s).
Proof.
  intros Hth Ho Hl. unfold lock, bind. rewrite tryLock_unfold.
  apply Z.eqb_neq in Hth. rewrite Hth, andb_false_r. cbn zeta.
  rewrite !(afterEnv_nil s Ho), Hl, (spuriousNow_quiet s Ho), Z.eqb_refl.
  reflexivity.
Qed.

(** X15.  A [ScopedLock] on a free monitor with no contender and no on-deck
    thread, nobody interfering: the constructor takes the monitor for the
    caller at depth 1 and the destructor releases it, logging nothing; in the
    end only [lockCount_] tells that the monitor was used (0 if it is
    recursive, 1 if not).  A [ScopedLock] on a null pointer does nothing at
    all. *)
Theorem ScopedLock_scope (fuel : nat) (thread : Thread) (newHead : Z) (s : State) :
  (1 <= fuel)%nat ->
  self thread <> 0 ->
  oracle s = [] ->
  contendersList_ (mon (world s)) = 0 ->
  onDeck_ (mon (world s)) = 0 ->
  (exists s1 s2,
     ScopedLock_ref ASSERT fuel thread newHead s = (Done (mkScopedLock ThisMonitor), s1) /\
     owns thread (world s1) /\
     lockCount_ (mon (world s1)) = 1 /\
     ScopedLock_delete ASSERT fuel thread (mkScopedLock ThisMonitor) s1 = (Done tt, s2) /\
     world s2 =
       set_owner 0
         (set_lockCount (if recursive_ (mon (world s)) then 0 else 1) (world s)) /\
     oracle s2 = [] /\ trace s2 = trace s) /\
  (g <- ScopedLock_ptr ASSERT fuel thread newHead NullMonitor ;;
   ScopedLock_delete ASSERT fuel thread g) s = (Done tt, s).
Proof.
  intros Hf Hth Ho Hc Hd. split; [|reflexivity].
  assert (Hl : lockBit (contendersList_ (mon (world s))) = false)
    by (rewrite Hc; reflexivity).
  unfold ScopedLock_ref, ScopedLock_delete. cbn [lock_].
  rewrite (bind_Done _ _ _ _ _ (lock_free_quiet fuel thread newHead s Hth Ho Hl)).
  set (s1 := withWorld _ s).
  assert (Hown1 : owns thread (world s1)).
  { split; [apply lockBit_lor|reflexivity]. }
  exists s1. eexists. split; [reflexivity|]. split; [exact Hown1|].
  split; [reflexivity|].
  rewrite (unlock_quiet fuel thread s1 Hf Ho (fun _ => Hown1)). cbn zeta.
  change (recursive_ (mon (world s1))) with (recursive_ (mon (world s))).
  change (lockCount_ (mon (world s1))) with 1.
  change (onDeck_ (mon (world s1))) with (onDeck_ (mon (world s))).
  change (contendersList_ (mon (world s1)))
    with (Z.lor (contendersList_ (mon (world s))) kLockBit).
  change (wrap32 (1 - 1)) with 0.
  rewrite Hd, Hc, andb_false_r. cbn [Z.eqb negb Z.lor Z.land].
  split; [reflexivity|]. cbn [world oracle trace].
  split; [|split; reflexivity].
  unfold s1, withWorld, set_owner, set_lockCount, set_contendersList.
  cbn [world mon nodes contendersList_ onDeck_ waitersList_ owner_ lockCount_ recursive_].
  rewrite Hc. destruct (recursive_ (mon (world s))); reflexivity.
Qed.

(** X16.  A [ScopedLock] inside a region where the caller already holds a
    recursive monitor, at any depth a [uint32_t] can hold: the constructor
    goes one level deeper, the destructor comes back, and the state is
    exactly as before. *)
Theorem ScopedLock_nested (fuel : nat) (thread : Thread) (newHead : Z) (s : State) :
  (1 <= fuel)%nat ->
  self thread <> 0 ->
  oracle s = [] ->
  owns thread (world s) ->
  recursive_ (mon (world s)) = true ->
  1 <= lockCount_ (mon (world s)) < 2 ^ 32 ->
  exists s1,
    ScopedLock_ref ASSERT fuel thread newHead s = (Done (mkScopedLock ThisMonitor), s1) /\
    owns thread (world s1) /\
    lockCount_ (mon (world s1)) = wrap32 (lockCount_ (mon (world s)) + 1) /\
    ScopedLock_delete ASSERT fuel thread (mkScopedLock ThisMonitor) s1 = (Done tt, s).
Proof.
  intros Hf Hth Ho [Hl Hown] Hrec Hn.
  set (s1 := withWorld (set_lockCount (wrap32 (lockCount_ (mon (world s)) + 1))) s).
  assert (Hlock : lock ASSERT fuel thread newHead s = (Done tt, s1)).
  { unfold lock, bind. rewrite tryLock_unfold.
    apply Z.eqb_neq in Hth. rewrite Hth, andb_false_r. cbn zeta.
    rewrite (afterEnv_nil s Ho), Hl, Hrec, Hown, Z.eqb_refl. reflexivity. }
  unfold ScopedLock_ref, ScopedLock_delete. cbn [lock_].
  rewrite (bind_Done _ _ _ _ _ Hlock).
  assert (Hown1 : owns thread (world s1)) by (split; assumption).
  exists s1. split; [reflexivity|]. split; [exact Hown1|]. split; [reflexivity|].
  rewrite (unlock_quiet fuel thread s1 Hf Ho (fun _ => Hown1)). cbn zeta.
  change (recursive_ (mon (world s1))) with (recursive_ (mon (world s))).
  change (lockCount_ (mon (world s1))) with (wrap32 (lockCount_ (mon (world s)) + 1)).
  rewrite Hrec. cbn [andb].
  assert (Hback : wrap32 (wrap32 (lockCount_ (mon (world s)) + 1) - 1) =
                  lockCount_ (mon (world s))).
  { unfold wrap32. rewrite Zminus_mod_idemp_l.
    replace (lockCount_ (mon (world s)) + 1 - 1) with (lockCount_ (mon (world s))) by lia.
    apply Z.mod_small. lia. }
  rewrite Hback.
  replace (lockCount_ (mon (world s)) >? 0) with true by (symmetry; apply Z.gtb_lt; lia).
  f_equal. unfold s1, withWorld. cbn [world trace].
  destruct s as [[[c d wl o n r] h] orc tr]. cbn in *. subst. reflexivity.
Qed.

(** *** A free monitor *)

(** [tryLock] on a free monitor, the other threads doing nothing: it takes
    the monitor unless its compare-and-swap fails spuriously. *)
Lemma tryLock_free_quiet (thread : Thread) (s : State) :
  self thread <> 0 ->
  lockBit (contendersList_ (mon (world s))) = false ->
  noInterference (oracle s) ->
  tryLock ASSERT thread s =
    if spuriousNow (afterEnv s)
    then (Done false, mkState (world s) (tail (tail (oracle s))) (trace s))
    else (Done true,
          mkState
            (set_lockCount 1 (set_owner (self thread)
               (set_contendersList (Z.lor (contendersList_ (mon (world s))) kLockBit)
                  (world s))))
            (tail (tail (oracle s))) (trace s)).
Proof.
  intros Hth Hl Hq. rewrite tryLock_unfold.
  apply Z.eqb_neq in Hth. rewrite Hth, andb_false_r. cbn zeta.
  pose proof (afterEnv_quiet s Hq) as He. rewrite He. cbn [world].
  rewrite Hl.
  set (s1 := mkState (world s) (tail (oracle s)) (trace s)).
  assert (Hq1 : noInterference (oracle s1)) by (apply noInterference_tail, Hq).
  rewrite (afterEnv_quiet s1 Hq1). cbn [world s1 oracle trace].
  rewrite Z.eqb_refl. cbn [andb].
  destruct (spuriousNow _); reflexivity.
Qed.

Lemma tryLock_free_cases (thread : Thread) (s : State) :
  self thread <> 0 ->
  lockBit (contendersList_ (mon (world s))) = false ->
  noInterference (oracle s) ->
  (exists o',
     tryLock ASSERT thread s =
       (Done true,
        mkState
          (set_lockCount 1 (set_owner (self thread)
             (set_contendersList (Z.lor (contendersList_ (mon (world s))) kLockBit)
                (world s))))
          o' (trace s))) \/
  (exists o',
     tryLock ASSERT thread s = (Done false, mkState (world s) o' (trace s)) /\
     noInterference o' /\ (2 + length o' <= length (oracle s))%nat).
Proof.
  intros Hth Hl Hq. rewrite (tryLock_free_quiet thread s Hth Hl Hq).
  destruct (spuriousNow (afterEnv s)) eqn:Hs.
  - right. eexists. split; [reflexivity|].
    split; [apply noInterference_tail, noInterference_tail, Hq|].
    rewrite (afterEnv_quiet s Hq) in Hs. unfold spuriousNow in Hs. cbn [oracle] in Hs.
    destruct (oracle s) as [|i [|j o]]; cbn in *; try discriminate; lia.
  - left. eexists. reflexivity.
Qed.

(** The push loop of [finishLock] on a free monitor: every round tries
    [tryLock]. *)
Lemma finishLock_loop_free (thread : Thread) (newHead : Z) (fuel : nat) (s : State) :
  self thread <> 0 ->
  lockBit (contendersList_ (mon (world s))) = false ->
  noInterference (oracle s) ->
  (length (oracle s) < fuel)%nat ->
  exists o',
    loop fuel
      (fun head =>
         if Z.land head kLockBit =? 0 then
           b <- tryLock ASSERT thread ;;
           if b then break true else continue head
         else
           setNext newHead (Z.land head (Z.lnot kLockBit)) ;;;
           r <- cas_weak_contendersList head (Z.lor newHead kLockBit) ;;
           if fst r then break false
           else Thread_yield ;;; continue (snd r))
      (contendersList_ (mon (world s))) s =
    (Done true,
     mkState
       (set_lockCount 1 (set_owner (self thread)
          (set_contendersList (Z.lor (contendersList_ (mon (world s))) kLockBit)
             (world s))))
       o' (trace s)).
Proof.
  intros Hth. revert s. induction fuel as [|fuel IH]; intros s Hl Hq Hlen; [lia|].
  rewrite run_loop_S.
  assert (Hz : (Z.land (contendersList_ (mon (world s))) kLockBit =? 0) = true).
  { unfold lockBit in Hl. now apply negb_false_iff in Hl. }
  rewrite Hz, run_bind_bind.
  destruct (tryLock_free_cases thread s Hth Hl Hq) as [[o' H] | (o' & H & Hq' & Hlen')];
    rewrite (bind_Done _ _ _ _ _ H).
  - exists o'. reflexivity.
  - rewrite run_continue.
    destruct (IH (mkState (world s) o' (trace s)) Hl Hq' ltac:(cbn; lia)) as [o'' Hrun].
    exists o''. exact Hrun.
Qed.

(** X17.  [lock] on a free monitor, the other threads doing nothing, however
    often the weak compare-and-swap fails spuriously: it returns, and the
    caller holds the monitor at depth 1.  Nothing else of the monitor
    changes, no node but the caller's own is written, and the caller never
    yields nor sleeps: it logs nothing, or one spin pause, or one spin pause
    and the reset of its lock semaphore. *)
Theorem lock_free_acquires (fuel : nat) (thread : Thread) (newHead : Z) (s : State) :
  self thread <> 0 ->
  lockBit (contendersList_ (mon (world s))) = false ->
  noInterference (oracle s) ->
  (length (oracle s) < fuel)%nat ->
  exists s',
    lock ASSERT fuel thread newHead s = (Done tt, s') /\
    owns thread (world s') /\
    lockCount_ (mon (world s')) = 1 /\
    contendersList_ (mon (world s')) = Z.lor (contendersList_ (mon (world s))) kLockBit /\
    onDeck_ (mon (world s')) = onDeck_ (mon (world s)) /\
    waitersList_ (mon (world s')) = waitersList_ (mon (world s)) /\
    (forall p, p <> newHead -> node_at (world s') p = node_at (world s) p) /\
    (trace s' = trace s \/ trace s' = trace s ++ [EvSpinPause] \/
     trace s' = trace s ++ [EvSpinPause; EvReset (lockSemaphore thread)]).
Proof.
  intros Hth Hl Hq Hlen.
  set (acq := fun w : World =>
         set_lockCount 1 (set_owner (self thread)
           (set_contendersList (Z.lor (contendersList_ (mon w)) kLockBit) w))).
  assert (Hacq : forall o t h,
    mon h = mon (world s) ->
    (forall p, p <> newHead -> node_at h p = node_at (world s) p) ->
    let s' := mkState (acq h) o t in
    owns thread (world s') /\
    lockCount_ (mon (world s')) = 1 /\
    contendersList_ (mon (world s')) =
      Z.lor (contendersList_ (mon (world s))) kLockBit /\
    onDeck_ (mon (world s')) = onDeck_ (mon (world s)) /\
    waitersList_ (mon (world s')) = waitersList_ (mon (world s)) /\
    (forall p, p <> newHead -> node_at (world s') p = node_at (world s) p)).
  { intros o t h Hm Hn. unfold acq. cbn [world mon contendersList_ owner_ lockCount_
      onDeck_ waitersList_ set_lockCount set_owner set_contendersList].
    rewrite Hm. split; [split; [apply lockBit_lor|reflexivity]|].
    repeat (split; [reflexivity|]). exact Hn. }
  unfold lock.
  destruct (tryLock_free_cases thread s Hth Hl Hq) as [[o1 H1] | (o1 & H1 & Hq1 & Hlen1)];
    rewrite (bind_Done _ _ _ _ _ H1); cbn [negb].
  { eexists. split; [reflexivity|].
    repeat (split; [apply (Hacq o1 (trace s) (world s) eq_refl (fun _ _ => eq_refl))|]).
    left. reflexivity. }
  set (s1 := mkState (world s) o1 (trace s)).
  unfold finishLock.
  rewrite (run_assert _ _ s1 s1)
    by (apply Z.eqb_neq in Hth; rewrite Hth; reflexivity).
  replace (if ASSERT then s1 else s1) with s1 by (destruct ASSERT; reflexivity).
  unfold trySpinLock. rewrite run_bind_bind.
  destruct (tryLock_free_cases thread s1 Hth Hl Hq1) as [[o2 H2] | (o2 & H2 & Hq2 & Hlen2)];
    rewrite (bind_Done _ _ _ _ _ H2).
  { rewrite run_ret. eexists. split; [reflexivity|].
    repeat (split; [apply (Hacq o2 (trace s) (world s) eq_refl (fun _ _ => eq_refl))|]).
    left. reflexivity. }
  change (Z.to_nat kMaxSpinIter) with (S 54). cbn [trySpinLock_for].
  change (Z.of_nat 55 >=? kMaxSpinIter - kMaxReadSpinIter) with true. cbn iota.
  unfold Os_spinPause. rewrite !run_bind_bind, run_emit.
  rewrite !run_bind_bind, run_isLocked.
  cbn [world s1 oracle trace].
  set (sh := mkState (world s) o2 (trace s ++ [EvSpinPause])).
  rewrite (afterEnv_quiet sh Hq2). cbn [world sh oracle trace]. rewrite Hl. cbn [negb].
  set (s2 := mkState (world s) (tail o2) (trace s ++ [EvSpinPause])).
  assert (Hq2' : noInterference (oracle s2)) by (apply noInterference_tail, Hq2).
  destruct (tryLock_free_cases thread s2 Hth Hl Hq2') as [[o3 H3] | (o3 & H3 & Hq3 & Hlen3)];
    rewrite (bind_Done _ _ _ _ _ H3).
  { eexists. split; [reflexivity|].
    repeat (split; [apply (Hacq o3 (trace s ++ [EvSpinPause]) (world s) eq_refl
                             (fun _ _ => eq_refl))|]).
    right. left. reflexivity. }
  unfold Semaphore_reset. rewrite run_emit, run_setItem, run_load_contendersList.
  cbn [world s2 oracle trace].
  match goal with |- context [afterEnv ?x] => set (s3 := x) end.
  assert (Hq3' : noInterference (oracle s3)) by exact Hq3.
  rewrite (afterEnv_quiet s3 Hq3').
  set (s4 := mkState (world s3) (tail (oracle s3)) (trace s3)).
  assert (Hl4 : lockBit (contendersList_ (mon (world s4))) = false) by exact Hl.
  assert (Hq4 : noInterference (oracle s4)) by (apply noInterference_tail, Hq3).
  assert (Hlen4 : (length (oracle s4) < fuel)%nat).
  { unfold s4, s3, withWorld. cbn [oracle].
    pose proof (length_tail_le o3). pose proof (length_tail_le o2).
    cbn [oracle s2 s1] in *. lia. }
  destruct (finishLock_loop_free thread newHead fuel s4 Hth Hl4 Hq4 Hlen4) as [o5 H5].
  rewrite (bind_Done _ _ _ _ _ H5).
  eexists. split; [reflexivity|].
  assert (Hn4 : forall p, p <> newHead -> node_at (world s4) p = node_at (world s) p).
  { intros p Hp. unfold s4, s3, withWorld. cbn [world].
    apply node_at_set_node_ne. congruence. }
  repeat (split; [apply (Hacq o5 (trace s4) (world s4) eq_refl Hn4)|]).
  right. right. unfold s4, s3, withWorld. cbn [trace]. rewrite <- app_assoc. reflexivity.
Qed.

(** *** More invariants *)


(** X19.  What a thread can rely on from a complete call of another thread, made
    within its contract and run with nobody in between: the call keeps the
    invariant; while the thread holds the monitor the call neither takes it
    away nor touches the lock count; and it does not disturb a release that
    is under way. *)
Theorem calls_respect_the_owner (thread t : Thread) (c : call) (fuel : nat)
    (flags : list bool) (w : World) :
  self t <> self thread -> self t <> 0 ->
  let w' := interfere (callBy ASSERT t c fuel flags) w in
  (good w -> good w') /\
  (owns thread w -> owns thread w' /\ lockCount_ (mon w') = lockCount_ (mon w)) /\
  (releasing w -> releasing w').
Proof.
  intros Hother Hnull. cbn zeta.
  destruct (callBy_wellBehaved thread t Hother Hnull c fuel flags) as [Hg Ho Hr].
  split; [apply Hg|]. split; [apply Ho|apply Hr].
Qed.

(** *** From one owner to the next *)

Lemma aligned_land_id (x : Z) : aligned x -> Z.land x (Z.lnot kLockBit) = x.
Proof.
  intros H. rewrite <- (lor_kLockBit_upper x H) at 1.
  rewrite <- Z.land_assoc, Z.land_diag. now apply lor_kLockBit_upper.
Qed.

Lemma run_bind_loop_pos {A B C} (fuel : nat) (body : A -> M (A + B)) (a : A)
    (k : B -> M C) (s : State) :
  (1 <= fuel)%nat ->
  bind (loop fuel body a) k s =
  bind (body a) (fun r => bind (match r with
                                | inl a' => loop (fuel - 1) body a'
                                | inr b => ret b
                                end) k) s.
Proof.
  intros H. destruct fuel as [|fuel]; [lia|].
  rewrite run_bind_loop_S. cbn [Nat.sub]. rewrite Nat.sub_0_r. reflexivity.
Qed.

Section Release.

Variables (U : Thread) (node sem : Z) (fuel : nat).
Hypothesis U_not_null : self U <> 0.
Hypothesis sem_not_null : sem <> 0.
Hypothesis node_not_null : node <> 0.
Hypothesis node_aligned : aligned node.
Hypothesis fuel_pos : (1 <= fuel)%nat.
Variables (wl cnt : Z) (rec : bool).
Hypothesis last_level : rec = true -> cnt = 1.

(** The complete [unlock] of an owner at its last level: with no contender,
    and with the node [node] (carrying [sem]) as the only contender. *)
Lemma unlock_alone (h : gmap Z LinkedNode) :
  interfere (callBy ASSERT U CallUnlock fuel [])
    (mkWorld (mkMonitor kLockBit 0 wl (self U) cnt rec) h) =
  mkWorld (mkMonitor 0 0 wl 0 (if rec then 0 else cnt) rec) h.
Proof.
  unfold callBy. cbn [interfere map perform].
  assert (Hc : contractb U CallUnlock (mkWorld (mkMonitor kLockBit 0 wl (self U) cnt rec) h)
               = true).
  { unfold contractb, ownsb. cbn. rewrite Z.eqb_refl.
    apply Z.eqb_neq in U_not_null. rewrite U_not_null. reflexivity. }
  rewrite Hc.
  rewrite (unlock_quiet fuel U
             (mkState (mkWorld (mkMonitor kLockBit 0 wl (self U) cnt rec) h) [] [])
             fuel_pos eq_refl (fun _ => conj eq_refl eq_refl)).
  cbn zeta. cbn [world mon contendersList_ onDeck_ recursive_ lockCount_].
  destruct rec.
  - rewrite (last_level eq_refl). reflexivity.
  - reflexivity.
Qed.

Lemma unlock_pushed (h : gmap Z LinkedNode) :
  h !!! node = mkNode 0 (sem) ->
  interfere (callBy ASSERT U CallUnlock fuel [])
    (mkWorld (mkMonitor (Z.lor node kLockBit) 0 wl (self U) cnt rec) h) =
  mkWorld (mkMonitor 0 (sem) wl 0 (if rec then 0 else cnt) rec)
    (if ASSERT then <[node := mkNode 0 (sem)]> h else h).
Proof.
  intros Hnode. unfold callBy. cbn [interfere map perform].
  assert (Hc : contractb U CallUnlock
                 (mkWorld (mkMonitor (Z.lor node kLockBit) 0 wl (self U) cnt rec) h)
               = true).
  { unfold contractb, ownsb. cbn [mon contendersList_ owner_].
    rewrite lockBit_lor, Z.eqb_refl.
    apply Z.eqb_neq in U_not_null. rewrite U_not_null. reflexivity. }
  rewrite Hc.
  rewrite (unlock_quiet fuel U
             (mkState (mkWorld (mkMonitor (Z.lor node kLockBit) 0 wl (self U) cnt rec) h)
                [] [])
             fuel_pos eq_refl (fun _ => conj (lockBit_lor node) eq_refl)).
  cbn zeta. cbn [world mon contendersList_ onDeck_ recursive_ lockCount_].
  rewrite (lor_kLockBit_upper node node_aligned).
  assert (Hheld : rec && (wrap32 (cnt - 1) >? 0) = false).
  { destruct rec; [|reflexivity]. rewrite (last_level eq_refl). reflexivity. }
  rewrite Hheld. cbn [Z.eqb negb].
  apply Z.eqb_neq in node_not_null. rewrite node_not_null.
  apply Z.eqb_neq in node_not_null.
  match goal with |- context [finishUnlock ASSERT fuel ?x] => set (s3 := x) end.
  assert (Hat : node_at (world s3) node = mkNode 0 (sem)).
  { unfold node_at, s3. cbn [world nodes set_contendersList set_owner].
    destruct rec; exact Hnode. }
  pose proof (finishUnlock_pop fuel s3 fuel_pos eq_refl) as Hpop.
  cbn zeta in Hpop.
  assert (Hc3 : contendersList_ (mon (world s3)) = node) by reflexivity.
  rewrite Hc3, Hat in Hpop. cbn [item_ next_] in Hpop.
  rewrite Hpop.
  - unfold s3. cbn [world trace].
    destruct ASSERT, rec; try rewrite (last_level eq_refl); reflexivity.
  - unfold s3. cbn. destruct rec; reflexivity.
  - exact node_not_null.
  - apply lockBit_aligned, node_aligned.
  - exact sem_not_null.
Qed.

End Release.

Section Handoff.

Variables (T U : Thread) (newHead : Z) (fuel : nat).
Hypothesis T_not_null : self T <> 0.
Hypothesis U_not_null : self U <> 0.
Hypothesis T_not_U : self T <> self U.
Hypothesis sem_not_null : lockSemaphore T <> 0.
Hypothesis sem_aligned : aligned (lockSemaphore T).
Hypothesis node_not_null : newHead <> 0.
Hypothesis node_aligned : aligned newHead.
Hypothesis fuel_pos : (1 <= fuel)%nat.
Variables (wl cnt : Z) (rec : bool).
Hypothesis last_level : rec = true -> cnt = 1.

Lemma unlock_by_owner_alone (h : gmap Z LinkedNode) :
  interfere (callBy ASSERT U CallUnlock fuel [])
    (mkWorld (mkMonitor kLockBit 0 wl (self U) cnt rec) h) =
  mkWorld (mkMonitor 0 0 wl 0 (if rec then 0 else cnt) rec) h.
Proof. now apply unlock_alone. Qed.

Lemma unlock_by_owner_pushed (h : gmap Z LinkedNode) :
  h !!! newHead = mkNode 0 (lockSemaphore T) ->
  interfere (callBy ASSERT U CallUnlock fuel [])
    (mkWorld (mkMonitor (Z.lor newHead kLockBit) 0 wl (self U) cnt rec) h) =
  mkWorld (mkMonitor 0 (lockSemaphore T) wl 0 (if rec then 0 else cnt) rec)
    (if ASSERT then <[newHead := mkNode 0 (lockSemaphore T)]> h else h).
Proof. now apply unlock_pushed. Qed.

Lemma afterEnv_unlocksAfter_S (w : World) (k : nat) (t : list event) :
  afterEnv (mkState w (unlocksAfter ASSERT U fuel (S k)) t) =
  mkState w (unlocksAfter ASSERT U fuel k) t.
Proof. reflexivity. Qed.

Lemma afterEnv_unlocksAfter_O (w : World) (t : list event) :
  afterEnv (mkState w (unlocksAfter ASSERT U fuel O) t) =
  mkState (interfere (callBy ASSERT U CallUnlock fuel []) w) [] t.
Proof. reflexivity. Qed.

Lemma spuriousNow_unlocksAfter (w : World) (k : nat) (t : list event) :
  spuriousNow (mkState w (unlocksAfter ASSERT U fuel k) t) = false.
Proof. destruct k; reflexivity. Qed.

(** [tryLock] by [T] on a monitor just released. *)
Lemma tryLock_released (d c' : Z) (h : gmap Z LinkedNode) (t : list event) :
  tryLock ASSERT T (mkState (mkWorld (mkMonitor 0 d wl 0 c' rec) h) [] t) =
  (Done true, mkState (mkWorld (mkMonitor kLockBit d wl (self T) 1 rec) h) [] t).
Proof.
  rewrite (tryLock_free_quiet T
             (mkState (mkWorld (mkMonitor 0 d wl 0 c' rec) h) [] t)
             T_not_null eq_refl ltac:(constructor)).
  reflexivity.
Qed.

(** [tryLock] by [T] while [U] holds the monitor. *)
Lemma tryLock_waiting (c d : Z) (h : gmap Z LinkedNode) (k : nat) (t : list event) :
  lockBit c = true ->
  tryLock ASSERT T
    (mkState (mkWorld (mkMonitor c d wl (self U) cnt rec) h)
       (unlocksAfter ASSERT U fuel (S k)) t) =
  (Done false,
   mkState (mkWorld (mkMonitor c d wl (self U) cnt rec) h)
     (unlocksAfter ASSERT U fuel k) t).
Proof.
  intros Hl. rewrite tryLock_held; [reflexivity|exact T_not_null|].
  rewrite afterEnv_unlocksAfter_S. split; [exact Hl|].
  cbn. intros [_ H]. congruence.
Qed.

(** [tryLock] by [T] when [U] releases the monitor just before. *)
Lemma tryLock_just_released (h : gmap Z LinkedNode) (t : list event) :
  tryLock ASSERT T
    (mkState (mkWorld (mkMonitor kLockBit 0 wl (self U) cnt rec) h)
       (unlocksAfter ASSERT U fuel O) t) =
  (Done true, mkState (mkWorld (mkMonitor kLockBit 0 wl (self T) 1 rec) h) [] t).
Proof.
  rewrite tryLock_unfold. apply Z.eqb_neq in T_not_null.
  rewrite T_not_null, andb_false_r. cbn zeta.
  rewrite afterEnv_unlocksAfter_O, unlock_by_owner_alone. reflexivity.
Qed.

Ltac norm_state :=
  cbv beta iota delta
    [withWorld world oracle trace mon nodes contendersList_ onDeck_ waitersList_
     owner_ lockCount_ recursive_ set_contendersList set_onDeck set_waitersList
     set_owner set_lockCount set_node];
  cbn [fst snd negb andb].

(** The spin loop of [T] while [U] holds the monitor and releases it at the
    [k]-th access from now. *)
Lemma trySpinLock_for_hand (h : gmap Z LinkedNode) (n : nat) :
  forall (k : nat) (t : list event),
  ((k < n)%nat ->
   exists log,
     trySpinLock_for ASSERT T n
       (mkState (mkWorld (mkMonitor kLockBit 0 wl (self U) cnt rec) h)
          (unlocksAfter ASSERT U fuel k) t) =
     (Done true,
      mkState (mkWorld (mkMonitor kLockBit 0 wl (self T) 1 rec) h) [] (t ++ log)) /\
     forallb (hintEvent T) log = true) /\
  ((n <= k)%nat ->
   trySpinLock_for ASSERT T n
     (mkState (mkWorld (mkMonitor kLockBit 0 wl (self U) cnt rec) h)
        (unlocksAfter ASSERT U fuel k) t) =
   (Done false,
    mkState (mkWorld (mkMonitor kLockBit 0 wl (self U) cnt rec) h)
      (unlocksAfter ASSERT U fuel (k - n)) (t ++ spinLog n))).
Proof.
  induction n as [|n IH]; intros k t.
  - split; [lia|]. intros _. cbn. rewrite Nat.sub_0_r, app_nil_r. reflexivity.
  - cbn [trySpinLock_for spinLog].
    set (e := if Z.of_nat (S n) >=? kMaxSpinIter - kMaxReadSpinIter
              then EvSpinPause else EvYield).
    assert (Hrun : forall (k0 : unit -> M bool) (s0 : State),
      bind (if Z.of_nat (S n) >=? kMaxSpinIter - kMaxReadSpinIter
            then Os_spinPause else Thread_yield) k0 s0 =
      k0 tt (mkState (world s0) (oracle s0) (trace s0 ++ [e]))).
    { intros k0 s0. unfold e, Os_spinPause, Thread_yield.
      destruct (Z.of_nat (S n) >=? _); apply run_emit. }
    assert (He : hintEvent T e = true)
      by (unfold e; destruct (Z.of_nat (S n) >=? _); reflexivity).
    rewrite Hrun, run_isLocked. norm_state.
    destruct k as [|k].
    + rewrite afterEnv_unlocksAfter_O, unlock_by_owner_alone. norm_state.
      change (lockBit 0) with false. cbn [negb].
      rewrite tryLock_released. split; [|lia]. intros _. exists [e].
      split; [reflexivity|]. cbn. rewrite He. reflexivity.
    + rewrite afterEnv_unlocksAfter_S. norm_state.
      change (lockBit kLockBit) with true. cbn [negb].
      destruct (IH k (t ++ [e])) as [IH1 IH2]. split.
      * intros Hlt. destruct (IH1 ltac:(lia)) as (log & Hrun' & Hlog).
        exists (e :: log). rewrite Hrun', <- app_assoc.
        split; [reflexivity|]. cbn. rewrite He. exact Hlog.
      * intros Hle. rewrite IH2 by lia. rewrite <- app_assoc. reflexivity.
Qed.

Lemma spinLog_hints (n : nat) : forallb (hintEvent T) (spinLog n) = true.
Proof.
  induction n as [|n IH]; [reflexivity|]. cbn [spinLog forallb]. rewrite IH.
  destruct (Z.of_nat (S n) >=? _); reflexivity.
Qed.

Lemma parkLog_hints (sleep : event) (n : nat) :
  (n <= 55)%nat -> forallb (hintEvent T) (parkLog sleep n) = true.
Proof.
  intros Hn. rewrite parkLog_start by lia.
  do 56 (destruct n as [|n]; [reflexivity|]). lia.
Qed.

(** The sleep loop of [T], its node pushed, until [U] releases the monitor
    and puts [T] on deck: [T] has backed off [j] times when it finds
    itself on deck. *)
Lemma park_hand (h : gmap Z LinkedNode) :
  h !!! newHead = mkNode 0 (lockSemaphore T) ->
  forall (j fuel' k0 : nat) (t : list event),
  (j < fuel')%nat ->
  loop fuel'
    (fun spinCount =>
       d <- load_onDeck ;;
       if negb (Z.land d (Z.lnot kLockBit) =? lockSemaphore T) then
         backOff spinCount (Semaphore_wait (lockSemaphore T)) ;;;
         continue (wrapInt32 (spinCount + 1))
       else break tt) (wrapInt32 (Z.of_nat k0))
    (mkState (mkWorld (mkMonitor (Z.lor newHead kLockBit) 0 wl (self U) cnt rec) h)
       (unlocksAfter ASSERT U fuel j) t) =
  (Done tt,
   mkState
     (mkWorld (mkMonitor 0 (lockSemaphore T) wl 0 (if rec then 0 else cnt) rec)
        (if ASSERT then <[newHead := mkNode 0 (lockSemaphore T)]> h else h))
     []
     (t ++ map (fun k => backOffEvent (EvWait (lockSemaphore T)) (wrapInt32 (Z.of_nat k)))
             (seq k0 j))).
Proof.
  intros Hnode. induction j as [|j IH]; intros fuel' k0 t Hlt;
    (destruct fuel' as [|fuel']; [lia|]);
    rewrite run_loop_S, run_bind_bind, run_load_onDeck.
  - rewrite afterEnv_unlocksAfter_O, (unlock_by_owner_pushed h Hnode). norm_state.
    rewrite (aligned_land_id _ sem_aligned), Z.eqb_refl. cbn [negb].
    rewrite run_break. cbn [seq map]. rewrite app_nil_r. reflexivity.
  - rewrite afterEnv_unlocksAfter_S. norm_state.
    change (Z.land 0 (Z.lnot kLockBit)) with 0.
    assert (Hne : (0 =? lockSemaphore T) = false)
      by (apply Z.eqb_neq; congruence).
    rewrite Hne. cbn [negb].
    rewrite run_bind_bind,
      (run_backOff (Semaphore_wait (lockSemaphore T)) (EvWait (lockSemaphore T)))
      by (intros; reflexivity).
    rewrite run_continue. norm_state. rewrite wrapInt32_succ.
    replace (Z.of_nat k0 + 1) with (Z.of_nat (S k0)) by lia.
    rewrite (IH fuel' (S k0)) by lia.
    cbn [seq map]. rewrite <- app_assoc. reflexivity.
Qed.

(** The end of [finishLock]: [T] is on deck and the monitor is free. *)
Lemma finishLock_on_deck (c' : Z) (h : gmap Z LinkedNode) (t : list event) :
  h !!! newHead = mkNode 0 (lockSemaphore T) ->
  (loop fuel
     (fun spinCount =>
        assert ASSERT
          (d <- load_onDeck ;; ret (Z.land d (Z.lnot kLockBit) =? lockSemaphore T)) ;;;
        b <- tryLock ASSERT T ;;
        if b then break tt
        else
          backOff spinCount (Semaphore_wait (lockSemaphore T)) ;;;
          continue (wrapInt32 (spinCount + 1))) 0 ;;;
   assert ASSERT (n <- next newHead ;; ret (n =? 0)) ;;;
   store_onDeck 0)
    (mkState (mkWorld (mkMonitor 0 (lockSemaphore T) wl 0 c' rec) h) [] t) =
  (Done tt, mkState (mkWorld (mkMonitor kLockBit 0 wl (self T) 1 rec) h) [] t).
Proof.
  intros Hnode.
  rewrite run_bind_loop_pos, run_bind_bind by exact fuel_pos.
  set (s0 := mkState (mkWorld (mkMonitor 0 (lockSemaphore T) wl 0 c' rec) h) [] t).
  rewrite (run_assert _ _ s0 s0).
  2:{ rewrite run_load_onDeck. unfold s0. rewrite afterEnv_nil by reflexivity.
      norm_state. rewrite (aligned_land_id _ sem_aligned), Z.eqb_refl. reflexivity. }
  replace (if ASSERT then s0 else s0) with s0 by (destruct ASSERT; reflexivity).
  unfold s0. rewrite run_bind_bind, (bind_Done _ _ _ _ _ (tryLock_released _ _ _ _)).
  rewrite run_break, run_ret.
  set (s1 := mkState (mkWorld (mkMonitor kLockBit (lockSemaphore T) wl (self T) 1 rec) h)
               [] t).
  rewrite (run_assert _ _ s1 s1).
  2:{ rewrite run_next. unfold s1. rewrite afterEnv_nil by reflexivity.
      unfold node_at. norm_state. rewrite Hnode. reflexivity. }
  replace (if ASSERT then s1 else s1) with s1 by (destruct ASSERT; reflexivity).
  rewrite (run_last (store_onDeck 0)), run_store_onDeck. reflexivity.
Qed.

Lemma handedOver_intro (h h' : gmap Z LinkedNode) (t : list event) :
  (forall p, p <> newHead -> h' !!! p = h !!! p) ->
  handedOver T wl rec newHead h
    (mkState (mkWorld (mkMonitor kLockBit 0 wl (self T) 1 rec) h') [] t).
Proof. intros H. split; [reflexivity|]. split; [reflexivity|exact H]. Qed.

(** [finishLock] by [T] while [U] holds the monitor and releases it at the
    [k]-th access from now, wherever in [finishLock] that falls before [T]
    sleeps. *)
Lemma finishLock_hand (h : gmap Z LinkedNode) (k : nat) (t : list event) :
  (k <= 114)%nat ->
  (k + 2 <= fuel)%nat ->
  exists s' log,
    finishLock ASSERT fuel T newHead
      (mkState (mkWorld (mkMonitor kLockBit 0 wl (self U) cnt rec) h)
         (unlocksAfter ASSERT U fuel k) t) = (Done tt, s') /\
    handedOver T wl rec newHead h s' /\
    trace s' = t ++ log /\ forallb (hintEvent T) log = true.
Proof.
  intros Hk Hfuel. unfold finishLock.
  set (s := mkState (mkWorld (mkMonitor kLockBit 0 wl (self U) cnt rec) h)
              (unlocksAfter ASSERT U fuel k) t).
  rewrite (run_assert _ _ s s)
    by (apply Z.eqb_neq in T_not_null; rewrite T_not_null; reflexivity).
  replace (if ASSERT then s else s) with s by (destruct ASSERT; reflexivity).
  unfold s, trySpinLock. clear s. rewrite run_bind_bind.
  destruct k as [|k].
  { rewrite (bind_Done _ _ _ _ _ (tryLock_just_released h t)), run_ret.
    eexists. exists []. split; [reflexivity|]. split; [now apply handedOver_intro|].
    cbn [trace]. rewrite app_nil_r. split; reflexivity. }
  rewrite (bind_Done _ _ _ _ _ (tryLock_waiting kLockBit 0 h k t eq_refl)).
  change (Z.to_nat kMaxSpinIter) with 55%nat.
  destruct (trySpinLock_for_hand h 55 k t) as [Hlt Hge].
  destruct (lt_dec k 55) as [Hk55|Hk55].
  { destruct (Hlt Hk55) as (log & Hrun & Hlog). rewrite (bind_Done _ _ _ _ _ Hrun).
    eexists. exists log. split; [reflexivity|]. split; [now apply handedOver_intro|].
    split; [reflexivity|exact Hlog]. }
  rewrite (bind_Done _ _ _ _ _ (Hge ltac:(lia))). clear Hlt Hge.
  remember (k - 55)%nat as j eqn:Hj.
  unfold Semaphore_reset. rewrite run_emit, run_setItem, run_load_contendersList.
  norm_state.
  set (log1 := spinLog 55 ++ [EvReset (lockSemaphore T)]).
  assert (Hlog1 : forallb (hintEvent T) log1 = true).
  { unfold log1. rewrite forallb_app, spinLog_hints. cbn. rewrite Z.eqb_refl. reflexivity. }
  replace ((t ++ spinLog 55) ++ [EvReset (lockSemaphore T)]) with (t ++ log1)
    by (unfold log1; rewrite app_assoc; reflexivity).
  set (h1 := <[newHead := mkNode (next_ (node_at (mkWorld (mkMonitor kLockBit 0 wl (self U)
                                                     cnt rec) h) newHead))
                            (lockSemaphore T)]> h).
  assert (Hh1 : forall p, p <> newHead -> h1 !!! p = h !!! p).
  { intros p Hp. unfold h1. apply lookup_total_insert_ne. congruence. }
  destruct j as [|j].
  { (* released before the head is loaded *)
    rewrite afterEnv_unlocksAfter_O, unlock_by_owner_alone. norm_state.
    rewrite run_bind_loop_pos by lia.
    change (Z.land 0 kLockBit =? 0) with true. cbn iota.
    rewrite run_bind_bind, (bind_Done _ _ _ _ _ (tryLock_released _ _ _ _)).
    rewrite run_break, run_ret.
    eexists. exists log1. split; [reflexivity|]. split; [now apply handedOver_intro|].
    split; [reflexivity|exact Hlog1]. }
  rewrite afterEnv_unlocksAfter_S. norm_state.
  rewrite run_bind_loop_pos by lia.
  change (Z.land kLockBit kLockBit =? 0) with false. cbn iota.
  change (Z.land kLockBit (Z.lnot kLockBit)) with 0.
  rewrite !run_bind_bind, run_setNext.
  set (h2 := <[newHead := mkNode 0 (lockSemaphore T)]> h1).
  assert (Hh2 : forall p, p <> newHead -> h2 !!! p = h !!! p).
  { intros p Hp. unfold h2. rewrite lookup_total_insert_ne by congruence. now apply Hh1. }
  assert (Hn2 : h2 !!! newHead = mkNode 0 (lockSemaphore T)).
  { unfold h2. apply lookup_total_insert_eq. }
  assert (Hitem : forall m, item_ (node_at (mkWorld m h1) newHead) = lockSemaphore T).
  { intros m. unfold node_at, h1. cbn [nodes]. rewrite lookup_total_insert_eq. reflexivity. }
  assert (Hretry : forall (c' : Z) (t' : list event),
      bind (loop (fuel - 1)
        (fun head =>
           if Z.land head kLockBit =? 0 then
             b <- tryLock ASSERT T ;;
             if b then break true else continue head
           else
             setNext newHead (Z.land head (Z.lnot kLockBit)) ;;;
             r <- cas_weak_contendersList head (Z.lor newHead kLockBit) ;;
             if fst r then break false
             else Thread_yield ;;; continue (snd r)) 0)
        (fun acquired : bool =>
           if acquired then ret tt
           else
             loop fuel
               (fun spinCount =>
                  d <- load_onDeck ;;
                  if negb (Z.land d (Z.lnot kLockBit) =? lockSemaphore T) then
                    backOff spinCount (Semaphore_wait (lockSemaphore T)) ;;;
                    continue (wrapInt32 (spinCount + 1))
                  else break tt) 0 ;;;
             loop fuel
               (fun spinCount =>
                  assert ASSERT
                    (d <- load_onDeck ;;
                     ret (Z.land d (Z.lnot kLockBit) =? lockSemaphore T)) ;;;
                  b <- tryLock ASSERT T ;;
                  if b then break tt
                  else
                    backOff spinCount (Semaphore_wait (lockSemaphore T)) ;;;
                    continue (wrapInt32 (spinCount + 1))) 0 ;;;
             assert ASSERT (n <- next newHead ;; ret (n =? 0)) ;;;
             store_onDeck 0)
        (mkState (mkWorld (mkMonitor 0 0 wl 0 c' rec) h2) [] t') =
      (Done tt, mkState (mkWorld (mkMonitor kLockBit 0 wl (self T) 1 rec) h2) [] t')).
  { intros c' t'. rewrite run_bind_loop_pos by lia.
    change (Z.land 0 kLockBit =? 0) with true. cbn iota.
    rewrite run_bind_bind, (bind_Done _ _ _ _ _ (tryLock_released _ _ _ _)).
    rewrite run_break, run_ret. reflexivity. }
  assert (Hyield : forallb (hintEvent T) (log1 ++ [EvYield]) = true)
    by (rewrite forallb_app, Hlog1; reflexivity).
  destruct j as [|j].
  { (* released before the link of the node is written *)
    rewrite afterEnv_unlocksAfter_O, unlock_by_owner_alone. norm_state.
    rewrite Hitem. fold h2.
    rewrite run_bind_bind, run_cas_weak_contendersList.
    rewrite afterEnv_nil by reflexivity. norm_state.
    change (0 =? kLockBit) with false. cbn [andb fst snd].
    unfold Thread_yield. rewrite run_bind_bind, run_emit, run_continue.
    norm_state. rewrite Hretry.
    eexists. exists (log1 ++ [EvYield]). split; [reflexivity|].
    split; [now apply handedOver_intro|].
    cbn [trace]. rewrite app_assoc. split; [reflexivity|exact Hyield]. }
  rewrite afterEnv_unlocksAfter_S. norm_state. rewrite Hitem. fold h2.
  rewrite run_bind_bind, run_cas_weak_contendersList.
  destruct j as [|j].
  { (* released before the compare-and-swap *)
    rewrite afterEnv_unlocksAfter_O, unlock_by_owner_alone. norm_state.
    change (0 =? kLockBit) with false. cbn [andb fst snd].
    unfold Thread_yield. rewrite run_bind_bind, run_emit, run_continue.
    norm_state. rewrite Hretry.
    eexists. exists (log1 ++ [EvYield]). split; [reflexivity|].
    split; [now apply handedOver_intro|].
    cbn [trace]. rewrite app_assoc. split; [reflexivity|exact Hyield]. }
  (* the node is pushed *)
  rewrite afterEnv_unlocksAfter_S, spuriousNow_unlocksAfter. norm_state.
  change (kLockBit =? kLockBit) with true. cbn [andb negb fst snd].
  rewrite run_break, run_ret.
  pose proof (park_hand h2 Hn2 j fuel O (t ++ log1) ltac:(lia)) as Hpark.
  change (wrapInt32 (Z.of_nat 0)) with 0 in Hpark.
  rewrite (bind_Done _ _ _ _ _ Hpark).
  rewrite finishLock_on_deck.
  - eexists. exists (log1 ++ parkLog (EvWait (lockSemaphore T)) j).
    split; [reflexivity|]. split.
    + apply handedOver_intro.
      intros p Hp. destruct ASSERT; [|now apply Hh2].
      rewrite lookup_total_insert_ne by congruence. now apply Hh2.
    + cbn [trace]. unfold parkLog. rewrite app_assoc. split; [reflexivity|].
      rewrite forallb_app, Hlog1. apply parkLog_hints. lia.
  - destruct ASSERT; [apply lookup_total_insert_eq|exact Hn2].
Qed.

(** X20.  [T] calls [lock] while [U] holds the monitor, alone: no contender, no
    on-deck thread, [U] at its last level.  Nothing else happens until [U]
    calls [unlock], at the [k]-th atomic access of [T].  Whenever that is
    before [T] goes to sleep on its semaphore (before [T] has read the lock
    word, while [T] spins, while it pushes its node, or during the pauses
    and yields of the sleep loop: the first 116 accesses), [lock] returns,
    [T] holds the monitor at depth 1 with no contender and no on-deck
    thread left behind, and [T] has only paused, yielded and reset its lock
    semaphore: it has not called [wait]. *)
Theorem lock_hand_over (h : gmap Z LinkedNode) (k : nat) (t : list event) :
  (k <= 115)%nat ->
  (k + 2 <= fuel)%nat ->
  exists s' log,
    lock ASSERT fuel T newHead
      (mkState (mkWorld (mkMonitor kLockBit 0 wl (self U) cnt rec) h)
         (unlocksAfter ASSERT U fuel k) t) = (Done tt, s') /\
    handedOver T wl rec newHead h s' /\
    trace s' = t ++ log /\ forallb (hintEvent T) log = true.
Proof.
  intros Hk Hfuel. unfold lock. destruct k as [|k].
  - rewrite (bind_Done _ _ _ _ _ (tryLock_just_released h t)). cbn [negb].
    eexists. exists []. split; [reflexivity|]. split; [now apply handedOver_intro|].
    cbn [trace]. rewrite app_nil_r. split; reflexivity.
  - rewrite (bind_Done _ _ _ _ _ (tryLock_waiting kLockBit 0 h k t eq_refl)). cbn [negb].
    apply finishLock_hand; lia.
Qed.

End Handoff.

(** *** Waking a waiter *)

(** X21.  The owner calls [notify] and then, at its last level, [unlock], with
    nobody interfering and no on-deck thread.  The waiter at the head of
    [waitersList_] is the thread that is woken: [notify] pushes its node on
    top of the contenders, [unlock] pops that very node, puts the waiter's
    semaphore on deck and posts it, once.  The contenders that were queued
    before are left queued, behind it. *)
Theorem notify_then_unlock_wakes (fuel : nat) (thread : Thread) (s : State) :
  (1 <= fuel)%nat ->
  oracle s = [] ->
  owns thread (world s) ->
  let m := mon (world s) in
  let waiter := waitersList_ m in
  let sem := item_ (node_at (world s) waiter) in
  onDeck_ m = 0 ->
  waiter <> 0 -> aligned waiter -> sem <> 0 ->
  (recursive_ m = true -> wrap32 (lockCount_ m - 1) = 0) ->
  exists s',
    (notify ASSERT fuel thread ;;; unlock ASSERT fuel thread) s = (Done tt, s') /\
    onDeck_ (mon (world s')) = sem /\
    contendersList_ (mon (world s')) = Z.land (contendersList_ m) (Z.lnot kLockBit) /\
    waitersList_ (mon (world s')) = next_ (node_at (world s) waiter) /\
    owner_ (mon (world s')) = 0 /\
    item_ (node_at (world s') waiter) = sem /\
    (forall p, p <> waiter -> node_at (world s') p = node_at (world s) p) /\
    trace s' = trace s ++ [EvPost sem].
Proof.
  intros Hf Ho Hown m waiter sem Hd Hw Hal Hsem Hlast. subst m waiter sem.
  assert (Hq : noInterference (oracle s)) by (rewrite Ho; constructor).
  destruct (notify_quiet fuel thread s Hown Hq ltac:(rewrite Ho; cbn; lia))
    as (o' & Hn & _ & Hlen).
  cbn zeta in Hn. rewrite Ho in Hlen. destruct o' as [|i o']; [|cbn in Hlen; lia].
  apply Z.eqb_neq in Hw. rewrite Hw in Hn. apply Z.eqb_neq in Hw.
  rewrite (bind_Done _ _ _ _ _ Hn).
  set (waiter := waitersList_ (mon (world s))) in *.
  set (w1 := set_contendersList (Z.lor waiter kLockBit) _).
  assert (Hown1 : owns thread w1).
  { destruct Hown as [_ Hown]. split; [apply lockBit_lor|exact Hown]. }
  rewrite (unlock_quiet fuel thread (mkState w1 [] (trace s)) Hf eq_refl (fun _ => Hown1)).
  cbn zeta. cbn [world trace].
  change (recursive_ (mon w1)) with (recursive_ (mon (world s))).
  change (lockCount_ (mon w1)) with (lockCount_ (mon (world s))).
  change (onDeck_ (mon w1)) with (onDeck_ (mon (world s))).
  change (contendersList_ (mon w1)) with (Z.lor waiter kLockBit).
  assert (Hheld : recursive_ (mon (world s)) &&
                  (wrap32 (lockCount_ (mon (world s)) - 1) >? 0) = false).
  { destruct (recursive_ (mon (world s))); [|reflexivity].
    rewrite (Hlast eq_refl). reflexivity. }
  rewrite Hheld, Hd, (lor_kLockBit_upper waiter Hal). cbn [Z.eqb negb].
  apply Z.eqb_neq in Hw. rewrite Hw. apply Z.eqb_neq in Hw.
  match goal with |- context [finishUnlock ASSERT fuel ?x] => set (s3 := x) end.
  assert (Hat : node_at (world s3) waiter =
                mkNode (Z.land (contendersList_ (mon (world s))) (Z.lnot kLockBit))
                       (item_ (node_at (world s) waiter))).
  { unfold node_at, s3, w1. cbn [world nodes set_contendersList set_owner].
    destruct (recursive_ (mon (world s))); cbn; apply lookup_total_insert_eq. }
  assert (Hc3 : contendersList_ (mon (world s3)) = waiter) by reflexivity.
  assert (Hd3 : onDeck_ (mon (world s3)) = 0).
  { unfold s3, w1. cbn [world]. destruct (recursive_ (mon (world s))); exact Hd. }
  pose proof (finishUnlock_pop fuel s3 Hf eq_refl Hd3) as Hpop.
  cbn zeta in Hpop. rewrite Hc3, Hat in Hpop. cbn [item_ next_] in Hpop.
  rewrite Hpop;
    [|exact Hw|apply lockBit_aligned, Hal|exact Hsem].
  eexists. split; [reflexivity|]. cbn [world trace].
  assert (Hfields : forall f : World -> World,
    (forall w, mon (f w) = mon w) ->
    let w' := set_onDeck (item_ (node_at (world s) waiter))
                (f (set_contendersList
                      (Z.land (contendersList_ (mon (world s))) (Z.lnot kLockBit))
                      (world s3))) in
    onDeck_ (mon w') = item_ (node_at (world s) waiter) /\
    contendersList_ (mon w') =
      Z.land (contendersList_ (mon (world s))) (Z.lnot kLockBit) /\
    waitersList_ (mon w') = next_ (node_at (world s) waiter) /\
    owner_ (mon w') = 0).
  { intros f Hfm. cbn zeta. cbn [mon set_onDeck onDeck_ contendersList_ waitersList_
                                   owner_].
    rewrite Hfm. unfold s3, w1. cbn [world].
    destruct (recursive_ (mon (world s))); cbn; auto. }
  assert (Hn3 : forall p, p <> waiter -> node_at (world s3) p = node_at (world s) p).
  { intros p Hp. unfold node_at, s3, w1. cbn [world nodes set_contendersList set_owner].
    destruct (recursive_ (mon (world s))); cbn;
      apply lookup_total_insert_ne; congruence. }
  destruct ASSERT.
  - destruct (Hfields (set_node waiter (mkNode 0 (item_ (node_at (world s) waiter))))
                (fun _ => eq_refl)) as (H1 & H2 & H3 & H4).
    repeat (split; [assumption|]). split; [|split; [|reflexivity]].
    + unfold node_at. cbn. rewrite lookup_total_insert_eq. reflexivity.
    + intros p Hp. rewrite <- (Hn3 p Hp). unfold node_at. cbn.
      apply lookup_total_insert_ne. congruence.
  - destruct (Hfields (fun w => w) (fun _ => eq_refl)) as (H1 & H2 & H3 & H4).
    repeat (split; [assumption|]). split; [|split; [|reflexivity]].
    + change (item_ (node_at (world s3) waiter) = item_ (node_at (world s) waiter)).
      rewrite Hat. reflexivity.
    + intros p Hp. exact (Hn3 p Hp).
Qed.

Section Wake.

Variables (T U : Thread) (node nodeU : Z) (fuel : nat).
Hypothesis T_not_null : self T <> 0.
Hypothesis U_not_null : self U <> 0.
Hypothesis sem_not_null : suspendSemaphore T <> 0.
Hypothesis sem_aligned : aligned (suspendSemaphore T).
Hypothesis node_not_null : node <> 0.
Hypothesis node_aligned : aligned node.
Hypothesis fuel_pos : (1 <= fuel)%nat.
Variables (wl : Z) (rec : bool).

Lemma afterEnv_cons (w : World) (i : Interference) (o : list Interference)
    (t : list event) :
  afterEnv (mkState w (i :: o) t) = mkState (interfere i w) o t.
Proof. reflexivity. Qed.

Lemma lock_by_notifier (c' : Z) (h : gmap Z LinkedNode) :
  interfere (callBy ASSERT U (CallLock nodeU) fuel [])
    (mkWorld (mkMonitor 0 0 node 0 c' rec) h) =
  mkWorld (mkMonitor kLockBit 0 node (self U) 1 rec) h.
Proof.
  unfold callBy. cbn [interfere map perform].
  assert (Hc : contractb U (CallLock nodeU) (mkWorld (mkMonitor 0 0 node 0 c' rec) h)
               = true).
  { unfold contractb. apply Z.eqb_neq in U_not_null. rewrite U_not_null. reflexivity. }
  rewrite Hc.
  rewrite (lock_free_quiet fuel U nodeU
             (mkState (mkWorld (mkMonitor 0 0 node 0 c' rec) h) [] [])
             U_not_null eq_refl eq_refl).
  reflexivity.
Qed.

Lemma notify_by_notifier (h : gmap Z LinkedNode) :
  h !!! node = mkNode wl (suspendSemaphore T) ->
  interfere (callBy ASSERT U CallNotify fuel [])
    (mkWorld (mkMonitor kLockBit 0 node (self U) 1 rec) h) =
  mkWorld (mkMonitor (Z.lor node kLockBit) 0 wl (self U) 1 rec)
    (<[node := mkNode 0 (suspendSemaphore T)]> h).
Proof.
  intros Hnode. unfold callBy. cbn [interfere map perform].
  assert (Hc : contractb U CallNotify
                 (mkWorld (mkMonitor kLockBit 0 node (self U) 1 rec) h) = true).
  { unfold contractb, ownsb. cbn. rewrite Z.eqb_refl.
    apply Z.eqb_neq in U_not_null. rewrite U_not_null. reflexivity. }
  rewrite Hc.
  destruct (notify_quiet fuel U
              (mkState (mkWorld (mkMonitor kLockBit 0 node (self U) 1 rec) h) [] [])
              (conj eq_refl eq_refl) ltac:(constructor) ltac:(cbn; lia))
    as (o' & Hrun & _ & _).
  cbn zeta in Hrun. cbn [world mon waitersList_ contendersList_] in Hrun.
  apply Z.eqb_neq in node_not_null. rewrite node_not_null in Hrun.
  rewrite Hrun. unfold node_at. cbn [world nodes mon set_waitersList set_node
                                      set_contendersList].
  rewrite Hnode. reflexivity.
Qed.

Lemma unlock_by_notifier (h : gmap Z LinkedNode) :
  h !!! node = mkNode 0 (suspendSemaphore T) ->
  interfere (callBy ASSERT U CallUnlock fuel [])
    (mkWorld (mkMonitor (Z.lor node kLockBit) 0 wl (self U) 1 rec) h) =
  mkWorld (mkMonitor 0 (suspendSemaphore T) wl 0 (if rec then 0 else 1) rec)
    (if ASSERT then <[node := mkNode 0 (suspendSemaphore T)]> h else h).
Proof. intros Hnode. now apply unlock_pushed. Qed.

(** The first sleep loop of [wait], until the notifier has come by. *)
Lemma sleep_until_notified (c' : Z) (h : gmap Z LinkedNode) :
  h !!! node = mkNode wl (suspendSemaphore T) ->
  forall (k fuel' : nat) (c : Z) (t : list event),
  (k + 2 < fuel')%nat ->
  exists t',
    loop fuel'
      (fun spinCount =>
         d <- load_onDeck ;;
         if negb (Z.land d (Z.lnot kLockBit) =? suspendSemaphore T) then
           backOff spinCount (Semaphore_timedWait (suspendSemaphore T) 10) ;;;
           continue (wrapInt32 (spinCount + 1))
         else break tt) c
      (mkState (mkWorld (mkMonitor 0 0 node 0 c' rec) h)
         (notifiesAfter ASSERT U nodeU fuel k) t) =
    (Done tt,
     mkState
       (mkWorld (mkMonitor 0 (suspendSemaphore T) wl 0 (if rec then 0 else 1) rec)
          (<[node := mkNode 0 (suspendSemaphore T)]> h))
       [] t').
Proof.
  intros Hnode.
  assert (Hne : (0 =? suspendSemaphore T) = false) by (apply Z.eqb_neq; congruence).
  assert (Hstep : forall (w : World) (o : list Interference) (c : Z) (t : list event)
                         (fuel' : nat),
    onDeck_ (mon w) = 0 ->
    loop (S fuel')
      (fun spinCount =>
         d <- load_onDeck ;;
         if negb (Z.land d (Z.lnot kLockBit) =? suspendSemaphore T) then
           backOff spinCount (Semaphore_timedWait (suspendSemaphore T) 10) ;;;
           continue (wrapInt32 (spinCount + 1))
         else break tt) c
      (mkState w (mkInterference (fun w0 => w0) false :: o) t) =
    loop fuel'
      (fun spinCount =>
         d <- load_onDeck ;;
         if negb (Z.land d (Z.lnot kLockBit) =? suspendSemaphore T) then
           backOff spinCount (Semaphore_timedWait (suspendSemaphore T) 10) ;;;
           continue (wrapInt32 (spinCount + 1))
         else break tt) (wrapInt32 (c + 1))
      (mkState w o
         (t ++ [backOffEvent (EvTimedWait (suspendSemaphore T) 10) c]))).
  { intros w o c t fuel' Hd.
    rewrite run_loop_S, run_bind_bind, run_load_onDeck, afterEnv_cons.
    cbn [interfere world]. rewrite Hd.
    change (Z.land 0 (Z.lnot kLockBit)) with 0. rewrite Hne. cbn [negb].
    rewrite run_bind_bind,
      (run_backOff (Semaphore_timedWait (suspendSemaphore T) 10)
         (EvTimedWait (suspendSemaphore T) 10)) by (intros; reflexivity).
    rewrite run_continue. reflexivity. }
  assert (Hcall : forall (w w' : World) (i : Interference) (o : list Interference)
                         (c : Z) (t : list event) (fuel' : nat),
    interfere i w = w' -> onDeck_ (mon w') = 0 ->
    loop (S fuel')
      (fun spinCount =>
         d <- load_onDeck ;;
         if negb (Z.land d (Z.lnot kLockBit) =? suspendSemaphore T) then
           backOff spinCount (Semaphore_timedWait (suspendSemaphore T) 10) ;;;
           continue (wrapInt32 (spinCount + 1))
         else break tt) c
      (mkState w (i :: o) t) =
    loop fuel'
      (fun spinCount =>
         d <- load_onDeck ;;
         if negb (Z.land d (Z.lnot kLockBit) =? suspendSemaphore T) then
           backOff spinCount (Semaphore_timedWait (suspendSemaphore T) 10) ;;;
           continue (wrapInt32 (spinCount + 1))
         else break tt) (wrapInt32 (c + 1))
      (mkState w' o
         (t ++ [backOffEvent (EvTimedWait (suspendSemaphore T) 10) c]))).
  { intros w w' i o c t fuel' Hi Hd.
    rewrite run_loop_S, run_bind_bind, run_load_onDeck, afterEnv_cons.
    cbn [world]. rewrite Hi, Hd.
    change (Z.land 0 (Z.lnot kLockBit)) with 0. rewrite Hne. cbn [negb].
    rewrite run_bind_bind,
      (run_backOff (Semaphore_timedWait (suspendSemaphore T) 10)
         (EvTimedWait (suspendSemaphore T) 10)) by (intros; reflexivity).
    rewrite run_continue. reflexivity. }
  induction k as [|k IH]; intros fuel' c t Hlt.
  - destruct fuel' as [|[|[|fuel']]]; [lia..|].
    change (notifiesAfter ASSERT U nodeU fuel 0)
      with [callBy ASSERT U (CallLock nodeU) fuel [];
            callBy ASSERT U CallNotify fuel [];
            callBy ASSERT U CallUnlock fuel []].
    rewrite (Hcall _ _ _ _ _ _ _ (lock_by_notifier c' h) eq_refl).
    rewrite (Hcall _ _ _ _ _ _ _ (notify_by_notifier h Hnode) eq_refl).
    rewrite run_loop_S, run_bind_bind, run_load_onDeck, afterEnv_cons.
    rewrite unlock_by_notifier by apply lookup_total_insert_eq.
    cbn [world mon onDeck_].
    rewrite (aligned_land_id _ sem_aligned), Z.eqb_refl. cbn [negb].
    rewrite run_break. eexists. unfold ret. f_equal. f_equal. f_equal.
    destruct ASSERT; [apply insert_insert_eq|reflexivity].
  - destruct fuel' as [|fuel']; [lia|].
    change (notifiesAfter ASSERT U nodeU fuel (S k))
      with (mkInterference (fun w0 => w0) false :: notifiesAfter ASSERT U nodeU fuel k).
    rewrite Hstep by reflexivity.
    destruct (IH fuel' (wrapInt32 (c + 1))
                (t ++ [backOffEvent (EvTimedWait (suspendSemaphore T) 10) c])
                ltac:(lia)) as [t' Hrun].
    exists t'. exact Hrun.
Qed.

(** X22.  A thread [T] sleeps in [wait]: it has released the monitor, its node is
    at the head of the waiters, and it held the monitor at depth [saved].
    Nothing happens until, at some time, [U] calls [lock], [notify] and
    [unlock].  Then [T] finds itself on deck, takes the monitor and returns
    from [wait], holding the monitor at depth [saved] again; its node is off
    the waiters, and no contender and no on-deck thread are left. *)
Theorem wait_resume_wakes (saved c' : Z) (h : gmap Z LinkedNode) (k : nat)
    (t : list event) :
  h !!! node = mkNode wl (suspendSemaphore T) ->
  (k + 2 < fuel)%nat ->
  exists t',
    wait_resume ASSERT fuel T saved
      (mkState (mkWorld (mkMonitor 0 0 node 0 c' rec) h)
         (notifiesAfter ASSERT U nodeU fuel k) t) =
    (Done tt,
     mkState
       (mkWorld (mkMonitor kLockBit 0 wl (self T) saved rec)
          (<[node := mkNode 0 (suspendSemaphore T)]> h))
       [] t').
Proof.
  intros Hnode Hfuel. unfold wait_resume.
  destruct (sleep_until_notified c' h Hnode k fuel 0 t Hfuel) as [t1 Hsleep].
  rewrite (bind_Done _ _ _ _ _ Hsleep).
  rewrite run_bind_loop_pos, run_bind_bind by exact fuel_pos.
  match goal with |- context [bind (assert ASSERT _) _ ?x] => set (s0 := x) end.
  rewrite (run_assert _ _ s0 s0).
  2:{ rewrite run_load_onDeck. unfold s0. rewrite afterEnv_nil by reflexivity.
      cbn [world mon onDeck_].
      rewrite (aligned_land_id _ sem_aligned), Z.eqb_refl. reflexivity. }
  replace (if ASSERT then s0 else s0) with s0 by (destruct ASSERT; reflexivity).
  unfold s0, trySpinLock.
  rewrite !run_bind_bind, (bind_Done _ _ _ _ _ (tryLock_released T T_not_null wl rec _ _ _ _)).
  rewrite run_ret, run_break, run_ret, run_write_lockCount.
  rewrite (run_last (store_onDeck 0)), run_store_onDeck.
  eexists. reflexivity.
Qed.

End Wake.

Lemma chain_null_last_fresh (h : gmap Z LinkedNode) (l : list Z) (a p : Z) :
  chain h p (l ++ [a]) 0 -> ~ In a l.
Proof.
  intros Hc Hin. apply in_split in Hin. destruct Hin as (l1 & l2 & ->).
  rewrite <- app_assoc in Hc.
  destruct (chain_app_inv _ _ _ _ _ Hc) as (mid & _ & H2).
  cbn [app] in H2.
  assert (mid = a) as -> by (cbn in H2; tauto).
  apply (chain_null_head_fresh _ _ _ H2). apply in_or_app. right. left. reflexivity.
Qed.

Lemma envClosed_recursive (r : bool) :
  envClosed (fun s => recursive_ (mon (world s)) = r /\ oracle s = []).
Proof. intros s [H Ho]. rewrite (afterEnv_nil s Ho). auto. Qed.

Lemma notify_keeps_recursive (fuel : nat) (thread : Thread) (r : bool) :
  hoare (fun s => recursive_ (mon (world s)) = r /\ oracle s = [])
    (notify ASSERT fuel thread)
    (fun _ s => recursive_ (mon (world s)) = r /\ oracle s = []).
Proof.
  pose proof (envClosed_recursive r) as Henv.
  unfold notify, write_waitersList.
  eapply hoare_bind.
  { apply hoare_assert with (P' := fun s => recursive_ (mon (world s)) = r /\ oracle s = []);
      [|auto].
    eapply hoare_bind; [apply hoare_isLocked, Henv|].
    intros l. apply hoare_drop.
    eapply hoare_bind; [apply hoare_getMonitor|].
    intros m. apply hoare_ret. intros s [H _] _. exact H. }
  intro.
  eapply hoare_bind; [apply hoare_getMonitor|]. intros m. apply hoare_drop.
  destruct (waitersList_ m =? 0); [apply hoare_ret; auto|].
  eapply hoare_bind; [apply hoare_next, Henv|].
  intros n. apply hoare_drop.
  eapply hoare_bind with
    (Q := fun _ s => recursive_ (mon (world s)) = r /\ oracle s = []).
  { apply hoare_modifyWorld. intros s H. exact H. }
  intro.
  eapply hoare_bind; [apply hoare_load_contendersList, Henv|].
  intros node. apply hoare_drop.
  apply (hoare_loop (fun _ s => recursive_ (mon (world s)) = r /\ oracle s = [])
           (fun _ s => recursive_ (mon (world s)) = r /\ oracle s = [])).
  intros node'.
  eapply hoare_bind with
    (Q := fun _ s => recursive_ (mon (world s)) = r /\ oracle s = []).
  { apply hoare_setNext; [exact Henv|]. intros s H. exact H. }
  intro.
  eapply hoare_bind with
    (Q := fun _ s => recursive_ (mon (world s)) = r /\ oracle s = []).
  { apply hoare_cas_weak_contendersList; [exact Henv| |auto].
    intros s H _. exact H. }
  intros x. destruct (fst x); [apply hoare_break|apply hoare_continue]; auto.
Qed.

Lemma notifyAll_keeps_recursive (fuel : nat) (thread : Thread) (r : bool) :
  hoare (fun s => recursive_ (mon (world s)) = r /\ oracle s = [])
    (notifyAll ASSERT fuel thread)
    (fun _ s => recursive_ (mon (world s)) = r /\ oracle s = []).
Proof.
  unfold notifyAll.
  apply (hoare_loop (fun _ s => recursive_ (mon (world s)) = r /\ oracle s = [])
           (fun _ s => recursive_ (mon (world s)) = r /\ oracle s = [])).
  intro. eapply hoare_bind; [apply hoare_getMonitor|]. intros m. apply hoare_drop.
  destruct (negb _); [|apply hoare_break; auto].
  eapply hoare_bind; [apply notify_keeps_recursive|]. intro. apply hoare_continue. auto.
Qed.

(** X23.  [notifyAll] followed by the last [unlock] of the owner, left
    alone and with no on-deck thread, wakes the thread at the END of
    [waitersList] (the one that has waited longest): [notifyAll] moves the
    waiters one by one on top of the contenders, so the last one moved is
    the one [finishUnlock] pops.  Its semaphore is stored in [onDeck_] and
    posted once, and the other waiters are queued as contenders, in
    reverse order, in front of the contenders that were queued before. *)
Theorem notifyAll_then_unlock_wakes_oldest (fuel : nat) (thread : Thread) (s : State)
    (l : list Z) (oldest : Z) :
  oracle s = [] ->
  owns thread (world s) ->
  let m := mon (world s) in
  let sem := item_ (node_at (world s) oldest) in
  chain (nodes (world s)) (waitersList_ m) (l ++ [oldest]) 0 ->
  Forall aligned (l ++ [oldest]) ->
  (length l + 1 < fuel)%nat ->
  onDeck_ m = 0 ->
  sem <> 0 ->
  (recursive_ m = true -> wrap32 (lockCount_ m - 1) = 0) ->
  exists s',
    (notifyAll ASSERT fuel thread ;;; unlock ASSERT fuel thread) s = (Done tt, s') /\
    onDeck_ (mon (world s')) = sem /\
    trace s' = trace s ++ [EvPost sem] /\
    waitersList_ (mon (world s')) = 0 /\
    owner_ (mon (world s')) = 0 /\
    chain (nodes (world s')) (contendersList_ (mon (world s'))) (rev l)
      (Z.land (contendersList_ m) (Z.lnot kLockBit)).
Proof.
  intros Ho Hown m sem Hc Hal Hlen Hd Hsem Hlast. subst m sem.
  assert (Hq : noInterference (oracle s)) by (rewrite Ho; constructor).
  assert (Hl1 : (length (l ++ [oldest]) < fuel)%nat)
    by (rewrite length_app; cbn; lia).
  destruct (notifyAll_loop thread fuel (l ++ [oldest]) fuel s Hown Hq Hc Hal Hl1
              ltac:(rewrite Ho; cbn; lia))
    as (s1 & Hrun & _ & Ht & _ & Hlo & Hown1 & Hw1 & Hch & Hd1 & _ & Hlc & Hfr & Hit).
  unfold notifyAll. rewrite (bind_Done _ _ _ _ _ Hrun).
  rewrite Ho in Hlo. assert (Ho1 : oracle s1 = [])
    by (destruct (oracle s1); [reflexivity|cbn in Hlo; lia]).
  rewrite rev_unit in Hch. destruct Hch as (Hhead & Hne & Hch).
  pose proof (chain_null_last_fresh _ _ _ _ Hc) as Hfresh.
  assert (Hao : aligned oldest).
  { rewrite Forall_app in Hal. destruct Hal as [_ Hal]. exact (Forall_inv Hal). }
  rewrite (unlock_quiet fuel thread s1 ltac:(lia) Ho1 (fun _ => Hown1)).
  cbn zeta. rewrite Hlc, Hd1, Hd, Hhead.
  assert (Hrs : recursive_ (mon (world s1)) = recursive_ (mon (world s))).
  { pose proof (notifyAll_keeps_recursive fuel thread (recursive_ (mon (world s))) s
                  (conj eq_refl Ho)) as Hk.
    unfold notifyAll in Hk. rewrite Hrun in Hk. exact (proj1 Hk). }
  assert (Hheld : recursive_ (mon (world s1)) &&
                  (wrap32 (lockCount_ (mon (world s)) - 1) >? 0) = false).
  { rewrite Hrs. destruct (recursive_ (mon (world s))); [|reflexivity].
    rewrite (Hlast eq_refl). reflexivity. }
  rewrite Hheld. cbn [Z.eqb negb].
  apply Z.eqb_neq in Hne. rewrite Hne. apply Z.eqb_neq in Hne.
  match goal with |- context [finishUnlock ASSERT fuel ?x] => set (s3 := x) end.
  assert (Hn3 : nodes (world s3) = nodes (world s1)).
  { unfold s3. cbn [world]. destruct (recursive_ (mon (world s1))); reflexivity. }
  assert (Hc3 : contendersList_ (mon (world s3)) = oldest) by reflexivity.
  assert (Hd3 : onDeck_ (mon (world s3)) = 0).
  { unfold s3. cbn [world]. destruct (recursive_ (mon (world s1))); cbn; congruence. }
  assert (Hw3 : waitersList_ (mon (world s3)) = 0).
  { unfold s3. cbn [world]. destruct (recursive_ (mon (world s1))); exact Hw1. }
  assert (Hat : node_at (world s3) oldest = node_at (world s1) oldest).
  { unfold node_at. rewrite Hn3. reflexivity. }
  pose proof (finishUnlock_pop fuel s3 ltac:(lia) eq_refl Hd3) as Hpop.
  cbn zeta in Hpop. rewrite Hc3, Hat in Hpop.
  rewrite Hit in Hpop.
  rewrite Hpop; [|exact Hne|apply lockBit_aligned, Hao|exact Hsem].
  eexists. split; [reflexivity|]. cbn [world trace].
  split; [reflexivity|]. split; [unfold s3; cbn [trace]; rewrite Ht; reflexivity|].
  split; [destruct ASSERT; exact Hw3|].
  split; [destruct ASSERT; unfold s3; cbn; destruct (recursive_ (mon (world s1))); reflexivity|].
  assert (Hfr' : ~ In oldest (rev l)) by (rewrite <- in_rev; exact Hfresh).
  destruct ASSERT.
  - cbn [mon set_onDeck set_node set_contendersList contendersList_ nodes].
    apply (chain_frame (nodes (world s1))).
    + intros a Ha. rewrite Hn3. rewrite lookup_total_insert_ne; [reflexivity|].
      intros ->. contradiction.
    + exact Hch.
  - cbn [mon set_onDeck set_contendersList contendersList_ nodes].
    rewrite Hn3. exact Hch.
Qed.

(** One round of [finishUnlock] that finds a contender on the free monitor,
    with nobody interfering: it pops the head and leaves the loop. *)
Lemma finishUnlock_round_pop (fuel : nat) (s : State) :
  (1 <= fuel)%nat -> oracle s = [] ->
  onDeck_ (mon (world s)) = 0 ->
  contendersList_ (mon (world s)) <> 0 ->
  lockBit (contendersList_ (mon (world s))) = false ->
  item_ (node_at (world s) (contendersList_ (mon (world s)))) <> 0 ->
  let head := contendersList_ (mon (world s)) in
  let sem := item_ (node_at (world s) head) in
  forall f, (1 <= f)%nat ->
  loop f (fun _ : unit =>
    r <- cas_strong_onDeck 0 (Z.lor 0 kLockBit) ;;
    if negb (fst r) then break tt
    else
      head <- load_contendersList ;;
      head <-
        loop fuel (fun head =>
          if head =? 0 then break head
          else if negb (Z.land head kLockBit =? 0) then break 0
          else
            n <- next head ;;
            r <- cas_weak_contendersList head n ;;
            if fst r then
              (if ASSERT then setNext head 0 else ret tt) ;;;
              break head
            else continue (snd r)) head ;;
      semaphore <- (if negb (head =? 0) then item head else ret 0) ;;
      store_onDeck semaphore ;;;
      if negb (semaphore =? 0) then
        Semaphore_post semaphore ;;;
        break tt
      else
        head <- load_contendersList ;;
        if (head =? 0) || negb (Z.land head kLockBit =? 0) then break tt
        else continue tt) tt s =
    (Done tt,
     mkState
       (set_onDeck sem
          ((if ASSERT then set_node head (mkNode 0 sem) else fun w => w)
             (set_contendersList (next_ (node_at (world s) head)) (world s))))
       [] (trace s ++ [EvPost sem])).
Proof.
  intros Hf Ho Hd Hc Hl Hi head sem f Hf'. subst head sem.
  destruct fuel as [|fuel]; [lia|]. destruct f as [|f]; [lia|].
  rewrite run_loop_S, run_bind_bind, run_cas_strong_onDeck.
  rewrite (afterEnv_nil s Ho), Hd. cbn [Z.eqb fst negb].
  rewrite run_bind_bind, run_load_contendersList.
  set (s1 := withWorld _ s). rewrite (afterEnv_nil s1 Ho).
  change (contendersList_ (mon (world s1))) with (contendersList_ (mon (world s))).
  set (head := contendersList_ (mon (world s))) in *.
  rewrite run_bind_bind, run_bind_loop_S.
  apply Z.eqb_neq in Hc. rewrite Hc.
  unfold lockBit in Hl. rewrite Hl.
  rewrite !run_bind_bind, run_next, (afterEnv_nil s1 Ho).
  rewrite run_bind_bind, run_cas_weak_contendersList, (afterEnv_nil s1 Ho).
  change (contendersList_ (mon (world s1))) with head.
  rewrite Z.eqb_refl, (spuriousNow_quiet s1 Ho). cbn [andb negb fst].
  set (s2 := withWorld _ s1).
  change (node_at (world s1) head) with (node_at (world s) head).
  set (s3 := withWorld (if ASSERT then set_node head (mkNode 0 (item_ (node_at (world s) head)))
                        else fun w => w) s2).
  assert (Hk : forall (C : Type) (k : unit -> M C),
              bind (if ASSERT then setNext head 0 else ret tt) k s2 = k tt s3).
  { intros C k. unfold s3. destruct ASSERT.
    - rewrite run_setNext, (afterEnv_nil s2 Ho). reflexivity.
    - unfold withWorld. rewrite state_eta. reflexivity. }
  assert (Hi3 : item_ (node_at (world s3) head) = item_ (node_at (world s) head)).
  { unfold s3, withWorld. cbn [world]. destruct ASSERT.
    - rewrite node_at_set_node_eq. reflexivity.
    - reflexivity. }
  assert (Ho3 : oracle s3 = []) by exact Ho.
  rewrite run_bind_bind, Hk, run_break, run_ret.
  rewrite Hc. cbn [negb]. rewrite !run_bind_bind, run_item.
  rewrite !run_bind_bind, run_store_onDeck, (afterEnv_nil s3 Ho3), Hi3.
  apply Z.eqb_neq in Hi. rewrite Hi. cbn [negb].
  unfold Semaphore_post. rewrite !run_bind_bind, run_emit, run_break.
  unfold ret. f_equal. unfold s3, s2, s1, withWorld. cbn [world oracle trace].
  rewrite Ho. f_equal. destruct ASSERT; reflexivity.
Qed.

(** X24.  The outer loop of [finishUnlock] closes the window in which a
    wake-up could be lost.  [finishUnlock] takes the microlock and finds
    nothing to pop (no contender, or the monitor locked again), so it stores
    0 in [onDeck_].  If, when it reads the lock word again, a contender is
    queued and the monitor is free (whatever the other threads did in
    between, at any of its four atomic accesses), it does not return: left
    alone from then on, it takes the microlock again, pops that contender,
    stores its semaphore in [onDeck_] and posts it once. *)
Theorem finishUnlock_second_round (fuel : nat) (s : State) (i1 i2 i3 i4 : Interference) :
  (2 <= fuel)%nat ->
  oracle s = [i1; i2; i3; i4] ->
  let w1 := interfere i1 (world s) in
  let w2 := interfere i2 (set_onDeck kLockBit w1) in
  let w4 := interfere i4 (set_onDeck 0 (interfere i3 w2)) in
  let head := contendersList_ (mon w4) in
  let sem := item_ (node_at w4 head) in
  onDeck_ (mon w1) = 0 ->
  contendersList_ (mon w2) = 0 \/ lockBit (contendersList_ (mon w2)) = true ->
  onDeck_ (mon w4) = 0 ->
  head <> 0 -> lockBit head = false -> sem <> 0 ->
  finishUnlock ASSERT fuel s =
    (Done tt,
     mkState
       (set_onDeck sem
          ((if ASSERT then set_node head (mkNode 0 sem) else fun w => w)
             (set_contendersList (next_ (node_at w4 head)) w4)))
       [] (trace s ++ [EvPost sem])).
Proof.
  intros Hf Ho w1 w2 w4 head sem Hd1 Hc2 Hd4 Hh Hl Hsem.
  unfold finishUnlock.
  destruct fuel as [|fuel]; [lia|].
  rewrite run_loop_S, run_bind_bind, run_cas_strong_onDeck.
  unfold afterEnv at 1 2 3. rewrite Ho. cbn [world]. fold w1. rewrite Hd1.
  cbn [Z.eqb fst negb Z.lor].
  rewrite run_bind_bind, run_load_contendersList.
  unfold withWorld, afterEnv. cbn [world oracle trace]. fold w2.
  assert (Hinner : forall (C : Type) (k : Z -> M C) (st : State),
    contendersList_ (mon (world st)) = contendersList_ (mon w2) ->
    bind (loop (S fuel) (fun head =>
          if head =? 0 then break head
          else if negb (Z.land head kLockBit =? 0) then break 0
          else
            n <- next head ;;
            r <- cas_weak_contendersList head n ;;
            if fst r then
              (if ASSERT then setNext head 0 else ret tt) ;;;
              break head
            else continue (snd r)) (contendersList_ (mon w2))) k st = k 0 st).
  { intros C k st _. rewrite run_bind_loop_S.
    destruct Hc2 as [Hz|Hlk].
    - rewrite Hz. cbn [Z.eqb]. rewrite run_break, run_ret. reflexivity.
    - destruct (contendersList_ (mon w2) =? 0) eqn:Hz.
      + apply Z.eqb_eq in Hz. rewrite Hz. rewrite run_break, run_ret. reflexivity.
      + unfold lockBit in Hlk. rewrite Hlk. rewrite run_break, run_ret. reflexivity. }
  rewrite run_bind_bind, Hinner by reflexivity.
  cbn [Z.eqb negb]. rewrite run_bind_bind, run_ret.
  rewrite run_bind_bind, run_store_onDeck.
  unfold withWorld, afterEnv. cbn [world oracle trace Z.eqb negb].
  rewrite run_bind_bind, run_load_contendersList.
  unfold afterEnv. cbn [world oracle trace].
  change (interfere i4 (set_onDeck 0 (interfere i3
            (interfere i2 (set_onDeck (Z.lor 0 kLockBit) w1))))) with w4.
  fold head.
  apply Z.eqb_neq in Hh. rewrite Hh. apply Z.eqb_neq in Hh.
  pose proof Hl as Hl'. unfold lockBit in Hl'. rewrite Hl'. cbn [orb].
  rewrite run_continue.
  exact (finishUnlock_round_pop (S fuel) (mkState w4 [] (trace s)) ltac:(lia) eq_refl
           Hd4 Hh Hl Hsem fuel ltac:(lia)).
Qed.

End Properties.

(** ** Examples for the theorems above *)

Lemma tryLock_behaviour_witness :
  tryLock true Example.T1 (Example.held true Example.T1 3 []) =
    (Done true, Example.held true Example.T1 4 [])
  /\ tryLock true Example.T2 (Example.held true Example.T1 3 []) =
    (Done false, Example.held true Example.T1 3 [])
  /\ tryLock true Example.T1 (Example.fresh false) =
    (Done true, Example.held false Example.T1 1 [])
  /\ tryLock true Example.T1
       (mkState (world (Example.fresh false)) [Example.hiccup; Example.hiccup] []) =
    (Done false, Example.fresh false).
Proof.
  split; [|split; [|split]].
  - refine (proj1 (tryLock_behaviour true Example.T1
                     (Example.held true Example.T1 3 []) _) _ _ _);
      [discriminate|reflexivity..].
  - refine (proj1 (proj2 (tryLock_behaviour true Example.T2
                     (Example.held true Example.T1 3 []) _)) _ _);
      [discriminate|reflexivity|].
    intros [_ H]. discriminate H.
  - refine (proj1 (proj2 (proj2 (tryLock_behaviour true Example.T1
                     (Example.fresh false) _)) _) _);
      [discriminate|reflexivity|]. split; reflexivity.
  - refine (proj2 (proj2 (proj2 (tryLock_behaviour true Example.T1
             (mkState (world (Example.fresh false))
                      [Example.hiccup; Example.hiccup] []) _)) _) _);
      [discriminate|reflexivity|].
    intros [_ H]. discriminate H.
Defined.

Lemma tryLock_false_no_change_witness :
  world (Example.held false Example.T1 1 []) =
  world (Example.held false Example.T1 1 [Example.hiccup]).
Proof.
  apply (tryLock_false_no_change true Example.T2
           (Example.held false Example.T1 1 [Example.hiccup])
           (Example.held false Example.T1 1 [])).
  - reflexivity.
  - repeat constructor.
Defined.

Lemma tryLock_acquire_keeps_chain_witness :
  chain {[ 600 := mkNode 0 202 ]} (Z.land 601 (Z.lnot kLockBit)) [600] 0.
Proof.
  refine (proj2 (proj2 (proj2 (proj2 (proj2 (proj2
    (tryLock_acquire_keeps_chain true Example.T1 (Example.stale [])
       (mkState (mkWorld (mkMonitor 601 0 0 100 1 false) {[ 600 := mkNode 0 202 ]})
                [] []) _ _)))))) [600] 0 _).
  - reflexivity.
  - reflexivity.
  - repeat split; discriminate.
Defined.

Lemma trySpinLock_behaviour_witness :
  exists r s', trySpinLock true Example.T1 (Example.fresh true) = (Done r, s').
Proof.
  destruct (trySpinLock_behaviour true Example.T1 (Example.fresh true))
    as (r & s' & H & _).
  - discriminate.
  - exists r, s'. exact H.
Defined.

(** [trySpinLock] returns [false] after a single round: the owner releases
    the lock while [T1] pauses, the word shows unlocked, and a third party
    takes the lock before the compare-and-swap of [tryLock]. *)
Lemma trySpinLock_gives_up_early :
  trySpinLock true Example.T1
    (Example.held false Example.T2 1
       [Example.quiet; Example.release; Example.quiet; Example.steal Example.T2]) =
  (Done false, mkState (world (Example.held false Example.T2 1 [])) [] [EvSpinPause]).
Proof. vm_compute. reflexivity. Qed.

(** On a monitor that stays locked the loop of [trySpinLock] pauses 51 times
    and yields 4 times, where the other loops of the file pause
    [kMaxReadSpinIter] = 50 times and yield 5 times ([backOff]). *)
Lemma trySpinLock_hints_when_locked :
  trace (snd (trySpinLock true Example.T1 (Example.held false Example.T2 1 []))) =
  repeat EvSpinPause 51 ++ repeat EvYield 4.
Proof. vm_compute. reflexivity. Qed.

Lemma unlock_posts_at_most_once_witness :
  exists s', unlock true 1 Example.T1 (Example.waiting []) = (Done tt, s').
Proof.
  apply (proj2 (unlock_posts_at_most_once true 1 Example.T1 (Example.waiting []))).
  - lia.
  - reflexivity.
  - split; reflexivity.
  - right. discriminate.
Defined.

Lemma notify_behaviour_witness :
  exists s',
    notify true 5 Example.T1
      (Example.waiting
         [Example.quiet; Example.quiet; Example.quiet; contenderPush 800 204]) =
      (Done tt, s') /\
    contendersList_ (mon (world s')) = 701 /\
    waitersList_ (mon (world s')) = 702 /\
    next_ (node_at (world s') 700) = 800 /\
    node_at (world s') 800 = mkNode 600 204.
Proof.
  destruct (notify_behaviour true 5 Example.T1
              (Example.waiting
                 [Example.quiet; Example.quiet; Example.quiet; contenderPush 800 204]))
    as (s' & used & Hrun & _ & Ho & _ & _ & H & _).
  - split; reflexivity.
  - repeat (apply List.Forall_cons;
              [first [apply contenderPush_respectsOwner
                     |intros w Hw; split; [exact Hw|reflexivity]]|]).
    apply List.Forall_nil.
  - repeat (apply List.Forall_cons;
              [first [apply contenderPush_leavesWaiter; discriminate
                     |split; intros; reflexivity]|]).
    apply List.Forall_nil.
  - cbn. lia.
  - assert (Hend : oracle (snd (notify true 5 Example.T1
                (Example.waiting
                   [Example.quiet; Example.quiet; Example.quiet;
                    contenderPush 800 204]))) = [])
      by (vm_compute; reflexivity).
    rewrite Hrun in Hend. cbn [snd] in Hend. rewrite Hend, app_nil_r in Ho.
    cbn [oracle Example.waiting] in Ho. subst used.
    destruct H as (_ & Hw & Hc & Hn & _ & Hp); [discriminate|].
    change (waitersList_ (mon (world (Example.waiting
              [Example.quiet; Example.quiet; Example.quiet; contenderPush 800 204]))))
      with 700 in Hw, Hc, Hn, Hp.
    exists s'. split; [exact Hrun|]. split; [exact Hc|]. split; [exact Hw|].
    split; [rewrite Hn; vm_compute; reflexivity|].
    rewrite (Hp 800) by discriminate. vm_compute. reflexivity.
Defined.

Lemma notifyAll_behaviour_witness :
  exists s',
    notifyAll true 6 Example.T1
      (Example.waiting
         [Example.quiet; Example.quiet; Example.quiet; contenderPush 800 204]) =
      (Done tt, s') /\
    waitersList_ (mon (world s')) = 0 /\
    chain (nodes (world s'))
      (Z.land (contendersList_ (mon (world s'))) (Z.lnot kLockBit)) [702; 700; 800] 600.
Proof.
  destruct (notifyAll_behaviour true 6 Example.T1
              (Example.waiting
                 [Example.quiet; Example.quiet; Example.quiet; contenderPush 800 204])
              [700; 702])
    as (s' & chunks & Hrun & _ & _ & _ & _ & _ & Hw & _).
  - split; reflexivity.
  - repeat (apply List.Forall_cons;
              [first [apply contenderPush_respectsOwner
                     |intros w Hw; split; [exact Hw|reflexivity]]|]).
    apply List.Forall_nil.
  - repeat (apply List.Forall_cons;
              [first [intros a [<-|[<-|[]]]; apply contenderPush_leavesWaiter; discriminate
                     |intros a _; split; intros; reflexivity]|]).
    apply List.Forall_nil.
  - cbn. repeat split; discriminate.
  - cbn. lia.
  - cbn. lia.
  - exists s'. split; [exact Hrun|]. split; [exact Hw|].
    assert (Hend : world (snd (notifyAll true 6 Example.T1
                (Example.waiting
                   [Example.quiet; Example.quiet; Example.quiet;
                    contenderPush 800 204]))) =
              mkWorld (mkMonitor 703 0 0 100 1 false)
                (<[ 702 := mkNode 700 304 ]>
                   (<[ 700 := mkNode 800 300 ]>
                      (<[ 800 := mkNode 600 204 ]>
                         (<[ 600 := mkNode 0 202 ]>
                            (<[ 700 := mkNode 702 300 ]>
                               {[ 702 := mkNode 0 304 ]}))))))
      by (vm_compute; reflexivity).
    rewrite Hrun in Hend. cbn [snd] in Hend. rewrite Hend.
    vm_compute. repeat split; discriminate.
Defined.

Lemma nested_lock_unlock_witness :
  (repeatM 3 (lock true 1 Example.T1 500) ;;; repeatM 2 (unlock true 1 Example.T1))
    (idle 7 ∅ []) = (Done tt, heldAt Example.T1 1 ∅ [])
  /\ (repeatM 3 (lock true 1 Example.T1 500) ;;; repeatM 3 (unlock true 1 Example.T1))
    (idle 7 ∅ []) = (Done tt, idle 0 ∅ []).
Proof.
  destruct (nested_lock_unlock true Example.T1 ltac:(discriminate) ∅ [] 1 500 7 3)
    as [Hk HN]; [lia..|].
  split; [|exact HN]. apply (Hk 2%nat). lia.
Defined.

(** After 2^32 + 1 nested calls of [lock] the 32-bit lock count is 1 again,
    and the very first [unlock] releases the monitor, with 2^32 calls of
    [unlock] still to come. *)
Lemma many_locks_positive : (1 <= Z.to_nat (2 ^ 32 + 1))%nat.
Proof. lia. Qed.

Lemma many_locks_wrap : wrap32 (Z.of_nat (Z.to_nat (2 ^ 32 + 1))) = 1.
Proof. rewrite Z2Nat.id by lia. reflexivity. Qed.

Lemma nested_lock_overflow :
  (repeatM (Z.to_nat (2 ^ 32 + 1)) (lock true 1 Example.T1 500) ;;;
   unlock true 1 Example.T1) (idle 7 ∅ []) =
  (Done tt, idle 0 ∅ []).
Proof.
  refine (eq_trans
            (bind_Done _ _ _ tt _
               (locks_fresh true Example.T1 _ ∅ [] 1 500 7
                  (Z.to_nat (2 ^ 32 + 1)) many_locks_positive)) _).
  { discriminate. }
  refine (eq_trans
            (f_equal (fun c => unlock true 1 Example.T1 (heldAt Example.T1 c ∅ []))
                     many_locks_wrap) _).
  apply unlock_last; first [discriminate | lia].
Qed.

Lemma visits_wellBehaved (n : nat) : Forall (wellBehaved Example.T1) (Example.visits n).
Proof.
  induction n as [|n IH]; [constructor|].
  repeat (constructor; [apply callBy_wellBehaved; discriminate|]). exact IH.
Qed.

Lemma wait_behaviour_witness :
  exists s',
    wait true 100 Example.T1 600
      (Example.held true Example.T1 3 (Example.visits 6)) = (Done tt, s') /\
    owns Example.T1 (world s') /\ lockCount_ (mon (world s')) = 3.
Proof.
  destruct (wait_behaviour true 100 Example.T1 600
              (Example.held true Example.T1 3 (Example.visits 6)) 3)
    as [_ H].
  - split; reflexivity.
  - reflexivity.
  - lia.
  - eapply Forall_impl; [apply visits_wellBehaved|]. intros i Hi. exact (wb_owner _ _ Hi).
  - eexists. split; [vm_compute; reflexivity|].
    apply H. vm_compute. reflexivity.
Defined.

Lemma leave_wellBehaved : wellBehaved Example.T1 (Example.leave Example.T2).
Proof.
  split; unfold Example.leave; cbn [interfere].
  - intros w [Hh Hi].
    destruct (owner_ (mon w) =? self Example.T2); [|exact (conj Hh Hi)].
    split; [exact Hh|]. unfold ownerIffLocked. cbn.
    rewrite lockBit_land_lnot. split; [congruence|discriminate].
  - intros w [Hl Ho]. cbn [interfere]. rewrite Ho. cbn.
    split; [split; assumption|reflexivity].
  - intros w (Hh & Hl & Ho). rewrite Ho. cbn. exact (conj Hh (conj Hl Ho)).
Qed.

(** [T1] takes a fresh recursive monitor twice and calls [wait]; meanwhile
    [T2] takes the monitor, calls [notify] and releases it, which puts
    [T1] on deck; [T1] takes the monitor again and returns from [wait]. *)
Lemma owner_iff_locked_witness :
  ownerIffLocked
    (world (snd (perform true 100 Example.T1 (CallWait 600)
                   (mkState (world (Example.held true Example.T1 2 []))
                      (Example.visits 6) [])))).
Proof.
  apply (owner_iff_locked true).
  apply reachable_call with (fuel := 100%nat) (thread := Example.T1) (c := CallWait 600)
    (w := world (Example.held true Example.T1 2 []))
    (o := Example.visits 6) (tr := []).
  - apply (reachable_call true (world (Example.held true Example.T1 1 [])) Example.T1
             (CallLock 600) 1 [] [] (Example.held true Example.T1 2 [])).
    + apply (reachable_call true (mkWorld (Monitor_new true 7) ∅) Example.T1
               (CallLock 600) 1 [] [] (Example.held true Example.T1 1 [])).
      * apply reachable_new. intros p. reflexivity.
      * split; [discriminate|exact I].
      * constructor.
      * vm_compute. reflexivity.
    + split; [discriminate|exact I].
    + constructor.
    + vm_compute. reflexivity.
  - split; [discriminate|]. split; [split; reflexivity|reflexivity].
  - apply visits_wellBehaved.
  - vm_compute. reflexivity.
Defined.

(** [T2] takes a fresh monitor; [T1] calls [lock], finds the monitor taken,
    and gets it in its spin loop, once [T2] has left. *)
Lemma reachable_contended_lock :
  reachable true
    (world (snd (perform true 1 Example.T1 (CallLock 600)
                   (mkState (world (Example.held false Example.T2 1 []))
                      [Example.quiet; Example.leave Example.T2] [])))).
Proof.
  apply reachable_call with (fuel := 1%nat) (thread := Example.T1) (c := CallLock 600)
    (w := world (Example.held false Example.T2 1 []))
    (o := [Example.quiet; Example.leave Example.T2]) (tr := []).
  - apply (reachable_call true (mkWorld (Monitor_new false 7) ∅) Example.T2
             (CallLock 800) 1 [] [] (Example.held false Example.T2 1 [])).
    + apply reachable_new. intros p. reflexivity.
    + split; [discriminate|exact I].
    + constructor.
    + vm_compute. reflexivity.
  - split; [discriminate|exact I].
  - constructor; [apply idle_wellBehaved|].
    constructor; [apply leave_wellBehaved|constructor].
  - vm_compute. reflexivity.
Qed.

Lemma node_accessors_witness :
  exists s',
    (setNext 600 702 ;;; next 600) (Example.waiting [Example.hiccup]) = (Done 702, s') /\
    item_ (node_at (world s') 600) = 202.
Proof.
  destruct (node_accessors 600 702 (Example.waiting [Example.hiccup]))
    as [(s' & Hrun & Hi & _) _].
  - repeat constructor.
  - exists s'. split; [exact Hrun|]. rewrite Hi. reflexivity.
Defined.

Lemma owner_is_asserted_witness :
  unlock true 1 Example.T2 (Example.held false Example.T1 1 []) =
    (AssertFailed, Example.held false Example.T1 1 []) /\
  notifyAll true 1 Example.T2 (Example.held false Example.T1 1 []) =
    (Done tt, Example.held false Example.T1 1 []).
Proof.
  destruct (owner_is_asserted true 1 Example.T2 600 (Example.held false Example.T1 1 []))
    as (Hu & _ & _ & Hn).
  - reflexivity.
  - intros [_ Ho]. discriminate Ho.
  - split; [exact Hu|]. apply Hn. lia.
Defined.

Lemma null_thread_witness :
  exists s',
    tryLock false (mkThread 0 200 300) (Example.fresh false) = (Done true, s') /\
    lockBit (contendersList_ (mon (world s'))) = true /\
    owner_ (mon (world s')) = 0.
Proof.
  destruct (null_thread false 1 (mkThread 0 200 300) 600 (Example.fresh false) eq_refl)
    as [_ H].
  destruct (H eq_refl eq_refl eq_refl) as (s' & Hrun & Hl & Ho & _).
  exists s'. split; [exact Hrun|]. split; assumption.
Defined.

Lemma unlock_fast_path_witness :
  exists s',
    unlock true 1 Example.T1
      (mkState (mkWorld (mkMonitor 1 202 0 100 1 false) ∅) [] []) = (Done tt, s') /\
    owner_ (mon (world s')) = 0 /\
    onDeck_ (mon (world s')) = 202 /\
    trace s' = [EvPost 202].
Proof.
  destruct (unlock_fast_path true 1 Example.T1
              (mkState (mkWorld (mkMonitor 1 202 0 100 1 false) ∅) [] []))
    as (s' & Hrun & _ & _ & Ho & Hd & _ & _ & _ & Ht).
  - lia.
  - reflexivity.
  - intros _. split; reflexivity.
  - discriminate.
  - left. discriminate.
  - exists s'. split; [exact Hrun|]. split; [exact Ho|]. split; [exact Hd|exact Ht].
Defined.

Lemma unlock_hands_off_witness :
  exists s',
    unlock true 1 Example.T1 (Example.waiting []) = (Done tt, s') /\
    contendersList_ (mon (world s')) = 0 /\
    onDeck_ (mon (world s')) = 202 /\
    node_at (world s') 600 = mkNode 0 202 /\
    trace s' = [EvPost 202].
Proof.
  destruct (unlock_hands_off true 1 Example.T1 (Example.waiting []))
    as (s' & Hrun & Hc & Hd & _ & _ & Hn & _ & Ht).
  - lia.
  - reflexivity.
  - intros _. split; reflexivity.
  - discriminate.
  - reflexivity.
  - discriminate.
  - discriminate.
  - exists s'. split; [exact Hrun|]. split; [exact Hc|]. split; [exact Hd|].
    split; [exact Hn|exact Ht].
Defined.

Lemma finishUnlock_nothing_to_do_witness :
  finishUnlock true 1 (Example.held false Example.T1 1 []) =
    (Done tt, withWorld (set_onDeck 0) (Example.held false Example.T1 1 [])).
Proof.
  refine (proj2 (finishUnlock_nothing_to_do true 1 (Example.held false Example.T1 1 []) _)
            _ _ _).
  - lia.
  - reflexivity.
  - reflexivity.
  - right. reflexivity.
Defined.

Lemma trySpinLock_held_witness :
  trySpinLock true Example.T1 (Example.held false Example.T2 1 [Example.hiccup]) =
    (Done false,
     mkState (world (Example.held false Example.T2 1 [])) []
       (repeat EvSpinPause 51 ++ repeat EvYield 4)).
Proof.
  refine (trySpinLock_held true Example.T1
            (Example.held false Example.T2 1 [Example.hiccup]) _ _ _).
  - discriminate.
  - split; [reflexivity|]. intros [H _]. discriminate H.
  - repeat constructor.
Defined.

Lemma lock_blocks_while_held_witness :
  fst (lock true 70 Example.T1 600 (Example.held false Example.T1 1 [Example.hiccup]))
  <> Done tt.
Proof.
  apply (lock_blocks_while_held true Example.T1).
  - discriminate.
  - split; [reflexivity|]. intros [H _]. discriminate H.
  - constructor; [|constructor]. intros w H. exact H.
Defined.

Lemma lock_parks_witness :
  lock true 56 Example.T1 600 (Example.held true Example.T2 1 []) =
    (OutOfFuel,
     mkState
       (mkWorld (mkMonitor 601 0 0 102 1 true) {[ 600 := mkNode 0 200 ]}) []
       (repeat EvSpinPause 51 ++ repeat EvYield 4 ++ [EvReset 200] ++
        repeat EvSpinPause 50 ++ repeat EvYield 5 ++ [EvWait 200])).
Proof.
  refine (lock_parks true 56 Example.T1 600 (Example.held true Example.T2 1 []) _ _ _ _ _).
  - lia.
  - discriminate.
  - reflexivity.
  - split; [reflexivity|]. intros [_ H]. discriminate H.
  - discriminate.
Defined.

Lemma wait_parks_witness :
  wait true 56 Example.T1 600 (Example.held true Example.T1 3 []) =
    (OutOfFuel,
     mkState
       (mkWorld (mkMonitor 0 0 600 0 0 true) {[ 600 := mkNode 0 300 ]}) []
       ([EvReset 300] ++ repeat EvSpinPause 50 ++ repeat EvYield 5 ++
        [EvTimedWait 300 10])).
Proof.
  refine (proj1 (wait_parks true 56 Example.T1 600 (Example.held true Example.T1 3 [])
                   _ _ _ _ _ _)).
  - lia.
  - reflexivity.
  - split; reflexivity.
  - reflexivity.
  - reflexivity.
  - discriminate.
Defined.

Lemma lock_returns_owner_witness :
  exists s',
    (lock true 10 Example.T1 600 ;;; l <- isLocked ;; o <- owner ;; ret (l, o))
      (Example.held false Example.T2 1 [Example.quiet; Example.leave Example.T2]) =
      (Done (true, 100), s') /\
    owns Example.T1 (world s').
Proof.
  eexists. split; [vm_compute; reflexivity|].
  refine (proj2 (post_Done _ _ _ _
            (lock_returns_owner true Example.T1 10 600
               (Example.held false Example.T2 1 [Example.quiet; Example.leave Example.T2])
               _) _)).
  - constructor; [apply wb_owner, idle_wellBehaved|].
    constructor; [apply wb_owner, leave_wellBehaved|constructor].
  - vm_compute. reflexivity.
Defined.

Lemma ScopedLock_scope_witness :
  exists s1 s2,
    ScopedLock_ref true 1 Example.T1 600 (Example.fresh false) =
      (Done (mkScopedLock ThisMonitor), s1) /\
    owns Example.T1 (world s1) /\
    ScopedLock_delete true 1 Example.T1 (mkScopedLock ThisMonitor) s1 = (Done tt, s2) /\
    world s2 = mkWorld (mkMonitor 0 0 0 0 1 false) ∅.
Proof.
  destruct (ScopedLock_scope true 1 Example.T1 600 (Example.fresh false))
    as [(s1 & s2 & Hnew & Hown & _ & Hdel & Hw & _) _].
  - lia.
  - discriminate.
  - reflexivity.
  - reflexivity.
  - reflexivity.
  - exists s1, s2. split; [exact Hnew|]. split; [exact Hown|]. split; [exact Hdel|].
    exact Hw.
Defined.

Lemma ScopedLock_nested_witness :
  exists s1,
    ScopedLock_ref true 1 Example.T1 600 (Example.held true Example.T1 4294967295 []) =
      (Done (mkScopedLock ThisMonitor), s1) /\
    lockCount_ (mon (world s1)) = 0 /\
    ScopedLock_delete true 1 Example.T1 (mkScopedLock ThisMonitor) s1 =
      (Done tt, Example.held true Example.T1 4294967295 []).
Proof.
  destruct (ScopedLock_nested true 1 Example.T1 600
              (Example.held true Example.T1 4294967295 []))
    as (s1 & Hnew & _ & Hc & Hdel).
  - lia.
  - discriminate.
  - reflexivity.
  - split; reflexivity.
  - reflexivity.
  - cbn. lia.
  - exists s1. split; [exact Hnew|]. split; [exact Hc|exact Hdel].
Defined.

Lemma lock_free_acquires_witness :
  exists s',
    lock true 7 Example.T1 600
      (mkState (world (Example.fresh true)) (repeat Example.hiccup 6) []) = (Done tt, s') /\
    owns Example.T1 (world s') /\
    lockCount_ (mon (world s')) = 1.
Proof.
  destruct (lock_free_acquires true 7 Example.T1 600
              (mkState (world (Example.fresh true)) (repeat Example.hiccup 6) []))
    as (s' & Hrun & Hown & Hc & _).
  - discriminate.
  - reflexivity.
  - repeat constructor.
  - cbn. lia.
  - exists s'. split; [exact Hrun|]. split; [exact Hown|exact Hc].
Defined.


Lemma calls_respect_the_owner_witness :
  owns Example.T1
    (interfere (callBy true Example.T2 (CallLock 800) 60 [])
       (world (Example.held true Example.T1 2 []))) /\
  lockCount_
    (mon (interfere (callBy true Example.T2 (CallLock 800) 60 [])
            (world (Example.held true Example.T1 2 [])))) = 2.
Proof.
  refine (proj1 (proj2 (calls_respect_the_owner true Example.T1 Example.T2 (CallLock 800)
                          60 [] (world (Example.held true Example.T1 2 [])) _ _)) _).
  - discriminate.
  - discriminate.
  - split; reflexivity.
Defined.

Lemma lock_hand_over_witness :
  exists s',
    lock true 110 Example.T1 600
      (mkState (world (Example.held false Example.T2 1 []))
         (unlocksAfter true Example.T2 110 100) []) = (Done tt, s') /\
    mon (world s') = mkMonitor 1 0 0 100 1 false /\
    forallb (hintEvent Example.T1) (trace s') = true.
Proof.
  destruct (lock_hand_over true Example.T1 Example.T2 600 110
              ltac:(discriminate) ltac:(discriminate) ltac:(discriminate)
              ltac:(discriminate) eq_refl ltac:(discriminate) eq_refl ltac:(lia)
              0 1 false ltac:(discriminate) ∅ 100 [] ltac:(lia) ltac:(lia))
    as (s' & log & Hrun & (_ & Hm & _) & Ht & Hlog).
  exists s'. split; [exact Hrun|]. split; [exact Hm|]. rewrite Ht. exact Hlog.
Defined.

Lemma notify_then_unlock_wakes_witness :
  exists s',
    (notify true 1 Example.T1 ;;; unlock true 1 Example.T1) (Example.waiting []) =
      (Done tt, s') /\
    onDeck_ (mon (world s')) = 300 /\
    contendersList_ (mon (world s')) = 600 /\
    waitersList_ (mon (world s')) = 702 /\
    trace s' = [EvPost 300].
Proof.
  destruct (notify_then_unlock_wakes true 1 Example.T1 (Example.waiting []))
    as (s' & Hrun & Hd & Hc & Hw & _ & _ & _ & Ht).
  - lia.
  - reflexivity.
  - split; reflexivity.
  - reflexivity.
  - discriminate.
  - reflexivity.
  - discriminate.
  - discriminate.
  - exists s'. split; [exact Hrun|]. split; [exact Hd|]. split; [exact Hc|].
    split; [exact Hw|exact Ht].
Defined.

Lemma wait_resume_wakes_witness :
  exists t',
    wait_resume true 70 Example.T1 3
      (mkState (mkWorld (mkMonitor 0 0 600 0 0 true) {[ 600 := mkNode 0 300 ]})
         (notifiesAfter true Example.T2 800 70 60) []) =
    (Done tt,
     mkState (mkWorld (mkMonitor 1 0 0 100 3 true) {[ 600 := mkNode 0 300 ]}) [] t').
Proof.
  assert (Hn : ({[ 600 := mkNode 0 300 ]} : gmap Z LinkedNode) !!! 600 =
               mkNode 0 (suspendSemaphore Example.T1)) by (vm_compute; reflexivity).
  destruct (wait_resume_wakes true Example.T1 Example.T2 600 800 70
              ltac:(discriminate) ltac:(discriminate) ltac:(discriminate) eq_refl
              ltac:(discriminate) eq_refl ltac:(lia) 0 true 3 0
              {[ 600 := mkNode 0 300 ]} 60 [] Hn ltac:(lia)) as [t' Hrun].
  exists t'. rewrite Hrun. reflexivity.
Defined.

Lemma notifyAll_then_unlock_wakes_oldest_witness :
  exists s',
    (notifyAll true 3 Example.T1 ;;; unlock true 3 Example.T1) (Example.waiting []) =
      (Done tt, s') /\
    onDeck_ (mon (world s')) = 304 /\
    trace s' = [EvPost 304] /\
    waitersList_ (mon (world s')) = 0 /\
    chain (nodes (world s')) (contendersList_ (mon (world s'))) [700] 600.
Proof.
  destruct (notifyAll_then_unlock_wakes_oldest true 3 Example.T1 (Example.waiting [])
              [700] 702)
    as (s' & Hrun & Hd & Ht & Hw & _ & Hc).
  - reflexivity.
  - split; reflexivity.
  - cbn. repeat split; discriminate.
  - repeat constructor.
  - cbn. lia.
  - reflexivity.
  - discriminate.
  - discriminate.
  - exists s'. split; [exact Hrun|]. split; [exact Hd|]. split; [exact Ht|].
    split; [exact Hw|exact Hc].
Defined.

Lemma finishUnlock_second_round_witness :
  finishUnlock true 2
    (mkState (mkWorld (mkMonitor 0 0 0 0 0 false) {[ 600 := mkNode 0 202 ]})
       [Example.quiet; Example.quiet; mkInterference (set_contendersList 600) false;
        Example.quiet] []) =
  (Done tt,
   mkState (mkWorld (mkMonitor 0 202 0 0 0 false)
              (<[ 600 := mkNode 0 202 ]> {[ 600 := mkNode 0 202 ]}))
     [] [EvPost 202]).
Proof.
  assert (Hn : ({[ 600 := mkNode 0 202 ]} : gmap Z LinkedNode) !!! 600 = mkNode 0 202)
    by (vm_compute; reflexivity).
  rewrite (finishUnlock_second_round true 2 _ Example.quiet Example.quiet
             (mkInterference (set_contendersList 600) false) Example.quiet).
  - cbn. unfold node_at. cbn. rewrite Hn. reflexivity.
  - lia.
  - reflexivity.
  - reflexivity.
  - left. reflexivity.
  - reflexivity.
  - discriminate.
  - reflexivity.
  - cbn. unfold node_at. cbn. rewrite Hn. discriminate.
Defined.

